(** * FootprintMRC: footprint-based miss-ratio curves and slab reallocation

    A shallow embedding of [FootprintMRC] (cachelib/allocator, the LAMA
    profiler): the access ring ([feed]), the window statistics
    ([calculateWindowStats]), the footprint ([calculateFpValues]), the
    per-class miss-ratio curve ([queryMrc]) and the dynamic program of
    [solveSlabReallocation].

    Conventions of the embedding.
    - [size_t] values are [nat].  Indices and counters are bounded by the
      sizes of the containers they index, so they never leave the 64-bit
      range; the two computations that can leave it on in-range inputs (the
      slab budget and [slabCount * allocsPerSlab]) are written with
      [wrap64].
    - [double] values are exact rationals [Q]; rounding is not modelled.
      The only infinite value of the source, the initial content of the
      table [F], is the constructor [Inf] of [cost].
    - [std::map] and [std::unordered_map] are [gmap]; [std::set] is [gset].
      Where the source iterates an ordered container the entries are listed
      in ascending key order ([map_items], [sorted_elements]); sums over an
      unordered container are taken in the order of [map_to_list].
    - Operations that can fail return [option]: [None] is a throwing
      [.at()], or a write through [operator[]] at an index that the source
      does not check ([vector_set], [vector_incr]), which is undefined
      behaviour there.  Writes that the source guards by a comparison with
      the size are list inserts, and reads use the total lookup [!!!].
    - The scratch buffer [bufferSnapshot] of [calculateWindowStats] is the
      list returned by [snapshot_entries].  The value [prefixSums] computed
      by [queryMrc] is never read and is left out. *)

From Stdlib Require Import QArith Qminmax Lqa ZArith Lia.
From stdpp Require Import gmap list sorting strings.

Local Open Scope nat_scope.

Abbreviation ClassId := Z (only parsing).
Abbreviation KeyInt := N (only parsing).
Abbreviation Key := string (only parsing).

(** ** Machine integers *)

(** [size_t] arithmetic that can overflow: the value modulo [2^64]. *)
Definition wrap64 (x : nat) : nat := N.to_nat (N.of_nat x mod 2 ^ 64)%N.

(** [x] is representable as a [size_t]. *)
Definition fits64 (x : nat) : Prop := (N.of_nat x < 2 ^ 64)%N.

(** ** The access ring *)

Record FootprintMRC := mkFootprintMRC {
  circularBuffer : list (KeyInt * ClassId);
  circularBufferMaxLen : nat;
  currentBufferSize : nat;
  bufferHeadIndex : nat
}.

Inductive exception :=
| invalid_argument (what : string).

(** The constructor [FootprintMRC(size_t k)]: [resize(k)] value-initialises
    the [k] slots. *)
Definition FootprintMRC_new (k : nat) : exception + FootprintMRC :=
  if k <? 1 then
    inl (invalid_argument "Circular buffer size 'k' must be at least 1.")
  else
    inr {| circularBuffer := replicate k (0%N, 0%Z);
           circularBufferMaxLen := k;
           currentBufferSize := 0;
           bufferHeadIndex := 0 |}.

(** [v[i] = x] on a vector. *)
Definition vector_set {A} (v : list A) (i : nat) (x : A) : option (list A) :=
  if i <? length v then Some (<[i := x]> v) else None.

Section Feed.

(** The conversion of a key to its 64-bit token: [std::stoull], and
    [std::hash<std::string>] when that throws.  Both are library
    functions; the exception is caught inside [feed]. *)
Variable toKeyInt : Key → KeyInt.

Definition feed (key : Key) (classId : ClassId) (st : FootprintMRC)
  : option FootprintMRC :=
  if bool_decide (circularBuffer st = []) || (circularBufferMaxLen st =? 0)
  then Some st
  else
    let keyInt := toKeyInt key in
    let currentHead :=
      if circularBufferMaxLen st <=? bufferHeadIndex st then 0
      else bufferHeadIndex st in
    buf ← vector_set (circularBuffer st) currentHead (keyInt, classId);
    Some {| circularBuffer := buf;
            circularBufferMaxLen := circularBufferMaxLen st;
            currentBufferSize :=
              if currentBufferSize st <? circularBufferMaxLen st
              then S (currentBufferSize st) else currentBufferSize st;
            bufferHeadIndex := (currentHead + 1) mod circularBufferMaxLen st |}.

(** A sequence of [feed] calls, oldest first. *)
Fixpoint feed_all (calls : list (Key * ClassId)) (st : FootprintMRC)
  : option FootprintMRC :=
  match calls with
  | [] => Some st
  | (key, classId) :: rest => st' ← feed key classId st; feed_all rest st'
  end.

End Feed.

(** [resetWindowAnalysis]. *)
Definition resetWindowAnalysis (st : FootprintMRC) : FootprintMRC :=
  {| circularBuffer := circularBuffer st;
     circularBufferMaxLen := circularBufferMaxLen st;
     currentBufferSize := 0;
     bufferHeadIndex := 0 |}.

(** The representation invariant of a ring of capacity [K]. *)
Definition ring_ok (K : nat) (st : FootprintMRC) : Prop :=
  length (circularBuffer st) = K
  ∧ circularBufferMaxLen st = K
  ∧ bufferHeadIndex st < K
  ∧ currentBufferSize st ≤ K.

(** ** Miss-ratio lookup *)

(** [m.rbegin()->first] of a non-empty [std::map<size_t, _>]. *)
Definition rbegin_key {A} (m : gmap nat A) : nat := max_list (elements (dom m)).

Definition _getMissRatio (mrcPointsDict : gmap nat Q) (slabCount : nat) : Q :=
  if slabCount =? 0 then 1%Q
  else
    match mrcPointsDict !! slabCount with
    | Some v => v
    | None =>
        let maxProfiledSlabCount :=
          if decide (mrcPointsDict = ∅) then 0 else rbegin_key mrcPointsDict in
        if maxProfiledSlabCount <? slabCount then
          match mrcPointsDict !! maxProfiledSlabCount with
          | Some v => v
          | None => 0%Q
          end
        else 1%Q
    end.

(** ** Numbers *)

(** [static_cast<double>(x)] for a [size_t] [x]. *)
Definition to_double (x : nat) : Q := inject_Z (Z.of_nat x).

Definition Qlt_bool (x y : Q) : bool := negb (Qle_bool y x).

(** [std::numeric_limits<double>::max()]. *)
Definition DBL_MAX : Q := inject_Z (2 ^ 1024 - 2 ^ 971).

(** A [double] that may be [+infinity]. *)
Inductive cost :=
| Finite (q : Q)
| Inf.

Definition cost_lt (a b : cost) : bool :=
  match a, b with
  | Finite x, Finite y => Qlt_bool x y
  | Finite _, Inf => true
  | Inf, _ => false
  end.

#[global] Instance Q_inhabited : Inhabited Q := populate 0%Q.
#[global] Instance cost_inhabited : Inhabited cost := populate Inf.

(** ** Ordered iteration *)

(** The entries of a [std::map], in ascending key order. *)
Definition key_le {A} (x y : Z * A) : Prop := (x.1 ≤ y.1)%Z.

#[global] Instance key_le_dec {A} (x y : Z * A) : Decision (key_le x y) :=
  Z_le_dec x.1 y.1.

Definition map_items {A} (m : gmap Z A) : list (Z * A) :=
  merge_sort key_le (map_to_list m).

(** The elements of a [std::set], in ascending order. *)
Definition sorted_elements (s : gset Z) : list Z :=
  merge_sort Z.le (elements s).

(** [std::sort(first, last, comp)].  The library fixes the result only up
    to the order of equivalent elements; a merge sort stands for it, and
    the properties below use nothing but that the result is a permutation
    ordered by [comp]. *)
Definition not_after {A} (comp : A → A → bool) (a b : A) : Prop :=
  comp b a = false.

#[global] Instance not_after_dec {A} (comp : A → A → bool) (a b : A)
  : Decision (not_after comp a b) := bool_eq_dec (comp b a) false.

Definition std_sort {A} (comp : A → A → bool) (l : list A) : list A :=
  merge_sort (not_after comp) l.

(** ** Window statistics *)

(** The records read by the passes of [calculateWindowStats]: the loop
    over [i < snapshotSize] with its defensive [break]. *)
Fixpoint visit (bufferSnapshot : list (KeyInt * ClassId))
    (snapshotMaxLen startIndex : nat) (indices : list nat)
  : list (KeyInt * ClassId) :=
  match indices with
  | [] => []
  | i :: rest =>
      let currentCircularIndex := (startIndex + i) mod snapshotMaxLen in
      if (snapshotMaxLen <=? currentCircularIndex)
         || (length bufferSnapshot <=? currentCircularIndex)
      then []
      else
        match bufferSnapshot !! currentCircularIndex with
        | Some entry => entry :: visit bufferSnapshot snapshotMaxLen startIndex rest
        | None => []
        end
  end.

Record WindowStats := mkWindowStats {
  firstAccessTimesByClass : gmap Z (list nat);
  lastAccessTimesByClass : gmap Z (list nat);
  reuseTimeHistogramByClass : gmap Z (list nat);
  nByClass : gmap Z nat;
  mByClass : gmap Z nat
}.

Definition empty_stats : WindowStats :=
  {| firstAccessTimesByClass := ∅;
     lastAccessTimesByClass := ∅;
     reuseTimeHistogramByClass := ∅;
     nByClass := ∅;
     mByClass := ∅ |}.

(** Pass 1: [nByClass[classId]++] and
    [uniqueKeysPerClass[classId].insert(keyInt)]. *)
Definition pass1_step (acc : gmap Z nat * gmap Z (gset N)) (entry : KeyInt * ClassId)
  : gmap Z nat * gmap Z (gset N) :=
  let '(keyInt, classId) := entry in
  (<[classId := S (default 0 (acc.1 !! classId))]> acc.1,
   <[classId := {[keyInt]} ∪ default ∅ (acc.2 !! classId)]> acc.2).

Definition pass1 (entries : list (KeyInt * ClassId)) : gmap Z nat * gmap Z (gset N) :=
  foldl pass1_step (∅, ∅) entries.

(** The state of pass 2. *)
Record Pass2 := mkPass2 {
  currentAccessIndex : gmap Z nat;
  keyToFirstAccess : gmap Z (gmap N nat);
  keyToLastAccess : gmap Z (gmap N nat);
  reuseHistograms : gmap Z (list nat)
}.

(** [m.emplace(k, v)]: insert unless [k] is present. *)
Definition emplace (k : N) (v : nat) (m : gmap N nat) : gmap N nat :=
  match m !! k with
  | Some _ => m
  | None => <[k := v]> m
  end.

(** [v[i]++] on a vector, without bounds check. *)
Definition vector_incr (v : list nat) (i : nat) : option (list nat) :=
  if i <? length v then Some (alter S i v) else None.

Definition pass2_step (s : Pass2) (entry : KeyInt * ClassId) : option Pass2 :=
  let '(keyInt, classId) := entry in
  let local_idx_for_current_access := default 0 (currentAccessIndex s !! classId) in
  let firstAccessForClass := default ∅ (keyToFirstAccess s !! classId) in
  let lastAccessForClass := default ∅ (keyToLastAccess s !! classId) in
  let reuseHistogramForClass := default [] (reuseHistograms s !! classId) in
  hist ← match lastAccessForClass !! keyInt with
         | None => Some reuseHistogramForClass
         | Some prevAccessIndex =>
             let reuseTime := local_idx_for_current_access - prevAccessIndex in
             vector_incr reuseHistogramForClass reuseTime
         end;
  Some {| currentAccessIndex :=
            <[classId := S local_idx_for_current_access]> (currentAccessIndex s);
          keyToFirstAccess :=
            <[classId := emplace keyInt local_idx_for_current_access firstAccessForClass]>
              (keyToFirstAccess s);
          keyToLastAccess :=
            <[classId := <[keyInt := local_idx_for_current_access]> lastAccessForClass]>
              (keyToLastAccess s);
          reuseHistograms := <[classId := hist]> (reuseHistograms s) |}.

Fixpoint pass2 (entries : list (KeyInt * ClassId)) (s : Pass2) : option Pass2 :=
  match entries with
  | [] => Some s
  | entry :: rest => s' ← pass2_step s entry; pass2 rest s'
  end.

(** The counting arrays of the counting sort: one increment per key whose
    value passes the range test. *)
Definition count_first (n : nat) (keyToFirstForClass : gmap N nat) : list nat :=
  foldl (λ firstAccessCount kv,
           let firstAccess1Indexed := kv.2 + 1 in
           if firstAccess1Indexed <=? n + 1
           then alter S firstAccess1Indexed firstAccessCount
           else firstAccessCount)
        (replicate (n + 2) 0) (map_to_list keyToFirstForClass).

(** [n - lastAccessTime] wraps around when [lastAccessTime > n], and the
    range test then fails. *)
Definition count_last (n : nat) (keyToLastForClass : gmap N nat) : list nat :=
  foldl (λ lastAccessCount kv,
           let reverseLastAccess := n - kv.2 in
           if (kv.2 <=? n) && (reverseLastAccess <=? n)
           then alter S reverseLastAccess lastAccessCount
           else lastAccessCount)
        (replicate (n + 2) 0) (map_to_list keyToLastForClass).

(** A counting array written out as a sorted vector, for the values
    [from .. from + len - 1]. *)
Definition expand_counts (counts : list nat) (from len : nat) : list nat :=
  flat_map (λ t, replicate (counts !!! t) t) (seq from len).

Definition sorted_first_access (n : nat) (keyToFirstForClass : gmap N nat) : list nat :=
  expand_counts (count_first n keyToFirstForClass) 1 (n + 1).

Definition sorted_last_access (n : nat) (keyToLastForClass : gmap N nat) : list nat :=
  expand_counts (count_last n keyToLastForClass) 0 (n + 1).

(** The passes over the visited records. *)
Definition window_stats (entries : list (KeyInt * ClassId)) : option WindowStats :=
  let '(nByClass, uniqueKeysPerClass) := pass1 entries in
  let mByClass := size <$> uniqueKeysPerClass in
  p2 ← pass2 entries
         {| currentAccessIndex := ∅;
            keyToFirstAccess := ∅;
            keyToLastAccess := ∅;
            reuseHistograms := (λ n, replicate n 0) <$> nByClass |};
  Some {| firstAccessTimesByClass :=
            map_imap (λ classId n,
                        Some (sorted_first_access n
                                (default ∅ (keyToFirstAccess p2 !! classId))))
                     nByClass;
          lastAccessTimesByClass :=
            map_imap (λ classId n,
                        Some (sorted_last_access n
                                (default ∅ (keyToLastAccess p2 !! classId))))
                     nByClass;
          reuseTimeHistogramByClass := reuseHistograms p2;
          nByClass := nByClass;
          mByClass := mByClass |}.

(** The records of the current window, oldest first. *)
Definition snapshot_entries (st : FootprintMRC) : list (KeyInt * ClassId) :=
  let snapshotSize := currentBufferSize st in
  let snapshotHeadIndex := bufferHeadIndex st in
  let snapshotMaxLen := circularBufferMaxLen st in
  let bufferSnapshot :=
    if (0 <? snapshotSize) && negb (bool_decide (circularBuffer st = []))
    then circularBuffer st else [] in
  if (snapshotSize =? 0) || bool_decide (bufferSnapshot = []) then []
  else
    let snapshotSize :=
      if snapshotMaxLen <? snapshotSize then snapshotMaxLen else snapshotSize in
    let snapshotHeadIndex :=
      if snapshotMaxLen <=? snapshotHeadIndex then 0 else snapshotHeadIndex in
    let startIndex :=
      if snapshotSize <? snapshotMaxLen then 0 else snapshotHeadIndex in
    visit bufferSnapshot snapshotMaxLen startIndex (seq 0 snapshotSize).

(** [calculateWindowStats]; its early exit returns the empty maps, which is
    also what the passes give on no record. *)
Definition calculateWindowStats (st : FootprintMRC) : option WindowStats :=
  if (currentBufferSize st =? 0) || bool_decide (circularBuffer st = [])
  then Some empty_stats
  else window_stats (snapshot_entries st).

(** ** Footprint *)

(** The first loop of [calculateFpValues]: the entries [t * R[t]] and
    [R[t]] for the reuse times [1 .. maxT].  One iteration, then the
    loop; [entry reuseTime dCount] is the value stored, which is
    [reuseTime * dCount] for [sumTrSuffix] and [dCount] for [sumRSuffix]. *)
Definition fill_suffix_step (hist : list nat) (maxT : nat) (entry : nat → Q → Q)
    (arr : list Q) (reuseTime : nat) : list Q :=
  let count := hist !!! reuseTime in
  if (0 <? count) && (0 <? reuseTime) && (reuseTime <=? maxT)
     && (reuseTime <? length arr)
  then
    let dCount := to_double count in
    <[reuseTime := entry reuseTime dCount]> arr
  else arr.

Definition fill_suffix (hist : list nat) (maxT : nat) (entry : nat → Q → Q)
    (init : list Q) : list Q :=
  foldl (fill_suffix_step hist maxT entry) init (seq 0 (length hist)).

(** The second loop: [arr[t] += arr[t+1]] for [t = maxT] down to [1].  The
    source updates [sumTrSuffix] and [sumRSuffix] in lockstep and tests the
    size of the first; the two have the same size. *)
Fixpoint suffix_accumulate (t : nat) (arr : list Q) : list Q :=
  match t with
  | 0 => arr
  | S t' =>
      if (t <? length arr) && (t + 1 <? length arr)
      then suffix_accumulate t' (<[t := (arr !!! t + arr !!! S t)%Q]> arr)
      else arr
  end.

(** The inner [while] loops: skip the values [≤ w].  The pointer [fPtr] is
    the length of what has been skipped; the argument is the rest of the
    vector. *)
Fixpoint advance (w : nat) (rest : list nat) (currentSum : Q) (currentCount : nat)
  : list nat * Q * nat :=
  match rest with
  | [] => ([], currentSum, currentCount)
  | x :: rest' =>
      if x <=? w
      then advance w rest' (currentSum - to_double x)%Q (currentCount - 1)
      else (rest, currentSum, currentCount)
  end.

(** The main loop over [w]. *)
Fixpoint fp_loop (n : nat) (staticM : Q) (sumTrSuffix sumRSuffix : list Q)
    (ws : list nat)
    (fRest : list nat) (currentFSum : Q) (currentFCount : nat)
    (lRest : list nat) (currentLSum : Q) (currentLCount : nat) : list Q :=
  match ws with
  | [] => []
  | w :: ws' =>
      let '(fRest, currentFSum, currentFCount) :=
        advance w fRest currentFSum currentFCount in
      let fW := (currentFSum - to_double w * to_double currentFCount)%Q in
      let '(lRest, currentLSum, currentLCount) :=
        advance w lRest currentLSum currentLCount in
      let lW := (currentLSum - to_double w * to_double currentLCount)%Q in
      let maxT := n - 1 in
      let rW :=
        if (w + 1 <=? maxT) && (w + 1 <? length sumTrSuffix)
        then (sumTrSuffix !!! S w - to_double w * sumRSuffix !!! S w)%Q
        else 0%Q in
      let denominator := n - w + 1 in
      let fpValue :=
        if denominator =? 0 then staticM
        else (staticM - (fW + lW + rW) / to_double denominator)%Q in
      fpValue :: fp_loop n staticM sumTrSuffix sumRSuffix ws'
                   fRest currentFSum currentFCount lRest currentLSum currentLCount
  end.

(** [std::accumulate(v.begin(), v.end(), 0.0)]. *)
Definition accumulate (v : list nat) : Q :=
  foldl (λ acc x, (acc + to_double x)%Q) 0%Q v.

Definition calculateFpValues
    (sortedFirstAccessTimesForClass sortedLastAccessTimesForClass
       reuseTimeHistogramWindowForClass : list nat)
    (nWindowForClass mWindowForClass : nat) : list Q :=
  let n := nWindowForClass in
  let m := mWindowForClass in
  if n =? 0 then []
  else
    let staticM := to_double m in
    let maxT := n - 1 in
    let sumTrSuffix :=
      suffix_accumulate maxT
        (fill_suffix reuseTimeHistogramWindowForClass maxT
           (λ reuseTime dCount, (to_double reuseTime * dCount)%Q)
           (replicate (maxT + 2) 0%Q)) in
    let sumRSuffix :=
      suffix_accumulate maxT
        (fill_suffix reuseTimeHistogramWindowForClass maxT
           (λ _ dCount, dCount)
           (replicate (maxT + 2) 0%Q)) in
    0%Q :: fp_loop n staticM sumTrSuffix sumRSuffix (seq 1 n)
             sortedFirstAccessTimesForClass
             (accumulate sortedFirstAccessTimesForClass)
             (length sortedFirstAccessTimesForClass)
             sortedLastAccessTimesForClass
             (accumulate sortedLastAccessTimesForClass)
             (length sortedLastAccessTimesForClass).

(** ** Per-class miss-ratio curves *)

(** The hit count of [queryMrc] at one cache size: the reuses at a time
    [t] with [fp(t) < cacheSize].  One iteration of the loop over the reuse
    times, then the loop. *)
Definition count_hits_step (reuseTimeHistogram : list nat) (fpValues : list Q)
    (cacheSize : nat) (hitCount reuseTime : nat) : nat :=
  if 0 <? reuseTimeHistogram !!! reuseTime then
    let fpAtReuseTime :=
      if (0 <? reuseTime) && (reuseTime <? length fpValues)
      then fpValues !!! reuseTime else 0%Q in
    if Qlt_bool fpAtReuseTime (to_double cacheSize)
    then hitCount + reuseTimeHistogram !!! reuseTime
    else hitCount
  else hitCount.

Definition count_hits (reuseTimeHistogram : list nat) (fpValues : list Q)
    (cacheSize : nat) : nat :=
  foldl (count_hits_step reuseTimeHistogram fpValues cacheSize)
        0 (seq 0 (length reuseTimeHistogram)).

Definition miss_ratio_at (reuseTimeHistogram : list nat) (fpValues : list Q)
    (totalAccesses allocsPerSlab slabCount : nat) : Q :=
  let cacheSize := wrap64 (slabCount * allocsPerSlab) in
  if (0 <? totalAccesses) && (0 <? cacheSize) then
    let hitCount := count_hits reuseTimeHistogram fpValues cacheSize in
    let hitRatio := (to_double hitCount / to_double totalAccesses)%Q in
    let missRatio := (1 - hitRatio)%Q in
    Qmax 0 (Qmin 1 missRatio)
  else 1%Q.

(** The loop over [slabCount = 0 .. maxSlabCount], carrying [mrcPoints],
    [mrcDelta] and [prevMissRatio]: one iteration, then the loop. *)
Definition mrc_curve_step (reuseTimeHistogram : list nat) (fpValues : list Q)
    (totalAccesses allocsPerSlab : nat)
    (state : gmap nat Q * gmap nat Q * Q) (slabCount : nat)
  : gmap nat Q * gmap nat Q * Q :=
  let '(mrcPoints, mrcDelta, prevMissRatio) := state in
  let missRatio :=
    miss_ratio_at reuseTimeHistogram fpValues totalAccesses allocsPerSlab
      slabCount in
  (<[slabCount := missRatio]> mrcPoints,
   if 0 <? slabCount
   then <[slabCount := (prevMissRatio - missRatio)%Q]> mrcDelta
   else mrcDelta,
   missRatio).

Definition mrc_curve (reuseTimeHistogram : list nat) (fpValues : list Q)
    (totalAccesses allocsPerSlab maxSlabCount : nat)
  : gmap nat Q * gmap nat Q * Q :=
  foldl (mrc_curve_step reuseTimeHistogram fpValues totalAccesses allocsPerSlab)
        (∅, ∅, 1%Q) (seq 0 (S maxSlabCount)).

(** The body of the loop of [queryMrc] for one class of the input map;
    [None] is the [std::out_of_range] of a failing [.at()]. *)
Definition mrc_of_class (stats : WindowStats) (classId : ClassId)
    (allocsPerSlab maxSlabCount : nat) : option (gmap nat Q * gmap nat Q * nat) :=
  sortedFirst ← firstAccessTimesByClass stats !! classId;
  sortedLast ← lastAccessTimesByClass stats !! classId;
  reuseTimeHistogram ← reuseTimeHistogramByClass stats !! classId;
  n ← nByClass stats !! classId;
  m ← mByClass stats !! classId;
  let fpValues := calculateFpValues sortedFirst sortedLast reuseTimeHistogram n m in
  let '(mrcPoints, mrcDelta, _) :=
    mrc_curve reuseTimeHistogram fpValues n allocsPerSlab maxSlabCount in
  Some (mrcPoints, mrcDelta, n).

Definition queryMrc_step (stats : WindowStats) (maxSlabCount : nat)
    (result : option (gmap Z (gmap nat Q * gmap nat Q * nat)))
    (entry : ClassId * nat)
  : option (gmap Z (gmap nat Q * gmap nat Q * nat)) :=
  let '(classId, allocsPerSlab) := entry in
  result ← result;
  if allocsPerSlab =? 0 then Some result
  else
    match firstAccessTimesByClass stats !! classId with
    | None => Some result
    | Some _ =>
        data ← mrc_of_class stats classId allocsPerSlab maxSlabCount;
        Some (<[classId := data]> result)
    end.

Definition queryMrc (st : FootprintMRC) (classIdToAllocsPerSlabMap : gmap Z nat)
    (maxSlabCount : nat) : option (gmap Z (gmap nat Q * gmap nat Q * nat)) :=
  if currentBufferSize st =? 0 then Some ∅
  else
    stats ← calculateWindowStats st;
    foldl (queryMrc_step stats maxSlabCount) (Some ∅)
      (map_items classIdToAllocsPerSlabMap).

(** ** The allocation solver *)

(** One iteration of the loop over [k], for fixed [i] and [j]: [prevRow]
    is [F[i-1]], [costRow] is [costTable[i-1]], and the state is the pair
    of [F[i][j]] and [B[i][j]]. *)
Definition dp_cell_step (prevRow : list cost) (costRow : list Q) (j : nat)
    (cell : cost * nat) (k : nat) : cost * nat :=
  let '(Fij, Bij) := cell in
  match prevRow !!! (j - k) with
  | Inf => (Fij, Bij)
  | Finite prevCost =>
      let currentClassCost := costRow !!! k in
      let tempCost := (prevCost + currentClassCost)%Q in
      if cost_lt (Finite tempCost) Fij then (Finite tempCost, k)
      else (Fij, Bij)
  end.

(** One cell of the tables: the loop over [k], started from the initial
    content [(Inf, 0)] of [F[i][j]] and [B[i][j]]. *)
Definition dp_cell (maxSlabsForMrcProfile : nat) (prevRow : list cost)
    (costRow : list Q) (j : nat) : cost * nat :=
  foldl (dp_cell_step prevRow costRow j)
        (Inf, 0) (seq 0 (S (Nat.min j maxSlabsForMrcProfile))).

(** Row [i] of [F] and of [B]: the loop over [j]. *)
Definition dp_row (maxTotalSlabs maxSlabsForMrcProfile : nat)
    (prevRow : list cost) (costRow : list Q) : list cost * list nat :=
  let cells := map (dp_cell maxSlabsForMrcProfile prevRow costRow)
                   (seq 0 (S maxTotalSlabs)) in
  (cells.*1, cells.*2).

(** Rows [1 .. numClasses] of [F] and [B]: the loop over [i]. *)
Fixpoint dp_rows (maxTotalSlabs maxSlabsForMrcProfile : nat)
    (prevRow : list cost) (costTable : list (list Q))
  : list (list cost * list nat) :=
  match costTable with
  | [] => []
  | costRow :: costTable' =>
      let row := dp_row maxTotalSlabs maxSlabsForMrcProfile prevRow costRow in
      row :: dp_rows maxTotalSlabs maxSlabsForMrcProfile row.1 costTable'
  end.

(** Row [0] of [F]. *)
Definition F_row0 (maxTotalSlabs : nat) : list cost :=
  Finite 0 :: replicate maxTotalSlabs Inf.

(** The walk back through [B], for [i = numClasses] down to [1]; the
    argument lists the pairs [(classIds[i-1], B[i])] in that order. *)
Fixpoint reconstruct (rows : list (ClassId * list nat)) (remainingSlabs : nat)
    (optimalAllocation : gmap Z nat) : gmap Z nat :=
  match rows with
  | [] => optimalAllocation
  | (classId, Brow) :: rows' =>
      let slabsForThisClass := Brow !!! remainingSlabs in
      reconstruct rows' (remainingSlabs - slabsForThisClass)
        (<[classId := slabsForThisClass]> optimalAllocation)
  end.

(** The weighted misses of an allocation: the loops computing
    [totalMissesOld] and [totalMissesNew].  One iteration, then the loop. *)
Definition total_misses_step
    (classMrcData : gmap Z (gmap nat Q * gmap nat Q * nat))
    (totalMisses : Q) (pair : ClassId * nat) : Q :=
  match classMrcData !! pair.1 with
  | Some (mrcPoints, _, accessFrequency) =>
      let missRatio := _getMissRatio mrcPoints pair.2 in
      (totalMisses + to_double accessFrequency * missRatio)%Q
  | None => (totalMisses + 0)%Q
  end.

Definition total_misses (classMrcData : gmap Z (gmap nat Q * gmap nat Q * nat))
    (allocation : list (ClassId * nat)) : Q :=
  foldl (total_misses_step classMrcData) 0%Q allocation.

(** The score of the comparator passed to [std::sort]. *)
Definition victim_score (accessFrequencies currentSlabAllocation : gmap Z nat)
    (a : ClassId) : Q :=
  match accessFrequencies !! a, currentSlabAllocation !! a with
  | Some frequency, Some currentSlabsA =>
      if 0 <? currentSlabsA
      then (to_double frequency / to_double currentSlabsA)%Q
      else DBL_MAX
  | _, _ => DBL_MAX
  end.

Definition victim_before (accessFrequencies currentSlabAllocation : gmap Z nat)
    (a b : ClassId) : bool :=
  Qlt_bool (victim_score accessFrequencies currentSlabAllocation a)
           (victim_score accessFrequencies currentSlabAllocation b).

(** The loop filling [victimSlabsToMove] and [receiverSlabsToMove]. *)
Definition moves_step (currentSlabAllocation optimalAllocation : gmap Z nat)
    (acc : option (list ClassId * list ClassId)) (classId : ClassId)
  : option (list ClassId * list ClassId) :=
  '(victimSlabsToMove, receiverSlabsToMove) ← acc;
  let currentSlabs := default 0 (currentSlabAllocation !! classId) in
  optimalSlabs ← optimalAllocation !! classId;
  if optimalSlabs <? currentSlabs then
    Some (victimSlabsToMove ++ replicate (currentSlabs - optimalSlabs) classId,
          receiverSlabsToMove)
  else if currentSlabs <? optimalSlabs then
    Some (victimSlabsToMove,
          receiverSlabsToMove ++ replicate (optimalSlabs - currentSlabs) classId)
  else Some (victimSlabsToMove, receiverSlabsToMove).

Record Reallocation := mkReallocation {
  mrOld : Q;
  mrNew : Q;
  optimalAllocation : gmap Z nat;
  reassignmentPlan : list (ClassId * ClassId);
  accessFrequencies : gmap Z nat
}.

Definition zero_reallocation : Reallocation :=
  {| mrOld := 0; mrNew := 0; optimalAllocation := ∅;
     reassignmentPlan := []; accessFrequencies := ∅ |}.

(** The slab budget: the sum of the current slab counts, in [size_t]. *)
Definition slab_budget (currentSlabAllocation : gmap Z nat) : nat :=
  foldl (λ maxTotalSlabs pair, wrap64 (maxTotalSlabs + pair.2)) 0
        (map_items currentSlabAllocation).

(** [accessFrequencies[classId] = std::get<2>(classMrcData.at(classId))],
    for the classes of [classIds]. *)
Definition access_frequencies (classIds : list ClassId)
    (classData : list (gmap nat Q * gmap nat Q * nat)) : gmap Z nat :=
  foldl (λ frequencies pair, <[pair.1 := pair.2.2]> frequencies)
        ∅ (zip classIds classData).

(** Row [i] of [costTable], for the class with MRC data [data]. *)
Definition cost_row (maxTotalSlabs maxSlabsForMrcProfile : nat)
    (data : gmap nat Q * gmap nat Q * nat) : list Q :=
  let mrcPoints := data.1.1 in
  let accessFrequency := data.2 in
  map (λ j,
         let effectiveJ := Nat.min j maxSlabsForMrcProfile in
         let missRatio := _getMissRatio mrcPoints effectiveJ in
         (to_double accessFrequency * missRatio)%Q)
      (seq 0 (S maxTotalSlabs)).

(** The classes without an entry get [0]. *)
Definition fill_missing (allRelevantClassIds : list ClassId)
    (optimalAllocation : gmap Z nat) : gmap Z nat :=
  foldl (λ allocation classId,
           match allocation !! classId with
           | None => <[classId := 0]> allocation
           | Some _ => allocation
           end)
        optimalAllocation allRelevantClassIds.

Definition collect_moves (currentSlabAllocation optimalAllocation : gmap Z nat)
    (allRelevantClassIds : list ClassId)
  : option (list ClassId * list ClassId) :=
  foldl (moves_step currentSlabAllocation optimalAllocation) (Some ([], []))
        allRelevantClassIds.

Definition solveSlabReallocation (st : FootprintMRC)
    (classIdToAllocsPerSlabMap currentSlabAllocation : gmap Z nat)
  : option Reallocation :=
  let maxTotalSlabs := slab_budget currentSlabAllocation in
  let maxSlabsForMrcProfile := maxTotalSlabs in
  classMrcData ← queryMrc st classIdToAllocsPerSlabMap maxSlabsForMrcProfile;
  if decide (classMrcData = ∅) then Some zero_reallocation
  else if (maxTotalSlabs =? 0) && bool_decide (classIdToAllocsPerSlabMap = ∅)
  then Some zero_reallocation
  else
    let classIds := std_sort Z.ltb (map_items classMrcData).*1 in
    classData ← mapM (λ classId, classMrcData !! classId) classIds;
    let accessFrequencies := access_frequencies classIds classData in
    let costTable :=
      map (cost_row maxTotalSlabs maxSlabsForMrcProfile) classData in
    let tables := dp_rows maxTotalSlabs maxSlabsForMrcProfile
                    (F_row0 maxTotalSlabs) costTable in
    let optimalAllocation :=
      reconstruct (reverse (zip classIds tables.*2)) maxTotalSlabs ∅ in
    let allRelevantClassIds : gset Z :=
      list_to_set classIds ∪ dom currentSlabAllocation in
    let optimalAllocation :=
      fill_missing (sorted_elements allRelevantClassIds) optimalAllocation in
    let totalMissesOld := total_misses classMrcData (map_items currentSlabAllocation) in
    let totalMissesNew := total_misses classMrcData (map_to_list optimalAllocation) in
    let totalRequestsInWindow :=
      foldl (λ total pair, total + pair.2) 0 (map_to_list accessFrequencies) in
    let mrOld :=
      if 0 <? totalRequestsInWindow
      then (totalMissesOld / to_double totalRequestsInWindow)%Q else 0%Q in
    let mrNew :=
      if 0 <? totalRequestsInWindow
      then (totalMissesNew / to_double totalRequestsInWindow)%Q else 0%Q in
    moves ← collect_moves currentSlabAllocation optimalAllocation
              (sorted_elements allRelevantClassIds);
    let victimSlabsToMove :=
      std_sort (victim_before accessFrequencies currentSlabAllocation) moves.1 in
    let receiverSlabsToMove := moves.2 in
    let reassignmentPlan := zip victimSlabsToMove receiverSlabsToMove in
    Some {| mrOld := mrOld; mrNew := mrNew;
            optimalAllocation := optimalAllocation;
            reassignmentPlan := reassignmentPlan;
            accessFrequencies := accessFrequencies |}.

(** ** Notions used in the statements and proofs *)

(** The keys of the records of class [c], in window order. *)
Definition class_keys (c : ClassId) (entries : list (KeyInt * ClassId)) : list KeyInt :=
  (filter (λ e, e.2 = c) entries).*1.

(** The classes present in the current window. *)
Definition window_classes (st : FootprintMRC) : gset Z :=
  list_to_set (snapshot_entries st).*2.

(** Pass 2 as seen by one class: its access index, its two key maps and
    its reuse histogram. *)
Record ClassScan := mkClassScan {
  scan_index : nat;
  scan_first : gmap N nat;
  scan_last : gmap N nat;
  scan_hist : list nat
}.

Definition scan_step (s : ClassScan) (keyInt : KeyInt) : option ClassScan :=
  hist ← match scan_last s !! keyInt with
         | None => Some (scan_hist s)
         | Some prevAccessIndex =>
             vector_incr (scan_hist s) (scan_index s - prevAccessIndex)
         end;
  Some {| scan_index := S (scan_index s);
          scan_first := emplace keyInt (scan_index s) (scan_first s);
          scan_last := <[keyInt := scan_index s]> (scan_last s);
          scan_hist := hist |}.

Fixpoint scan (keys : list KeyInt) (s : ClassScan) : option ClassScan :=
  match keys with
  | [] => Some s
  | keyInt :: rest => s' ← scan_step s keyInt; scan rest s'
  end.

(** The scan of one class starts from an empty state with a histogram of
    [n] zeros. *)
Definition scan_start_of (n : nat) : ClassScan :=
  {| scan_index := 0; scan_first := ∅; scan_last := ∅;
     scan_hist := replicate n 0 |}.

(** The part of a pass-2 state that belongs to class [c]. *)
Definition class_view (c : ClassId) (p : Pass2) : ClassScan :=
  {| scan_index := default 0 (currentAccessIndex p !! c);
     scan_first := default ∅ (keyToFirstAccess p !! c);
     scan_last := default ∅ (keyToLastAccess p !! c);
     scan_hist := default [] (reuseHistograms p !! c) |}.

(** The entry of the result of [queryMrc] for class [c]. *)
Definition queryMrc_entry (stats : WindowStats) (maxSlabCount : nat)
    (classIdToAllocsPerSlabMap : gmap Z nat) (c : ClassId)
  : option (gmap nat Q * gmap nat Q * nat) :=
  allocsPerSlab ← classIdToAllocsPerSlabMap !! c;
  if allocsPerSlab =? 0 then None
  else
    match firstAccessTimesByClass stats !! c with
    | None => None
    | Some _ => mrc_of_class stats c allocsPerSlab maxSlabCount
    end.

(** The sum of the values of a map: the total slab count of an allocation,
    the sum of the access times of the keys of a class. *)
Definition map_sum `{Countable K} (m : gmap K nat) : nat :=
  sum_list (map_to_list m).*2.

(** The sum of the reuse times counted in a histogram. *)
Definition weighted_sum (hist : list nat) : nat :=
  sum_list_with (λ t, t * hist !!! t) (seq 0 (length hist)).

(** What pass 2 maintains for one class: the index stays within [n], the
    histogram keeps its [n] slots, both key maps have the same keys, a
    first access is not after the last one, every last access is before the
    current index, and the reuse times add up to the distances between
    first and last accesses. *)
Definition scan_inv (n : nat) (s : ClassScan) : Prop :=
  scan_index s ≤ n
  ∧ length (scan_hist s) = n
  ∧ dom (scan_first s) = dom (scan_last s)
  ∧ (∀ k a, scan_first s !! k = Some a →
            ∃ b, scan_last s !! k = Some b ∧ a ≤ b)
  ∧ (∀ k b, scan_last s !! k = Some b → b < scan_index s)
  ∧ weighted_sum (scan_hist s) + map_sum (scan_first s) = map_sum (scan_last s).



(** The access-per-slab pressure of a class; [None] stands for [+∞]. *)
Definition pressure (frequencies current : gmap Z nat) (c : ClassId) : option Q :=
  match frequencies !! c, current !! c with
  | Some n, Some slabs =>
      if 0 <? slabs then Some (to_double n / to_double slabs)%Q else None
  | _, _ => None
  end.

Definition pressure_le (a b : option Q) : Prop :=
  match a, b with
  | _, None => True
  | None, Some _ => False
  | Some x, Some y => (x <= y)%Q
  end.

Definition pressure_lt (a b : option Q) : Prop :=
  match a, b with
  | None, _ => False
  | Some _, None => True
  | Some x, Some y => (x < y)%Q
  end.

(** Every [B[i][j]] with [j ≤ maxTotalSlabs] is at most [j]. *)
Definition B_row_bounded (maxTotal : nat) (Brow : list nat) : Prop :=
  ∀ j, j ≤ maxTotal → Brow !!! j ≤ j.

(** Row [1] of [B] is the identity: all of [j] goes to the first class. *)
Definition B_row_identity (maxTotal : nat) (Brow : list nat) : Prop :=
  ∀ j, j ≤ maxTotal → Brow !!! j = j.

(** ** Concrete windows *)

(** A full ring of capacity [k] holding [records], oldest first. *)
Definition ring_of (records : list (KeyInt * ClassId)) : FootprintMRC :=
  {| circularBuffer := records;
     circularBufferMaxLen := length records;
     currentBufferSize := length records;
     bufferHeadIndex := 0 |}.

(** Twenty distinct keys in class [1], five in class [2] and six keys
    accessed in turn thirty times in class [3]. *)
Definition example_ring : FootprintMRC :=
  ring_of (map (λ i, (N.of_nat i, 1%Z)) (seq 0 20)
           ++ map (λ i, (N.of_nat i, 2%Z)) (seq 0 5)
           ++ map (λ i, (N.of_nat (i mod 6), 3%Z)) (seq 0 30)).

Definition example_allocs : gmap Z nat := {[1%Z := 1; 2%Z := 1; 3%Z := 1]}.

Definition example_current : gmap Z nat :=
  {[1%Z := 3; 2%Z := 3; 3%Z := 1; 4%Z := 2]}.

(** The counting array of the values [vals]. *)
Definition count_values (size : nat) (vals : list nat) : list nat :=
  foldl (λ counts v, alter S v counts) (replicate size 0) vals.

(** The values counted by the counting sorts of a class. *)
Definition first_values (first : gmap N nat) : list nat :=
  (λ kv : N * nat, kv.2 + 1) <$> map_to_list first.

Definition last_values (n : nat) (last : gmap N nat) : list nat :=
  (λ kv : N * nat, n - kv.2) <$> map_to_list last.

(** The footprint in closed form.  [excess w l] adds up what the values of
    [l] have above [w]; [reuse_excess w hist] does so for the reuse times
    counted in [hist]; with the first-access times [F], the last-access
    times [L] and the reuse histogram, the footprint at window length
    [w ≥ 1] is [m - gap_excess w / (n - w + 1)]. *)
Definition excess (w : nat) (l : list nat) : nat :=
  sum_list_with (λ x, x - w) l.

Definition reuse_excess (w : nat) (hist : list nat) : nat :=
  sum_list_with (λ t, (t - w) * hist !!! t) (seq 0 (length hist)).

Definition gap_excess (w : nat) (F L hist : list nat) : nat :=
  excess w F + excess w L + reuse_excess w hist.

Definition fp_closed (n m : nat) (F L hist : list nat) (w : nat) : Q :=
  if w =? 0 then 0%Q
  else (to_double m - to_double (gap_excess w F L hist) / to_double (n - w + 1))%Q.

(** The raw entry of the suffix arrays at reuse time [t]. *)
Definition suffix_entry (hist : list nat) (maxT : nat) (weightN : nat → nat)
    (t : nat) : nat :=
  if (0 <? t) && (t <=? maxT) && (t <? length hist)
  then weightN t * hist !!! t else 0.

(** Two keys in class [1] and two in class [2], each accessed once. *)
Definition cold_ring : FootprintMRC :=
  ring_of [(1%N, 1%Z); (2%N, 1%Z); (3%N, 2%Z); (4%N, 2%Z)].

(** ** Notions for the optimality of the dynamic program *)

(** The cost of giving [alloc !! i] slabs to the class of row [i] of the
    cost table. *)
Fixpoint allocation_cost (costTable : list (list Q)) (alloc : list nat) : Q :=
  match costTable, alloc with
  | costRow :: costTable', slabs :: alloc' =>
      (costRow !!! slabs + allocation_cost costTable' alloc')%Q
  | _, _ => 0%Q
  end.

(** The row of [F] reached after the rows [rows], starting from [row0]. *)
Definition last_F (row0 : list cost) (rows : list (list cost * list nat))
  : list cost :=
  default row0 (last rows.*1).

(** The slab counts picked by the walk back through the rows of [B], given
    from the last class to the first. *)
Fixpoint walk (Brows : list (list nat)) (remainingSlabs : nat) : list nat :=
  match Brows with
  | [] => []
  | Brow :: Brows' =>
      let slabsForThisClass := Brow !!! remainingSlabs in
      slabsForThisClass :: walk Brows' (remainingSlabs - slabsForThisClass)
  end.

(** A sum of rationals over a list. *)
Definition Qsum_with {A} (g : A → Q) (l : list A) : Q :=
  foldr (λ x acc, (g x + acc)%Q) 0%Q l.

(** The term of one class in the loops computing the weighted misses. *)
Definition miss_term (classMrcData : gmap Z (gmap nat Q * gmap nat Q * nat))
    (pair : ClassId * nat) : Q :=
  match classMrcData !! pair.1 with
  | Some (mrcPoints, _, accessFrequency) =>
      (to_double accessFrequency * _getMissRatio mrcPoints pair.2)%Q
  | None => 0%Q
  end.

(** ** Notions for the window of the ring *)

(** The record stored by [feed key classId]. *)
Definition record_of (toKeyInt : Key → KeyInt) (call : Key * ClassId)
  : KeyInt * ClassId :=
  (toKeyInt call.1, call.2).

(** The ring [st], of capacity [K], has been fed [records] since its
    construction or since the last reset: record [j] sits in slot
    [j mod K] as long as it is among the [K] most recent ones. *)
Definition ring_holds (K : nat) (records : list (KeyInt * ClassId))
    (st : FootprintMRC) : Prop :=
  ring_ok K st
  ∧ bufferHeadIndex st = length records mod K
  ∧ currentBufferSize st = Nat.min (length records) K
  ∧ ∀ j, length records - K ≤ j → j < length records →
         circularBuffer st !! (j mod K) = records !! j.

(** ** Notions for the accesses of one class *)

(** Access [a] is the first access to key [k]; access [b] is the last. *)
Definition first_at (keys : list KeyInt) (k : KeyInt) (a : nat) : Prop :=
  keys !! a = Some k ∧ ∀ j, j < a → keys !! j ≠ Some k.

Definition last_at (keys : list KeyInt) (k : KeyInt) (b : nat) : Prop :=
  keys !! b = Some k ∧ ∀ j, b < j → keys !! j ≠ Some k.

(** The reuse time of access [i]: how many accesses back the previous
    access to the same key lies, if there is one. *)
Definition reuse_time (keys : list KeyInt) (i : nat) : option nat :=
  k ← keys !! i;
  p ← list_find (λ x, x = k) (reverse (take i keys));
  Some (S p.1).

(** The number of accesses with reuse time [t]. *)
Definition reuse_count (keys : list KeyInt) (t : nat) : nat :=
  length (filter (λ i, reuse_time keys i = Some t) (seq 0 (length keys))).

(** What pass 2 has computed for one class after the accesses [keys]. *)
Definition scan_sem (keys : list KeyInt) (s : ClassScan) : Prop :=
  scan_index s = length keys
  ∧ (∀ k a, scan_first s !! k = Some a ↔ first_at keys k a)
  ∧ (∀ k b, scan_last s !! k = Some b ↔ last_at keys k b)
  ∧ ∀ t, scan_hist s !!! t = reuse_count keys t.

(** ** Notions for the meaning of the footprint *)

(** The number of distinct keys of a sequence of accesses. *)
Definition distinct (keys : list KeyInt) : nat :=
  size (list_to_set keys : gset N).

(** The windows of [w] consecutive accesses of [keys], and the total of
    their numbers of distinct keys. *)
Definition windows (w : nat) (keys : list KeyInt) : list (list KeyInt) :=
  (λ start, take w (drop start keys)) <$> seq 0 (S (length keys) - w).

Definition working_set_total (w : nat) (keys : list KeyInt) : nat :=
  sum_list_with distinct (windows w keys).

(** The gap excess of the closed form, on the state of the scan. *)
Definition scan_gap_excess (w : nat) (s : ClassScan) : nat :=
  gap_excess w (first_values (scan_first s))
    (last_values (scan_index s) (scan_last s)) (scan_hist s).

(** The keys whose last access lies at least [w] accesses before access
    [i]. *)
Definition idle_keys (w i : nat) (last : gmap N nat) : nat :=
  length (filter (λ kv : N * nat, w ≤ i - kv.2) (map_to_list last)).

(** The closed form counts, for each key, the windows that miss it: with
    the windows themselves, that is every key in every window. *)
Definition scan_windows (w : nat) (keys : list KeyInt) (s : ClassScan) : Prop :=
  scan_gap_excess w s + working_set_total w keys
  = size (scan_last s) * (S (length keys) - w).

(** ** Footprints at given cache sizes *)

(** The footprint vector of one class, from the window statistics; [None]
    is the [std::out_of_range] of a failing [.at()]. *)
Definition class_fp_values (stats : WindowStats) (classId : ClassId)
  : option (list Q) :=
  sortedFirst ← firstAccessTimesByClass stats !! classId;
  sortedLast ← lastAccessTimesByClass stats !! classId;
  reuseTimeHistogram ← reuseTimeHistogramByClass stats !! classId;
  n ← nByClass stats !! classId;
  m ← mByClass stats !! classId;
  Some (calculateFpValues sortedFirst sortedLast reuseTimeHistogram n m).

(** The loop filling [cachedFpValues]. *)
Definition cached_fp_step (stats : WindowStats)
    (cachedFpValues : option (gmap Z (list Q))) (entry : ClassId * list nat)
  : option (gmap Z (list Q)) :=
  cachedFpValues ← cachedFpValues;
  fpValues ← class_fp_values stats entry.1;
  Some (<[entry.1 := fpValues]> cachedFpValues).

Definition cached_fp_values (stats : WindowStats) : option (gmap Z (list Q)) :=
  foldl (cached_fp_step stats) (Some ∅)
        (map_to_list (firstAccessTimesByClass stats)).

(** The inner loop for one cache size: [totalFpValue += fpValues[w]] with
    [w = min(cacheSize, nByClass.at(classId))], when [w] is an index of
    [fpValues]. *)
Definition total_fp_step (stats : WindowStats) (cacheSize : nat)
    (totalFpValue : option Q) (entry : ClassId * list Q) : option Q :=
  totalFpValue ← totalFpValue;
  n ← nByClass stats !! entry.1;
  let w := Nat.min cacheSize n in
  if w <? length entry.2 then Some (totalFpValue + entry.2 !!! w)%Q
  else Some totalFpValue.

Definition total_fp (stats : WindowStats) (cachedFpValues : gmap Z (list Q))
    (cacheSize : nat) : option Q :=
  foldl (total_fp_step stats cacheSize) (Some 0%Q) (map_to_list cachedFpValues).

(** [queryMrc(cacheSizes)], the overload that returns one footprint value
    per cache size; the cache sizes are [uint32_t] values. *)
Definition queryMrc_footprints (st : FootprintMRC) (cacheSizes : list nat)
  : option (list Q) :=
  if currentBufferSize st =? 0 then Some (replicate (length cacheSizes) 0%Q)
  else
    stats ← calculateWindowStats st;
    cachedFpValues ← cached_fp_values stats;
    mapM (total_fp stats cachedFpValues) cacheSizes.

(** The average number of distinct keys over the windows of [w]
    consecutive accesses of [keys]; [0] at [w = 0]. *)
Definition average_working_set (w : nat) (keys : list KeyInt) : Q :=
  if w =? 0 then 0%Q
  else (to_double (working_set_total w keys) / to_double (length (windows w keys)))%Q.

(** The footprint of a class at a window length capped by its access
    count. *)
Definition capped_fp (stats : WindowStats) (cacheSize : nat)
    (entry : ClassId * list Q) : Q :=
  entry.2 !!! Nat.min cacheSize (default 0 (nByClass stats !! entry.1)).

(** The footprint of the whole window at a cache size: the sum, over the
    classes of the window, of the average number of distinct keys in the
    windows of [cacheSize] accesses of the class (of all its accesses when
    there are fewer). *)
Definition window_footprint (st : FootprintMRC) (cacheSize : nat) : Q :=
  Qsum_with
    (λ c, let keys := class_keys c (snapshot_entries st) in
          average_working_set (Nat.min cacheSize (length keys)) keys)
    (elements (window_classes st)).

(** ** Notions for the reassignment plan *)

(** How often class [c] occurs in a list of classes. *)
Definition occurrences (c : ClassId) (l : list ClassId) : nat :=
  length (filter (λ x, x = c) l).

(** ** The earlier version of the class

    The source also holds an earlier version of [FootprintMRC], without
    the mutex and the snapshot buffer.  Its [calculateWindowStats] reads
    the ring in place and returns the first and last access times of a
    class as maps from key to access index; its [calculateFpValues] turns
    the two maps into vectors and sorts them with [std::sort].  The bodies
    of the two passes, of the loops of [calculateFpValues] after the
    vectors are built, and of [queryMrc] are those of the current version,
    and their definitions are shared. *)
Module Legacy.

Record WindowStats := mkWindowStats {
  firstAccessTimesByClass : gmap Z (gmap N nat);
  lastAccessTimesByClass : gmap Z (gmap N nat);
  reuseTimeHistogramByClass : gmap Z (list nat);
  nByClass : gmap Z nat;
  mByClass : gmap Z nat
}.

(** The records read by each of the two passes, from [circularBuffer]
    itself. *)
Definition window_entries (st : FootprintMRC) : list (KeyInt * ClassId) :=
  let capturedBufferSize := currentBufferSize st in
  let capturedHeadIndex := bufferHeadIndex st in
  let capturedMaxLen := circularBufferMaxLen st in
  let capturedBufferSize :=
    if capturedMaxLen <? capturedBufferSize then capturedMaxLen
    else capturedBufferSize in
  let capturedHeadIndex :=
    if capturedMaxLen <=? capturedHeadIndex then 0 else capturedHeadIndex in
  let startIndex :=
    if capturedBufferSize <? capturedMaxLen then 0 else capturedHeadIndex in
  visit (circularBuffer st) capturedMaxLen startIndex (seq 0 capturedBufferSize).

(** The passes: the maps that are returned are written by pass 2 itself,
    after [reserve] has created an empty one for every class. *)
Definition window_stats (entries : list (KeyInt * ClassId)) : option WindowStats :=
  let '(nByClass, uniqueKeysPerClass) := pass1 entries in
  let mByClass := size <$> uniqueKeysPerClass in
  p2 ← pass2 entries
         {| currentAccessIndex := ∅;
            keyToFirstAccess := (λ _, ∅) <$> nByClass;
            keyToLastAccess := (λ _, ∅) <$> nByClass;
            reuseHistograms := (λ n, replicate n 0) <$> nByClass |};
  Some {| firstAccessTimesByClass := keyToFirstAccess p2;
          lastAccessTimesByClass := keyToLastAccess p2;
          reuseTimeHistogramByClass := reuseHistograms p2;
          nByClass := nByClass;
          mByClass := mByClass |}.

Definition calculateWindowStats (st : FootprintMRC) : option WindowStats :=
  window_stats (window_entries st).

(** [x - y] on [size_t]. *)
Definition sub64 (x y : nat) : nat :=
  N.to_nat ((2 ^ 64 + N.of_nat x - N.of_nat y) mod 2 ^ 64)%N.

Definition calculateFpValues
    (firstAccessTimesWindowForClass lastAccessTimesWindowForClass : gmap N nat)
    (reuseTimeHistogramWindowForClass : list nat)
    (nWindowForClass mWindowForClass : nat) : list Q :=
  let n := nWindowForClass in
  let m := mWindowForClass in
  if n =? 0 then []
  else
    let staticM := to_double m in
    let maxT := n - 1 in
    let sumTrSuffix :=
      suffix_accumulate maxT
        (fill_suffix reuseTimeHistogramWindowForClass maxT
           (λ reuseTime dCount, (to_double reuseTime * dCount)%Q)
           (replicate (maxT + 2) 0%Q)) in
    let sumRSuffix :=
      suffix_accumulate maxT
        (fill_suffix reuseTimeHistogramWindowForClass maxT
           (λ _ dCount, dCount)
           (replicate (maxT + 2) 0%Q)) in
    let fSize := size firstAccessTimesWindowForClass in
    let lSize := size lastAccessTimesWindowForClass in
    let fValues1Indexed :=
      std_sort Nat.ltb
        ((λ kv : N * nat, wrap64 (kv.2 + 1))
           <$> map_to_list firstAccessTimesWindowForClass) in
    let lValues1Indexed :=
      std_sort Nat.ltb
        ((λ kv : N * nat, sub64 n kv.2)
           <$> map_to_list lastAccessTimesWindowForClass) in
    0%Q :: fp_loop n staticM sumTrSuffix sumRSuffix (seq 1 n)
             fValues1Indexed (accumulate fValues1Indexed) fSize
             lValues1Indexed (accumulate lValues1Indexed) lSize.

Definition mrc_of_class (stats : WindowStats) (classId : ClassId)
    (allocsPerSlab maxSlabCount : nat) : option (gmap nat Q * gmap nat Q * nat) :=
  firstAccessTimes ← firstAccessTimesByClass stats !! classId;
  lastAccessTimes ← lastAccessTimesByClass stats !! classId;
  reuseTimeHistogram ← reuseTimeHistogramByClass stats !! classId;
  n ← nByClass stats !! classId;
  m ← mByClass stats !! classId;
  let fpValues :=
    calculateFpValues firstAccessTimes lastAccessTimes reuseTimeHistogram n m in
  let '(mrcPoints, mrcDelta, _) :=
    mrc_curve reuseTimeHistogram fpValues n allocsPerSlab maxSlabCount in
  Some (mrcPoints, mrcDelta, n).

Definition queryMrc_step (stats : WindowStats) (maxSlabCount : nat)
    (result : option (gmap Z (gmap nat Q * gmap nat Q * nat)))
    (entry : ClassId * nat)
  : option (gmap Z (gmap nat Q * gmap nat Q * nat)) :=
  let '(classId, allocsPerSlab) := entry in
  result ← result;
  if allocsPerSlab =? 0 then Some result
  else
    match firstAccessTimesByClass stats !! classId with
    | None => Some result
    | Some _ =>
        data ← mrc_of_class stats classId allocsPerSlab maxSlabCount;
        Some (<[classId := data]> result)
    end.

Definition queryMrc (st : FootprintMRC) (classIdToAllocsPerSlabMap : gmap Z nat)
    (maxSlabCount : nat) : option (gmap Z (gmap nat Q * gmap nat Q * nat)) :=
  if currentBufferSize st =? 0 then Some ∅
  else
    stats ← calculateWindowStats st;
    foldl (queryMrc_step stats maxSlabCount) (Some ∅)
      (map_items classIdToAllocsPerSlabMap).

End Legacy.

(** ** Moves *)

(** The move constructor, and the move assignment between two different
    objects: the target takes the four members of [other], whose three
    counters are then reset to [0].  The vector of [other] is a moved-from
    one: the library leaves it in a valid but unspecified state [rest]
    (empty in practice).  The result is the pair of the target and of
    [other] after the move. *)
Definition move_from (other : FootprintMRC) (rest : list (KeyInt * ClassId))
  : FootprintMRC * FootprintMRC :=
  ({| circularBuffer := circularBuffer other;
      circularBufferMaxLen := circularBufferMaxLen other;
      currentBufferSize := currentBufferSize other;
      bufferHeadIndex := bufferHeadIndex other |},
   {| circularBuffer := rest;
      circularBufferMaxLen := 0;
      currentBufferSize := 0;
      bufferHeadIndex := 0 |}).

(** ** Renaming of key tokens *)

(** The records with the key token [k] of every record replaced by
    [f k]. *)
Definition rename_entries (f : KeyInt → KeyInt)
    (entries : list (KeyInt * ClassId)) : list (KeyInt * ClassId) :=
  (λ e, (f e.1, e.2)) <$> entries.

(** [f] keeps apart the different keys of each class. *)
Definition injective_per_class (f : KeyInt → KeyInt)
    (entries : list (KeyInt * ClassId)) : Prop :=
  ∀ k1 k2 c, (k1, c) ∈ entries → (k2, c) ∈ entries → f k1 = f k2 → k1 = k2.

(** [kmax] is the largest key of [m]. *)
Definition largest_key {A} (m : gmap nat A) (kmax : nat) : Prop :=
  is_Some (m !! kmax) ∧ ∀ k, is_Some (m !! k) → k ≤ kmax.

(* ================================================================== *)
(** * Properties *)
(* ================================================================== *)

Set Warnings "-clear-no-such-hyp".

(** ** The constructor *)

(** C9: the constructor creates a profiler of ring capacity [k] when
    [k ≥ 1], and signals [invalid_argument], creating nothing, exactly when
    [k < 1]. *)
Theorem constructor_capacity (k : nat) :
  (1 ≤ k ↔ ∃ st, FootprintMRC_new k = inr st
                 ∧ length (circularBuffer st) = k
                 ∧ circularBufferMaxLen st = k
                 ∧ currentBufferSize st = 0
                 ∧ bufferHeadIndex st = 0)
  ∧ (k < 1 ↔ ∃ what, FootprintMRC_new k = inl (invalid_argument what)).
Proof.
  unfold FootprintMRC_new.
  destruct (Nat.ltb_spec k 1) as [Hlt | Hge]; split; split.
  - lia.
  - intros (st & Hst & _). discriminate.
  - eauto.
  - done.
  - intros _. eexists. repeat split; simpl. apply length_replicate.
  - done.
  - lia.
  - intros (what & Hw). discriminate.
Qed.

(** ** The access ring *)

Section FeedProperties.

Variable toKeyInt : Key → KeyInt.

Lemma ring_ok_new K st : FootprintMRC_new K = inr st → ring_ok K st.
Proof.
  unfold FootprintMRC_new, ring_ok.
  destruct (Nat.ltb_spec K 1); [done |].
  intros [= <-]; simpl. rewrite length_replicate. lia.
Qed.

(** One [feed] on a well-formed ring: it returns, writes at the head slot
    and advances the indices. *)
Lemma feed_step K key classId st :
  1 ≤ K → ring_ok K st →
  ∃ st', feed toKeyInt key classId st = Some st'
         ∧ ring_ok K st'
         ∧ circularBuffer st' =
             <[bufferHeadIndex st := (toKeyInt key, classId)]> (circularBuffer st)
         ∧ bufferHeadIndex st' = (bufferHeadIndex st + 1) mod K
         ∧ currentBufferSize st' = Nat.min (currentBufferSize st + 1) K.
Proof.
  intros HK (Hlen & Hmax & Hhead & Hsize). unfold feed.
  destruct (circularBuffer st) as [| slot0 slots] eqn:Hbuf.
  { simpl in Hlen. lia. }
  rewrite bool_decide_eq_false_2 by done.
  rewrite Hmax. simpl orb.
  destruct (Nat.eqb_spec K 0) as [-> | _]; [lia |].
  destruct (Nat.leb_spec K (bufferHeadIndex st)) as [Hle | _]; [lia |].
  unfold vector_set.
  destruct (Nat.ltb_spec (bufferHeadIndex st) (length (slot0 :: slots))) as [_ | Hge];
    [| lia].
  simpl mbind. eexists; split; [reflexivity |].
  unfold ring_ok; simpl.
  rewrite length_insert.
  pose proof (Nat.mod_upper_bound (bufferHeadIndex st + 1) K).
  destruct (Nat.ltb_spec (currentBufferSize st) K); repeat split; lia.
Qed.

Lemma feed_all_spec K calls : ∀ st,
  1 ≤ K → ring_ok K st →
  ∃ st', feed_all toKeyInt calls st = Some st'
         ∧ ring_ok K st'
         ∧ bufferHeadIndex st' = (bufferHeadIndex st + length calls) mod K
         ∧ currentBufferSize st' = Nat.min (currentBufferSize st + length calls) K.
Proof.
  induction calls as [| [key classId] rest IH]; intros st HK Hok.
  - exists st. repeat split; try apply Hok; simpl.
    + destruct Hok as (_ & _ & Hh & _). rewrite Nat.add_0_r, Nat.mod_small; lia.
    + destruct Hok as (_ & _ & _ & Hs). lia.
  - destruct (feed_step K key classId st HK Hok)
      as (st1 & Hfeed & Hok1 & _ & Hhead1 & Hsize1).
    destruct (IH st1 HK Hok1) as (st' & Hall & Hok' & Hhead' & Hsize').
    exists st'. simpl. rewrite Hfeed. simpl. repeat split; try apply Hok'; try done.
    + rewrite Hhead', Hhead1.
      rewrite Nat.Div0.add_mod_idemp_l. f_equal. lia.
    + rewrite Hsize', Hsize1. lia.
Qed.

(** C6: a profiler built with capacity [K ≥ 1] and then fed [t] times has
    a buffer of length exactly [K], [head = t mod K] and
    [size = min t K]; no [feed] fails, and the next [feed] writes its
    record at the current head slot. *)
Theorem feed_ring_state (K : nat) (calls : list (Key * ClassId)) :
  1 ≤ K →
  ∃ st0 st,
    FootprintMRC_new K = inr st0
    ∧ feed_all toKeyInt calls st0 = Some st
    ∧ length (circularBuffer st) = K
    ∧ circularBufferMaxLen st = K
    ∧ bufferHeadIndex st = length calls mod K
    ∧ currentBufferSize st = Nat.min (length calls) K
    ∧ ∀ key classId, ∃ st',
        feed toKeyInt key classId st = Some st'
        ∧ bufferHeadIndex st < length (circularBuffer st)
        ∧ circularBuffer st' =
            <[bufferHeadIndex st := (toKeyInt key, classId)]> (circularBuffer st)
        ∧ bufferHeadIndex st' = (bufferHeadIndex st + 1) mod K.
Proof.
  intros HK.
  destruct (FootprintMRC_new K) as [e | st0] eqn:Hnew.
  { unfold FootprintMRC_new in Hnew.
    destruct (Nat.ltb_spec K 1); [lia | discriminate]. }
  pose proof (ring_ok_new K st0 Hnew) as Hok0.
  destruct (feed_all_spec K calls st0 HK Hok0) as (st & Hall & Hok & Hhead & Hsize).
  assert (bufferHeadIndex st0 = 0 ∧ currentBufferSize st0 = 0) as [Hh0 Hs0].
  { unfold FootprintMRC_new in Hnew.
    destruct (K <? 1); [discriminate |]. by injection Hnew as <-. }
  rewrite Hh0 in Hhead. rewrite Hs0 in Hsize. simpl in Hhead, Hsize.
  exists st0, st. repeat split; try done; try apply Hok.
  intros key classId.
  destruct (feed_step K key classId st HK Hok) as (st' & Hf & _ & Hbuf & Hh' & _).
  exists st'. repeat split; try done.
  destruct Hok as (-> & _ & Hlt & _). done.
Qed.

End FeedProperties.

(** C6 at a concrete input: capacity 3, four accesses. *)
Lemma feed_ring_state_witness :
  1 ≤ 3 ∧
  ∃ st0 st,
    FootprintMRC_new 3 = inr st0
    ∧ feed_all (λ _, 7%N) [("a", 1%Z); ("b", 2%Z); ("c", 1%Z); ("d", 2%Z)] st0 = Some st
    ∧ length (circularBuffer st) = 3
    ∧ circularBufferMaxLen st = 3
    ∧ bufferHeadIndex st = 4 mod 3
    ∧ currentBufferSize st = Nat.min 4 3
    ∧ ∀ key classId, ∃ st',
        feed (λ _, 7%N) key classId st = Some st'
        ∧ bufferHeadIndex st < length (circularBuffer st)
        ∧ circularBuffer st' =
            <[bufferHeadIndex st := (7%N, classId)]> (circularBuffer st)
        ∧ bufferHeadIndex st' = (bufferHeadIndex st + 1) mod 3.
Proof.
  split; [lia |].
  apply (feed_ring_state (λ _, 7%N) 3
           [("a", 1%Z); ("b", 2%Z); ("c", 1%Z); ("d", 2%Z)]).
  lia.
Defined.

(** ** Miss-ratio lookup *)

Lemma rbegin_key_largest {A} (m : gmap nat A) :
  m ≠ ∅ → largest_key m (rbegin_key m).
Proof.
  intros Hne. unfold largest_key, rbegin_key. split.
  - apply elem_of_dom, elem_of_elements, max_list_elem_of.
    intros Hnil. apply Hne, dom_empty_iff_L.
    apply leibniz_equiv, elements_empty_iff. by rewrite Hnil.
  - intros k Hk. apply max_list_elem_of_le, elem_of_elements, elem_of_dom, Hk.
Qed.

Lemma largest_key_unique {A} (m : gmap nat A) k1 k2 :
  largest_key m k1 → largest_key m k2 → k1 = k2.
Proof.
  intros [H1 L1] [H2 L2]. specialize (L1 _ H2). specialize (L2 _ H1). lia.
Qed.

(** C5: the lookup rules of [_getMissRatio], read in the order of the
    source: [1] at [s = 0]; otherwise the stored value when [s] is a key;
    the value at the largest profiled slab count when [s] exceeds it; and
    [1] when [s] lies strictly between [0] and the largest profiled slab
    count and is not a key. *)
Theorem getMissRatio_rules (m : gmap nat Q) (s : nat) :
  (s = 0 → _getMissRatio m s = 1%Q)
  ∧ (∀ v, s ≠ 0 → m !! s = Some v → _getMissRatio m s = v)
  ∧ (∀ kmax v, largest_key m kmax → m !! kmax = Some v → kmax < s →
       _getMissRatio m s = v)
  ∧ (∀ kmax, largest_key m kmax → 0 < s < kmax → m !! s = None →
       _getMissRatio m s = 1%Q).
Proof.
  unfold _getMissRatio. repeat split.
  - by intros ->.
  - intros v Hs Hv. destruct (Nat.eqb_spec s 0); [done |]. by rewrite Hv.
  - intros kmax v Hmax Hv Hlt.
    destruct (Nat.eqb_spec s 0); [lia |].
    destruct (m !! s) as [w |] eqn:Hw.
    { destruct Hmax as [_ Hle]. specialize (Hle s). rewrite Hw in Hle.
      specialize (Hle (mk_is_Some _ _ eq_refl)). lia. }
    destruct (decide (m = ∅)) as [-> | Hne]; [by rewrite lookup_empty in Hv |].
    rewrite (largest_key_unique m _ _ (rbegin_key_largest m Hne) Hmax).
    destruct (Nat.ltb_spec kmax s); [| lia]. by rewrite Hv.
  - intros kmax Hmax Hs Hnone.
    destruct (Nat.eqb_spec s 0); [lia |]. rewrite Hnone.
    destruct (decide (m = ∅)) as [-> | Hne].
    { destruct Hmax as [[? Hk] _]. by rewrite lookup_empty in Hk. }
    rewrite (largest_key_unique m _ _ (rbegin_key_largest m Hne) Hmax).
    destruct (Nat.ltb_spec kmax s); [lia | done].
Qed.

(** ** Ordered iteration *)

#[local] Instance key_le_total {A} : Total (@key_le A).
Proof. intros x y. unfold key_le. lia. Qed.

#[local] Instance key_le_trans {A} : Transitive (@key_le A).
Proof. intros x y z. unfold key_le. lia. Qed.

Lemma map_items_perm {A} (m : gmap Z A) : map_items m ≡ₚ map_to_list m.
Proof. apply merge_sort_Permutation. Qed.

Lemma elem_of_map_items {A} (m : gmap Z A) k v :
  (k, v) ∈ map_items m ↔ m !! k = Some v.
Proof. rewrite map_items_perm. apply elem_of_map_to_list. Qed.

Lemma NoDup_fst_map_items {A} (m : gmap Z A) : NoDup (map_items m).*1.
Proof. rewrite map_items_perm. apply NoDup_fst_map_to_list. Qed.

Lemma list_to_map_map_items {A} (m : gmap Z A) :
  (list_to_map (map_items m) : gmap Z A) = m.
Proof.
  transitivity (list_to_map (map_to_list m) : gmap Z A);
    [| apply list_to_map_to_list].
  apply list_to_map_proper; [apply NoDup_fst_map_items | apply map_items_perm].
Qed.

Lemma elem_of_fst_map_items {A} (m : gmap Z A) k :
  k ∈ (map_items m).*1 ↔ is_Some (m !! k).
Proof.
  rewrite list_elem_of_fmap. split.
  - intros ([k' v] & -> & Hin). apply elem_of_map_items in Hin. eauto.
  - intros [v Hv]. exists (k, v). split; [done |]. by apply elem_of_map_items.
Qed.

Lemma map_items_empty {A} : map_items (∅ : gmap Z A) = [].
Proof.
  apply Permutation_nil_r. rewrite map_items_perm. by rewrite map_to_list_empty.
Qed.

Lemma sorted_elements_perm (s : gset Z) : sorted_elements s ≡ₚ elements s.
Proof. apply merge_sort_Permutation. Qed.

Lemma elem_of_sorted_elements (s : gset Z) x : x ∈ sorted_elements s ↔ x ∈ s.
Proof. rewrite sorted_elements_perm. apply elem_of_elements. Qed.

Lemma NoDup_sorted_elements (s : gset Z) : NoDup (sorted_elements s).
Proof. rewrite sorted_elements_perm. apply NoDup_elements. Qed.


Lemma std_sort_perm {A} (comp : A → A → bool) l : std_sort comp l ≡ₚ l.
Proof. apply merge_sort_Permutation. Qed.

(** ** Window statistics: pass 1 *)

Lemma class_keys_snoc c entries e :
  class_keys c (entries ++ [e]) =
  class_keys c entries ++ (if decide (e.2 = c) then [e.1] else []).
Proof.
  unfold class_keys. rewrite filter_app, fmap_app. f_equal.
  rewrite filter_cons, filter_nil. by destruct (decide (e.2 = c)).
Qed.

Lemma class_keys_cons c k c' entries :
  class_keys c ((k, c') :: entries) =
  if decide (c' = c) then k :: class_keys c entries else class_keys c entries.
Proof.
  unfold class_keys. rewrite filter_cons. simpl.
  by destruct (decide (c' = c)).
Qed.

Lemma class_keys_nil_iff c entries : class_keys c entries = [] ↔ c ∉ entries.*2.
Proof.
  induction entries as [| [k c'] entries IH]; [set_solver |].
  rewrite class_keys_cons. simpl. rewrite not_elem_of_cons.
  destruct (decide (c' = c)) as [-> | Hne]; [split; [done | tauto] |].
  rewrite IH. split; [intros; split; [congruence | done] | tauto].
Qed.

Lemma pass1_snoc entries e : pass1 (entries ++ [e]) = pass1_step (pass1 entries) e.
Proof. apply foldl_snoc. Qed.

Lemma pass1_n entries c :
  (pass1 entries).1 !! c =
  if decide (class_keys c entries = []) then None
  else Some (length (class_keys c entries)).
Proof.
  induction entries as [| [k c'] entries IH] using rev_ind; [done |].
  rewrite pass1_snoc, class_keys_snoc. unfold pass1_step. simpl.
  destruct (decide (c' = c)) as [-> | Hne].
  - rewrite lookup_insert_eq, IH, length_app. simpl.
    destruct (decide (class_keys c entries = [])) as [-> | Hk]; simpl.
    + done.
    + rewrite decide_False by (by destruct (class_keys c entries)).
      f_equal. lia.
  - rewrite lookup_insert_ne by done. by rewrite IH, app_nil_r.
Qed.

Lemma pass1_unique entries c :
  (pass1 entries).2 !! c =
  if decide (class_keys c entries = []) then None
  else Some (list_to_set (class_keys c entries)).
Proof.
  induction entries as [| [k c'] entries IH] using rev_ind; [done |].
  rewrite pass1_snoc, class_keys_snoc. unfold pass1_step. simpl.
  destruct (decide (c' = c)) as [-> | Hne].
  - rewrite lookup_insert_eq, IH.
    destruct (decide (class_keys c entries ++ [k] = [])) as [Hnil | _].
    { by destruct (class_keys c entries). }
    f_equal. rewrite list_to_set_app_L. simpl.
    destruct (decide (class_keys c entries = [])) as [-> | Hk]; simpl; set_solver.
  - rewrite lookup_insert_ne by done. by rewrite IH, app_nil_r.
Qed.

(** ** Window statistics: pass 2, class by class *)

Lemma pass2_step_view p k c p' :
  pass2_step p (k, c) = Some p' →
  scan_step (class_view c p) k = Some (class_view c p')
  ∧ ∀ c', c' ≠ c → class_view c' p' = class_view c' p.
Proof.
  unfold pass2_step, scan_step, class_view. simpl.
  destruct (match default ∅ (keyToLastAccess p !! c) !! k with
            | Some prev => _ | None => _ end) as [hist |] eqn:Hhist;
    simpl; [| done].
  intros [= <-]. simpl. rewrite !lookup_insert_eq. simpl. split; [done |].
  intros c' Hne. by rewrite !lookup_insert_ne by done.
Qed.

Lemma pass2_step_defined p k c :
  is_Some (scan_step (class_view c p) k) → is_Some (pass2_step p (k, c)).
Proof.
  unfold pass2_step, scan_step, class_view. simpl.
  destruct (match default ∅ (keyToLastAccess p !! c) !! k with
            | Some prev => _ | None => _ end) as [hist |] eqn:Hhist;
    simpl; [intros _; by eexists | by intros ?].
Qed.

#[local] Arguments pass2_step : simpl never.
#[local] Arguments scan_step : simpl never.

Lemma pass2_view entries : ∀ p p' c,
  pass2 entries p = Some p' →
  scan (class_keys c entries) (class_view c p) = Some (class_view c p').
Proof.
  induction entries as [| [k c'] entries IH]; intros p p' c; simpl.
  - by intros [= <-].
  - destruct (pass2_step p (k, c')) as [p1 |] eqn:Hstep; simpl; [| done].
    intros Hrest. apply pass2_step_view in Hstep as [Hsame Hother].
    rewrite class_keys_cons.
    destruct (decide (c' = c)) as [-> | Hne].
    + simpl. rewrite Hsame. simpl. by apply IH.
    + rewrite <- (Hother c) by done. by apply IH.
Qed.

Lemma pass2_defined entries : ∀ p,
  (∀ c, is_Some (scan (class_keys c entries) (class_view c p))) →
  is_Some (pass2 entries p).
Proof.
  induction entries as [| [k c'] entries IH]; intros p Hall; simpl; [eauto |].
  pose proof (Hall c') as Hc'. rewrite class_keys_cons, decide_True in Hc' by done.
  simpl in Hc'.
  destruct (scan_step (class_view c' p) k) as [s1 |] eqn:Hs1;
    [| by destruct Hc' as [? [=]]].
  destruct (pass2_step_defined p k c') as [p1 Hp1]; [by rewrite Hs1 |].
  rewrite Hp1. simpl. apply IH. intros c.
  apply pass2_step_view in Hp1 as [Hsame Hother].
  destruct (decide (c = c')) as [-> | Hne].
  - rewrite Hs1 in Hsame. injection Hsame as <-. done.
  - rewrite (Hother c) by done. specialize (Hall c).
    by rewrite class_keys_cons, decide_False in Hall by done.
Qed.

Lemma scan_defined keys : ∀ s,
  scan_index s + length keys ≤ length (scan_hist s) →
  ∃ s', scan keys s = Some s'
        ∧ scan_index s' = scan_index s + length keys
        ∧ length (scan_hist s') = length (scan_hist s).
Proof.
  induction keys as [| k keys IH]; intros s Hlen; simpl in *.
  { exists s. repeat split; lia. }
  assert (∃ hist, match scan_last s !! k with
                  | Some prev => vector_incr (scan_hist s) (scan_index s - prev)
                  | None => Some (scan_hist s)
                  end = Some hist ∧ length hist = length (scan_hist s))
    as (hist & Hhist & Hhlen).
  { destruct (scan_last s !! k) as [prev |]; [| eauto].
    unfold vector_incr.
    destruct (Nat.ltb_spec (scan_index s - prev) (length (scan_hist s))); [| lia].
    eexists; split; [done |]. apply length_alter. }
  unfold scan_step. rewrite Hhist. simpl.
  edestruct IH as (s' & Hs' & Hidx & Hl); [| exists s'; split; [exact Hs' |]].
  - simpl. lia.
  - simpl in *. lia.
Qed.

(** ** Window statistics: the result *)

Lemma pass2_step_hist_ne p k c p' c' :
  pass2_step p (k, c) = Some p' → c' ≠ c →
  reuseHistograms p' !! c' = reuseHistograms p !! c'.
Proof.
  unfold pass2_step.
  destruct (match default ∅ (keyToLastAccess p !! c) !! k with
            | Some prev => _ | None => _ end) as [hist |]; simpl; [| done].
  intros [= <-] Hne. simpl. by rewrite lookup_insert_ne.
Qed.

Lemma pass2_step_hist_eq p k c p' :
  pass2_step p (k, c) = Some p' → is_Some (reuseHistograms p' !! c).
Proof.
  unfold pass2_step.
  destruct (match default ∅ (keyToLastAccess p !! c) !! k with
            | Some prev => _ | None => _ end) as [hist |]; simpl; [| done].
  intros [= <-]. simpl. rewrite lookup_insert_eq. by eexists.
Qed.

Lemma pass2_hist_absent entries : ∀ p p' c,
  pass2 entries p = Some p' → c ∉ entries.*2 →
  reuseHistograms p' !! c = reuseHistograms p !! c.
Proof.
  induction entries as [| [k c'] entries IH]; intros p p' c; simpl.
  - by intros [= <-].
  - destruct (pass2_step p (k, c')) as [p1 |] eqn:Hstep; simpl; [| done].
    intros Hrest [Hne Hnotin]%not_elem_of_cons.
    rewrite (IH _ _ _ Hrest Hnotin). by eapply pass2_step_hist_ne.
Qed.

Lemma pass2_hist_present entries : ∀ p p' c,
  pass2 entries p = Some p' → is_Some (reuseHistograms p !! c) →
  reuseHistograms p' !! c = Some (scan_hist (class_view c p')).
Proof.
  induction entries as [| [k c'] entries IH]; intros p p' c; simpl.
  - intros [= <-] [h Hh]. unfold class_view. simpl. by rewrite Hh.
  - destruct (pass2_step p (k, c')) as [p1 |] eqn:Hstep; simpl; [| done].
    intros Hrest Hsome. apply (IH _ _ _ Hrest).
    destruct (decide (c = c')) as [-> | Hne].
    + by eapply pass2_step_hist_eq.
    + by rewrite (pass2_step_hist_ne _ _ _ _ _ Hstep Hne).
Qed.

(** The state in which pass 2 starts. *)
Lemma window_stats_unfold entries :
  window_stats entries =
  p2 ← pass2 entries
         {| currentAccessIndex := ∅; keyToFirstAccess := ∅; keyToLastAccess := ∅;
            reuseHistograms := (λ n, replicate n 0) <$> (pass1 entries).1 |};
  Some {| firstAccessTimesByClass :=
            map_imap (λ classId n,
                        Some (sorted_first_access n
                                (default ∅ (keyToFirstAccess p2 !! classId))))
                     (pass1 entries).1;
          lastAccessTimesByClass :=
            map_imap (λ classId n,
                        Some (sorted_last_access n
                                (default ∅ (keyToLastAccess p2 !! classId))))
                     (pass1 entries).1;
          reuseTimeHistogramByClass := reuseHistograms p2;
          nByClass := (pass1 entries).1;
          mByClass := size <$> (pass1 entries).2 |}.
Proof. unfold window_stats. by destruct (pass1 entries). Qed.

Lemma window_stats_defined entries : is_Some (window_stats entries).
Proof.
  rewrite window_stats_unfold.
  set (p0 := mkPass2 _ _ _ _).
  destruct (pass2_defined entries p0) as [p2 Hp2]; [| rewrite Hp2; by eexists].
  intros c.
  destruct (scan_defined (class_keys c entries) (class_view c p0))
    as (s' & Hs' & _); [| by eexists].
  unfold class_view, p0. simpl. rewrite lookup_empty, lookup_fmap, pass1_n.
  destruct (decide (class_keys c entries = [])) as [-> | Hne]; simpl; [lia |].
  by rewrite length_replicate.
Qed.

Lemma window_stats_absent entries stats c :
  window_stats entries = Some stats → c ∉ entries.*2 →
  firstAccessTimesByClass stats !! c = None
  ∧ lastAccessTimesByClass stats !! c = None
  ∧ reuseTimeHistogramByClass stats !! c = None
  ∧ nByClass stats !! c = None
  ∧ mByClass stats !! c = None.
Proof.
  rewrite window_stats_unfold.
  set (p0 := mkPass2 _ _ _ _).
  destruct (pass2 entries p0) as [p2 |] eqn:Hp2; simpl; [| done].
  intros [= <-] Hnotin. simpl.
  pose proof (proj2 (class_keys_nil_iff c entries) Hnotin) as Hnil.
  rewrite !map_lookup_imap, lookup_fmap, pass1_n, pass1_unique.
  rewrite (pass2_hist_absent _ _ _ _ Hp2 Hnotin). unfold p0. simpl.
  rewrite lookup_fmap, pass1_n.
  by rewrite !decide_True by done.
Qed.

Lemma window_stats_present entries stats c :
  window_stats entries = Some stats → c ∈ entries.*2 →
  let keys := class_keys c entries in
  ∃ s, scan keys (scan_start_of (length keys)) = Some s
       ∧ firstAccessTimesByClass stats !! c =
           Some (sorted_first_access (length keys) (scan_first s))
       ∧ lastAccessTimesByClass stats !! c =
           Some (sorted_last_access (length keys) (scan_last s))
       ∧ reuseTimeHistogramByClass stats !! c = Some (scan_hist s)
       ∧ nByClass stats !! c = Some (length keys)
       ∧ mByClass stats !! c = Some (size (list_to_set keys : gset N)).
Proof.
  rewrite window_stats_unfold.
  set (p0 := mkPass2 _ _ _ _).
  destruct (pass2 entries p0) as [p2 |] eqn:Hp2; simpl; [| done].
  intros [= <-] Hin. simpl.
  assert (class_keys c entries ≠ []) as Hne.
  { intros Hnil%class_keys_nil_iff. done. }
  assert (class_view c p0 = scan_start_of (length (class_keys c entries))) as Hv0.
  { unfold class_view, p0, scan_start_of. simpl.
    rewrite !lookup_empty, lookup_fmap, pass1_n, decide_False by done. done. }
  exists (class_view c p2).
  rewrite <- Hv0. split; [by apply pass2_view |].
  rewrite !map_lookup_imap, lookup_fmap, pass1_n, pass1_unique.
  rewrite !decide_False by done. simpl. repeat split.
  apply (pass2_hist_present _ _ _ _ Hp2). unfold p0. simpl.
  rewrite lookup_fmap, pass1_n, decide_False by done. by eexists.
Qed.

Lemma snapshot_entries_early_exit st :
  (currentBufferSize st =? 0) || bool_decide (circularBuffer st = []) = true →
  snapshot_entries st = [].
Proof.
  unfold snapshot_entries. intros Hexit.
  destruct (Nat.eqb_spec (currentBufferSize st) 0) as [Hz | Hsize]; [done |].
  simpl in Hexit. apply bool_decide_eq_true in Hexit. rewrite Hexit. simpl.
  by rewrite andb_false_r.
Qed.

Lemma window_stats_nil : window_stats [] = Some empty_stats.
Proof.
  rewrite window_stats_unfold. simpl. unfold empty_stats.
  by rewrite !map_imap_empty, !fmap_empty.
Qed.

Lemma calculateWindowStats_eq st :
  calculateWindowStats st = window_stats (snapshot_entries st).
Proof.
  unfold calculateWindowStats.
  destruct ((currentBufferSize st =? 0) || bool_decide (circularBuffer st = []))
    eqn:Hexit; [| done].
  by rewrite snapshot_entries_early_exit, window_stats_nil.
Qed.

(** ** Numbers *)

Lemma Qlt_bool_iff x y : Qlt_bool x y = true ↔ (x < y)%Q.
Proof.
  unfold Qlt_bool. rewrite negb_true_iff. split.
  - intros Hb. apply Qnot_le_lt. intros Hle%Qle_bool_iff. congruence.
  - intros Hlt. destruct (Qle_bool y x) eqn:Hb; [| done].
    apply Qle_bool_iff in Hb. by apply Qlt_not_le in Hlt.
Qed.

Lemma to_double_le x y : x ≤ y → (to_double x <= to_double y)%Q.
Proof. intros H. unfold to_double. rewrite <- Zle_Qle. lia. Qed.

Lemma to_double_lt x y : x < y → (to_double x < to_double y)%Q.
Proof. intros H. unfold to_double. rewrite <- Zlt_Qlt. lia. Qed.

Lemma to_double_nonneg x : (0 <= to_double x)%Q.
Proof. apply (to_double_le 0 x). lia. Qed.

Lemma to_double_pos x : 0 < x → (0 < to_double x)%Q.
Proof. apply (to_double_lt 0 x). Qed.

Lemma to_double_plus x y : (to_double (x + y) == to_double x + to_double y)%Q.
Proof. unfold to_double. by rewrite Nat2Z.inj_add, inject_Z_plus. Qed.

Lemma to_double_mult x y : (to_double (x * y) == to_double x * to_double y)%Q.
Proof. unfold to_double. by rewrite Nat2Z.inj_mul, inject_Z_mult. Qed.

Lemma wrap64_fits x : fits64 x → wrap64 x = x.
Proof.
  unfold fits64, wrap64. intros H. rewrite N.mod_small by done. apply Nat2N.id.
Qed.

Lemma fits64_le x y : x ≤ y → fits64 y → fits64 x.
Proof. unfold fits64. lia. Qed.

(** ** The miss-ratio curve of one class *)

Lemma clamp_range x : (0 <= Qmax 0 (Qmin 1 x) <= 1)%Q.
Proof.
  split; [apply Q.le_max_l |].
  apply Q.max_lub; [done | apply Q.le_min_l].
Qed.

Lemma clamp_mono x y : (x <= y)%Q → (Qmax 0 (Qmin 1 x) <= Qmax 0 (Qmin 1 y))%Q.
Proof. intros H. by apply Q.max_le_compat_l, Q.min_le_compat_l. Qed.

Lemma miss_ratio_at_zero hist fp n a : miss_ratio_at hist fp n a 0 = 1%Q.
Proof. unfold miss_ratio_at. simpl. by rewrite andb_false_r. Qed.

Lemma miss_ratio_at_range hist fp n a s :
  (0 <= miss_ratio_at hist fp n a s <= 1)%Q.
Proof.
  unfold miss_ratio_at.
  destruct ((0 <? n) && (0 <? wrap64 (s * a))); [apply clamp_range | done].
Qed.

Lemma count_hits_mono hist fp c1 c2 :
  c1 ≤ c2 → count_hits hist fp c1 ≤ count_hits hist fp c2.
Proof.
  intros Hc. unfold count_hits.
  assert (∀ l acc1 acc2, acc1 ≤ acc2 →
            foldl (count_hits_step hist fp c1) acc1 l
            ≤ foldl (count_hits_step hist fp c2) acc2 l) as Hgen;
    [| apply Hgen; lia].
  induction l as [| t l IH]; intros acc1 acc2 Hacc; simpl; [done |].
  apply IH. unfold count_hits_step.
  destruct (0 <? hist !!! t); [| done].
  set (v := if (0 <? t) && (t <? length fp) then fp !!! t else 0%Q).
  destruct (Qlt_bool v (to_double c1)) eqn:H1.
  - apply Qlt_bool_iff in H1.
    assert (Qlt_bool v (to_double c2) = true) as ->; [| lia].
    apply Qlt_bool_iff. eapply Qlt_le_trans; [done | by apply to_double_le].
  - destruct (Qlt_bool v (to_double c2)); lia.
Qed.

Lemma miss_ratio_at_mono hist fp n a s1 s2 :
  s1 ≤ s2 → fits64 (s2 * a) →
  (miss_ratio_at hist fp n a s2 <= miss_ratio_at hist fp n a s1)%Q.
Proof.
  intros Hs Hfit.
  assert (s1 * a ≤ s2 * a) as Hle by nia.
  pose proof (miss_ratio_at_range hist fp n a s2) as [_ Hub].
  unfold miss_ratio_at in *.
  rewrite (wrap64_fits (s2 * a)) in * by done.
  rewrite (wrap64_fits (s1 * a)) by (by eapply fits64_le).
  destruct (Nat.ltb_spec 0 n) as [Hn | _]; simpl in *; [| done].
  destruct (Nat.ltb_spec 0 (s1 * a)) as [H1 | _]; [| done].
  destruct (Nat.ltb_spec 0 (s2 * a)) as [_ | ?]; [| lia].
  apply clamp_mono.
  pose proof (to_double_le _ _ (count_hits_mono hist fp _ _ Hle)) as Hhits.
  pose proof (to_double_pos n Hn) as Hpos.
  assert (to_double (count_hits hist fp (s1 * a)) / to_double n
          <= to_double (count_hits hist fp (s2 * a)) / to_double n)%Q; [| lra].
  apply Qmult_le_compat_r; [done |].
  apply Qinv_le_0_compat. lra.
Qed.

(** The points of the curve after the slab counts [0 .. len - 1]. *)
Lemma mrc_points_lookup hist fp n a len s :
  (foldl (mrc_curve_step hist fp n a) (∅, ∅, 1%Q) (seq 0 len)).1.1 !! s
  = if decide (s < len) then Some (miss_ratio_at hist fp n a s) else None.
Proof.
  induction len as [| len IH].
  - simpl. rewrite lookup_empty. by destruct (decide (s < 0)); [lia |].
  - rewrite seq_S, foldl_snoc. simpl.
    destruct (foldl _ _ (seq 0 len)) as [[pts delta] prev]. simpl in *.
    destruct (decide (s = len)) as [-> | Hne].
    + rewrite lookup_insert_eq. by destruct (decide (len < S len)); [| lia].
    + rewrite lookup_insert_ne by done. rewrite IH.
      destruct (decide (s < len)), (decide (s < S len)); done || lia.
Qed.

Lemma mrc_curve_points hist fp n a maxSlabCount s :
  (mrc_curve hist fp n a maxSlabCount).1.1 !! s
  = if decide (s ≤ maxSlabCount) then Some (miss_ratio_at hist fp n a s) else None.
Proof.
  unfold mrc_curve. rewrite mrc_points_lookup.
  destruct (decide (s < S maxSlabCount)), (decide (s ≤ maxSlabCount)); done || lia.
Qed.

(** ** [queryMrc] *)

Lemma mrc_of_class_present entries stats c a maxSlabCount :
  window_stats entries = Some stats → c ∈ entries.*2 →
  ∃ sortedFirst sortedLast hist n m,
    firstAccessTimesByClass stats !! c = Some sortedFirst
    ∧ lastAccessTimesByClass stats !! c = Some sortedLast
    ∧ reuseTimeHistogramByClass stats !! c = Some hist
    ∧ nByClass stats !! c = Some n
    ∧ mByClass stats !! c = Some m
    ∧ mrc_of_class stats c a maxSlabCount =
        let fpValues := calculateFpValues sortedFirst sortedLast hist n m in
        let curve := mrc_curve hist fpValues n a maxSlabCount in
        Some (curve.1.1, curve.1.2, n).
Proof.
  intros Hstats Hin.
  destruct (window_stats_present _ _ _ Hstats Hin)
    as (s & _ & HF & HL & HR & Hn & Hm).
  do 5 eexists. repeat (split; [done |]).
  unfold mrc_of_class. rewrite HF, HL, HR, Hn, Hm. simpl.
  by destruct (mrc_curve _ _ _ _ _) as [[pts delta] prev].
Qed.

#[local] Arguments queryMrc_step : simpl never.

Lemma queryMrc_fold stats maxSlabCount items :
  NoDup items.*1 →
  (∀ c a, (c, a) ∈ items → is_Some (firstAccessTimesByClass stats !! c) →
          is_Some (mrc_of_class stats c a maxSlabCount)) →
  ∀ init, ∃ result,
    foldl (queryMrc_step stats maxSlabCount) (Some init) items = Some result
    ∧ ∀ c, result !! c =
           match queryMrc_entry stats maxSlabCount (list_to_map items) c with
           | Some data => Some data
           | None => init !! c
           end.
Proof.
  induction items as [| [c0 a0] items IH]; intros Hnodup Hdef init.
  - exists init. split; [done |]. intros c. unfold queryMrc_entry. simpl.
    by rewrite lookup_empty.
  - simpl in Hnodup. apply NoDup_cons in Hnodup as [Hnotin Hnodup].
    assert (∃ init', queryMrc_step stats maxSlabCount (Some init) (c0, a0) = Some init'
              ∧ ∀ c, init' !! c =
                     if decide (c = c0) then
                       match queryMrc_entry stats maxSlabCount {[c0 := a0]} c0 with
                       | Some data => Some data
                       | None => init !! c
                       end
                     else init !! c) as (init' & Hstep & Hinit').
    { unfold queryMrc_step, queryMrc_entry. simpl. rewrite lookup_singleton_eq. simpl.
      destruct (a0 =? 0).
      { exists init. split; [done |]. intros c. by destruct (decide (c = c0)). }
      destruct (firstAccessTimesByClass stats !! c0) as [F |] eqn:HF.
      2:{ exists init. split; [done |]. intros c. by destruct (decide (c = c0)). }
      destruct (Hdef c0 a0) as [data Hdata]; [left | by eexists |].
      rewrite Hdata. simpl. eexists. split; [done |]. intros c.
      destruct (decide (c = c0)) as [-> | Hne].
      - by rewrite lookup_insert_eq.
      - by rewrite lookup_insert_ne. }
    destruct (IH Hnodup) with (init := init') as (result & Hfold & Hres).
    { intros c a Hin. apply Hdef. by right. }
    exists result. simpl foldl. rewrite Hstep. split; [done |].
    intros c. rewrite Hres, Hinit'.
    unfold queryMrc_entry. simpl.
    destruct (decide (c = c0)) as [-> | Hne].
    + rewrite (not_elem_of_list_to_map_1 items c0) by done.
      rewrite lookup_insert_eq, lookup_singleton_eq. simpl. done.
    + rewrite lookup_insert_ne by done. done.
Qed.

Lemma queryMrc_spec st allocs maxSlabCount :
  ∃ stats result,
    window_stats (snapshot_entries st) = Some stats
    ∧ queryMrc st allocs maxSlabCount = Some result
    ∧ ∀ c, result !! c = queryMrc_entry stats maxSlabCount allocs c.
Proof.
  destruct (window_stats_defined (snapshot_entries st)) as [stats Hstats].
  exists stats. unfold queryMrc.
  destruct (Nat.eqb_spec (currentBufferSize st) 0) as [Hz | Hnz].
  - exists ∅. repeat split; [done |]. intros c. rewrite lookup_empty.
    rewrite snapshot_entries_early_exit in Hstats
      by (by rewrite Hz).
    rewrite window_stats_nil in Hstats. injection Hstats as <-.
    unfold queryMrc_entry. destruct (allocs !! c) as [a |]; simpl; [| done].
    by destruct (a =? 0).
  - rewrite calculateWindowStats_eq, Hstats. simpl.
    destruct (queryMrc_fold stats maxSlabCount (map_items allocs)) with (init := (∅ : gmap Z (gmap nat Q * gmap nat Q * nat)))
      as (result & Hfold & Hres).
    + apply NoDup_fst_map_items.
    + intros c a _ [F HF].
      destruct (decide (c ∈ (snapshot_entries st).*2)) as [Hin | Hnotin].
      * destruct (mrc_of_class_present _ _ c a maxSlabCount Hstats Hin)
          as (? & ? & ? & ? & ? & _ & _ & _ & _ & _ & ->). by eexists.
      * destruct (window_stats_absent _ _ _ Hstats Hnotin) as (HF' & _). congruence.
    + exists result. repeat split; [done |]. intros c.
      rewrite Hres, list_to_map_map_items, lookup_empty.
      by destruct (queryMrc_entry stats maxSlabCount allocs c).
Qed.

Lemma elem_of_window_classes st c :
  c ∈ window_classes st ↔ c ∈ (snapshot_entries st).*2.
Proof. unfold window_classes. apply elem_of_list_to_set. Qed.

(** An entry of the result: its class is in the window, its
    [allocsPerSlab] is not zero, and its curve is the one of the class. *)
Lemma queryMrc_lookup_Some st allocs maxSlabCount result c pts delta n :
  queryMrc st allocs maxSlabCount = Some result →
  result !! c = Some (pts, delta, n) →
  ∃ a hist fpValues,
    allocs !! c = Some a ∧ a ≠ 0 ∧ c ∈ window_classes st
    ∧ pts = (mrc_curve hist fpValues n a maxSlabCount).1.1.
Proof.
  intros Hq Hc.
  destruct (queryMrc_spec st allocs maxSlabCount) as (stats & result' & Hstats & Hq' & Hres).
  rewrite Hq in Hq'. injection Hq' as <-.
  rewrite Hres in Hc. unfold queryMrc_entry in Hc.
  destruct (allocs !! c) as [a |] eqn:Ha; simpl in Hc; [| done].
  destruct (Nat.eqb_spec a 0) as [| Hnz]; [done |].
  destruct (firstAccessTimesByClass stats !! c) as [F |] eqn:HF; [| done].
  destruct (decide (c ∈ (snapshot_entries st).*2)) as [Hin | Hnotin].
  2:{ destruct (window_stats_absent _ _ _ Hstats Hnotin) as (HF' & _). congruence. }
  destruct (mrc_of_class_present _ _ c a maxSlabCount Hstats Hin)
    as (F' & L & hist & n' & m & _ & _ & _ & _ & _ & Hmrc).
  rewrite Hmrc in Hc. simpl in Hc. injection Hc as <- <- <-.
  exists a, hist, (calculateFpValues F' L hist n' m).
  repeat split; try done. by apply elem_of_window_classes.
Qed.

(** C7: [queryMrc] returns (it signals nothing), with exactly one entry for
    each class that is in the current window and has a non-zero entry in
    [allocsPerSlab]; classes with [allocsPerSlab = 0] and classes absent
    from the window have no entry; the result is empty when the window is;
    and every returned [mrcPoints] has exactly the keys [0 .. maxSlabs]. *)
Theorem queryMrc_entries (st : FootprintMRC) (allocs : gmap Z nat) (maxSlabs : nat) :
  ∃ result,
    queryMrc st allocs maxSlabs = Some result
    ∧ (∀ c, is_Some (result !! c) ↔
            c ∈ window_classes st ∧ ∃ a, allocs !! c = Some a ∧ a ≠ 0)
    ∧ (snapshot_entries st = [] → result = ∅)
    ∧ (∀ c pts delta n, result !! c = Some (pts, delta, n) →
         ∀ s, is_Some (pts !! s) ↔ s ≤ maxSlabs).
Proof.
  destruct (queryMrc_spec st allocs maxSlabs) as (stats & result & Hstats & Hq & Hres).
  exists result. split; [done |].
  assert (∀ c, is_Some (result !! c) ↔
               c ∈ window_classes st ∧ ∃ a, allocs !! c = Some a ∧ a ≠ 0) as Hdom.
  { intros c. split.
    - intros [[[pts delta] n] Hc].
      destruct (queryMrc_lookup_Some _ _ _ _ _ _ _ _ Hq Hc)
        as (a & hist & fp & Ha & Hnz & Hin & _). eauto.
    - intros [Hin (a & Ha & Hnz)]. rewrite Hres. unfold queryMrc_entry.
      rewrite Ha. simpl. destruct (Nat.eqb_spec a 0) as [| _]; [done |].
      apply elem_of_window_classes in Hin.
      destruct (mrc_of_class_present _ _ c a maxSlabs Hstats Hin)
        as (F & L & hist & n & m & -> & _ & _ & _ & _ & ->). by eexists. }
  split; [done |]. split.
  - intros Hempty. apply map_eq. intros c. rewrite lookup_empty.
    apply eq_None_not_Some. rewrite Hdom. intros [Hin _].
    apply elem_of_window_classes in Hin. rewrite Hempty in Hin. set_solver.
  - intros c pts delta n Hc s.
    destruct (queryMrc_lookup_Some _ _ _ _ _ _ _ _ Hq Hc)
      as (a & hist & fp & _ & _ & _ & ->).
    rewrite mrc_curve_points.
    destruct (decide (s ≤ maxSlabs)); split; done.
Qed.

(** C4: in every entry returned by [queryMrc], the miss ratio at slab
    count [0] is [1], every miss ratio lies in [[0, 1]], and the miss
    ratios do not increase with the slab count over [0 .. maxSlabs]; the
    last part is for a cache size [maxSlabs * allocsPerSlab] that fits a
    [size_t]. *)
Theorem queryMrc_curve_shape (st : FootprintMRC) (allocs : gmap Z nat)
    (maxSlabs : nat) (result : gmap Z (gmap nat Q * gmap nat Q * nat))
    (c : ClassId) (pts delta : gmap nat Q) (n : nat) :
  queryMrc st allocs maxSlabs = Some result →
  result !! c = Some (pts, delta, n) →
  pts !! 0 = Some 1%Q
  ∧ (∀ s v, pts !! s = Some v → (0 <= v <= 1)%Q)
  ∧ ((∀ a, allocs !! c = Some a → fits64 (maxSlabs * a)) →
     ∀ s1 s2 v1 v2, s1 ≤ s2 → s2 ≤ maxSlabs →
       pts !! s1 = Some v1 → pts !! s2 = Some v2 → (v2 <= v1)%Q).
Proof.
  intros Hq Hc.
  destruct (queryMrc_lookup_Some _ _ _ _ _ _ _ _ Hq Hc)
    as (a & hist & fp & Ha & _ & _ & ->).
  split; [| split].
  - rewrite mrc_curve_points, decide_True by lia. by rewrite miss_ratio_at_zero.
  - intros s v Hv. rewrite mrc_curve_points in Hv.
    destruct (decide (s ≤ maxSlabs)); [| done].
    injection Hv as <-. apply miss_ratio_at_range.
  - intros Hfit s1 s2 v1 v2 Hs Hmax H1 H2.
    rewrite mrc_curve_points in H1, H2.
    destruct (decide (s1 ≤ maxSlabs)); [| done].
    destruct (decide (s2 ≤ maxSlabs)); [| done].
    injection H1 as <-. injection H2 as <-.
    apply miss_ratio_at_mono; [done |].
    apply (fits64_le _ (maxSlabs * a)); [nia | by apply Hfit].
Qed.

(** C4 at a concrete window: key [7] accessed five times in class [1], one
    object per slab, up to two slabs. *)
Lemma queryMrc_curve_shape_witness :
  let st := {| circularBuffer := replicate 5 (7%N, 1%Z);
               circularBufferMaxLen := 5;
               currentBufferSize := 5;
               bufferHeadIndex := 0 |} in
  ∃ result pts delta n,
    queryMrc st {[1%Z := 1]} 2 = Some result
    ∧ result !! 1%Z = Some (pts, delta, n)
    ∧ pts !! 0 = Some 1%Q
    ∧ (∀ s v, pts !! s = Some v → (0 <= v <= 1)%Q)
    ∧ ∀ s1 s2 v1 v2, s1 ≤ s2 → s2 ≤ 2 →
        pts !! s1 = Some v1 → pts !! s2 = Some v2 → (v2 <= v1)%Q.
Proof.
  intros st.
  destruct (queryMrc st {[1%Z := 1]} 2) as [result |] eqn:Hq;
    [| by vm_compute in Hq].
  destruct (result !! 1%Z) as [[[pts delta] n] |] eqn:Hc.
  2:{ vm_compute in Hq. injection Hq as <-. by vm_compute in Hc. }
  exists result, pts, delta, n. split; [done |]. split; [done |].
  destruct (queryMrc_curve_shape st {[1%Z := 1]} 2 result 1%Z pts delta n Hq Hc)
    as (H0 & Hrange & Hmono).
  split; [done |]. split; [done |]. apply Hmono.
  intros a [_ <-]%lookup_singleton_Some. by vm_compute.
Defined.

(** ** Sums over allocations *)

Lemma map_sum_empty `{Countable K} : map_sum (∅ : gmap K nat) = 0.
Proof. unfold map_sum. by rewrite map_to_list_empty. Qed.

Lemma map_sum_insert `{Countable K} (m : gmap K nat) k v :
  m !! k = None → map_sum (<[k := v]> m) = v + map_sum m.
Proof.
  intros Hk. unfold map_sum. by rewrite map_to_list_insert by done.
Qed.

Lemma map_sum_items (m : gmap Z nat) : sum_list (map_items m).*2 = map_sum m.
Proof. unfold map_sum. by rewrite map_items_perm. Qed.

Lemma budget_fold (items : list (Z * nat)) : ∀ acc,
  fits64 (acc + sum_list items.*2) →
  foldl (λ maxTotalSlabs pair, wrap64 (maxTotalSlabs + pair.2)) acc items
  = acc + sum_list items.*2.
Proof.
  induction items as [| [c v] items IH]; intros acc Hfit; csimpl in *; [lia |].
  rewrite wrap64_fits by (eapply fits64_le; [| done]; lia).
  rewrite IH; [lia |]. eapply fits64_le; [| done]. lia.
Qed.

Lemma slab_budget_fits current :
  fits64 (map_sum current) → slab_budget current = map_sum current.
Proof.
  intros Hfit. unfold slab_budget.
  rewrite budget_fold; rewrite map_sum_items; [done |]. done.
Qed.

(** ** The tables of the dynamic program *)

Lemma foldl_invariant {A B} (P : A → Prop) (f : A → B → A) (l : list B) :
  ∀ a, P a → (∀ a x, x ∈ l → P a → P (f a x)) → P (foldl f a l).
Proof.
  induction l as [| x l IH]; intros a Ha Hstep; simpl; [done |].
  apply IH.
  - apply Hstep; [left | done].
  - intros a' y Hy. apply Hstep. by right.
Qed.

Lemma dp_cell_bound maxS prevRow costRow j : (dp_cell maxS prevRow costRow j).2 ≤ j.
Proof.
  unfold dp_cell.
  apply (foldl_invariant (λ cell : cost * nat, cell.2 ≤ j)); [simpl; lia |].
  intros [Fij Bij] k Hk Hle. apply elem_of_seq in Hk.
  unfold dp_cell_step. simpl in Hle.
  destruct (prevRow !!! (j - k)); [| simpl; lia].
  match goal with |- context [cost_lt ?a ?b] => destruct (cost_lt a b) end;
    simpl; lia.
Qed.

Lemma F_row0_tail maxTotalSlabs i : 0 < i → F_row0 maxTotalSlabs !!! i = Inf.
Proof.
  intros Hi. unfold F_row0. destruct i as [| i]; [lia |].
  rewrite list_lookup_total_alt. simpl.
  destruct (replicate maxTotalSlabs Inf !! i) as [x |] eqn:Hx; [| done].
  by apply lookup_replicate in Hx as [-> _].
Qed.

Lemma dp_cell_first_row maxS costRow j :
  j ≤ maxS → (dp_cell maxS (F_row0 maxS) costRow j).2 = j.
Proof.
  intros Hj. unfold dp_cell. rewrite Nat.min_l by done.
  rewrite seq_S, foldl_snoc. simpl.
  assert (foldl (dp_cell_step (F_row0 maxS) costRow j) (Inf, 0) (seq 0 j) = (Inf, 0))
    as ->.
  { apply (foldl_invariant (λ cell : cost * nat, cell = (Inf, 0))); [done |].
    intros cell k Hk ->. apply elem_of_seq in Hk. unfold dp_cell_step.
    by rewrite F_row0_tail by lia. }
  unfold dp_cell_step. by rewrite Nat.sub_diag.
Qed.

Lemma dp_row_snd maxTotal maxS prevRow costRow :
  (dp_row maxTotal maxS prevRow costRow).2
  = (dp_cell maxS prevRow costRow <$> seq 0 (S maxTotal)).*2.
Proof. done. Qed.

Lemma dp_row_fst maxTotal maxS prevRow costRow :
  (dp_row maxTotal maxS prevRow costRow).1
  = (dp_cell maxS prevRow costRow <$> seq 0 (S maxTotal)).*1.
Proof. done. Qed.

Lemma dp_row_length maxTotal maxS prevRow costRow :
  length (dp_row maxTotal maxS prevRow costRow).2 = S maxTotal.
Proof. by rewrite dp_row_snd, !length_fmap, length_seq. Qed.

Lemma dp_row_B maxTotal maxS prevRow costRow j :
  j ≤ maxTotal →
  (dp_row maxTotal maxS prevRow costRow).2 !!! j = (dp_cell maxS prevRow costRow j).2.
Proof.
  intros Hj. rewrite dp_row_snd. apply list_lookup_total_correct.
  rewrite !list_lookup_fmap, lookup_seq_lt by lia. done.
Qed.

#[local] Arguments dp_row : simpl never.

Lemma dp_rows_cons maxTotal maxS prevRow costRow costTable :
  dp_rows maxTotal maxS prevRow (costRow :: costTable)
  = dp_row maxTotal maxS prevRow costRow
      :: dp_rows maxTotal maxS (dp_row maxTotal maxS prevRow costRow).1 costTable.
Proof. done. Qed.

Lemma dp_rows_length maxTotal maxS costTable : ∀ prevRow,
  length (dp_rows maxTotal maxS prevRow costTable) = length costTable.
Proof.
  induction costTable as [| c cs IH]; intros prevRow; [done |].
  rewrite dp_rows_cons. simpl. by rewrite IH.
Qed.

Lemma dp_rows_bounded maxTotal maxS costTable : ∀ prevRow,
  Forall (B_row_bounded maxTotal) (dp_rows maxTotal maxS prevRow costTable).*2.
Proof.
  induction costTable as [| c cs IH]; intros prevRow; [by constructor |].
  rewrite dp_rows_cons, fmap_cons.
  constructor; [| apply IH].
  intros j Hj. rewrite dp_row_B by done. apply dp_cell_bound.
Qed.

Lemma dp_rows_first maxTotal costTable :
  costTable ≠ [] →
  ∃ Brow, head (dp_rows maxTotal maxTotal (F_row0 maxTotal) costTable).*2 = Some Brow
          ∧ B_row_identity maxTotal Brow.
Proof.
  destruct costTable as [| c cs]; [done |]. intros _.
  rewrite dp_rows_cons, fmap_cons.
  eexists. split; [done |].
  intros j Hj. rewrite dp_row_B by done. by apply dp_cell_first_row.
Qed.

(** ** The walk back through [B] *)

Lemma reconstruct_dom rows : ∀ remaining allocation,
  dom (reconstruct rows remaining allocation) = dom allocation ∪ list_to_set rows.*1.
Proof.
  induction rows as [| [c Brow] rows IH]; intros remaining allocation; simpl.
  - set_solver.
  - rewrite IH, dom_insert_L. set_solver.
Qed.

Lemma reconstruct_sum maxTotal rows : ∀ remaining allocation Brow1,
  NoDup rows.*1 →
  (∀ c, c ∈ rows.*1 → allocation !! c = None) →
  Forall (B_row_bounded maxTotal) rows.*2 →
  last rows.*2 = Some Brow1 → B_row_identity maxTotal Brow1 →
  remaining ≤ maxTotal →
  map_sum (reconstruct rows remaining allocation) = map_sum allocation + remaining.
Proof.
  induction rows as [| [c Brow] rows IH];
    intros remaining allocation Brow1 Hnodup Hfresh Hbounded Hlast Hid Hle;
    simpl in *; [done |].
  apply NoDup_cons in Hnodup as [Hc Hnodup].
  apply Forall_cons in Hbounded as [Hb Hbounded].
  pose proof (Hb remaining Hle) as Hs.
  destruct rows as [| row' rows'].
  - simpl in *. injection Hlast as <-. rewrite (Hid remaining Hle).
    rewrite map_sum_insert by (apply Hfresh; left). lia.
  - rewrite (IH _ _ Brow1); try done.
    + rewrite map_sum_insert by (apply Hfresh; left). lia.
    + intros c' Hc'. rewrite lookup_insert_ne.
      * apply Hfresh. by right.
      * intros <-. done.
    + lia.
Qed.

(** ** Completing the allocation *)

Lemma fill_missing_lookup ids : ∀ allocation c,
  fill_missing ids allocation !! c =
  match allocation !! c with
  | Some v => Some v
  | None => if decide (c ∈ ids) then Some 0 else None
  end.
Proof.
  unfold fill_missing.
  induction ids as [| c0 ids IH]; intros allocation c; simpl.
  - by destruct (allocation !! c).
  - rewrite IH. destruct (allocation !! c0) as [v0 |] eqn:H0.
    + destruct (allocation !! c) as [v |] eqn:Hc; [done |].
      destruct (decide (c ∈ ids)), (decide (c ∈ c0 :: ids)); try done.
      * set_solver.
      * assert (c = c0) as -> by set_solver. congruence.
    + destruct (decide (c = c0)) as [-> | Hne].
      * rewrite lookup_insert_eq, H0. by rewrite decide_True by left.
      * rewrite lookup_insert_ne by done.
        destruct (allocation !! c); [done |].
        destruct (decide (c ∈ ids)), (decide (c ∈ c0 :: ids)); try done; set_solver.
Qed.

Lemma fill_missing_sum ids : ∀ allocation,
  map_sum (fill_missing ids allocation) = map_sum allocation.
Proof.
  unfold fill_missing.
  induction ids as [| c0 ids IH]; intros allocation; simpl; [done |].
  rewrite IH. destruct (allocation !! c0) eqn:H0; [done |].
  by rewrite map_sum_insert.
Qed.

Lemma fill_missing_dom ids allocation :
  dom (fill_missing ids allocation) = dom allocation ∪ list_to_set ids.
Proof.
  apply set_eq. intros c.
  rewrite elem_of_dom, fill_missing_lookup, elem_of_union, elem_of_dom,
    elem_of_list_to_set.
  destruct (allocation !! c) as [v |].
  - split; [intros _; left |]; by eexists.
  - destruct (decide (c ∈ ids)); split; try (intros [[? [=]] | ?]); try done.
    by right.
Qed.

(** ** The solver, step by step *)

Lemma collect_moves_fold current optimal ids : ∀ victims receivers,
  (∀ c, c ∈ ids → is_Some (optimal !! c)) →
  foldl (moves_step current optimal) (Some (victims, receivers)) ids
  = Some (victims ++
            flat_map (λ c, replicate (default 0 (current !! c)
                                      - default 0 (optimal !! c)) c) ids,
          receivers ++
            flat_map (λ c, replicate (default 0 (optimal !! c)
                                      - default 0 (current !! c)) c) ids).
Proof.
  induction ids as [| c ids IH]; intros victims receivers Hdom; simpl.
  - by rewrite !app_nil_r.
  - destruct (Hdom c) as [o Ho]; [left |]. rewrite Ho. simpl.
    assert (∀ c', c' ∈ ids → is_Some (optimal !! c')) as Hdom'.
    { intros c' Hc'. apply Hdom. by right. }
    destruct (Nat.ltb_spec o (default 0 (current !! c))) as [Hlt | Hge].
    + rewrite IH by done. rewrite <- !app_assoc.
      replace (o - default 0 (current !! c)) with 0 by lia. done.
    + destruct (Nat.ltb_spec (default 0 (current !! c)) o) as [Hgt | Hle].
      * rewrite IH by done. rewrite <- !app_assoc.
        replace (default 0 (current !! c) - o) with 0 by lia. done.
      * rewrite IH by done.
        replace (default 0 (current !! c) - o) with 0 by lia.
        replace (o - default 0 (current !! c)) with 0 by lia. done.
Qed.

Lemma solver_class_ids_perm (mrc : gmap Z (gmap nat Q * gmap nat Q * nat)) :
  std_sort Z.ltb (map_items mrc).*1 ≡ₚ (map_to_list mrc).*1.
Proof. by rewrite std_sort_perm, map_items_perm. Qed.

Lemma elem_of_solver_class_ids (mrc : gmap Z (gmap nat Q * gmap nat Q * nat)) c :
  c ∈ std_sort Z.ltb (map_items mrc).*1 ↔ is_Some (mrc !! c).
Proof. rewrite std_sort_perm. apply elem_of_fst_map_items. Qed.

Lemma NoDup_solver_class_ids (mrc : gmap Z (gmap nat Q * gmap nat Q * nat)) :
  NoDup (std_sort Z.ltb (map_items mrc).*1).
Proof. rewrite std_sort_perm. apply NoDup_fst_map_items. Qed.

Lemma solver_class_ids_set (mrc : gmap Z (gmap nat Q * gmap nat Q * nat)) :
  (list_to_set (std_sort Z.ltb (map_items mrc).*1) : gset Z) = dom mrc.
Proof.
  apply set_eq. intros c.
  by rewrite elem_of_list_to_set, elem_of_solver_class_ids, elem_of_dom.
Qed.

Lemma queryMrc_dom_allocs st allocs maxSlabs mrc c :
  queryMrc st allocs maxSlabs = Some mrc → is_Some (mrc !! c) → is_Some (allocs !! c).
Proof.
  intros Hq [[[pts delta] n] Hc].
  destruct (queryMrc_lookup_Some _ _ _ _ _ _ _ _ Hq Hc) as (a & _ & _ & Ha & _).
  by eexists.
Qed.

(** The result of the solver when the MRC query gives at least one class. *)
Lemma solve_main st allocs current mrc :
  queryMrc st allocs (slab_budget current) = Some mrc → mrc ≠ ∅ →
  let budget := slab_budget current in
  let classIds := std_sort Z.ltb (map_items mrc).*1 in
  let ids := sorted_elements (dom mrc ∪ dom current) in
  ∃ classData r,
    mapM (λ c, mrc !! c) classIds = Some classData
    ∧ solveSlabReallocation st allocs current = Some r
    ∧ accessFrequencies r = access_frequencies classIds classData
    ∧ optimalAllocation r =
        fill_missing ids
          (reconstruct
             (reverse (zip classIds
                         (dp_rows budget budget (F_row0 budget)
                            (map (cost_row budget budget) classData)).*2))
             budget ∅)
    ∧ reassignmentPlan r =
        zip (std_sort (victim_before (accessFrequencies r) current)
               (flat_map (λ c, replicate (default 0 (current !! c)
                                  - default 0 (optimalAllocation r !! c)) c) ids))
            (flat_map (λ c, replicate (default 0 (optimalAllocation r !! c)
                               - default 0 (current !! c)) c) ids)
    ∧ let total := foldl (λ total pair, total + pair.2) 0
                     (map_to_list (accessFrequencies r)) in
      mrOld r = (if 0 <? total
                 then (total_misses mrc (map_items current) / to_double total)%Q
                 else 0%Q)
      ∧ mrNew r = (if 0 <? total
                   then (total_misses mrc (map_to_list (optimalAllocation r))
                         / to_double total)%Q
                   else 0%Q).
Proof.
  intros Hq Hne budget classIds ids. subst budget classIds ids.
  destruct (mapM (λ c, mrc !! c) (std_sort Z.ltb (map_items mrc).*1))
    as [classData |] eqn:HclassData.
  2:{ exfalso. apply eq_None_not_Some in HclassData. apply HclassData.
      apply mapM_is_Some, Forall_forall. intros c Hc.
      by apply elem_of_solver_class_ids in Hc. }
  exists classData.
  unfold solveSlabReallocation. cbv zeta. rewrite Hq. simpl.
  rewrite decide_False by done.
  assert (allocs ≠ ∅) as Hallocs.
  { intros ->. apply Hne, map_eq. intros c. rewrite lookup_empty.
    apply eq_None_not_Some. intros Hc.
    apply (queryMrc_dom_allocs _ _ _ _ _ Hq) in Hc as [a Ha].
    by rewrite lookup_empty in Ha. }
  rewrite (bool_decide_eq_false_2 _ Hallocs), andb_false_r.
  rewrite HclassData. simpl.
  rewrite solver_class_ids_set.
  set (opt := fill_missing _ _).
  unfold collect_moves. rewrite collect_moves_fold.
  2:{ intros c Hc. apply elem_of_dom. unfold opt. rewrite fill_missing_dom.
      apply elem_of_union_r, elem_of_list_to_set. done. }
  simpl. eexists. split; [done |]. split; [reflexivity |]. simpl.
  repeat split.
Qed.

(** ** Budget conservation *)

Lemma solver_rows_shape (mrc : gmap Z (gmap nat Q * gmap nat Q * nat))
    classData budget :
  mrc ≠ ∅ →
  mapM (λ c, mrc !! c) (std_sort Z.ltb (map_items mrc).*1) = Some classData →
  let classIds := std_sort Z.ltb (map_items mrc).*1 in
  let Brows := (dp_rows budget budget (F_row0 budget)
                  (map (cost_row budget budget) classData)).*2 in
  (reverse (zip classIds Brows)).*1 = reverse classIds
  ∧ (reverse (zip classIds Brows)).*2 = reverse Brows
  ∧ Forall (B_row_bounded budget) Brows
  ∧ ∃ Brow1, head Brows = Some Brow1 ∧ B_row_identity budget Brow1.
Proof.
  intros Hne HclassData classIds Brows.
  assert (length Brows = length classIds) as Hlen.
  { unfold Brows. rewrite length_fmap, dp_rows_length, length_map.
    symmetry. by eapply length_mapM. }
  rewrite !fmap_reverse, fst_zip, snd_zip by lia.
  split; [done |]. split; [done |]. split; [apply dp_rows_bounded |].
  apply dp_rows_first.
  intros Hnil. apply Hne, map_eq. intros c. rewrite lookup_empty.
  apply eq_None_not_Some. intros Hc%elem_of_solver_class_ids.
  fold classIds in Hc.
  assert (length classIds = 0) as Hz.
  { rewrite <- Hlen. unfold Brows. rewrite length_fmap, dp_rows_length, Hnil. done. }
  destruct classIds; [by apply elem_of_nil in Hc | done].
Qed.

Lemma solve_optimal_dom st allocs current mrc r :
  queryMrc st allocs (slab_budget current) = Some mrc → mrc ≠ ∅ →
  solveSlabReallocation st allocs current = Some r →
  dom (optimalAllocation r) = dom mrc ∪ dom current.
Proof.
  intros Hq Hne Hsolve.
  destruct (solve_main st allocs current mrc Hq Hne)
    as (classData & r' & HclassData & Hsolve' & _ & Hopt & _).
  rewrite Hsolve in Hsolve'. injection Hsolve' as <-.
  destruct (solver_rows_shape mrc classData (slab_budget current) Hne HclassData)
    as (Hfst & _).
  rewrite Hopt, fill_missing_dom, reconstruct_dom, Hfst, dom_empty_L.
  apply set_eq. intros c.
  rewrite !elem_of_union, !elem_of_list_to_set, elem_of_reverse,
    elem_of_solver_class_ids, elem_of_sorted_elements, elem_of_union,
    !elem_of_dom.
  set_solver.
Qed.

Lemma solve_optimal_sum st allocs current mrc r :
  queryMrc st allocs (slab_budget current) = Some mrc → mrc ≠ ∅ →
  solveSlabReallocation st allocs current = Some r →
  map_sum (optimalAllocation r) = slab_budget current.
Proof.
  intros Hq Hne Hsolve.
  destruct (solve_main st allocs current mrc Hq Hne)
    as (classData & r' & HclassData & Hsolve' & _ & Hopt & _).
  rewrite Hsolve in Hsolve'. injection Hsolve' as <-.
  destruct (solver_rows_shape mrc classData (slab_budget current) Hne HclassData)
    as (Hfst & Hsnd & Hbounded & Brow1 & Hhead & Hid).
  rewrite Hopt, fill_missing_sum.
  rewrite (reconstruct_sum (slab_budget current) _ _ _ Brow1).
  - by rewrite map_sum_empty.
  - rewrite Hfst, reverse_Permutation. apply NoDup_solver_class_ids.
  - intros c _. apply lookup_empty.
  - rewrite Hsnd. by apply Forall_reverse.
  - by rewrite Hsnd, last_reverse.
  - done.
  - done.
Qed.

(** C1: when the MRC query of the solver gives at least one class, the
    optimal allocation has the same total slab count as the current
    allocation, and has an entry for exactly the classes of the MRC view
    and of the current allocation.  The slab budget is assumed to fit a
    [size_t]. *)
Theorem solve_budget_conserved (st : FootprintMRC) (allocs current : gmap Z nat)
    (mrc : gmap Z (gmap nat Q * gmap nat Q * nat)) :
  fits64 (map_sum current) →
  queryMrc st allocs (slab_budget current) = Some mrc → mrc ≠ ∅ →
  ∃ r, solveSlabReallocation st allocs current = Some r
       ∧ map_sum (optimalAllocation r) = map_sum current
       ∧ dom (optimalAllocation r) = dom mrc ∪ dom current.
Proof.
  intros Hfit Hq Hne.
  destruct (solve_main st allocs current mrc Hq Hne)
    as (classData & r & _ & Hsolve & _).
  exists r. split; [done |]. split.
  - rewrite (solve_optimal_sum _ _ _ _ _ Hq Hne Hsolve). by apply slab_budget_fits.
  - by apply (solve_optimal_dom _ _ _ _ _ Hq Hne Hsolve).
Qed.

(** ** The reassignment plan *)

Lemma solve_cases st allocs current r :
  solveSlabReallocation st allocs current = Some r →
  r = zero_reallocation
  ∨ ∃ mrc, queryMrc st allocs (slab_budget current) = Some mrc ∧ mrc ≠ ∅.
Proof.
  intros Hsolve.
  destruct (queryMrc_spec st allocs (slab_budget current)) as (_ & mrc & _ & Hq & _).
  destruct (decide (mrc = ∅)) as [-> | Hne]; [| right; eauto].
  left. unfold solveSlabReallocation in Hsolve. cbv zeta in Hsolve.
  rewrite Hq in Hsolve. simpl in Hsolve.
  rewrite decide_True in Hsolve by done. congruence.
Qed.


Lemma fst_zip_take {A B} (l : list A) (k : list B) :
  (zip l k).*1 = take (length k) l.
Proof.
  revert k. induction l as [| x l IH]; intros [| y k]; simpl; try done.
  by rewrite IH.
Qed.

Lemma StronglySorted_take {A} (R : relation A) n l :
  StronglySorted R l → StronglySorted R (take n l).
Proof.
  intros Hs. rewrite <- (take_drop n l) in Hs.
  by apply StronglySorted_app_1_l in Hs.
Qed.

Lemma StronglySorted_lookup {A} (R : relation A) l i j a b :
  StronglySorted R l → i < j → l !! i = Some a → l !! j = Some b → R a b.
Proof.
  intros Hs. revert i j. induction Hs as [| x l Hs IH Hall]; intros i j Hij Hi Hj.
  - by rewrite lookup_nil in Hi.
  - destruct j as [| j]; [lia |]. simpl in Hj. destruct i as [| i].
    + simpl in Hi. injection Hi as ->.
      rewrite Forall_forall in Hall. apply Hall.
      by eapply list_elem_of_lookup_2.
    + simpl in Hi. apply (IH i j); [lia | done | done].
Qed.

Lemma StronglySorted_impl {A} (R1 R2 : relation A) l :
  (∀ a b, a ∈ l → b ∈ l → R1 a b → R2 a b) →
  StronglySorted R1 l → StronglySorted R2 l.
Proof.
  intros Himpl Hs. induction Hs as [| x l Hs IH Hall]; [constructor |].
  constructor.
  - apply IH. intros a b Ha Hb. apply Himpl; by right.
  - rewrite Forall_forall in *. intros y Hy.
    apply Himpl; [left | by right | by apply Hall].
Qed.

(** Repeating each element of a sorted list keeps it sorted. *)
Lemma StronglySorted_repeat {A} (R : relation A) `{!Reflexive R}
    (f : A → nat) (l : list A) :
  StronglySorted R l →
  StronglySorted R (flat_map (λ c, replicate (f c) c) l).
Proof.
  induction 1 as [| c l Hs IH Hall]; simpl; [constructor |].
  apply StronglySorted_app_2; [| | done].
  - intros x1 x2 [-> _]%elem_of_replicate Hx2.
    apply list_elem_of_In, in_flat_map in Hx2 as (c' & Hc' & Hin).
    apply list_elem_of_In, elem_of_replicate in Hin as [-> _].
    rewrite Forall_forall in Hall. apply Hall. by apply list_elem_of_In.
  - clear -Reflexive0. induction (f c) as [| n IHn]; simpl; [constructor |].
    constructor; [done |].
    apply Forall_forall. by intros x [-> _]%elem_of_replicate.
Qed.


(** ** Access counts *)

Lemma visit_length buf maxLen start indices :
  length (visit buf maxLen start indices) ≤ length indices.
Proof.
  induction indices as [| i indices IH]; simpl; [done |].
  destruct (_ || _); simpl; [lia |].
  destruct (buf !! _); simpl; lia.
Qed.

Lemma snapshot_entries_length st :
  length (snapshot_entries st) ≤ circularBufferMaxLen st.
Proof.
  unfold snapshot_entries.
  destruct (_ || _); simpl; [lia |].
  etrans; [apply visit_length |]. rewrite length_seq.
  destruct (Nat.ltb_spec (circularBufferMaxLen st) (currentBufferSize st)); lia.
Qed.

Lemma class_keys_length c entries : length (class_keys c entries) ≤ length entries.
Proof. unfold class_keys. rewrite length_fmap. apply length_filter. Qed.

Lemma queryMrc_lookup_n st allocs maxSlabCount result c pts delta n :
  queryMrc st allocs maxSlabCount = Some result →
  result !! c = Some (pts, delta, n) →
  n = length (class_keys c (snapshot_entries st)).
Proof.
  intros Hq Hc.
  destruct (queryMrc_spec st allocs maxSlabCount) as (stats & result' & Hstats & Hq' & Hres).
  rewrite Hq in Hq'. injection Hq' as <-.
  rewrite Hres in Hc. unfold queryMrc_entry in Hc.
  destruct (allocs !! c) as [a |] eqn:Ha; simpl in Hc; [| done].
  destruct (Nat.eqb_spec a 0) as [| Hnz]; [done |].
  destruct (firstAccessTimesByClass stats !! c) as [F |] eqn:HF; [| done].
  destruct (decide (c ∈ (snapshot_entries st).*2)) as [Hin | Hnotin].
  2:{ destruct (window_stats_absent _ _ _ Hstats Hnotin) as (HF' & _). congruence. }
  destruct (window_stats_present _ _ _ Hstats Hin) as (s & _ & _ & _ & _ & Hn & _).
  destruct (mrc_of_class_present _ _ c a maxSlabCount Hstats Hin)
    as (F' & L & hist & n' & m & _ & _ & _ & Hn' & _ & Hmrc).
  rewrite Hmrc in Hc. simpl in Hc. injection Hc as <- <- <-. congruence.
Qed.

Lemma access_frequencies_fold (mrc : gmap Z (gmap nat Q * gmap nat Q * nat))
    classIds classData c :
  Forall2 (λ c d, mrc !! c = Some d) classIds classData →
  ∀ init : gmap Z nat,
    foldl (λ frequencies (pair : Z * (gmap nat Q * gmap nat Q * nat)),
             <[pair.1 := pair.2.2]> frequencies)
          init (zip classIds classData) !! c
    = if decide (c ∈ classIds) then snd <$> mrc !! c else init !! c.
Proof.
  induction 1 as [| c0 d0 classIds classData Hd0 Hrest IH]; intros init.
  - simpl. by destruct (decide (c ∈ [])) as [?%elem_of_nil |].
  - cbn [zip zip_with foldl]. rewrite IH.
    destruct (decide (c ∈ classIds)) as [Hin | Hnotin],
             (decide (c ∈ c0 :: classIds)) as [Hin' | Hnotin']; try done.
    + exfalso. apply Hnotin'. by right.
    + apply elem_of_cons in Hin' as [-> | ?]; [| done]. simpl.
      by rewrite lookup_insert_eq, Hd0.
    + apply not_elem_of_cons in Hnotin' as [Hne _]. simpl.
      by rewrite lookup_insert_ne.
Qed.

Lemma access_frequencies_lookup (mrc : gmap Z (gmap nat Q * gmap nat Q * nat))
    classData c :
  mapM (λ c, mrc !! c) (std_sort Z.ltb (map_items mrc).*1) = Some classData →
  access_frequencies (std_sort Z.ltb (map_items mrc).*1) classData !! c
  = snd <$> mrc !! c.
Proof.
  intros HclassData%mapM_Some_1. unfold access_frequencies.
  rewrite (access_frequencies_fold mrc) by done.
  destruct (decide (c ∈ std_sort Z.ltb (map_items mrc).*1)) as [Hin | Hnotin];
    [done |].
  rewrite elem_of_solver_class_ids in Hnotin.
  apply eq_None_not_Some in Hnotin. by rewrite Hnotin, lookup_empty.
Qed.

(** The access counts reported by the solver are class-local window
    lengths. *)
Lemma solve_frequency_bound st allocs current r c n :
  solveSlabReallocation st allocs current = Some r →
  accessFrequencies r !! c = Some n → n ≤ circularBufferMaxLen st.
Proof.
  intros Hsolve Hn.
  destruct (solve_cases _ _ _ _ Hsolve) as [-> | (mrc & Hq & Hne)].
  { simpl in Hn. by rewrite lookup_empty in Hn. }
  destruct (solve_main st allocs current mrc Hq Hne)
    as (classData & r' & HclassData & Hsolve' & Hfreq & _).
  rewrite Hsolve in Hsolve'. injection Hsolve' as <-.
  rewrite Hfreq, (access_frequencies_lookup mrc) in Hn by done.
  destruct (mrc !! c) as [[[pts delta] n'] |] eqn:Hc; [| done].
  simpl in Hn. injection Hn as ->.
  rewrite (queryMrc_lookup_n _ _ _ _ _ _ _ _ Hq Hc).
  etrans; [apply class_keys_length | apply snapshot_entries_length].
Qed.

(** ** The order of the victims *)

Lemma victim_score_pressure frequencies current c :
  victim_score frequencies current c
  = match pressure frequencies current c with
    | Some q => q
    | None => DBL_MAX
    end.
Proof.
  unfold victim_score, pressure.
  destruct (frequencies !! c), (current !! c); try done.
  by destruct (0 <? _).
Qed.

Lemma pressure_below_DBL_MAX frequencies current c q :
  (∀ n, frequencies !! c = Some n → fits64 n) →
  pressure frequencies current c = Some q → (q < DBL_MAX)%Q.
Proof.
  intros Hfit. unfold pressure.
  destruct (frequencies !! c) as [n |] eqn:Hn; [| done].
  destruct (current !! c) as [slabs |]; [| done].
  destruct (Nat.ltb_spec 0 slabs) as [Hpos | _]; [| done].
  intros [= <-]. specialize (Hfit n eq_refl).
  apply Qle_lt_trans with (to_double n).
  - apply Qle_shift_div_r; [by apply to_double_pos |].
    rewrite <- to_double_mult. apply to_double_le. nia.
  - apply Qlt_le_trans with (inject_Z (2 ^ 64)).
    + unfold to_double. rewrite <- Zlt_Qlt. unfold fits64 in Hfit. lia.
    + unfold DBL_MAX. rewrite <- Zle_Qle. by vm_compute.
Qed.

#[local] Instance victim_order_total frequencies current :
  Total (not_after (victim_before frequencies current)).
Proof.
  intros a b. unfold not_after, victim_before.
  destruct (Qlt_bool (victim_score frequencies current b)
              (victim_score frequencies current a)) eqn:Hba; [| by left].
  right. apply Qlt_bool_iff in Hba.
  destruct (Qlt_bool _ _) eqn:Hab; [| done].
  apply Qlt_bool_iff in Hab. lra.
Qed.

#[local] Instance victim_order_trans frequencies current :
  Transitive (not_after (victim_before frequencies current)).
Proof.
  intros a b c. unfold not_after, victim_before.
  intros Hab Hbc.
  destruct (Qlt_bool (victim_score frequencies current c)
              (victim_score frequencies current a)) eqn:Hca; [| done].
  apply Qlt_bool_iff in Hca.
  assert (¬ (victim_score frequencies current b
             < victim_score frequencies current a)%Q) as H1.
  { intros H%Qlt_bool_iff. congruence. }
  assert (¬ (victim_score frequencies current c
             < victim_score frequencies current b)%Q) as H2.
  { intros H%Qlt_bool_iff. congruence. }
  lra.
Qed.

Lemma not_after_pressure frequencies current a b :
  (∀ c n, frequencies !! c = Some n → fits64 n) →
  not_after (victim_before frequencies current) a b →
  pressure_le (pressure frequencies current a) (pressure frequencies current b).
Proof.
  intros Hfit. unfold not_after, victim_before.
  rewrite !victim_score_pressure. intros Hnot.
  assert (¬ (match pressure frequencies current b with
             | Some q => q | None => DBL_MAX end
             < match pressure frequencies current a with
               | Some q => q | None => DBL_MAX end)%Q) as Hle.
  { intros H%Qlt_bool_iff. congruence. }
  destruct (pressure frequencies current b) as [y |] eqn:Hb;
    [| by destruct (pressure frequencies current a)].
  pose proof (pressure_below_DBL_MAX _ _ _ _ (Hfit b) Hb) as Hy.
  destruct (pressure frequencies current a) as [x |] eqn:Ha; simpl; lra.
Qed.

Lemma pressure_lt_not_le a b : pressure_lt a b → pressure_le b a → False.
Proof. destruct a as [x |], b as [y |]; simpl; try tauto. lra. Qed.

Lemma pressure_lt_irrefl a : ¬ pressure_lt a a.
Proof. destruct a as [x |]; simpl; [lra | tauto]. Qed.

(** C8: the victims of the plan are in ascending order of access-per-slab
    pressure [n_c / current[c]], a class without access count, without
    current allocation or with no current slab counting as [+∞]; so the
    movements of a victim of strictly lower pressure all come before those
    of a victim of strictly higher pressure.  The ring capacity is a
    [size_t]. *)
Theorem plan_victims_by_pressure (st : FootprintMRC) (allocs current : gmap Z nat)
    (r : Reallocation) :
  fits64 (circularBufferMaxLen st) →
  solveSlabReallocation st allocs current = Some r →
  let p := pressure (accessFrequencies r) current in
  StronglySorted (λ a b, pressure_le (p a) (p b)) (reassignmentPlan r).*1
  ∧ ∀ i j a b,
      (reassignmentPlan r).*1 !! i = Some a →
      (reassignmentPlan r).*1 !! j = Some b →
      pressure_lt (p a) (p b) → i < j.
Proof.
  intros Hfit Hsolve p.
  assert (StronglySorted (λ a b, pressure_le (p a) (p b)) (reassignmentPlan r).*1)
    as Hsorted.
  { destruct (solve_cases _ _ _ _ Hsolve) as [-> | (mrc & Hq & Hne)];
      [constructor |].
    destruct (solve_main st allocs current mrc Hq Hne)
      as (classData & r' & _ & Hsolve' & _ & _ & Hplan & _).
    rewrite Hsolve in Hsolve'. injection Hsolve' as <-.
    rewrite Hplan, fst_zip_take. apply StronglySorted_take.
    apply (StronglySorted_impl
             (not_after (victim_before (accessFrequencies r) current))).
    - intros a b _ _. apply not_after_pressure.
      intros c n Hn. eapply fits64_le; [| done].
      by eapply solve_frequency_bound.
    - apply (StronglySorted_merge_sort _). }
  split; [done |].
  intros i j a b Hi Hj Hlt.
  destruct (decide (i < j)) as [| Hge]; [done |]. exfalso.
  destruct (decide (i = j)) as [-> | Hne].
  - rewrite Hi in Hj. injection Hj as ->. by apply pressure_lt_irrefl in Hlt.
  - apply (pressure_lt_not_le _ _ Hlt).
    apply (StronglySorted_lookup _ _ j i b a Hsorted); [lia | done | done].
Qed.

(** C1 on [example_ring]. *)
Lemma solve_budget_conserved_witness :
  ∃ mrc r,
    fits64 (map_sum example_current)
    ∧ queryMrc example_ring example_allocs (slab_budget example_current) = Some mrc
    ∧ mrc ≠ ∅
    ∧ solveSlabReallocation example_ring example_allocs example_current = Some r
    ∧ map_sum (optimalAllocation r) = map_sum example_current
    ∧ dom (optimalAllocation r) = dom mrc ∪ dom example_current.
Proof.
  assert (∃ mrc,
            queryMrc example_ring example_allocs (slab_budget example_current)
            = Some mrc ∧ mrc ≠ ∅) as (mrc & Hq & Hne).
  { destruct (queryMrc example_ring example_allocs (slab_budget example_current))
      as [mrc |] eqn:Hq; [| by vm_compute in Hq].
    exists mrc. split; [reflexivity |]. intros ->. by vm_compute in Hq. }
  assert (fits64 (map_sum example_current)) as Hfit by (by vm_compute).
  destruct (solve_budget_conserved example_ring example_allocs example_current
              mrc Hfit Hq Hne) as (r & Hsolve & Hsum & Hdom).
  exists mrc, r. exact (conj Hfit (conj Hq (conj Hne (conj Hsolve (conj Hsum Hdom))))).
Defined.

(** C8 on [example_ring]. *)
Lemma plan_victims_by_pressure_witness :
  ∃ r,
    fits64 (circularBufferMaxLen example_ring)
    ∧ solveSlabReallocation example_ring example_allocs example_current = Some r
    ∧ let p := pressure (accessFrequencies r) example_current in
      StronglySorted (λ a b, pressure_le (p a) (p b)) (reassignmentPlan r).*1
      ∧ ∀ i j a b,
          (reassignmentPlan r).*1 !! i = Some a →
          (reassignmentPlan r).*1 !! j = Some b →
          pressure_lt (p a) (p b) → i < j.
Proof.
  assert (∃ r, solveSlabReallocation example_ring example_allocs example_current
               = Some r) as [r Hsolve].
  { destruct (solveSlabReallocation example_ring example_allocs example_current)
      as [r |] eqn:Hsolve; [by exists r | by vm_compute in Hsolve]. }
  assert (fits64 (circularBufferMaxLen example_ring)) as Hfit by (by vm_compute).
  exists r. split; [exact Hfit |]. split; [exact Hsolve |].
  apply (plan_victims_by_pressure example_ring example_allocs example_current r
           Hfit Hsolve).
Defined.

(** ** What pass 2 maintains *)

Lemma sum_list_with_ext {A} (f g : A → nat) l :
  (∀ x, x ∈ l → f x = g x) → sum_list_with f l = sum_list_with g l.
Proof.
  induction l as [| x l IH]; intros Hfg; simpl; [done |].
  rewrite Hfg by left. rewrite IH; [done |]. intros y Hy. apply Hfg. by right.
Qed.

Lemma sum_list_with_zero {A} (f : A → nat) l :
  (∀ x, x ∈ l → f x = 0) → sum_list_with f l = 0.
Proof.
  induction l as [| x l IH]; intros Hf; simpl; [done |].
  rewrite Hf by left. rewrite IH; [done |]. intros y Hy. apply Hf. by right.
Qed.

(** Changing a function at one point of a range changes its sum over the
    range by the difference at that point. *)
Lemma sum_seq_bump (f g : nat → nat) (t d len : nat) :
  t < len → g t = f t + d → (∀ u, u ≠ t → g u = f u) →
  sum_list_with g (seq 0 len) = sum_list_with f (seq 0 len) + d.
Proof.
  intros Ht Hgt Hother.
  replace len with (t + (1 + (len - t - 1))) by lia.
  rewrite !seq_app, !sum_list_with_app. simpl.
  rewrite (sum_list_with_ext g f (seq 0 t)).
  2:{ intros u [_ Hu]%elem_of_seq. apply Hother. lia. }
  rewrite (sum_list_with_ext g f (seq (t + 1) (len - t - 1))).
  2:{ intros u [Hu _]%elem_of_seq. apply Hother. lia. }
  rewrite Hgt. lia.
Qed.

Lemma weighted_sum_incr hist t :
  t < length hist → weighted_sum (alter S t hist) = weighted_sum hist + t.
Proof.
  intros Ht. unfold weighted_sum. rewrite length_alter.
  apply (sum_seq_bump _ _ t); [done | |].
  - rewrite list_lookup_total_alter_eq by done. lia.
  - intros u Hu. by rewrite list_lookup_total_alter_ne.
Qed.

Lemma weighted_sum_zeros n : weighted_sum (replicate n 0) = 0.
Proof.
  unfold weighted_sum. apply sum_list_with_zero.
  intros t [_ Ht]%elem_of_seq. rewrite length_replicate in Ht.
  rewrite lookup_total_replicate_2 by lia. lia.
Qed.

Lemma map_sum_overwrite `{Countable K} (m : gmap K nat) k old v :
  m !! k = Some old → map_sum (<[k := v]> m) + old = map_sum m + v.
Proof.
  intros Hk.
  assert (<[k := v]> m = <[k := v]> (delete k m)) as E1
    by (by rewrite insert_delete_eq).
  assert (m = <[k := old]> (delete k m)) as E2
    by (by rewrite insert_delete_eq, insert_id).
  rewrite E1, map_sum_insert by apply lookup_delete_eq.
  assert (map_sum m = old + map_sum (delete k m)) as Hm.
  { rewrite <- (map_sum_insert (delete k m) k old) by apply lookup_delete_eq.
    by rewrite <- E2. }
  lia.
Qed.

Lemma scan_inv_start n : scan_inv n (scan_start_of n).
Proof.
  unfold scan_inv, scan_start_of. simpl.
  split; [lia |]. split; [apply length_replicate |]. split; [done |].
  split; [| split].
  - intros k a Hk. by rewrite lookup_empty in Hk.
  - intros k b Hk. by rewrite lookup_empty in Hk.
  - by rewrite weighted_sum_zeros.
Qed.

Lemma scan_step_inv n s k s' :
  scan_inv n s → scan_index s < n → scan_step s k = Some s' →
  scan_inv n s'
  ∧ scan_index s' = S (scan_index s)
  ∧ dom (scan_first s') = {[k]} ∪ dom (scan_first s).
Proof.
  intros (Hidx & Hlen & Hdom & Hfl & Hlast & Hsum) Hlt. unfold scan_step.
  destruct (scan_last s !! k) as [prev |] eqn:Hk.
  - (* a reuse *)
    pose proof (Hlast _ _ Hk) as Hprev.
    unfold vector_incr.
    destruct (Nat.ltb_spec (scan_index s - prev) (length (scan_hist s)));
      [| lia].
    simpl. intros [= <-]. simpl.
    assert (is_Some (scan_first s !! k)) as [a Ha].
    { apply elem_of_dom. rewrite Hdom. apply elem_of_dom. by eexists. }
    unfold emplace. rewrite Ha.
    split; [| split; [done |]].
    2:{ apply set_eq. intros k'. rewrite elem_of_union, elem_of_singleton.
        split; [by right |]. intros [-> | ?]; [| done].
        apply elem_of_dom. by eexists. }
    unfold scan_inv. simpl. repeat split.
    + lia.
    + by rewrite length_alter.
    + rewrite dom_insert_L, <- Hdom.
      apply set_eq. intros k'. rewrite elem_of_union, elem_of_singleton.
      split; [by right |]. intros [-> | ?]; [| done].
      apply elem_of_dom. by eexists.
    + intros k' a' Ha'. destruct (decide (k' = k)) as [-> | Hne].
      * rewrite lookup_insert_eq. eexists. split; [done |].
        destruct (Hfl _ _ Ha') as (b & Hb & Hab).
        rewrite Hk in Hb. injection Hb as <-. lia.
      * rewrite lookup_insert_ne by done. by apply Hfl.
    + intros k' b. destruct (decide (k' = k)) as [-> | Hne].
      * rewrite lookup_insert_eq. intros [= <-]. lia.
      * rewrite lookup_insert_ne by done. intros Hb.
        apply Hlast in Hb. lia.
    + rewrite weighted_sum_incr by lia.
      pose proof (map_sum_overwrite (scan_last s) k prev (scan_index s) Hk).
      lia.
  - (* a first access *)
    simpl. intros [= <-]. simpl.
    assert (scan_first s !! k = None) as Ha.
    { apply not_elem_of_dom. rewrite Hdom. by apply not_elem_of_dom. }
    unfold emplace. rewrite Ha.
    split; [| split; [done | by rewrite dom_insert_L]].
    unfold scan_inv. simpl. repeat split.
    + lia.
    + done.
    + by rewrite !dom_insert_L, Hdom.
    + intros k' a'. destruct (decide (k' = k)) as [-> | Hne].
      * rewrite !lookup_insert_eq. intros [= <-]. eauto.
      * rewrite !lookup_insert_ne by done. apply Hfl.
    + intros k' b. destruct (decide (k' = k)) as [-> | Hne].
      * rewrite lookup_insert_eq. intros [= <-]. lia.
      * rewrite lookup_insert_ne by done. intros Hb.
        apply Hlast in Hb. lia.
    + rewrite !map_sum_insert by done. lia.
Qed.

Lemma scan_inv_preserved n keys : ∀ s s',
  scan_inv n s → scan_index s + length keys ≤ n → scan keys s = Some s' →
  scan_inv n s'
  ∧ scan_index s' = scan_index s + length keys
  ∧ dom (scan_first s') = dom (scan_first s) ∪ list_to_set keys.
Proof.
  induction keys as [| k keys IH]; intros s s' Hinv Hlen; simpl.
  - intros [= <-]. split; [done | split; [lia | set_solver]].
  - destruct (scan_step s k) as [s1 |] eqn:Hstep; simpl; [| done].
    intros Hscan. simpl in Hlen.
    destruct (scan_step_inv n s k s1 Hinv) as (Hinv1 & Hidx1 & Hdom1);
      [lia | done |].
    destruct (IH s1 s' Hinv1) as (Hinv' & Hidx' & Hdom'); [lia | done |].
    split; [done | split; [lia |]]. rewrite Hdom', Hdom1. set_solver.
Qed.

(** ** The counting sort *)

Lemma foldl_ext_in {A B} (f g : A → B → A) (l : list B) :
  (∀ a x, x ∈ l → f a x = g a x) → ∀ a, foldl f a l = foldl g a l.
Proof.
  induction l as [| x l IH]; intros Hfg a; simpl; [done |].
  rewrite Hfg by left. apply IH. intros a' y Hy. apply Hfg. by right.
Qed.

Lemma count_values_snoc size vals v :
  count_values size (vals ++ [v]) = alter S v (count_values size vals).
Proof. unfold count_values. by rewrite foldl_snoc. Qed.

Lemma count_values_length size vals : length (count_values size vals) = size.
Proof.
  induction vals as [| v vals IH] using rev_ind.
  - apply length_replicate.
  - by rewrite count_values_snoc, length_alter.
Qed.

Lemma count_first_values n first :
  (∀ k a, first !! k = Some a → a < n) →
  count_first n first = count_values (n + 2) (first_values first).
Proof.
  intros Hlt. unfold count_first, count_values, first_values.
  rewrite foldl_fmap. apply foldl_ext_in.
  intros counts [k a] Hka%elem_of_map_to_list. simpl.
  apply Hlt in Hka. destruct (Nat.leb_spec (a + 1) (n + 1)); [done | lia].
Qed.

Lemma count_last_values n last :
  (∀ k b, last !! k = Some b → b < n) →
  count_last n last = count_values (n + 2) (last_values n last).
Proof.
  intros Hlt. unfold count_last, count_values, last_values.
  rewrite foldl_fmap. apply foldl_ext_in.
  intros counts [k b] Hkb%elem_of_map_to_list. simpl.
  apply Hlt in Hkb.
  destruct (Nat.leb_spec b n); [| lia].
  destruct (Nat.leb_spec (n - b) n); [done | lia].
Qed.

Lemma expand_counts_zeros size from len :
  expand_counts (replicate size 0) from len = [].
Proof.
  unfold expand_counts. revert from.
  induction len as [| len IH]; intros from; simpl; [done |].
  rewrite IH, app_nil_r.
  rewrite list_lookup_total_alt.
  destruct (replicate size 0 !! from) as [x |] eqn:Hx; [| done].
  by apply lookup_replicate in Hx as [-> _].
Qed.

Lemma expand_counts_outside counts v from len :
  ¬ (from ≤ v < from + len) →
  expand_counts (alter S v counts) from len = expand_counts counts from len.
Proof.
  unfold expand_counts. revert from.
  induction len as [| len IH]; intros from Hv; simpl; [done |].
  rewrite IH by lia. by rewrite list_lookup_total_alter_ne by lia.
Qed.

Lemma expand_counts_alter counts v from len :
  from ≤ v < from + len → v < length counts →
  expand_counts (alter S v counts) from len ≡ₚ v :: expand_counts counts from len.
Proof.
  unfold expand_counts. revert from.
  induction len as [| len IH]; intros from Hv Hsize; simpl; [lia |].
  destruct (decide (v = from)) as [-> | Hne].
  - rewrite list_lookup_total_alter_eq by done. simpl.
    pose proof (expand_counts_outside counts from (S from) len) as Hout.
    unfold expand_counts in Hout. rewrite Hout by lia. done.
  - rewrite list_lookup_total_alter_ne by done.
    rewrite IH by lia. by rewrite Permutation_middle.
Qed.

Lemma expand_count_values size vals from len :
  (∀ v, v ∈ vals → from ≤ v < from + len ∧ v < size) →
  expand_counts (count_values size vals) from len ≡ₚ vals.
Proof.
  induction vals as [| v vals IH] using rev_ind; intros Hrange.
  - unfold count_values. simpl. by rewrite expand_counts_zeros.
  - rewrite count_values_snoc.
    destruct (Hrange v) as [Hv Hsize]; [apply elem_of_app; right; left |].
    rewrite expand_counts_alter by (by rewrite ?count_values_length).
    rewrite IH.
    + by rewrite Permutation_cons_append.
    + intros v' Hv'. apply Hrange, elem_of_app. by left.
Qed.

Lemma StronglySorted_seq from len : StronglySorted le (seq from len).
Proof.
  revert from. induction len as [| len IH]; intros from; simpl; constructor.
  - apply IH.
  - apply Forall_forall. intros x [Hx _]%elem_of_seq. lia.
Qed.

Lemma expand_counts_sorted counts from len :
  StronglySorted le (expand_counts counts from len).
Proof. apply (StronglySorted_repeat le), StronglySorted_seq. Qed.

(** The sorted vectors handed to [calculateFpValues]. *)
Lemma sorted_first_access_perm n first :
  (∀ k a, first !! k = Some a → a < n) →
  sorted_first_access n first ≡ₚ first_values first.
Proof.
  intros Hlt. unfold sorted_first_access.
  rewrite count_first_values by done.
  apply expand_count_values.
  intros v ([k a] & -> & Hka%elem_of_map_to_list)%list_elem_of_fmap. simpl.
  apply Hlt in Hka. lia.
Qed.

Lemma sorted_last_access_perm n last :
  (∀ k b, last !! k = Some b → b < n) →
  sorted_last_access n last ≡ₚ last_values n last.
Proof.
  intros Hlt. unfold sorted_last_access.
  rewrite count_last_values by done.
  apply expand_count_values.
  intros v ([k b] & -> & Hkb%elem_of_map_to_list)%list_elem_of_fmap. simpl.
  apply Hlt in Hkb. lia.
Qed.

Lemma first_values_sum first : sum_list (first_values first) = map_sum first + size first.
Proof.
  unfold first_values, map_sum. rewrite <- length_map_to_list.
  induction (map_to_list first) as [| [k a] l IH]; csimpl; [done |].
  rewrite IH. lia.
Qed.

Lemma last_values_sum n last :
  (∀ k b, last !! k = Some b → b < n) →
  sum_list (last_values n last) + map_sum last = size last * n.
Proof.
  intros Hlt. unfold last_values, map_sum. rewrite <- length_map_to_list.
  assert (∀ kv, kv ∈ map_to_list last → kv.2 < n) as Hall.
  { intros [k b] Hkb%elem_of_map_to_list. by eapply Hlt. }
  induction (map_to_list last) as [| [k b] l IH]; csimpl; [done |].
  pose proof (Hall (k, b) ltac:(left)) as Hb. simpl in Hb.
  assert (sum_list ((λ kv : N * nat, n - kv.2) <$> l) + sum_list l.*2 = length l * n)
    as IH'.
  { apply IH. intros kv Hkv. apply Hall. by right. }
  lia.
Qed.

(** ** The footprint in closed form *)

Lemma to_double_minus x w : w ≤ x → (to_double (x - w) == to_double x - to_double w)%Q.
Proof.
  intros Hle. replace x with ((x - w) + w) at 2 by lia.
  rewrite to_double_plus. lra.
Qed.

Lemma to_double_0 : to_double 0 = 0%Q.
Proof. done. Qed.

Lemma to_double_1 : to_double 1 = 1%Q.
Proof. done. Qed.

Lemma sum_list_cons (x : nat) l : sum_list (x :: l) = x + sum_list l.
Proof. done. Qed.

Lemma accumulate_fold l : ∀ acc,
  (foldl (λ acc x, acc + to_double x) acc l == acc + to_double (sum_list l))%Q.
Proof.
  induction l as [| x l IH]; intros acc.
  - simpl. rewrite to_double_0. lra.
  - cbn [foldl]. rewrite IH, sum_list_cons, to_double_plus. lra.
Qed.

Lemma accumulate_sum l : (accumulate l == to_double (sum_list l))%Q.
Proof. unfold accumulate. rewrite accumulate_fold. lra. Qed.

Lemma excess_cons w x l : excess w (x :: l) = (x - w) + excess w l.
Proof. done. Qed.

(** Above [w], the sum less [w] times the count is the excess. *)
Lemma excess_above w l :
  (∀ x, x ∈ l → w < x) →
  (to_double (sum_list l) - to_double w * to_double (length l)
   == to_double (excess w l))%Q.
Proof.
  induction l as [| x l IH]; intros Habove.
  - unfold excess. simpl. rewrite to_double_0. lra.
  - rewrite excess_cons, sum_list_cons. simpl length.
    assert (w ≤ x) as Hwx by (apply Nat.lt_le_incl, Habove; left).
    rewrite !to_double_plus, to_double_minus by done.
    rewrite <- IH by (intros y Hy; apply Habove; by right).
    replace (S (length l)) with (1 + length l) by lia.
    rewrite to_double_plus, to_double_1. lra.
Qed.

Lemma advance_spec w rest : ∀ sum,
  (sum == to_double (sum_list rest))%Q → StronglySorted le rest →
  ∃ rest' sum',
    advance w rest sum (length rest) = (rest', sum', length rest')
    ∧ (sum' == to_double (sum_list rest'))%Q
    ∧ StronglySorted le rest'
    ∧ (∀ x, x ∈ rest' → w < x)
    ∧ ∀ w', w ≤ w' → excess w' rest' = excess w' rest.
Proof.
  induction rest as [| x rest IH]; intros sum Hsum Hsorted.
  - exists [], sum. simpl. repeat split; try done. intros x Hx. by apply elem_of_nil in Hx.
  - apply StronglySorted_cons in Hsorted as [Hall Hsorted]. simpl advance.
    destruct (Nat.leb_spec x w) as [Hle | Hgt].
    + destruct (IH (sum - to_double x)%Q) as (rest' & sum' & Hadv & Hsum' & Hs' & Habove & Hex).
      * rewrite Hsum, sum_list_cons, to_double_plus. lra.
      * done.
      * exists rest', sum'. simpl length. rewrite Nat.sub_0_r.
        repeat split; try done.
        intros w' Hw'. rewrite excess_cons, Hex by done. lia.
    + exists (x :: rest), sum. repeat split; try done.
      * by constructor.
      * intros y [-> | Hy]%elem_of_cons; [done |].
        rewrite Forall_forall in Hall. specialize (Hall y Hy). lia.
Qed.

(** ** The suffix sums of the reuse histogram *)

Lemma fill_suffix_prefix hist maxT entry (weightN : nat → nat) size k :
  (∀ t c, (entry t (to_double c) == to_double (weightN t * c))%Q) →
  k ≤ length hist →
  length (foldl (fill_suffix_step hist maxT entry) (replicate size 0%Q) (seq 0 k))
  = size
  ∧ ∀ t,
      (foldl (fill_suffix_step hist maxT entry) (replicate size 0%Q) (seq 0 k) !!! t
       == to_double (if (t <? k) && (t <? size)
                     then suffix_entry hist maxT weightN t else 0))%Q.
Proof.
  intros Hweight. induction k as [| k IH]; intros Hk.
  - simpl. split; [apply length_replicate |]. intros t.
    rewrite list_lookup_total_alt.
    destruct (replicate size 0%Q !! t) as [x |] eqn:Hx; simpl; [| done].
    by apply lookup_replicate in Hx as [-> _].
  - destruct IH as [Hlen IH]; [lia |].
    rewrite seq_S, foldl_snoc. simpl.
    set (arr := foldl _ _ (seq 0 k)) in *.
    unfold fill_suffix_step. rewrite Hlen.
    destruct ((0 <? hist !!! k) && (0 <? k) && (k <=? maxT) && (k <? size))
      eqn:Hcond.
    + apply andb_prop in Hcond as [Hcond Hsize%Nat.ltb_lt].
      apply andb_prop in Hcond as [Hcond HmaxT%Nat.leb_le].
      apply andb_prop in Hcond as [Hcount%Nat.ltb_lt Hpos%Nat.ltb_lt].
      split; [by rewrite length_insert |]. intros t.
      destruct (decide (t = k)) as [-> | Hne].
      * rewrite list_lookup_total_insert_eq by lia.
        destruct (Nat.ltb_spec k (S k)); [| lia].
        destruct (Nat.ltb_spec k size); [| lia]. simpl.
        unfold suffix_entry.
        destruct (Nat.ltb_spec 0 k); [| lia].
        destruct (Nat.leb_spec k maxT); [| lia].
        destruct (Nat.ltb_spec k (length hist)); [| lia]. simpl.
        by rewrite Hweight.
      * rewrite list_lookup_total_insert_ne by done. rewrite IH.
        destruct (Nat.ltb_spec t k), (Nat.ltb_spec t (S k)); done || lia.
    + split; [done |]. intros t. rewrite IH.
      destruct (decide (t = k)) as [-> | Hne].
      * destruct (Nat.ltb_spec k k); [lia |]. simpl.
        destruct (Nat.ltb_spec k (S k)); [| lia]. simpl.
        destruct (Nat.ltb_spec k size) as [Hsize | _]; [| done].
        unfold suffix_entry.
        destruct (Nat.ltb_spec 0 k) as [Hpos | _]; [| done].
        destruct (Nat.leb_spec k maxT) as [HmaxT | _]; [| done].
        destruct (Nat.ltb_spec k (length hist)); [| done]. simpl.
        destruct (Nat.ltb_spec 0 (hist !!! k)) as [Hcount | Hzero].
        { done. }
        replace (hist !!! k) with 0 by lia. by rewrite Nat.mul_0_r.
      * destruct (Nat.ltb_spec t k), (Nat.ltb_spec t (S k)); done || lia.
Qed.

Lemma fill_suffix_spec hist maxT entry (weightN : nat → nat) :
  (∀ t c, (entry t (to_double c) == to_double (weightN t * c))%Q) →
  length (fill_suffix hist maxT entry (replicate (maxT + 2) 0%Q)) = maxT + 2
  ∧ ∀ t, t ≤ maxT + 1 →
      (fill_suffix hist maxT entry (replicate (maxT + 2) 0%Q) !!! t
       == to_double (suffix_entry hist maxT weightN t))%Q.
Proof.
  intros Hweight. unfold fill_suffix.
  destruct (fill_suffix_prefix hist maxT entry weightN (maxT + 2) (length hist)
              Hweight) as [Hlen Hval]; [done |].
  split; [done |]. intros t Ht. rewrite Hval.
  destruct (Nat.ltb_spec t (maxT + 2)); [| lia]. rewrite andb_true_r.
  destruct (Nat.ltb_spec t (length hist)) as [| Hge]; [done |].
  unfold suffix_entry.
  destruct (Nat.ltb_spec t (length hist)); [lia |]. by rewrite andb_false_r.
Qed.

Lemma suffix_accumulate_length t : ∀ arr,
  length (suffix_accumulate t arr) = length arr.
Proof.
  induction t as [| t IH]; intros arr; simpl; [done |].
  destruct (_ && _); [| done]. by rewrite IH, length_insert.
Qed.

Lemma suffix_accumulate_spec (g : nat → nat) maxT : ∀ t arr,
  t ≤ maxT → maxT + 2 ≤ length arr →
  (∀ u, u ≤ t → (arr !!! u == to_double (g u))%Q) →
  (∀ u, t < u → u ≤ maxT + 1 →
     (arr !!! u == to_double (sum_list_with g (seq u (maxT + 1 - u))))%Q) →
  ∀ u, 1 ≤ u → u ≤ maxT + 1 →
    (suffix_accumulate t arr !!! u
     == to_double (sum_list_with g (seq u (maxT + 1 - u))))%Q.
Proof.
  induction t as [| t IH]; intros arr Ht Hlen Hraw Hdone u Hu1 Hu2.
  - simpl. apply Hdone; lia.
  - simpl suffix_accumulate.
    destruct (Nat.ltb_spec (S t) (length arr)); [| lia].
    destruct (Nat.ltb_spec (S (t + 1)) (length arr)); [| lia]. simpl andb.
    apply IH; try done.
    + lia.
    + by rewrite length_insert.
    + intros v Hv. rewrite list_lookup_total_insert_ne by lia. apply Hraw. lia.
    + intros v Hv1 Hv2. destruct (decide (v = S t)) as [-> | Hne].
      * rewrite list_lookup_total_insert_eq by lia.
        rewrite Hraw by lia. rewrite Hdone by lia.
        replace (maxT + 1 - S t) with (S (maxT + 1 - S (S t))) by lia.
        simpl seq. simpl sum_list_with. rewrite to_double_plus. lra.
      * rewrite list_lookup_total_insert_ne by done. apply Hdone; lia.
Qed.

(** The reuse component [rW], over the reuse times above [w]. *)
Lemma reuse_component_sum hist maxT w l :
  (∀ u, u ∈ l → w ≤ u ∧ 0 < u ∧ u ≤ maxT ∧ u < length hist) →
  (to_double (sum_list_with (suffix_entry hist maxT id) l)
   - to_double w * to_double (sum_list_with (suffix_entry hist maxT (λ _, 1%nat)) l)
   == to_double (sum_list_with (λ t, ((t - w) * hist !!! t)%nat) l))%Q.
Proof.
  induction l as [| u l IH]; intros Hl.
  - simpl. rewrite to_double_0. lra.
  - destruct (Hl u) as (Hwu & Hpos & HmaxT & Hlen); [left |].
    simpl sum_list_with. rewrite !to_double_plus.
    rewrite <- IH by (intros v Hv; apply Hl; by right).
    unfold suffix_entry at 1 3.
    destruct (Nat.ltb_spec 0 u); [| lia].
    destruct (Nat.leb_spec u maxT); [| lia].
    destruct (Nat.ltb_spec u (length hist)); [| lia]. simpl.
    unfold id. rewrite !to_double_mult, to_double_minus by done.
    rewrite Nat.add_0_r. lra.
Qed.

Lemma reuse_excess_tail hist w :
  reuse_excess w hist
  = sum_list_with (λ t, (t - w) * hist !!! t) (seq (S w) (length hist - S w)).
Proof.
  unfold reuse_excess.
  destruct (decide (S w ≤ length hist)) as [Hle | Hgt].
  - replace (length hist) with (S w + (length hist - S w)) at 1 by lia.
    rewrite seq_app, sum_list_with_app.
    rewrite (sum_list_with_zero _ (seq 0 (S w))); [done |].
    intros t [_ Ht]%elem_of_seq. replace (t - w) with 0 by lia. done.
  - replace (length hist - S w) with 0 by lia. simpl.
    apply sum_list_with_zero.
    intros t [_ Ht]%elem_of_seq. replace (t - w) with 0 by lia. done.
Qed.

(** ** The main loop of [calculateFpValues] *)

Lemma fp_loop_spec n m F L hist sumTr sumR :
  length hist = n → 1 ≤ n → n + 1 ≤ length sumTr →
  (∀ u, 1 ≤ u → u ≤ n →
     (sumTr !!! u
      == to_double (sum_list_with (suffix_entry hist (n - 1) id) (seq u (n - u))))%Q) →
  (∀ u, 1 ≤ u → u ≤ n →
     (sumR !!! u
      == to_double (sum_list_with (suffix_entry hist (n - 1) (λ _, 1%nat))
                      (seq u (n - u))))%Q) →
  ∀ len w0 fRest fSum lRest lSum,
    1 ≤ w0 → w0 + len = n + 1 →
    (fSum == to_double (sum_list fRest))%Q → StronglySorted le fRest →
    (∀ w', w0 ≤ w' → excess w' fRest = excess w' F) →
    (lSum == to_double (sum_list lRest))%Q → StronglySorted le lRest →
    (∀ w', w0 ≤ w' → excess w' lRest = excess w' L) →
    length (fp_loop n (to_double m) sumTr sumR (seq w0 len)
              fRest fSum (length fRest) lRest lSum (length lRest)) = len
    ∧ ∀ i, i < len →
        ∃ v, fp_loop n (to_double m) sumTr sumR (seq w0 len)
               fRest fSum (length fRest) lRest lSum (length lRest) !! i = Some v
             ∧ (v == fp_closed n m F L hist (w0 + i))%Q.
Proof.
  intros Hhist Hn HlenTr HsumTr HsumR.
  induction len as [| len IH];
    intros w0 fRest fSum lRest lSum Hw0 Hlen HfSum HfSorted HfEx HlSum HlSorted HlEx.
  { simpl. split; [done |]. intros i Hi. lia. }
  simpl seq. simpl fp_loop.
  destruct (advance_spec w0 fRest fSum HfSum HfSorted)
    as (fRest' & fSum' & -> & HfSum' & HfSorted' & HfAbove & HfEx').
  destruct (advance_spec w0 lRest lSum HlSum HlSorted)
    as (lRest' & lSum' & -> & HlSum' & HlSorted' & HlAbove & HlEx').
  destruct (IH (S w0) fRest' fSum' lRest' lSum') as [IHlen IHval]; try done.
  { lia. } { lia. }
  { intros w' Hw'. rewrite HfEx' by lia. apply HfEx. lia. }
  { intros w' Hw'. rewrite HlEx' by lia. apply HlEx. lia. }
  split; [simpl; by rewrite IHlen |].
  intros [| i] Hi.
  2:{ simpl. destruct (IHval i) as (v & Hv & Hclosed); [lia |].
      exists v. split; [done |]. by replace (w0 + S i) with (S w0 + i) by lia. }
  simpl. eexists. split; [done |].
  rewrite Nat.add_0_r. unfold fp_closed.
  destruct (Nat.eqb_spec w0 0); [lia |].
  destruct (Nat.eqb_spec (n - w0 + 1) 0); [lia |].
  assert (fSum' - to_double w0 * to_double (length fRest')
          == to_double (excess w0 F))%Q as ->.
  { rewrite HfSum', excess_above by done. by rewrite HfEx', HfEx. }
  assert (lSum' - to_double w0 * to_double (length lRest')
          == to_double (excess w0 L))%Q as ->.
  { rewrite HlSum', excess_above by done. by rewrite HlEx', HlEx. }
  assert ((if (w0 + 1 <=? n - 1) && (w0 + 1 <? length sumTr)
           then sumTr !!! S w0 - to_double w0 * sumR !!! S w0 else 0)
          == to_double (reuse_excess w0 hist))%Q as ->.
  { rewrite reuse_excess_tail, Hhist.
    destruct (Nat.leb_spec (w0 + 1) (n - 1)) as [Hle | Hgt].
    - destruct (Nat.ltb_spec (w0 + 1) (length sumTr)); [| lia]. simpl.
      rewrite HsumTr, HsumR by lia.
      apply reuse_component_sum.
      intros u [Hu1 Hu2]%elem_of_seq. lia.
    - simpl. replace (n - S w0) with 0 by lia. simpl. by rewrite to_double_0. }
  unfold gap_excess. rewrite !to_double_plus. done.
Qed.

(** [calculateFpValues] computes the closed form, on sorted inputs and a
    histogram of [n] slots. *)
Lemma calculateFpValues_spec F L hist n m :
  1 ≤ n → length hist = n → StronglySorted le F → StronglySorted le L →
  length (calculateFpValues F L hist n m) = S n
  ∧ ∀ w, w ≤ n →
      ∃ v, calculateFpValues F L hist n m !! w = Some v
           ∧ (v == fp_closed n m F L hist w)%Q.
Proof.
  intros Hn Hhist HF HL. unfold calculateFpValues.
  destruct (Nat.eqb_spec n 0); [lia |].
  set (sumTr := suffix_accumulate _
                  (fill_suffix _ _ (λ reuseTime dCount, to_double reuseTime * dCount)%Q _)).
  set (sumR := suffix_accumulate _ (fill_suffix _ _ (λ _ dCount, dCount) _)).
  assert (∀ entry (weightN : nat → nat),
            (∀ t c, (entry t (to_double c) == to_double (weightN t * c))%Q) →
            length (suffix_accumulate (n - 1)
                      (fill_suffix hist (n - 1) entry (replicate (n - 1 + 2) 0%Q)))
            = n + 1
            ∧ ∀ u, 1 ≤ u → u ≤ n →
                (suffix_accumulate (n - 1)
                   (fill_suffix hist (n - 1) entry (replicate (n - 1 + 2) 0%Q)) !!! u
                 == to_double (sum_list_with (suffix_entry hist (n - 1) weightN)
                                 (seq u (n - u))))%Q) as Hsuffix.
  { intros entry weightN Hweight.
    destruct (fill_suffix_spec hist (n - 1) entry weightN Hweight) as [Hlen Hval].
    split; [rewrite suffix_accumulate_length, Hlen; lia |].
    intros u Hu1 Hu2.
    replace (n - u) with (n - 1 + 1 - u) by lia.
    apply suffix_accumulate_spec; try lia.
    - intros v Hv. apply Hval. lia.
    - intros v Hv1 Hv2. assert (v = n - 1 + 1) as -> by lia.
      rewrite Hval by lia. rewrite Nat.sub_diag. simpl.
      unfold suffix_entry.
      destruct (Nat.leb_spec (n - 1 + 1) (n - 1)); [lia |].
      by rewrite andb_false_r. }
  destruct (Hsuffix (λ reuseTime dCount, to_double reuseTime * dCount)%Q id)
    as [HlenTr HsumTr].
  { intros t c. by rewrite to_double_mult. }
  destruct (Hsuffix (λ _ dCount, dCount) (λ _, 1)) as [_ HsumR].
  { intros t c. by rewrite Nat.mul_1_l. }
  destruct (fp_loop_spec n m F L hist sumTr sumR Hhist Hn) with
    (len := n) (w0 := 1) (fRest := F) (fSum := accumulate F)
    (lRest := L) (lSum := accumulate L) as [Hlen Hval];
    try done; try apply accumulate_sum; try lia.
  { unfold sumTr. lia. }
  split; [simpl; by rewrite Hlen |].
  intros [| w] Hw.
  - simpl. by exists 0%Q.
  - simpl. destruct (Hval w) as (v & Hv & Hclosed); [lia |]. by exists v.
Qed.

(** ** The shape of the footprint *)

Lemma Qdiv_le_cross a b c d :
  (0 < b)%Q → (0 < d)%Q → (a * d <= c * b)%Q → (a / b <= c / d)%Q.
Proof.
  intros Hb Hd Hle. apply Qle_shift_div_r; [done |].
  assert (c / d * b == c * b / d)%Q as -> by (field; lra).
  by apply Qle_shift_div_l.
Qed.

Lemma excess_zero w l : (∀ x, x ∈ l → x ≤ w) → excess w l = 0.
Proof.
  intros Hl. unfold excess. apply sum_list_with_zero.
  intros x Hx. specialize (Hl x Hx). lia.
Qed.

Lemma reuse_excess_zero w hist : length hist ≤ S w → reuse_excess w hist = 0.
Proof.
  intros Hlen. unfold reuse_excess. apply sum_list_with_zero.
  intros t [_ Ht]%elem_of_seq. replace (t - w) with 0 by lia. done.
Qed.

Lemma sum_list_with_scaled_le {A} (c1 c2 : nat) (f g : A → nat) l :
  (∀ x, x ∈ l → c1 * f x ≤ c2 * g x) →
  c1 * sum_list_with f l ≤ c2 * sum_list_with g l.
Proof.
  induction l as [| x l IH]; intros Hl; simpl; [lia |].
  pose proof (Hl x ltac:(left)).
  assert (c1 * sum_list_with f l ≤ c2 * sum_list_with g l).
  { apply IH. intros y Hy. apply Hl. by right. }
  lia.
Qed.

(** One gap [x ≤ n]: its excess over [w + 1], spread over [n - w] windows,
    is at most its excess over [w], spread over [n - w + 1] windows. *)
Lemma gap_step n w x : x ≤ n → w < n → (n - w + 1) * (x - S w) ≤ (n - w) * (x - w).
Proof.
  intros Hx Hw. destruct (decide (x ≤ w)) as [Hle | Hgt].
  - replace (x - S w) with 0 by lia. lia.
  - assert (∃ a d, x = w + a ∧ n = w + d ∧ 1 ≤ a ∧ a ≤ d) as (a & d & -> & -> & Ha & Hd).
    { exists (x - w), (n - w). lia. }
    replace (w + d - w + 1) with (d + 1) by lia.
    replace (w + d - w) with d by lia.
    replace (w + a - S w) with (a - 1) by lia.
    replace (w + a - w) with a by lia.
    nia.
Qed.

Lemma excess_step n w l :
  (∀ x, x ∈ l → x ≤ n) → w < n →
  (n - w + 1) * excess (S w) l ≤ (n - w) * excess w l.
Proof.
  intros Hl Hw. unfold excess. apply sum_list_with_scaled_le.
  intros x Hx. apply gap_step; [by apply Hl | done].
Qed.

Lemma reuse_excess_step n w hist :
  length hist = n → w < n →
  (n - w + 1) * reuse_excess (S w) hist ≤ (n - w) * reuse_excess w hist.
Proof.
  intros Hlen Hw. unfold reuse_excess. apply sum_list_with_scaled_le.
  intros t [_ Ht]%elem_of_seq.
  pose proof (gap_step n w t ltac:(lia) Hw). nia.
Qed.

Lemma gap_excess_step n w F L hist :
  (∀ x, x ∈ F → x ≤ n) → (∀ x, x ∈ L → x ≤ n) → length hist = n → w < n →
  (n - w + 1) * gap_excess (S w) F L hist ≤ (n - w) * gap_excess w F L hist.
Proof.
  intros HF HL Hhist Hw. unfold gap_excess.
  pose proof (excess_step n w F HF Hw).
  pose proof (excess_step n w L HL Hw).
  pose proof (reuse_excess_step n w hist Hhist Hw).
  lia.
Qed.

Lemma fp_closed_step n m F L hist w :
  (∀ x, x ∈ F → x ≤ n) → (∀ x, x ∈ L → x ≤ n) → length hist = n →
  1 ≤ w → w < n →
  (fp_closed n m F L hist w <= fp_closed n m F L hist (S w))%Q.
Proof.
  intros HF HL Hhist Hw1 Hw. unfold fp_closed.
  destruct (Nat.eqb_spec w 0); [lia |]. simpl.
  assert (to_double (gap_excess (S w) F L hist) / to_double (n - S w + 1)
          <= to_double (gap_excess w F L hist) / to_double (n - w + 1))%Q; [| lra].
  replace (n - S w + 1) with (n - w) by lia.
  apply Qdiv_le_cross; try (apply to_double_pos; lia).
  rewrite <- !to_double_mult. apply to_double_le.
  pose proof (gap_excess_step n w F L hist HF HL Hhist Hw). lia.
Qed.

Lemma fp_closed_top n m F L hist :
  (∀ x, x ∈ F → x ≤ n) → (∀ x, x ∈ L → x ≤ n) → length hist = n → 1 ≤ n →
  (fp_closed n m F L hist n == to_double m)%Q.
Proof.
  intros HF HL Hhist Hn. unfold fp_closed, gap_excess.
  destruct (Nat.eqb_spec n 0); [lia |].
  rewrite !excess_zero, reuse_excess_zero by (done || lia).
  simpl. rewrite to_double_0. unfold Qdiv. lra.
Qed.

Lemma excess_one l : (∀ x, x ∈ l → 1 ≤ x) → excess 1 l + length l = sum_list l.
Proof.
  induction l as [| x l IH]; intros Hl; [done |].
  rewrite excess_cons, sum_list_cons. simpl length.
  pose proof (Hl x ltac:(left)).
  assert (excess 1 l + length l = sum_list l).
  { apply IH. intros y Hy. apply Hl. by right. }
  lia.
Qed.

Lemma reuse_excess_le_weighted w hist : reuse_excess w hist ≤ weighted_sum hist.
Proof.
  unfold reuse_excess, weighted_sum.
  pose proof (sum_list_with_scaled_le 1 1
                (λ t, (t - w) * hist !!! t) (λ t, t * hist !!! t)
                (seq 0 (length hist))) as Hle.
  rewrite !Nat.mul_1_l in Hle. apply Hle. intros t _. nia.
Qed.

Lemma fp_closed_bottom n m F L hist :
  1 ≤ n → gap_excess 1 F L hist ≤ m * n →
  (fp_closed n m F L hist 0 <= fp_closed n m F L hist 1)%Q.
Proof.
  intros Hn Hgap. unfold fp_closed. simpl.
  replace (n - 1 + 1) with n by lia.
  assert (to_double (gap_excess 1 F L hist) / to_double n <= to_double m)%Q; [| lra].
  apply Qle_shift_div_r; [apply to_double_pos; lia |].
  rewrite <- to_double_mult. by apply to_double_le.
Qed.

Lemma fp_closed_mono n m F L hist :
  (∀ x, x ∈ F → x ≤ n) → (∀ x, x ∈ L → x ≤ n) → length hist = n → 1 ≤ n →
  gap_excess 1 F L hist ≤ m * n →
  ∀ w1 w2, w1 ≤ w2 → w2 ≤ n →
    (fp_closed n m F L hist w1 <= fp_closed n m F L hist w2)%Q.
Proof.
  intros HF HL Hhist Hn Hgap w1 w2 Hle. induction Hle as [| w2 Hle IH]; intros Hw2.
  - apply Qle_refl.
  - eapply Qle_trans; [apply IH; lia |].
    destruct w2 as [| w2].
    + by apply fp_closed_bottom.
    + apply fp_closed_step; try done; lia.
Qed.

(** What [calculateWindowStats] hands to [calculateFpValues] for a class. *)
Lemma class_footprint_inputs entries stats c F L hist n m :
  window_stats entries = Some stats →
  firstAccessTimesByClass stats !! c = Some F →
  lastAccessTimesByClass stats !! c = Some L →
  reuseTimeHistogramByClass stats !! c = Some hist →
  nByClass stats !! c = Some n →
  mByClass stats !! c = Some m →
  1 ≤ n ∧ length hist = n
  ∧ StronglySorted le F ∧ StronglySorted le L
  ∧ (∀ x, x ∈ F → 1 ≤ x ≤ n) ∧ (∀ x, x ∈ L → 1 ≤ x ≤ n)
  ∧ gap_excess 1 F L hist ≤ m * n.
Proof.
  intros Hstats HF HL Hhist Hn Hm.
  destruct (decide (c ∈ entries.*2)) as [Hin | Hnotin].
  2:{ destruct (window_stats_absent _ _ _ Hstats Hnotin) as (_ & _ & _ & Hn' & _).
      congruence. }
  destruct (window_stats_present _ _ _ Hstats Hin)
    as (s & Hscan & HF' & HL' & Hhist' & Hn' & Hm').
  rewrite HF in HF'. rewrite HL in HL'. rewrite Hhist in Hhist'.
  rewrite Hn in Hn'. rewrite Hm in Hm'.
  injection HF' as ->. injection HL' as ->. injection Hhist' as ->.
  injection Hn' as Hn'. injection Hm' as ->.
  set (keys := class_keys c entries) in *.
  assert (1 ≤ n) as Hn1.
  { rewrite Hn'. destruct keys eqn:Hkeys; [| simpl; lia].
    by apply class_keys_nil_iff in Hkeys. }
  destruct (scan_inv_preserved (length keys) keys (scan_start_of (length keys)) s)
    as ((_ & Hlen & Hdom & Hfl & Hlast & Hsum) & Hidx & Hdomf);
    [apply scan_inv_start | done | done |].
  simpl in Hidx. rewrite <- Hn' in *.
  assert (∀ k a, scan_first s !! k = Some a → a < n) as Hfirst.
  { intros k a Ha. destruct (Hfl k a Ha) as (b & Hb & Hab).
    apply Hlast in Hb. lia. }
  assert (∀ k b, scan_last s !! k = Some b → b < n) as Hlast'.
  { intros k b Hb. apply Hlast in Hb. lia. }
  pose proof (sorted_first_access_perm n _ Hfirst) as HFperm.
  pose proof (sorted_last_access_perm n _ Hlast') as HLperm.
  assert (size (scan_first s) = size (list_to_set keys : gset N)) as Hsize.
  { rewrite <- (size_dom (D := gset N)), Hdomf. simpl.
    by rewrite dom_empty_L, union_empty_l_L. }
  assert (size (scan_last s) = size (scan_first s)) as HsizeL.
  { by rewrite <- (size_dom (D := gset N)), <- Hdom, size_dom. }
  assert (∀ x, x ∈ sorted_first_access n (scan_first s) → 1 ≤ x ≤ n) as HFrange.
  { intros x. rewrite HFperm. unfold first_values.
    intros ([k a] & -> & Hka%elem_of_map_to_list)%list_elem_of_fmap. simpl.
    apply Hfirst in Hka. lia. }
  assert (∀ x, x ∈ sorted_last_access n (scan_last s) → 1 ≤ x ≤ n) as HLrange.
  { intros x. rewrite HLperm. unfold last_values.
    intros ([k b] & -> & Hkb%elem_of_map_to_list)%list_elem_of_fmap. simpl.
    apply Hlast' in Hkb. lia. }
  repeat split; try done; try apply expand_counts_sorted;
    try (by apply HFrange); try (by apply HLrange).
  (* the windows of length one *)
  unfold gap_excess.
  pose proof (excess_one _ (λ x Hx, proj1 (HFrange x Hx))) as HF1.
  pose proof (excess_one _ (λ x Hx, proj1 (HLrange x Hx))) as HL1.
  pose proof (reuse_excess_le_weighted 1 (scan_hist s)) as HR1.
  rewrite HFperm in HF1 at 2 3. rewrite HLperm in HL1 at 2 3.
  rewrite first_values_sum in HF1.
  pose proof (last_values_sum n _ Hlast') as HLsum.
  assert (length (first_values (scan_first s)) = size (scan_first s)) as HFlen
    by (unfold first_values; by rewrite length_fmap, length_map_to_list).
  assert (length (last_values n (scan_last s)) = size (scan_last s)) as HLlen
    by (unfold last_values; by rewrite length_fmap, length_map_to_list).
  rewrite HFlen in HF1. rewrite HLlen in HL1.
  rewrite <- Hsize. nia.
Qed.

(** C3: for every class of a snapshot, with class-local access count
    [n ≥ 1] and distinct-key count [m], the vector of [calculateFpValues]
    has the entries [0 .. n], starts at [fp(0) = 0], ends at [fp(n) = m],
    and does not decrease over [0 .. n]. *)
Theorem footprint_shape (st : FootprintMRC) (stats : WindowStats) (c : ClassId)
    (F L hist : list nat) (n m : nat) :
  calculateWindowStats st = Some stats →
  firstAccessTimesByClass stats !! c = Some F →
  lastAccessTimesByClass stats !! c = Some L →
  reuseTimeHistogramByClass stats !! c = Some hist →
  nByClass stats !! c = Some n →
  mByClass stats !! c = Some m →
  let fp := calculateFpValues F L hist n m in
  1 ≤ n
  ∧ length fp = S n
  ∧ fp !! 0 = Some 0%Q
  ∧ (∃ v, fp !! n = Some v ∧ (v == to_double m)%Q)
  ∧ ∀ w1 w2 v1 v2, w1 ≤ w2 → w2 ≤ n →
      fp !! w1 = Some v1 → fp !! w2 = Some v2 → (v1 <= v2)%Q.
Proof.
  intros Hstats HF HL Hhist Hn Hm fp.
  rewrite calculateWindowStats_eq in Hstats.
  destruct (class_footprint_inputs _ _ _ _ _ _ _ _ Hstats HF HL Hhist Hn Hm)
    as (Hn1 & Hlen & HFs & HLs & HFr & HLr & Hgap).
  destruct (calculateFpValues_spec F L hist n m Hn1 Hlen HFs HLs) as [Hfplen Hfp].
  fold fp in Hfplen, Hfp.
  assert (∀ x, x ∈ F → x ≤ n) as HF' by (intros x Hx; apply HFr in Hx; lia).
  assert (∀ x, x ∈ L → x ≤ n) as HL' by (intros x Hx; apply HLr in Hx; lia).
  split; [done |]. split; [done |]. split; [| split].
  - destruct (Hfp 0) as (v & Hv & _); [lia |]. unfold fp in *.
    unfold calculateFpValues in *. by destruct (n =? 0).
  - destruct (Hfp n) as (v & Hv & Hclosed); [lia |].
    exists v. split; [done |]. rewrite Hclosed. by apply fp_closed_top.
  - intros w1 w2 v1 v2 Hw Hw2 H1 H2.
    destruct (Hfp w1) as (v1' & Hv1 & Hc1); [lia |].
    destruct (Hfp w2) as (v2' & Hv2 & Hc2); [lia |].
    rewrite H1 in Hv1. rewrite H2 in Hv2.
    injection Hv1 as <-. injection Hv2 as <-.
    rewrite Hc1, Hc2. by apply fp_closed_mono.
Qed.

(** C3 on [example_ring], class [3]. *)
Lemma footprint_shape_witness :
  ∃ stats F L hist n m,
    calculateWindowStats example_ring = Some stats
    ∧ firstAccessTimesByClass stats !! 3%Z = Some F
    ∧ lastAccessTimesByClass stats !! 3%Z = Some L
    ∧ reuseTimeHistogramByClass stats !! 3%Z = Some hist
    ∧ nByClass stats !! 3%Z = Some n
    ∧ mByClass stats !! 3%Z = Some m
    ∧ let fp := calculateFpValues F L hist n m in
      1 ≤ n
      ∧ length fp = S n
      ∧ fp !! 0 = Some 0%Q
      ∧ (∃ v, fp !! n = Some v ∧ (v == to_double m)%Q)
      ∧ ∀ w1 w2 v1 v2, w1 ≤ w2 → w2 ≤ n →
          fp !! w1 = Some v1 → fp !! w2 = Some v2 → (v1 <= v2)%Q.
Proof.
  assert (∃ stats, calculateWindowStats example_ring = Some stats)
    as [stats Hstats].
  { destruct (calculateWindowStats example_ring) as [stats |] eqn:Hs;
      [by exists stats | by vm_compute in Hs]. }
  assert (∃ F L hist n m,
            firstAccessTimesByClass stats !! 3%Z = Some F
            ∧ lastAccessTimesByClass stats !! 3%Z = Some L
            ∧ reuseTimeHistogramByClass stats !! 3%Z = Some hist
            ∧ nByClass stats !! 3%Z = Some n
            ∧ mByClass stats !! 3%Z = Some m)
    as (F & L & hist & n & m & HF & HL & Hhist & Hn & Hm).
  { vm_compute in Hstats. injection Hstats as <-.
    do 5 eexists. repeat split; vm_compute; reflexivity. }
  exists stats, F, L, hist, n, m.
  repeat (split; [assumption |]).
  exact (footprint_shape example_ring stats 3%Z F L hist n m
           Hstats HF HL Hhist Hn Hm).
Defined.

(** ** Optimality of the dynamic program *)

Lemma cost_lt_Finite x c :
  cost_lt (Finite x) c = true ↔
  match c with Finite y => (x < y)%Q | Inf => True end.
Proof. destruct c as [y |]; simpl; [apply Qlt_bool_iff | done]. Qed.

(** The loop over [k] keeps a minimum: the cell ends at most at every
    candidate it has seen, and at most at its initial value. *)
Lemma dp_cell_fold_min prevRow costRow j ks : ∀ cell,
  let res := foldl (dp_cell_step prevRow costRow j) cell ks in
  (∀ f0, cell.1 = Finite f0 → ∃ f, res.1 = Finite f ∧ (f <= f0)%Q)
  ∧ ∀ k f', k ∈ ks → prevRow !!! (j - k) = Finite f' →
      ∃ f, res.1 = Finite f ∧ (f <= f' + costRow !!! k)%Q.
Proof.
  induction ks as [| k0 ks IH]; intros cell; simpl.
  - split.
    + intros f0 Hf0. exists f0. split; [done | apply Qle_refl].
    + intros k f' Hk. by apply elem_of_nil in Hk.
  - destruct (IH (dp_cell_step prevRow costRow j cell k0)) as [IHinit IHseen].
    assert (∀ f0, cell.1 = Finite f0 →
              ∃ f1, (dp_cell_step prevRow costRow j cell k0).1 = Finite f1
                    ∧ (f1 <= f0)%Q) as Hkeep.
    { intros f0 Hf0. unfold dp_cell_step. destruct cell as [Fij Bij].
      simpl in Hf0. subst Fij.
      destruct (prevRow !!! (j - k0)) as [p |].
      2:{ exists f0. split; [done | apply Qle_refl]. }
      destruct (cost_lt (Finite (p + costRow !!! k0)) (Finite f0)) eqn:Hlt.
      - apply cost_lt_Finite in Hlt. eexists. split; [done |]. simpl. lra.
      - exists f0. split; [done | apply Qle_refl]. }
    split.
    + intros f0 Hf0. destruct (Hkeep f0 Hf0) as (f1 & Hf1 & Hle1).
      destruct (IHinit f1 Hf1) as (f & Hf & Hle). exists f. split; [done | lra].
    + intros k f' [-> | Hk]%elem_of_cons Hprev; [| by eapply IHseen].
      assert (∃ f1, (dp_cell_step prevRow costRow j cell k0).1 = Finite f1
                    ∧ (f1 <= f' + costRow !!! k0)%Q) as (f1 & Hf1 & Hle1).
      { unfold dp_cell_step. destruct cell as [Fij Bij]. rewrite Hprev.
        destruct (cost_lt (Finite (f' + costRow !!! k0)) Fij) eqn:Hlt.
        - eexists. split; [done | apply Qle_refl].
        - destruct Fij as [y |]; [| done]. exists y. split; [done |].
          simpl in Hlt. apply Qnot_lt_le. intros H%Qlt_bool_iff. congruence. }
      destruct (IHinit f1 Hf1) as (f & Hf & Hle). exists f. split; [done | lra].
Qed.

(** The cell ends at a candidate: its value is the one of the [k] kept in
    [B], and that [k] is at most [j]. *)
Lemma dp_cell_fold_witness prevRow costRow j ks : ∀ cell,
  (∀ k, k ∈ ks → k ≤ j) →
  (∀ f, cell.1 = Finite f →
     cell.2 ≤ j ∧ ∃ f', prevRow !!! (j - cell.2) = Finite f'
                        ∧ f = (f' + costRow !!! cell.2)%Q) →
  let res := foldl (dp_cell_step prevRow costRow j) cell ks in
  ∀ f, res.1 = Finite f →
    res.2 ≤ j ∧ ∃ f', prevRow !!! (j - res.2) = Finite f'
                      ∧ f = (f' + costRow !!! res.2)%Q.
Proof.
  induction ks as [| k0 ks IH]; intros cell Hks Hcell; simpl; [done |].
  apply IH.
  - intros k Hk. apply Hks. by right.
  - intros f. unfold dp_cell_step. destruct cell as [Fij Bij].
    destruct (prevRow !!! (j - k0)) as [p |] eqn:Hp; [| apply Hcell].
    destruct (cost_lt (Finite (p + costRow !!! k0)) Fij); [| apply Hcell].
    simpl. intros [= <-]. split; [apply Hks; left |]. by exists p.
Qed.

Lemma dp_row_F maxTotal maxS prevRow costRow j :
  j ≤ maxTotal →
  (dp_row maxTotal maxS prevRow costRow).1 !!! j = (dp_cell maxS prevRow costRow j).1.
Proof.
  intros Hj. rewrite dp_row_fst. apply list_lookup_total_correct.
  rewrite !list_lookup_fmap, lookup_seq_lt by lia. done.
Qed.

Lemma last_F_cons row0 row rows : last_F row0 (row :: rows) = last_F row.1 rows.
Proof.
  unfold last_F. destruct rows as [| r rs]; [done |].
  rewrite !fmap_cons. change (last (row.1 :: r.1 :: rs.*1)) with (last (r.1 :: rs.*1)).
  destruct (last_is_Some (r.1 :: rs.*1)) as [_ [x ->]]; done.
Qed.

Lemma dp_rows_snoc maxTotal maxS costTable costRow : ∀ prevRow,
  dp_rows maxTotal maxS prevRow (costTable ++ [costRow])
  = dp_rows maxTotal maxS prevRow costTable
    ++ [dp_row maxTotal maxS
          (last_F prevRow (dp_rows maxTotal maxS prevRow costTable)) costRow].
Proof.
  induction costTable as [| c cs IH]; intros prevRow; [done |].
  rewrite <- app_comm_cons, !dp_rows_cons, IH, <- app_comm_cons.
  by rewrite last_F_cons.
Qed.

Lemma last_F_snoc row0 rows row : last_F row0 (rows ++ [row]) = row.1.
Proof. unfold last_F. rewrite fmap_app. simpl fmap. by rewrite last_snoc. Qed.

Lemma allocation_cost_snoc costTable costRow : ∀ alloc slabs,
  length alloc = length costTable →
  (allocation_cost (costTable ++ [costRow]) (alloc ++ [slabs])
   == allocation_cost costTable alloc + costRow !!! slabs)%Q.
Proof.
  induction costTable as [| c cs IH]; intros [| a alloc] slabs Hlen;
    simpl in *; try done; try lra.
  rewrite IH by lia. lra.
Qed.

Lemma F_row0_finite maxTotal j f : F_row0 maxTotal !!! j = Finite f → j = 0 ∧ f = 0%Q.
Proof.
  destruct j as [| j].
  - simpl. by intros [= <-].
  - rewrite F_row0_tail by lia. done.
Qed.

(** No allocation of the whole of [j] slabs costs less than [F[i][j]]. *)
Lemma dp_lower_bound maxTotal costTable : ∀ alloc j,
  j ≤ maxTotal → length alloc = length costTable → sum_list alloc = j →
  ∃ f, last_F (F_row0 maxTotal)
         (dp_rows maxTotal maxTotal (F_row0 maxTotal) costTable) !!! j = Finite f
       ∧ (f <= allocation_cost costTable alloc)%Q.
Proof.
  induction costTable as [| costRow costTable IH] using rev_ind;
    intros alloc j Hj Hlen Hsum.
  - destruct alloc; [| done]. simpl in Hsum. subst j.
    exists 0%Q. split; [done | apply Qle_refl].
  - rewrite length_app in Hlen. simpl in Hlen.
    destruct alloc as [| a alloc _] using rev_ind; [simpl in Hlen; lia |].
    rewrite length_app in Hlen. simpl in Hlen.
    rewrite sum_list_with_app in Hsum. simpl in Hsum.
    destruct (IH alloc (j - a)) as (f' & Hf' & Hle'); [lia | lia | lia |].
    rewrite dp_rows_snoc, last_F_snoc, dp_row_F by done.
    unfold dp_cell.
    destruct (dp_cell_fold_min
                (last_F (F_row0 maxTotal)
                   (dp_rows maxTotal maxTotal (F_row0 maxTotal) costTable))
                costRow j (seq 0 (S (j `min` maxTotal))) (Inf, 0)) as [_ Hseen].
    destruct (Hseen a f') as (f & Hf & Hle); [apply elem_of_seq; lia | done |].
    exists f. split; [done |].
    rewrite allocation_cost_snoc by lia. lra.
Qed.

Lemma walk_rows_snoc (rows : list (list cost * list nat)) row r :
  reverse (walk (reverse (rows ++ [row]).*2) r)
  = reverse (walk (reverse rows.*2) (r - row.2 !!! r)) ++ [row.2 !!! r].
Proof. rewrite fmap_app, reverse_app. simpl. by rewrite reverse_cons. Qed.

(** The walk back picks an allocation of the whole of [r] slabs whose cost
    is [F[i][r]]. *)
Lemma walk_achieves maxTotal costTable : ∀ r f,
  r ≤ maxTotal →
  last_F (F_row0 maxTotal)
    (dp_rows maxTotal maxTotal (F_row0 maxTotal) costTable) !!! r = Finite f →
  let alloc :=
    reverse (walk (reverse (dp_rows maxTotal maxTotal (F_row0 maxTotal) costTable).*2) r) in
  length alloc = length costTable
  ∧ sum_list alloc = r
  ∧ (f == allocation_cost costTable alloc)%Q.
Proof.
  induction costTable as [| costRow costTable IH] using rev_ind; intros r f Hr Hf.
  - apply F_row0_finite in Hf as [-> ->]. done.
  - rewrite dp_rows_snoc, last_F_snoc, dp_row_F in Hf by done.
    rewrite dp_rows_snoc, walk_rows_snoc, dp_row_B by done.
    set (P := last_F (F_row0 maxTotal)
                (dp_rows maxTotal maxTotal (F_row0 maxTotal) costTable)) in *.
    destruct (dp_cell_fold_witness P costRow r (seq 0 (S (r `min` maxTotal))) (Inf, 0))
      with (f := f) as (Hk & f' & Hf' & ->).
    + intros k Hk%elem_of_seq. lia.
    + done.
    + exact Hf.
    + fold (dp_cell maxTotal P costRow r) in *.
      set (k := (dp_cell maxTotal P costRow r).2) in *.
      destruct (IH (r - k) f') as (Hlen & Hsum & Hcost); [lia | done |].
      cbv zeta.
      rewrite !length_app, sum_list_with_app. simpl.
      split; [lia |]. split; [lia |].
      rewrite allocation_cost_snoc by done. rewrite Hcost. lra.
Qed.

(** ** Sums of rationals *)

Lemma Qsum_with_perm {A} (g : A → Q) l1 l2 :
  l1 ≡ₚ l2 → (Qsum_with g l1 == Qsum_with g l2)%Q.
Proof.
  induction 1 as [| x l1 l2 _ IH | x y l | l1 l2 l3 _ IH1 _ IH2]; simpl.
  - reflexivity.
  - rewrite IH. reflexivity.
  - lra.
  - by rewrite IH1.
Qed.

Lemma Qsum_with_zero {A} (g : A → Q) l :
  (∀ x, x ∈ l → (g x == 0)%Q) → (Qsum_with g l == 0)%Q.
Proof.
  induction l as [| x l IH]; intros Hz; simpl; [reflexivity |].
  rewrite (Hz x) by left. rewrite IH; [lra |].
  intros y Hy. apply Hz. by right.
Qed.

Lemma Qsum_with_fmap {A B} (h : A → B) (g : B → Q) l :
  Qsum_with g (h <$> l) = Qsum_with (g ∘ h) l.
Proof. induction l as [| x l IH]; simpl; [done |]. f_equal. exact IH. Qed.

Lemma total_misses_fold mrc l : ∀ acc,
  (foldl (total_misses_step mrc) acc l == acc + Qsum_with (miss_term mrc) l)%Q.
Proof.
  induction l as [| p l IH]; intros acc; simpl; [lra |].
  rewrite IH. unfold total_misses_step, miss_term.
  destruct (mrc !! p.1) as [[[pts delta] n] |]; lra.
Qed.

Lemma total_misses_Qsum mrc l :
  (total_misses mrc l == Qsum_with (miss_term mrc) l)%Q.
Proof. unfold total_misses. rewrite total_misses_fold. lra. Qed.

(** A sum over the entries of a map whose terms vanish outside of the
    keys [ks] is the sum over [ks]. *)
Lemma Qsum_with_map_keys (g : Z * nat → Q) ks : ∀ m : gmap Z nat,
  NoDup ks →
  (∀ c, c ∈ ks → is_Some (m !! c)) →
  (∀ c s, m !! c = Some s → c ∉ ks → (g (c, s) == 0)%Q) →
  (Qsum_with g (map_to_list m)
   == Qsum_with (λ c, g (c, default 0%nat (m !! c))) ks)%Q.
Proof.
  induction ks as [| c ks IH]; intros m Hnodup Hin Hzero.
  - simpl. apply Qsum_with_zero. intros [c s] Hcs%elem_of_map_to_list.
    apply Hzero; [done | apply not_elem_of_nil].
  - apply NoDup_cons in Hnodup as [Hc Hnodup].
    destruct (Hin c) as [s Hs]; [left |].
    rewrite <- (insert_delete_id m c s) at 1 by done.
    rewrite (Qsum_with_perm g _ _ (map_to_list_insert (delete c m) c s
                                     (lookup_delete_eq m c))).
    simpl. rewrite Hs. simpl.
    rewrite (IH (delete c m)); [| done | |].
    + assert (Qsum_with (λ c0, g (c0, default 0 (delete c m !! c0))) ks
              = Qsum_with (λ c0, g (c0, default 0 (m !! c0))) ks) as ->;
        [| reflexivity].
      clear -Hc. induction ks as [| c' ks IH]; simpl; [done |].
      rewrite lookup_delete_ne by (intros ->; apply Hc; left).
      rewrite IH; [done |]. intros H. apply Hc. by right.
    + intros c' Hc'. rewrite lookup_delete_ne by (intros ->; done).
      apply Hin. by right.
    + intros c' s' Hs' Hc'. apply lookup_delete_Some in Hs' as [Hne Hs'].
      apply Hzero; [done |]. intros [-> | H]%elem_of_cons; done.
Qed.

Lemma map_sum_delete (m : gmap Z nat) c s :
  m !! c = Some s → map_sum m = s + map_sum (delete c m).
Proof.
  intros Hs. rewrite <- (insert_delete_id m c s) at 1 by done.
  apply map_sum_insert, lookup_delete_eq.
Qed.

Lemma map_sum_lookup_le (m : gmap Z nat) c :
  default 0 (m !! c) ≤ map_sum m.
Proof.
  destruct (m !! c) as [s |] eqn:Hs; simpl; [| lia].
  rewrite (map_sum_delete m c s Hs). lia.
Qed.

(** The slab counts of distinct classes sum to at most the total. *)
Lemma sum_list_keys_le ks : ∀ m : gmap Z nat,
  NoDup ks → sum_list ((λ c, default 0 (m !! c)) <$> ks) ≤ map_sum m.
Proof.
  induction ks as [| c ks IH]; intros m Hnodup; csimpl; [lia |].
  apply NoDup_cons in Hnodup as [Hc Hnodup].
  assert ((λ c0, default 0 (m !! c0)) <$> ks
          = (λ c0, default 0 (delete c m !! c0)) <$> ks) as ->.
  { apply list_fmap_ext. intros i c' Hc'.
    rewrite lookup_delete_ne; [done |]. intros ->.
    apply Hc. by eapply list_elem_of_lookup_2. }
  specialize (IH (delete c m) Hnodup).
  destruct (m !! c) as [s |] eqn:Hs; simpl.
  - rewrite (map_sum_delete m c s Hs). lia.
  - rewrite delete_id by done. rewrite delete_id in IH by done. lia.
Qed.

(** ** The cost table *)

Lemma getMissRatio_curve hist fp n a maxSlabCount s :
  s ≤ maxSlabCount →
  _getMissRatio (mrc_curve hist fp n a maxSlabCount).1.1 s
  = miss_ratio_at hist fp n a s.
Proof.
  intros Hs. unfold _getMissRatio.
  destruct (Nat.eqb_spec s 0) as [-> | _]; [by rewrite miss_ratio_at_zero |].
  rewrite mrc_curve_points. by destruct (decide (s ≤ maxSlabCount)).
Qed.

Lemma cost_row_lookup maxTotal data j :
  j ≤ maxTotal →
  cost_row maxTotal maxTotal data !!! j
  = (to_double data.2 * _getMissRatio data.1.1 j)%Q.
Proof.
  intros Hj. unfold cost_row. apply list_lookup_total_correct.
  rewrite (list_lookup_fmap _ (seq 0 (S maxTotal)) j), lookup_seq_lt by lia.
  simpl. by rewrite Nat.min_l by done.
Qed.

(** The weighted misses of the classes of the MRC view, under the slab
    counts [slabs], are the cost of the allocation in the cost table. *)
Lemma allocation_cost_misses (mrc : gmap Z (gmap nat Q * gmap nat Q * nat))
    maxTotal (slabs : Z → nat) classIds : ∀ classData,
  mapM (λ c, mrc !! c) classIds = Some classData →
  (∀ c, c ∈ classIds → slabs c ≤ maxTotal) →
  (allocation_cost (map (cost_row maxTotal maxTotal) classData) (slabs <$> classIds)
   == Qsum_with (λ c, miss_term mrc (c, slabs c)) classIds)%Q.
Proof.
  intros classData Hdata%mapM_Some.
  induction Hdata as [| c data classIds classData Hc _ IH]; intros Hle;
    csimpl; [reflexivity |].
  rewrite IH by (intros c' Hc'; apply Hle; by right).
  rewrite cost_row_lookup by (apply Hle; left).
  unfold miss_term at 2. simpl. rewrite Hc.
  destruct data as [[pts delta] n]. simpl. reflexivity.
Qed.

(** ** The allocation read from the walk back *)

Lemma walk_length Brows : ∀ remaining, length (walk Brows remaining) = length Brows.
Proof. induction Brows as [| Brow l IH]; intros r; simpl; [done |]. by rewrite IH. Qed.

Lemma reconstruct_walk rows : ∀ remaining allocation,
  reconstruct rows remaining allocation
  = foldl (λ m (p : Z * nat), <[p.1 := p.2]> m) allocation
          (zip rows.*1 (walk rows.*2 remaining)).
Proof.
  induction rows as [| [c Brow] rows IH]; intros remaining allocation; [done |].
  simpl. by rewrite IH.
Qed.

Lemma foldl_insert_notin (l : list (Z * nat)) c : ∀ init : gmap Z nat,
  c ∉ l.*1 →
  foldl (λ m (p : Z * nat), <[p.1 := p.2]> m) init l !! c = init !! c.
Proof.
  induction l as [| [c0 s0] l IH]; intros init Hc; [done |].
  simpl. rewrite fmap_cons in Hc. apply not_elem_of_cons in Hc as [Hne Hc].
  rewrite IH by done. by rewrite lookup_insert_ne.
Qed.

Lemma foldl_insert_lookup (l : list (Z * nat)) c s : ∀ init : gmap Z nat,
  NoDup l.*1 → (c, s) ∈ l →
  foldl (λ m (p : Z * nat), <[p.1 := p.2]> m) init l !! c = Some s.
Proof.
  induction l as [| [c0 s0] l IH]; intros init Hnodup Hin.
  - by apply elem_of_nil in Hin.
  - rewrite fmap_cons in Hnodup. apply NoDup_cons in Hnodup as [Hc0 Hnodup].
    simpl. apply elem_of_cons in Hin as [[= -> ->] | Hin].
    + rewrite foldl_insert_notin by done. by rewrite lookup_insert_eq.
    + by apply IH.
Qed.

(** The optimal allocation gives the class at position [i] the slab count
    that the walk back picks for row [i]. *)
Lemma reconstruct_lookup classIds (Brows : list (list nat)) budget i c s :
  NoDup classIds → length Brows = length classIds →
  classIds !! i = Some c →
  reverse (walk (reverse Brows) budget) !! i = Some s →
  reconstruct (reverse (zip classIds Brows)) budget ∅ !! c = Some s.
Proof.
  intros Hnodup Hlen Hc Hs.
  assert (length (walk (reverse Brows) budget) = length classIds) as Hwlen.
  { by rewrite walk_length, length_reverse. }
  rewrite reconstruct_walk, !fmap_reverse, fst_zip, snd_zip by lia.
  apply foldl_insert_lookup.
  - rewrite fst_zip by (rewrite length_reverse; lia).
    by rewrite reverse_Permutation.
  - apply reverse_lookup_Some in Hs as [Hs Hi]. rewrite Hwlen in Hs, Hi.
    apply list_elem_of_lookup. exists (length classIds - S i).
    apply lookup_zip_with_Some. exists c, s. split; [done |]. split; [| done].
    apply reverse_lookup_Some. split; [| lia].
    by replace (length classIds - S (length classIds - S i)) with i by lia.
Qed.

(** ** The optimal allocation against the current one *)

(** The cost of a class does not increase with its slab count, over the
    slab counts of the budget. *)
Lemma cost_row_mono st allocs budget mrc c data s1 s2 :
  queryMrc st allocs budget = Some mrc → mrc !! c = Some data →
  (∀ a, allocs !! c = Some a → fits64 (budget * a)) →
  s1 ≤ s2 → s2 ≤ budget →
  (cost_row budget budget data !!! s2 <= cost_row budget budget data !!! s1)%Q.
Proof.
  intros Hq Hc Hfits H12 H2. destruct data as [[pts delta] n].
  destruct (queryMrc_lookup_Some _ _ _ _ _ _ _ _ Hq Hc)
    as (a & hist & fp & Ha & _ & _ & ->).
  rewrite !cost_row_lookup by lia. simpl.
  rewrite !getMissRatio_curve by lia.
  rewrite !(Qmult_comm (to_double n)).
  apply Qmult_le_compat_r; [| apply to_double_nonneg].
  apply miss_ratio_at_mono; [done |].
  apply (fits64_le _ (budget * a)); [nia | by apply Hfits].
Qed.

Lemma solver_class_ids_nonempty (mrc : gmap Z (gmap nat Q * gmap nat Q * nat)) :
  mrc ≠ ∅ → std_sort Z.ltb (map_items mrc).*1 ≠ [].
Proof.
  intros Hne Hnil. apply Hne, map_eq. intros c. rewrite lookup_empty.
  apply eq_None_not_Some. intros Hc%elem_of_solver_class_ids.
  rewrite Hnil in Hc. by apply elem_of_nil in Hc.
Qed.

(** An allocation of at most the budget is completed to the whole budget,
    at no greater cost, by giving the first class the slabs left. *)
Lemma pad_allocation st allocs budget mrc classIds classData alloc :
  queryMrc st allocs budget = Some mrc →
  mapM (λ c, mrc !! c) classIds = Some classData → classIds ≠ [] →
  (∀ c a, allocs !! c = Some a → fits64 (budget * a)) →
  length alloc = length classIds → sum_list alloc ≤ budget →
  ∃ alloc',
    length alloc' = length classIds ∧ sum_list alloc' = budget
    ∧ (allocation_cost (map (cost_row budget budget) classData) alloc'
       <= allocation_cost (map (cost_row budget budget) classData) alloc)%Q.
Proof.
  intros Hq Hdata%mapM_Some Hne Hfits Hlen Hsum.
  destruct Hdata as [| c1 data1 classIds classData Hdata1 _]; [done |].
  destruct alloc as [| a1 al]; [done |].
  rewrite sum_list_cons in Hsum.
  exists ((a1 + (budget - (a1 + sum_list al))) :: al).
  split; [done |]. split; [rewrite sum_list_cons; lia |].
  rewrite map_cons. simpl allocation_cost.
  apply Qplus_le_l.
  apply (cost_row_mono st allocs budget mrc c1 data1); try done.
  - intros a Ha. by eapply Hfits.
  - lia.
  - lia.
Qed.

(** With an entry in the current allocation for every class of the MRC
    view, the weighted misses of the optimal allocation are at most the
    ones of the current allocation. *)
Lemma solve_misses_le st allocs current mrc r :
  fits64 (map_sum current) →
  (∀ c a, allocs !! c = Some a → fits64 (map_sum current * a)) →
  queryMrc st allocs (slab_budget current) = Some mrc → mrc ≠ ∅ →
  (∀ c, is_Some (mrc !! c) → is_Some (current !! c)) →
  solveSlabReallocation st allocs current = Some r →
  (total_misses mrc (map_to_list (optimalAllocation r))
   <= total_misses mrc (map_items current))%Q.
Proof.
  intros Hfit Hfits Hq Hne Hcover Hsolve.
  pose proof (solve_optimal_dom _ _ _ _ _ Hq Hne Hsolve) as Hdom.
  pose proof (solve_optimal_sum _ _ _ _ _ Hq Hne Hsolve) as Hsum.
  destruct (solve_main st allocs current mrc Hq Hne)
    as (classData & r' & HclassData & Hsolve' & _ & Hopt & _).
  rewrite Hsolve in Hsolve'. injection Hsolve' as <-.
  pose proof (slab_budget_fits current Hfit) as Hbudget.
  set (budget := slab_budget current) in *.
  set (classIds := std_sort Z.ltb (map_items mrc).*1) in *.
  set (costTable := map (cost_row budget budget) classData) in *.
  set (rows := dp_rows budget budget (F_row0 budget) costTable) in *.
  set (opt := optimalAllocation r) in *.
  pose proof (NoDup_solver_class_ids mrc) as Hnodup. fold classIds in Hnodup.
  assert (length classData = length classIds) as HlenData.
  { symmetry. by eapply length_mapM. }
  assert (length costTable = length classIds) as HlenCost.
  { unfold costTable. by rewrite length_map. }
  assert (∀ c, c ∉ classIds → ∀ s, (miss_term mrc (c, s) == 0)%Q) as Hzero.
  { intros c Hc s. unfold miss_term. simpl.
    destruct (mrc !! c) as [data |] eqn:Hmrc; [| reflexivity].
    exfalso. apply Hc, elem_of_solver_class_ids. by eexists. }
  (* the weighted misses of the optimal allocation *)
  set (allocNew := (λ c, default 0 (opt !! c)) <$> classIds).
  assert (total_misses mrc (map_to_list opt)
          == allocation_cost costTable allocNew)%Q as HnewCost.
  { rewrite total_misses_Qsum, (Qsum_with_map_keys _ classIds opt Hnodup).
    - symmetry. apply allocation_cost_misses; [done |].
      intros c _. rewrite <- Hsum. apply map_sum_lookup_le.
    - intros c Hc%elem_of_solver_class_ids. apply elem_of_dom.
      rewrite Hdom. apply elem_of_union_l. by apply elem_of_dom.
    - intros c s _ Hc. by apply Hzero. }
  (* the weighted misses of the current allocation *)
  set (allocOld := (λ c, default 0 (current !! c)) <$> classIds).
  assert (total_misses mrc (map_items current)
          == allocation_cost costTable allocOld)%Q as HoldCost.
  { rewrite total_misses_Qsum, (Qsum_with_perm _ _ _ (map_items_perm current)).
    rewrite (Qsum_with_map_keys _ classIds current Hnodup).
    - symmetry. apply allocation_cost_misses; [done |].
      intros c _. rewrite Hbudget. apply map_sum_lookup_le.
    - intros c Hc%elem_of_solver_class_ids. by apply Hcover.
    - intros c s _ Hc. by apply Hzero. }
  rewrite HnewCost, HoldCost.
  (* the optimal allocation is the one of the walk back *)
  assert (allocNew = reverse (walk (reverse rows.*2) budget)) as HallocNew.
  { assert (length (reverse (walk (reverse rows.*2) budget)) = length classIds)
      as Hwlen.
    { rewrite length_reverse, walk_length, length_reverse, length_fmap.
      unfold rows. by rewrite dp_rows_length. }
    apply list_eq_same_length with (length classIds);
      [done | unfold allocNew; by rewrite length_fmap |].
    intros i x y Hi Hx Hy.
    unfold allocNew in Hx. rewrite list_lookup_fmap in Hx.
    destruct (classIds !! i) as [c |] eqn:Hc; [| done].
    simpl in Hx. injection Hx as <-.
    rewrite Hopt, fill_missing_lookup.
    rewrite (reconstruct_lookup classIds rows.*2 budget i c y); try done.
    unfold rows. by rewrite length_fmap, dp_rows_length. }
  (* the current allocation, completed to the whole budget *)
  destruct (pad_allocation st allocs budget mrc classIds classData allocOld)
    as (allocPad & HlenPad & HsumPad & HcostPad); try done.
  { by apply solver_class_ids_nonempty. }
  { intros c a Ha. rewrite Hbudget. by eapply Hfits. }
  { unfold allocOld. by rewrite length_fmap. }
  { rewrite Hbudget. by apply sum_list_keys_le. }
  fold costTable in HcostPad.
  destruct (dp_lower_bound budget costTable allocPad budget)
    as (f & Hf & Hlower); [done | by rewrite HlenCost | done |].
  destruct (walk_achieves budget costTable budget f) as (_ & _ & Hachieved);
    [done | done |].
  fold rows in Hachieved. rewrite <- HallocNew in Hachieved.
  rewrite <- Hachieved. lra.
Qed.

(** When every class of the window with a non-zero [allocsPerSlab] has an
    entry in the current allocation, the miss rate of the optimal
    allocation is at most the one of the current allocation.  The slab
    budget and the cache sizes of the curve are assumed to fit a [size_t],
    and the arithmetic on [double] is exact. *)
Lemma solve_no_regression st allocs current r :
  fits64 (map_sum current) →
  (∀ c a, allocs !! c = Some a → fits64 (map_sum current * a)) →
  (∀ c a, c ∈ window_classes st → allocs !! c = Some a → a ≠ 0 →
          is_Some (current !! c)) →
  solveSlabReallocation st allocs current = Some r →
  (mrNew r <= mrOld r)%Q.
Proof.
  intros Hfit Hfits Hcover Hsolve.
  destruct (solve_cases _ _ _ _ Hsolve) as [-> | (mrc & Hq & Hne)];
    [apply Qle_refl |].
  assert (∀ c, is_Some (mrc !! c) → is_Some (current !! c)) as Hcover'.
  { intros c [[[pts delta] n] Hc].
    destruct (queryMrc_lookup_Some _ _ _ _ _ _ _ _ Hq Hc)
      as (a & _ & _ & Ha & Hnz & Hin & _). by eapply Hcover. }
  pose proof (solve_misses_le _ _ _ _ _ Hfit Hfits Hq Hne Hcover' Hsolve) as Hle.
  destruct (solve_main st allocs current mrc Hq Hne)
    as (classData & r' & _ & Hsolve' & _ & _ & _ & Hold & Hnew).
  rewrite Hsolve in Hsolve'. injection Hsolve' as <-.
  rewrite Hold, Hnew.
  destruct (0 <? _); [| apply Qle_refl].
  apply Qmult_le_compat_r; [done |].
  apply Qinv_le_0_compat, to_double_nonneg.
Qed.

(** ** The reported miss rates *)

(** C2 fails when a class of the MRC view has no entry in the current
    allocation (with an entry for each of them it holds, see
    [solve_no_regression]).  On [cold_ring], with one slab held by class
    [1] and none recorded for class [2], every access is a miss under any
    allocation: the new miss rate is [1], but the old one is reported as
    [1/2], the two accesses of class [2] being left out of
    [totalMissesOld]. *)
Lemma solve_miss_rate_increase :
  ∃ r, solveSlabReallocation cold_ring {[1%Z := 1; 2%Z := 1]} {[1%Z := 1]} = Some r
       ∧ (mrOld r == 1 # 2)%Q
       ∧ (mrNew r == 1)%Q
       ∧ ¬ (mrNew r <= mrOld r)%Q.
Proof.
  assert (∃ r, solveSlabReallocation cold_ring {[1%Z := 1; 2%Z := 1]} {[1%Z := 1]}
               = Some r) as [r Hsolve].
  { destruct (solveSlabReallocation cold_ring {[1%Z := 1; 2%Z := 1]} {[1%Z := 1]})
      as [r |] eqn:Hsolve; [by exists r | by vm_compute in Hsolve]. }
  exists r. split; [exact Hsolve |].
  vm_compute in Hsolve. injection Hsolve as <-.
  repeat split; try (by vm_compute).
Qed.

(** * Further properties *)

(** ** The window of the ring *)

Lemma visit_all (bufferSnapshot : list (KeyInt * ClassId)) K start
    (g : nat → KeyInt * ClassId) indices :
  length bufferSnapshot = K → 1 ≤ K →
  (∀ i, i ∈ indices → bufferSnapshot !! ((start + i) mod K) = Some (g i)) →
  visit bufferSnapshot K start indices = g <$> indices.
Proof.
  intros Hlen HK. induction indices as [| i rest IH]; intros Hg; [done |].
  simpl visit. rewrite Hlen.
  pose proof (Nat.mod_upper_bound (start + i) K) as Hlt.
  destruct (Nat.leb_spec K ((start + i) mod K)) as [? | _]; [lia |].
  simpl orb. cbv iota. rewrite (Hg i) by left.
  rewrite IH; [done |]. intros i' Hi'. apply Hg. by right.
Qed.

Lemma mod_apart K t j : j < t → t < j + K → t mod K ≠ j mod K.
Proof.
  intros Hjt HtK Heq.
  destruct (Nat.eq_dec K 0) as [-> | HK0]; [lia |].
  pose proof (Nat.div_mod_eq t K) as Ht.
  pose proof (Nat.div_mod_eq j K) as Hj.
  assert (t / K = j / K ∨ t / K < j / K ∨ j / K < t / K) as [H | [H | H]] by lia.
  - rewrite H in Ht. lia.
  - nia.
  - assert (j / K + 1 ≤ t / K) as H' by lia.
    pose proof (Nat.mod_upper_bound j K HK0). nia.
Qed.

Section WindowProperties.

Variable toKeyInt : Key → KeyInt.

Lemma ring_holds_new K st : FootprintMRC_new K = inr st → ring_holds K [] st.
Proof.
  intros Hnew. split; [by apply ring_ok_new |].
  unfold FootprintMRC_new in Hnew. destruct (Nat.ltb_spec K 1); [done |].
  injection Hnew as <-. simpl. rewrite Nat.Div0.mod_0_l.
  repeat split; lia.
Qed.

Lemma ring_holds_reset K st : 1 ≤ K → ring_ok K st → ring_holds K [] (resetWindowAnalysis st).
Proof.
  intros HK (Hlen & Hmax & _ & _). unfold ring_holds, ring_ok, resetWindowAnalysis.
  simpl. rewrite Nat.Div0.mod_0_l. repeat split; try done; lia.
Qed.

Lemma ring_holds_feed K records st call :
  1 ≤ K → ring_holds K records st →
  ∃ st', feed toKeyInt call.1 call.2 st = Some st'
         ∧ ring_holds K (records ++ [record_of toKeyInt call]) st'.
Proof.
  intros HK (Hok & Hhead & Hsize & Hslots).
  destruct (feed_step toKeyInt K call.1 call.2 st HK Hok)
    as (st' & Hfeed & Hok' & Hbuf & Hhead' & Hsize').
  exists st'. split; [done |]. split; [done |].
  rewrite length_app. simpl.
  split.
  { rewrite Hhead', Hhead, Nat.Div0.add_mod_idemp_l. done. }
  split.
  { rewrite Hsize', Hsize. lia. }
  intros j Hlo Hhi. rewrite Hbuf, Hhead.
  destruct Hok as (Hlen & _ & Hlt & _).
  destruct (decide (j = length records)) as [-> | Hne].
  - rewrite list_lookup_insert_eq by (rewrite Hlen; by apply Nat.mod_upper_bound; lia).
    rewrite lookup_app_r by done. by rewrite Nat.sub_diag.
  - rewrite list_lookup_insert_ne by (apply mod_apart; lia).
    rewrite lookup_app_l by lia. apply Hslots; lia.
Qed.

Lemma ring_holds_feed_all K calls : ∀ records st,
  1 ≤ K → ring_holds K records st →
  ∃ st', feed_all toKeyInt calls st = Some st'
         ∧ ring_holds K (records ++ (record_of toKeyInt <$> calls)) st'.
Proof.
  induction calls as [| [key classId] calls IH]; intros records st HK Hholds.
  - exists st. split; [done |]. by rewrite app_nil_r.
  - destruct (ring_holds_feed K records st (key, classId) HK Hholds)
      as (st1 & Hfeed & Hholds1).
    destruct (IH _ st1 HK Hholds1) as (st' & Hall & Hholds').
    exists st'. simpl in *. rewrite Hfeed. simpl. split; [done |].
    by rewrite <- app_assoc in Hholds'.
Qed.

(** The window of a ring that holds [records]: its [K] most recent
    records, oldest first. *)
Lemma ring_holds_snapshot K records st :
  1 ≤ K → ring_holds K records st →
  snapshot_entries st = drop (length records - K) records.
Proof.
  intros HK ((Hlen & Hmax & Hlt & _) & Hhead & Hsize & Hslots).
  unfold snapshot_entries. rewrite Hsize, Hmax, Hhead.
  destruct (decide (records = [])) as [-> | Hne]; [done |].
  assert (0 < length records) as Hpos by (destruct records; simpl; [done | lia]).
  assert (circularBuffer st ≠ []) as Hbuf by (intros H; rewrite H in Hlen; simpl in Hlen; lia).
  destruct (Nat.ltb_spec 0 (length records `min` K)) as [_ | ?]; [| lia].
  rewrite (bool_decide_eq_false_2 _ Hbuf). simpl andb. cbv iota.
  destruct (Nat.eqb_spec (length records `min` K) 0) as [? | _]; [lia |].
  rewrite (bool_decide_eq_false_2 _ Hbuf). simpl orb. cbv iota.
  destruct (Nat.ltb_spec K (length records `min` K)) as [? | _]; [lia |].
  pose proof (Nat.mod_upper_bound (length records) K) as Hmod.
  destruct (Nat.leb_spec K (length records mod K)) as [? | _]; [lia |].
  set (start := if length records `min` K <? K then 0 else length records mod K).
  rewrite (visit_all _ K start
             (λ i, default (0%N, 0%Z) (records !! (length records - K + i))));
    [| done | done |].
  - apply list_eq. intros i.
    rewrite list_lookup_fmap, lookup_drop.
    destruct (decide (i < length records `min` K)) as [Hi | Hi].
    + rewrite lookup_seq_lt by done. simpl.
      destruct (lookup_lt_is_Some_2 records (length records - K + i)) as [r Hr]; [lia |].
      by rewrite Hr.
    + rewrite lookup_seq_ge by lia. simpl. symmetry.
      apply lookup_ge_None_2. lia.
  - intros i Hi%elem_of_seq.
    assert ((start + i) mod K = (length records - K + i) mod K) as ->.
    { unfold start. destruct (Nat.ltb_spec (length records `min` K) K) as [Hsmall | Hfull].
      - by replace (length records - K) with 0 by lia.
      - rewrite Nat.Div0.add_mod_idemp_l.
        replace (length records + i) with (length records - K + i + 1 * K) by lia.
        by rewrite Nat.Div0.mod_add. }
    rewrite Hslots by lia.
    destruct (lookup_lt_is_Some_2 records (length records - K + i)) as [r Hr]; [lia |].
    by rewrite Hr.
Qed.

(** X1: a profiler of capacity [K ≥ 1] that has been fed a sequence of
    accesses analyses, as its window, the [K] most recent of them (all of
    them when there are fewer), oldest first; older accesses have been
    overwritten. *)
Theorem window_holds_latest (K : nat) (calls : list (Key * ClassId)) :
  1 ≤ K →
  ∃ st0 st,
    FootprintMRC_new K = inr st0
    ∧ feed_all toKeyInt calls st0 = Some st
    ∧ snapshot_entries st
      = drop (length calls - K) (record_of toKeyInt <$> calls).
Proof.
  intros HK.
  destruct (FootprintMRC_new K) as [e | st0] eqn:Hnew.
  { unfold FootprintMRC_new in Hnew.
    destruct (Nat.ltb_spec K 1); [lia | discriminate]. }
  destruct (ring_holds_feed_all K calls [] st0 HK (ring_holds_new K st0 Hnew))
    as (st & Hall & Hholds).
  exists st0, st. split; [done |]. split; [done |].
  rewrite (ring_holds_snapshot K _ st HK Hholds). simpl.
  by rewrite length_fmap.
Qed.

(** X2: [resetWindowAnalysis] keeps the buffer and its capacity and
    empties the window; the accesses fed afterwards are analysed as on a
    new profiler, nothing fed before the reset being seen again. *)
Theorem reset_starts_new_window (K : nat) (st : FootprintMRC)
    (calls : list (Key * ClassId)) :
  1 ≤ K → ring_ok K st →
  ring_ok K (resetWindowAnalysis st)
  ∧ circularBuffer (resetWindowAnalysis st) = circularBuffer st
  ∧ snapshot_entries (resetWindowAnalysis st) = []
  ∧ ∃ st',
      feed_all toKeyInt calls (resetWindowAnalysis st) = Some st'
      ∧ snapshot_entries st'
        = drop (length calls - K) (record_of toKeyInt <$> calls).
Proof.
  intros HK Hok.
  pose proof (ring_holds_reset K st HK Hok) as Hholds.
  split; [apply Hholds |]. split; [done |]. split; [done |].
  destruct (ring_holds_feed_all K calls [] _ HK Hholds) as (st' & Hall & Hholds').
  exists st'. split; [done |].
  rewrite (ring_holds_snapshot K _ st' HK Hholds'). simpl.
  by rewrite length_fmap.
Qed.

End WindowProperties.

(** X1 at a concrete input: capacity 3, four accesses, the key token being
    the length of the key. *)
Lemma window_holds_latest_witness :
  let toKeyInt := λ key : Key, N.of_nat (String.length key) in
  let calls := [("a", 1%Z); ("bb", 2%Z); ("ccc", 1%Z); ("dddd", 2%Z)] in
  1 ≤ 3 ∧
  ∃ st0 st,
    FootprintMRC_new 3 = inr st0
    ∧ feed_all toKeyInt calls st0 = Some st
    ∧ snapshot_entries st = drop (length calls - 3) (record_of toKeyInt <$> calls).
Proof.
  intros toKeyInt calls.
  split; [lia |].
  apply (window_holds_latest toKeyInt 3 calls). lia.
Defined.

(** X2 at a concrete input: a full ring of capacity 3 is reset and fed four
    accesses. *)
Lemma reset_starts_new_window_witness :
  let toKeyInt := λ key : Key, N.of_nat (String.length key) in
  let calls := [("a", 1%Z); ("bb", 2%Z); ("ccc", 1%Z); ("dddd", 2%Z)] in
  let st := {| circularBuffer := [(8%N, 1%Z); (9%N, 1%Z); (7%N, 2%Z)];
               circularBufferMaxLen := 3;
               currentBufferSize := 3;
               bufferHeadIndex := 1 |} in
  1 ≤ 3 ∧ ring_ok 3 st
  ∧ ring_ok 3 (resetWindowAnalysis st)
  ∧ circularBuffer (resetWindowAnalysis st) = circularBuffer st
  ∧ snapshot_entries (resetWindowAnalysis st) = []
  ∧ ∃ st',
      feed_all toKeyInt calls (resetWindowAnalysis st) = Some st'
      ∧ snapshot_entries st'
        = drop (length calls - 3) (record_of toKeyInt <$> calls).
Proof.
  intros toKeyInt calls st.
  assert (1 ≤ 3) as HK by lia.
  assert (ring_ok 3 st) as Hok by (unfold ring_ok; simpl; lia).
  split; [exact HK |]. split; [exact Hok |].
  exact (reset_starts_new_window toKeyInt 3 st calls HK Hok).
Defined.

(** ** The meaning of the window statistics *)

Lemma first_at_lt keys k a : first_at keys k a → a < length keys.
Proof. intros [H _]. by eapply lookup_lt_Some. Qed.

Lemma last_at_lt keys k b : last_at keys k b → b < length keys.
Proof. intros [H _]. by eapply lookup_lt_Some. Qed.

Lemma first_at_unique keys k a1 a2 : first_at keys k a1 → first_at keys k a2 → a1 = a2.
Proof.
  intros [H1 N1] [H2 N2].
  destruct (Nat.lt_trichotomy a1 a2) as [H | [H | H]]; [| done |].
  - by apply N2 in H.
  - by apply N1 in H.
Qed.

Lemma last_at_unique keys k b1 b2 : last_at keys k b1 → last_at keys k b2 → b1 = b2.
Proof.
  intros [H1 N1] [H2 N2].
  destruct (Nat.lt_trichotomy b1 b2) as [H | [H | H]]; [| done |].
  - by apply N1 in H.
  - by apply N2 in H.
Qed.

Lemma first_at_snoc keys x k a :
  first_at (keys ++ [x]) k a ↔
  first_at keys k a ∨ (a = length keys ∧ x = k ∧ k ∉ keys).
Proof.
  unfold first_at. split.
  - intros [Ha Hbefore].
    destruct (decide (a < length keys)) as [Hlt | Hge].
    + left. rewrite lookup_app_l in Ha by done. split; [done |].
      intros j Hj. specialize (Hbefore j Hj). by rewrite lookup_app_l in Hbefore by lia.
    + right. pose proof (lookup_lt_Some _ _ _ Ha) as Hlen.
      rewrite length_app in Hlen. simpl in Hlen.
      assert (a = length keys) as -> by lia.
      rewrite lookup_app_r, Nat.sub_diag in Ha by done. injection Ha as ->.
      split; [done |]. split; [done |].
      intros [j Hj]%list_elem_of_lookup.
      pose proof (lookup_lt_Some _ _ _ Hj) as Hjlt.
      apply (Hbefore j Hjlt). by rewrite lookup_app_l.
  - intros [[Ha Hbefore] | (-> & -> & Hnotin)].
    + pose proof (lookup_lt_Some _ _ _ Ha) as Hlt.
      split; [by rewrite lookup_app_l |].
      intros j Hj. rewrite lookup_app_l by lia. by apply Hbefore.
    + split; [by rewrite lookup_app_r, Nat.sub_diag |].
      intros j Hj. rewrite lookup_app_l by done.
      intros Hk. apply Hnotin. by eapply list_elem_of_lookup_2.
Qed.

Lemma last_at_snoc keys x k b :
  last_at (keys ++ [x]) k b ↔
  (x = k ∧ b = length keys) ∨ (x ≠ k ∧ last_at keys k b).
Proof.
  unfold last_at. split.
  - intros [Hb Hafter].
    destruct (decide (x = k)) as [-> | Hne].
    + left. split; [done |].
      pose proof (lookup_lt_Some _ _ _ Hb) as Hlen.
      rewrite length_app in Hlen. simpl in Hlen.
      destruct (decide (b = length keys)) as [| Hneq]; [done |].
      exfalso. apply (Hafter (length keys)); [lia |].
      by rewrite lookup_app_r, Nat.sub_diag.
    + right. split; [done |].
      destruct (decide (b < length keys)) as [Hlt | Hge].
      * rewrite lookup_app_l in Hb by done. split; [done |].
        intros j Hj Hk. apply (Hafter j Hj).
        pose proof (lookup_lt_Some _ _ _ Hk). by rewrite lookup_app_l.
      * pose proof (lookup_lt_Some _ _ _ Hb) as Hlen.
        rewrite length_app in Hlen. simpl in Hlen.
        assert (b = length keys) as -> by lia.
        rewrite lookup_app_r, Nat.sub_diag in Hb by done. by injection Hb.
  - intros [[-> ->] | [Hne [Hb Hafter]]].
    + split; [by rewrite lookup_app_r, Nat.sub_diag |].
      intros j Hj Hk. apply lookup_lt_Some in Hk.
      rewrite length_app in Hk. simpl in Hk. lia.
    + pose proof (lookup_lt_Some _ _ _ Hb) as Hlt.
      split; [by rewrite lookup_app_l |].
      intros j Hj Hk.
      destruct (decide (j < length keys)) as [Hjlt | Hjge].
      * rewrite lookup_app_l in Hk by done. by apply (Hafter j).
      * pose proof (lookup_lt_Some _ _ _ Hk) as Hlen.
        rewrite length_app in Hlen. simpl in Hlen.
        assert (j = length keys) as -> by lia.
        rewrite lookup_app_r, Nat.sub_diag in Hk by done. by injection Hk.
Qed.

(** Every key of the list has a last access. *)
Lemma last_at_exists keys k : k ∈ keys → ∃ b, last_at keys k b.
Proof.
  induction keys as [| x keys IH] using rev_ind; [by intros ?%elem_of_nil |].
  intros Hin. destruct (decide (x = k)) as [-> | Hne].
  - exists (length keys). apply last_at_snoc. by left.
  - apply elem_of_app in Hin as [Hin | Hin%list_elem_of_singleton]; [| done].
    destruct (IH Hin) as [b Hb]. exists b. apply last_at_snoc. by right.
Qed.

Lemma first_at_exists keys k : k ∈ keys → ∃ a, first_at keys k a.
Proof.
  induction keys as [| x keys IH] using rev_ind; [by intros ?%elem_of_nil |].
  intros Hin. destruct (decide (k ∈ keys)) as [Hk | Hk].
  - destruct (IH Hk) as [a Ha]. exists a. apply first_at_snoc. by left.
  - apply elem_of_app in Hin as [Hin | Hin%list_elem_of_singleton]; [done |].
    exists (length keys). apply first_at_snoc. right. by subst.
Qed.

Lemma last_at_find keys k b :
  last_at keys k b →
  list_find (λ x, x = k) (reverse keys) = Some (length keys - S b, k).
Proof.
  intros [Hb Hafter]. pose proof (lookup_lt_Some _ _ _ Hb) as Hlt.
  apply list_find_Some. split; [| split; [done |]].
  - rewrite reverse_lookup by lia.
    by replace (length keys - S (length keys - S b)) with b by lia.
  - intros j y Hj Hjlt ->.
    rewrite reverse_lookup in Hj by lia.
    by apply (Hafter (length keys - S j)); [lia |].
Qed.

Lemma absent_find keys (k : KeyInt) :
  k ∉ keys → list_find (λ x, x = k) (reverse keys) = None.
Proof.
  intros Hk. apply list_find_None, Forall_forall.
  intros x Hx Heq. rewrite elem_of_reverse in Hx. subst. by apply Hk.
Qed.

Lemma reuse_time_snoc_old keys x i :
  i < length keys → reuse_time (keys ++ [x]) i = reuse_time keys i.
Proof.
  intros Hi. unfold reuse_time.
  by rewrite lookup_app_l, take_app_le by lia.
Qed.

Lemma reuse_time_snoc_new keys x :
  reuse_time (keys ++ [x]) (length keys)
  = p ← list_find (λ y, y = x) (reverse keys); Some (S p.1).
Proof.
  unfold reuse_time.
  by rewrite lookup_app_r, Nat.sub_diag, take_app_length by done.
Qed.

Lemma filter_ext_in {A} (P1 P2 : A → Prop) `{!∀ x, Decision (P1 x), !∀ x, Decision (P2 x)}
    (l : list A) :
  (∀ x, x ∈ l → P1 x ↔ P2 x) → filter P1 l = filter P2 l.
Proof.
  induction l as [| x l IH]; intros Hext; [done |].
  rewrite !filter_cons.
  rewrite IH by (intros y Hy; apply Hext; by right).
  destruct (decide (P1 x)) as [H1 | H1], (decide (P2 x)) as [H2 | H2]; try done.
  - exfalso. apply H2, Hext; [left | done].
  - exfalso. apply H1, Hext; [left | done].
Qed.

Lemma reuse_count_snoc keys x t :
  reuse_count (keys ++ [x]) t
  = reuse_count keys t
    + (if decide (reuse_time (keys ++ [x]) (length keys) = Some t) then 1 else 0).
Proof.
  unfold reuse_count. rewrite length_app. simpl.
  rewrite Nat.add_1_r, seq_S, filter_app, length_app. simpl. f_equal.
  - f_equal. apply filter_ext_in. intros i [_ Hi]%elem_of_seq.
    by rewrite reuse_time_snoc_old by lia.
  - rewrite filter_cons, filter_nil. by destruct (decide _).
Qed.

Lemma reuse_count_nil t : reuse_count [] t = 0.
Proof. done. Qed.

Lemma scan_sem_start n : scan_sem [] (scan_start_of n).
Proof.
  unfold scan_sem, scan_start_of. simpl. split; [done |].
  split; [| split].
  - intros k a. rewrite lookup_empty. split; [done |]. by intros [? _].
  - intros k b. rewrite lookup_empty. split; [done |]. by intros [? _].
  - intros t. rewrite reuse_count_nil.
    destruct (decide (t < n)).
    + by rewrite lookup_total_replicate_2.
    + rewrite list_lookup_total_alt, lookup_ge_None_2; [done |].
      rewrite length_replicate. lia.
Qed.

Lemma scan_step_sem keys s x s' :
  scan_sem keys s → scan_step s x = Some s' → scan_sem (keys ++ [x]) s'.
Proof.
  intros (Hidx & Hfirst & Hlast & Hhist) Hstep. unfold scan_step in Hstep.
  assert (∀ k, k ∈ keys ↔ is_Some (scan_last s !! k)) as Hkeys.
  { intros k. split.
    - intros [b Hb]%last_at_exists. exists b. by apply Hlast.
    - intros [b Hb]. apply Hlast in Hb as [Hb _]. by eapply list_elem_of_lookup_2. }
  assert (∀ k, k ∈ keys ↔ is_Some (scan_first s !! k)) as Hkeys1.
  { intros k. split.
    - intros [a Ha]%first_at_exists. exists a. by apply Hfirst.
    - intros [a Ha]. apply Hfirst in Ha as [Ha _]. by eapply list_elem_of_lookup_2. }
  assert (scan_index s' = S (scan_index s)
          ∧ scan_first s' = emplace x (scan_index s) (scan_first s)
          ∧ scan_last s' = <[x := scan_index s]> (scan_last s)
          ∧ ∀ t, scan_hist s' !!! t
                 = scan_hist s !!! t
                   + (if decide (reuse_time (keys ++ [x]) (length keys) = Some t)
                      then 1 else 0)) as (Hidx' & Hfirst' & Hlast' & Hhist').
  { rewrite reuse_time_snoc_new.
    destruct (scan_last s !! x) as [prev |] eqn:Hx.
    - apply Hlast in Hx as Hat. pose proof (last_at_lt _ _ _ Hat) as Hlt.
      rewrite (last_at_find _ _ _ Hat). simpl.
      unfold vector_incr in Hstep.
      destruct (Nat.ltb_spec (scan_index s - prev) (length (scan_hist s))) as [Hin | ?];
        [| done].
      simpl in Hstep. injection Hstep as <-. simpl.
      split; [done |]. split; [done |]. split; [done |].
      intros t. rewrite Hidx in *.
      destruct (decide (Some (S (length keys - S prev)) = Some t)) as [[= <-] | Hne].
      + replace (S (length keys - S prev)) with (length keys - prev) by lia.
        rewrite list_lookup_total_alter_eq by done. lia.
      + rewrite list_lookup_total_alter_ne; [lia |].
        intros <-. apply Hne. f_equal. lia.
    - assert (x ∉ keys) as Hnotin.
      { rewrite Hkeys, Hx. by intros [? ?]. }
      rewrite (absent_find _ _ Hnotin). simpl.
      simpl in Hstep. injection Hstep as <-. simpl.
      split; [done |]. split; [done |]. split; [done |].
      intros t. destruct (decide (None = Some t)); [done | lia]. }
  unfold scan_sem. rewrite Hidx', Hfirst', Hlast', Hidx, length_app. simpl.
  split; [lia |]. split; [| split].
  - intros k a. rewrite first_at_snoc. unfold emplace.
    destruct (scan_first s !! x) as [ax |] eqn:Hx.
    + rewrite Hfirst. split; [by left |].
      intros [? | (_ & -> & Hnotin)]; [done |].
      exfalso. apply Hnotin, Hkeys1. by eexists.
    + assert (x ∉ keys) as Hnotin by (rewrite Hkeys1, Hx; by intros [? ?]).
      destruct (decide (k = x)) as [-> | Hne].
      * rewrite lookup_insert_eq. split.
        -- intros [= <-]. by right.
        -- intros [Ha | (-> & _)]; [| done].
           exfalso. apply Hnotin. destruct Ha as [Ha _].
           by eapply list_elem_of_lookup_2.
      * rewrite lookup_insert_ne by done. rewrite Hfirst.
        split; [by left |]. intros [? | (_ & -> & _)]; done.
  - intros k b. rewrite last_at_snoc.
    destruct (decide (k = x)) as [-> | Hne].
    + rewrite lookup_insert_eq. split.
      * intros [= <-]. by left.
      * intros [[_ ->] | [? _]]; done.
    + rewrite lookup_insert_ne by done. rewrite Hlast.
      split; [by right |]. intros [[-> _] | [_ ?]]; done.
  - intros t. by rewrite Hhist', Hhist, reuse_count_snoc.
Qed.

Lemma scan_sem_preserved keys : ∀ done_keys s s',
  scan_sem done_keys s → scan keys s = Some s' → scan_sem (done_keys ++ keys) s'.
Proof.
  induction keys as [| x keys IH]; intros done_keys s s' Hsem; simpl.
  - intros [= <-]. by rewrite app_nil_r.
  - destruct (scan_step s x) as [s1 |] eqn:Hstep; simpl; [| done].
    intros Hscan.
    rewrite (cons_middle x), app_assoc.
    apply (IH _ s1 s'); [| done]. by eapply scan_step_sem.
Qed.

(** The scan of the accesses of a class, from the start. *)
Lemma scan_sem_full keys n s :
  scan keys (scan_start_of n) = Some s → scan_sem keys s.
Proof. apply (scan_sem_preserved keys [] _ s), scan_sem_start. Qed.

(** ** The footprint as an average over windows *)

Lemma windows_snoc w keys x :
  1 ≤ w →
  windows w (keys ++ [x])
  = windows w keys
    ++ (if decide (w ≤ S (length keys))
        then [drop (S (length keys) - w) (keys ++ [x])] else []).
Proof.
  intros Hw. unfold windows. rewrite length_app. simpl. rewrite Nat.add_1_r.
  destruct (decide (w ≤ S (length keys))) as [Hle | Hgt].
  - replace (S (S (length keys)) - w) with (S (S (length keys) - w)) by lia.
    rewrite seq_S, fmap_app. simpl. f_equal.
    + apply list_fmap_ext. intros i start [Hstart Hi]%lookup_seq.
      simpl in Hstart. subst.
      rewrite drop_app_le by lia.
      apply take_app_le. rewrite length_drop. lia.
    + f_equal. apply take_ge. rewrite length_drop, length_app. simpl. lia.
  - replace (S (S (length keys)) - w) with 0 by lia.
    replace (S (length keys) - w) with 0 by lia. done.
Qed.

Lemma working_set_total_snoc w keys x :
  1 ≤ w →
  working_set_total w (keys ++ [x])
  = working_set_total w keys
    + (if decide (w ≤ S (length keys))
       then distinct (drop (S (length keys) - w) (keys ++ [x])) else 0).
Proof.
  intros Hw. unfold working_set_total.
  rewrite windows_snoc, sum_list_with_app by done.
  destruct (decide (w ≤ S (length keys))); simpl; lia.
Qed.

Lemma excess_first_insert w (first : gmap N nat) x a :
  first !! x = None →
  excess w (first_values (<[x := a]> first))
  = (a + 1 - w) + excess w (first_values first).
Proof.
  intros Hx. unfold excess, first_values.
  rewrite (map_to_list_insert first x a Hx).
  by rewrite fmap_cons.
Qed.

Lemma excess_last_insert w i (last : gmap N nat) x b :
  last !! x = None →
  excess w (last_values i (<[x := b]> last))
  = (i - b - w) + excess w (last_values i last).
Proof.
  intros Hx. unfold excess, last_values.
  rewrite (map_to_list_insert last x b Hx).
  by rewrite fmap_cons.
Qed.

Lemma excess_last_delete w i (last : gmap N nat) x :
  excess w (last_values i last)
  = match last !! x with Some b => i - b - w | None => 0 end
    + excess w (last_values i (delete x last)).
Proof.
  destruct (last !! x) as [b |] eqn:Hx.
  - rewrite <- (excess_last_insert w i (delete x last) x b) by apply lookup_delete_eq.
    by rewrite insert_delete_id.
  - by rewrite delete_id.
Qed.

Lemma excess_last_next w i (last : gmap N nat) :
  1 ≤ w →
  excess w (last_values (S i) last)
  = excess w (last_values i last) + idle_keys w i last.
Proof.
  intros Hw. unfold excess, last_values, idle_keys.
  induction (map_to_list last) as [| [k b] l IH]; [done |].
  rewrite !fmap_cons, filter_cons. cbn [sum_list_with snd]. rewrite IH.
  destruct (decide (w ≤ i - b)); cbn [length]; lia.
Qed.

Lemma reuse_excess_incr w hist t :
  t < length hist →
  reuse_excess w (alter S t hist) = reuse_excess w hist + (t - w).
Proof.
  intros Ht. unfold reuse_excess. rewrite length_alter.
  apply (sum_seq_bump _ _ t); [done | |].
  - rewrite list_lookup_total_alter_eq by done. lia.
  - intros u Hu. by rewrite list_lookup_total_alter_ne.
Qed.

Lemma length_filter_complement {A} (P : A → Prop) `{!∀ x, Decision (P x)} (l : list A) :
  length (filter P l) + length (filter (λ x, ¬ P x) l) = length l.
Proof.
  rewrite <- length_app. by rewrite filter_app_complement.
Qed.

Lemma filter_none {A} (P : A → Prop) `{!∀ x, Decision (P x)} (l : list A) :
  (∀ x, x ∈ l → ¬ P x) → filter P l = [].
Proof.
  induction l as [| x l IH]; intros Hnone; [done |].
  rewrite filter_cons, decide_False by (apply Hnone; left).
  apply IH. intros y Hy. apply Hnone. by right.
Qed.

(** The keys of the last [w] accesses are the keys whose last access is
    among them. *)
Lemma distinct_recent (keys : list KeyInt) (last : gmap N nat) j :
  (∀ k b, last !! k = Some b ↔ last_at keys k b) →
  distinct (drop j keys)
  = length (filter (λ kv : N * nat, j ≤ kv.2) (map_to_list last)).
Proof.
  intros Hlast. unfold distinct.
  assert (NoDup (filter (λ kv : N * nat, j ≤ kv.2) (map_to_list last)).*1) as Hnodup.
  { eapply sublist_NoDup; [apply (NoDup_fst_map_to_list last) |].
    apply fmap_sublist, sublist_filter. }
  rewrite <- (length_fmap fst), <- (size_list_to_set (C := gset N)) by done.
  f_equal. apply set_eq. intros k.
  rewrite !elem_of_list_to_set, list_elem_of_fmap. split.
  - intros [p Hp]%list_elem_of_lookup. rewrite lookup_drop in Hp.
    destruct (last_at_exists keys k) as [b Hb]; [by eapply list_elem_of_lookup_2 |].
    exists (k, b). split; [done |].
    apply list_elem_of_filter. split.
    + simpl. destruct Hb as [_ Hafter].
      destruct (decide (j ≤ b)); [done |]. exfalso.
      apply (Hafter (j + p)); [lia | done].
    + apply elem_of_map_to_list. by apply Hlast.
  - intros ([k' b] & -> & [Hjb Hkb%elem_of_map_to_list]%list_elem_of_filter).
    simpl in *. apply Hlast in Hkb as [Hb _].
    apply list_elem_of_lookup. exists (b - j).
    rewrite lookup_drop. by replace (j + (b - j)) with b by lia.
Qed.

(** After access [i] to [x], the keys of the window ending at [i] and the
    idle keys are all the keys. *)
Lemma recent_and_idle w (keys : list KeyInt) x (last : gmap N nat) :
  1 ≤ w →
  (∀ k b, <[x := length keys]> last !! k = Some b ↔ last_at (keys ++ [x]) k b) →
  (if decide (w ≤ S (length keys))
   then distinct (drop (S (length keys) - w) (keys ++ [x])) else 0)
  + idle_keys w (length keys) (delete x last)
  = (if decide (w ≤ S (length keys)) then size (<[x := length keys]> last) else 0).
Proof.
  intros Hw Hlast. set (i := length keys) in *.
  assert (∀ k b, delete x last !! k = Some b → b < i) as Hbound.
  { intros k b [Hne Hkb]%lookup_delete_Some.
    assert (<[x := i]> last !! k = Some b) as Hkb' by (by rewrite lookup_insert_ne).
    apply Hlast, last_at_snoc in Hkb' as [[? _] | [_ Hat]]; [done |].
    by eapply last_at_lt. }
  destruct (decide (w ≤ S i)) as [Hle | Hgt].
  - rewrite (distinct_recent _ _ _ Hlast).
    rewrite <- (length_map_to_list (<[x := i]> last)).
    rewrite <- (length_filter_complement (λ kv : N * nat, S i - w ≤ kv.2)
                  (map_to_list (<[x := i]> last))).
    f_equal. unfold idle_keys.
    rewrite <- (insert_delete_eq last x i).
    rewrite (map_to_list_insert (delete x last) x i) by apply lookup_delete_eq.
    rewrite filter_cons. simpl.
    destruct (decide (¬ S i - w ≤ i)) as [? | _]; [lia |].
    f_equal. apply filter_ext_in.
    intros [k b] Hkb%elem_of_map_to_list. apply Hbound in Hkb. simpl. lia.
  - rewrite Nat.add_0_l. unfold idle_keys.
    rewrite filter_none; [done |].
    intros [k b] Hkb%elem_of_map_to_list. apply Hbound in Hkb. simpl. lia.
Qed.

Lemma scan_sem_keys keys s k :
  scan_sem keys s →
  (k ∈ keys ↔ is_Some (scan_first s !! k)) ∧ (k ∈ keys ↔ is_Some (scan_last s !! k)).
Proof.
  intros (_ & Hfirst & Hlast & _). split; split.
  - intros [a Ha]%first_at_exists. exists a. by apply Hfirst.
  - intros [a Ha]. apply Hfirst in Ha as [Ha _]. by eapply list_elem_of_lookup_2.
  - intros [b Hb]%last_at_exists. exists b. by apply Hlast.
  - intros [b Hb]. apply Hlast in Hb as [Hb _]. by eapply list_elem_of_lookup_2.
Qed.

Lemma scan_sem_dom keys s :
  scan_sem keys s →
  dom (scan_first s) = list_to_set keys ∧ dom (scan_last s) = list_to_set keys.
Proof.
  intros Hsem. split; apply set_eq; intros k;
    rewrite elem_of_dom, elem_of_list_to_set;
    destruct (scan_sem_keys keys s k Hsem) as [H1 H2]; by symmetry.
Qed.

Lemma scan_windows_start w n : 1 ≤ w → scan_windows w [] (scan_start_of n).
Proof.
  intros Hw. unfold scan_windows, scan_gap_excess, gap_excess, scan_start_of.
  simpl scan_first. simpl scan_last. simpl scan_hist. simpl scan_index.
  unfold first_values, last_values. rewrite map_to_list_empty.
  unfold working_set_total, windows. simpl length.
  replace (1 - w) with 0 by lia. rewrite map_size_empty.
  unfold excess. simpl. unfold reuse_excess.
  rewrite sum_list_with_zero; [done |].
  intros t [_ Ht]%elem_of_seq. rewrite length_replicate in Ht.
  rewrite lookup_total_replicate_2 by lia. lia.
Qed.

Lemma scan_step_windows w keys s x s' :
  1 ≤ w → scan_sem keys s → scan_step s x = Some s' →
  scan_windows w keys s → scan_windows w (keys ++ [x]) s'.
Proof.
  intros Hw Hsem Hstep Hinv.
  pose proof (scan_step_sem keys s x s' Hsem Hstep) as Hsem'.
  destruct (scan_sem_keys keys s x Hsem) as [Hx1 Hx2].
  destruct Hsem as (Hidx & _). destruct Hsem' as (_ & _ & Hlast' & _).
  unfold scan_windows, scan_gap_excess, gap_excess in *.
  rewrite working_set_total_snoc, length_app by done. simpl length.
  rewrite Nat.add_1_r.
  unfold scan_step in Hstep.
  destruct (scan_last s !! x) as [b |] eqn:Hb.
  - (* a reuse *)
    unfold vector_incr in Hstep.
    destruct (Nat.ltb_spec (scan_index s - b) (length (scan_hist s))) as [Hin | ?];
      [| done].
    simpl in Hstep. injection Hstep as <-. simpl in *.
    destruct (proj1 Hx1) as [a Ha]; [apply Hx2; by eexists |].
    unfold emplace. rewrite Ha.
    rewrite reuse_excess_incr by done.
    rewrite Hidx in *.
    pose proof (recent_and_idle w keys x (scan_last s) Hw Hlast') as Hcount.
    rewrite <- (insert_delete_eq (scan_last s) x (length keys)).
    rewrite excess_last_insert by apply lookup_delete_eq.
    rewrite excess_last_next by done.
    rewrite (excess_last_delete w (length keys) (scan_last s) x), Hb in Hinv.
    rewrite insert_delete_eq.
    assert (size (<[x := length keys]> (scan_last s)) = size (scan_last s)) as Hsize.
    { rewrite <- !size_dom, dom_insert_L.
      f_equal. apply set_eq. intros k. rewrite elem_of_union, elem_of_singleton.
      split; [| by right]. intros [-> | ?]; [| done]. apply elem_of_dom. by eexists. }
    rewrite Hsize in *.
    destruct (decide (w ≤ S (length keys))); nia.
  - (* a first access *)
    simpl in Hstep. injection Hstep as <-. simpl in *.
    assert (scan_first s !! x = None) as Ha.
    { apply eq_None_not_Some. intros H. apply Hx1, Hx2 in H. by destruct H. }
    unfold emplace. rewrite Ha.
    rewrite excess_first_insert by done.
    rewrite Hidx in *.
    pose proof (recent_and_idle w keys x (scan_last s) Hw Hlast') as Hcount.
    rewrite excess_last_insert by done.
    rewrite excess_last_next by done.
    rewrite delete_id in Hcount by done.
    rewrite map_size_insert_None in * by done.
    destruct (decide (w ≤ S (length keys))); nia.
Qed.

Lemma scan_windows_preserved w keys : ∀ done_keys s s',
  1 ≤ w → scan_sem done_keys s → scan_windows w done_keys s →
  scan keys s = Some s' → scan_windows w (done_keys ++ keys) s'.
Proof.
  induction keys as [| x keys IH]; intros done_keys s s' Hw Hsem Hinv; simpl.
  - intros [= <-]. by rewrite app_nil_r.
  - destruct (scan_step s x) as [s1 |] eqn:Hstep; simpl; [| done].
    intros Hscan. rewrite (cons_middle x), app_assoc.
    apply (IH _ s1 s'); try done.
    + by eapply scan_step_sem.
    + by eapply scan_step_windows.
Qed.

Lemma windows_length w keys : length (windows w keys) = S (length keys) - w.
Proof. unfold windows. by rewrite length_fmap, length_seq. Qed.

(** The footprint of a class at window length [w], in closed form, is the
    total number of distinct keys over the windows divided by the number
    of windows. *)
Lemma fp_closed_average keys n s w :
  1 ≤ w → w ≤ n → n = length keys →
  scan keys (scan_start_of n) = Some s →
  (fp_closed n (distinct keys)
     (sorted_first_access n (scan_first s)) (sorted_last_access n (scan_last s))
     (scan_hist s) w
   == to_double (working_set_total w keys) / to_double (length (windows w keys)))%Q.
Proof.
  intros Hw Hwn -> Hscan.
  pose proof (scan_sem_full keys _ s Hscan) as Hsem.
  pose proof (scan_windows_preserved w keys [] _ s Hw (scan_sem_start _)
                (scan_windows_start w _ Hw) Hscan) as Hwin.
  simpl in Hwin. unfold scan_windows, scan_gap_excess in Hwin.
  destruct (scan_sem_dom keys s Hsem) as [_ Hdom].
  destruct Hsem as (Hidx & Hfirst & Hlast & _).
  rewrite Hidx in Hwin.
  assert (gap_excess w (sorted_first_access (length keys) (scan_first s))
            (sorted_last_access (length keys) (scan_last s)) (scan_hist s)
          = gap_excess w (first_values (scan_first s))
              (last_values (length keys) (scan_last s)) (scan_hist s)) as Hgap.
  { unfold gap_excess, excess.
    rewrite sorted_first_access_perm, sorted_last_access_perm; [done | |].
    - intros k b Hb%Hlast. by eapply last_at_lt.
    - intros k a Ha%Hfirst. by eapply first_at_lt. }
  assert (size (scan_last s) = distinct keys) as Hm.
  { unfold distinct. by rewrite <- Hdom, size_dom. }
  unfold fp_closed. destruct (Nat.eqb_spec w 0) as [? | _]; [lia |].
  rewrite Hgap, windows_length.
  replace (length keys - w + 1) with (S (length keys) - w) by lia.
  rewrite Hm in Hwin.
  assert (0 < to_double (S (length keys) - w))%Q as Hpos by (apply to_double_pos; lia).
  assert (to_double (gap_excess w (first_values (scan_first s))
                       (last_values (length keys) (scan_last s)) (scan_hist s))
          + to_double (working_set_total w keys)
          == to_double (distinct keys) * to_double (S (length keys) - w))%Q as Heq.
  { by rewrite <- to_double_plus, <- to_double_mult, Hwin. }
  field_simplify_eq; [| lra]. lra.
Qed.

(** The statistics of a class of the window are the result of the scan of
    its accesses. *)
Lemma class_stats_scan st stats c F L hist n m :
  calculateWindowStats st = Some stats →
  firstAccessTimesByClass stats !! c = Some F →
  lastAccessTimesByClass stats !! c = Some L →
  reuseTimeHistogramByClass stats !! c = Some hist →
  nByClass stats !! c = Some n →
  mByClass stats !! c = Some m →
  let keys := class_keys c (snapshot_entries st) in
  ∃ s, scan keys (scan_start_of n) = Some s
       ∧ 1 ≤ n ∧ n = length keys ∧ m = distinct keys
       ∧ F = sorted_first_access n (scan_first s)
       ∧ L = sorted_last_access n (scan_last s)
       ∧ hist = scan_hist s.
Proof.
  rewrite calculateWindowStats_eq. intros Hstats HF HL Hhist Hn Hm keys.
  destruct (decide (c ∈ (snapshot_entries st).*2)) as [Hin | Hnotin].
  2:{ destruct (window_stats_absent _ _ _ Hstats Hnotin) as (_ & _ & _ & Hn' & _).
      congruence. }
  destruct (window_stats_present _ _ _ Hstats Hin)
    as (s & Hscan & HF' & HL' & Hhist' & Hn' & Hm').
  fold keys in Hscan, HF', HL', Hn', Hm'.
  rewrite HF in HF'. rewrite HL in HL'. rewrite Hhist in Hhist'.
  rewrite Hn in Hn'. rewrite Hm in Hm'.
  injection HF' as ->. injection HL' as ->. injection Hhist' as ->.
  injection Hn' as ->. injection Hm' as ->.
  exists s. repeat split; try done.
  destruct keys eqn:Hkeys; [| simpl; lia].
  by apply class_keys_nil_iff in Hkeys.
Qed.

(** The footprint of a class at window length [w] times the number of
    windows of that length is the total number of distinct keys over these
    windows. *)
Lemma footprint_times_windows st stats c F L hist n m w :
  calculateWindowStats st = Some stats →
  firstAccessTimesByClass stats !! c = Some F →
  lastAccessTimesByClass stats !! c = Some L →
  reuseTimeHistogramByClass stats !! c = Some hist →
  nByClass stats !! c = Some n →
  mByClass stats !! c = Some m →
  1 ≤ w → w ≤ n →
  let keys := class_keys c (snapshot_entries st) in
  n = length keys ∧ m = distinct keys
  ∧ ∃ v, calculateFpValues F L hist n m !! w = Some v
         ∧ (v * to_double (n - w + 1) == to_double (working_set_total w keys))%Q.
Proof.
  intros Hstats HF HL Hhist Hn Hm Hw Hwn keys.
  destruct (class_footprint_inputs _ _ _ _ _ _ _ _
              (eq_trans (eq_sym (calculateWindowStats_eq st)) Hstats)
              HF HL Hhist Hn Hm)
    as (Hn1 & Hlen & HsF & HsL & _).
  destruct (class_stats_scan _ _ _ _ _ _ _ _ Hstats HF HL Hhist Hn Hm)
    as (s & Hscan & _ & Hnk & -> & -> & -> & ->).
  fold keys in Hscan, Hnk |- *.
  split; [done |]. split; [done |].
  destruct (calculateFpValues_spec _ _ _ n (distinct keys) Hn1 Hlen HsF HsL)
    as (_ & Hfp).
  destruct (Hfp w Hwn) as (v & Hv & Hclosed).
  exists v. split; [done |].
  rewrite Hclosed, (fp_closed_average keys n s w Hw Hwn Hnk Hscan).
  rewrite windows_length, <- Hnk.
  replace (S n - w) with (n - w + 1) by lia.
  assert (0 < to_double (n - w + 1))%Q by (apply to_double_pos; lia).
  field. lra.
Qed.

(** X3: the footprint computed for a class at a window length [w] between
    [1] and [n] is the average, over all windows of [w] consecutive
    accesses of the class, of the number of distinct keys in the window. *)
Theorem footprint_is_average_working_set (st : FootprintMRC) (stats : WindowStats)
    (c : ClassId) (F L hist : list nat) (n m w : nat) :
  calculateWindowStats st = Some stats →
  firstAccessTimesByClass stats !! c = Some F →
  lastAccessTimesByClass stats !! c = Some L →
  reuseTimeHistogramByClass stats !! c = Some hist →
  nByClass stats !! c = Some n →
  mByClass stats !! c = Some m →
  1 ≤ w → w ≤ n →
  let keys := class_keys c (snapshot_entries st) in
  ∃ v, calculateFpValues F L hist n m !! w = Some v
       ∧ length (windows w keys) = n - w + 1
       ∧ (v == to_double (working_set_total w keys)
               / to_double (length (windows w keys)))%Q.
Proof.
  intros Hstats HF HL Hhist Hn Hm Hw Hwn keys.
  destruct (footprint_times_windows _ _ _ _ _ _ _ _ _
              Hstats HF HL Hhist Hn Hm Hw Hwn) as (Hnk & _ & v & Hv & Htotal).
  fold keys in Hnk, Htotal.
  assert (length (windows w keys) = n - w + 1) as Hcount
    by (rewrite windows_length, <- Hnk; lia).
  exists v. split; [done |]. split; [done |].
  rewrite Hcount, <- Htotal.
  assert (0 < to_double (n - w + 1))%Q by (apply to_double_pos; lia).
  field. lra.
Qed.

(** X3 on [example_ring], class [3], windows of four accesses. *)
Lemma footprint_is_average_working_set_witness :
  ∃ stats F L hist n m,
    calculateWindowStats example_ring = Some stats
    ∧ firstAccessTimesByClass stats !! 3%Z = Some F
    ∧ lastAccessTimesByClass stats !! 3%Z = Some L
    ∧ reuseTimeHistogramByClass stats !! 3%Z = Some hist
    ∧ nByClass stats !! 3%Z = Some n
    ∧ mByClass stats !! 3%Z = Some m
    ∧ 1 ≤ 4 ∧ 4 ≤ n
    ∧ let keys := class_keys 3%Z (snapshot_entries example_ring) in
      ∃ v, calculateFpValues F L hist n m !! 4 = Some v
           ∧ length (windows 4 keys) = n - 4 + 1
           ∧ (v == to_double (working_set_total 4 keys)
                   / to_double (length (windows 4 keys)))%Q.
Proof.
  assert (∃ stats, calculateWindowStats example_ring = Some stats)
    as [stats Hstats].
  { destruct (calculateWindowStats example_ring) as [stats |] eqn:Hs;
      [by exists stats | by vm_compute in Hs]. }
  assert (∃ F L hist n m,
            firstAccessTimesByClass stats !! 3%Z = Some F
            ∧ lastAccessTimesByClass stats !! 3%Z = Some L
            ∧ reuseTimeHistogramByClass stats !! 3%Z = Some hist
            ∧ nByClass stats !! 3%Z = Some n
            ∧ mByClass stats !! 3%Z = Some m
            ∧ 4 ≤ n)
    as (F & L & hist & n & m & HF & HL & Hhist & Hn & Hm & Hw).
  { pose proof Hstats as Hs. vm_compute in Hs. injection Hs as <-.
    exists [1; 2; 3; 4; 5; 6], [1; 2; 3; 4; 5; 6],
      (replicate 6 0 ++ 24 :: replicate 23 0), 30, 6.
    repeat split; try (vm_compute; reflexivity). lia. }
  assert (1 ≤ 4) as H1 by lia.
  exists stats, F, L, hist, n, m.
  repeat (split; [assumption |]).
  exact (footprint_is_average_working_set example_ring stats 3%Z F L hist n m 4
           Hstats HF HL Hhist Hn Hm H1 Hw).
Defined.

(** ** Bounds on the footprint *)

Lemma distinct_cons x l : distinct (x :: l) ≤ S (distinct l).
Proof.
  unfold distinct. simpl.
  rewrite size_union_alt, size_singleton.
  pose proof (subseteq_size (list_to_set l ∖ {[x]}) (list_to_set l : gset N)) as H.
  assert (size (list_to_set l ∖ {[x]} : gset N) ≤ size (list_to_set l : gset N))
    by (apply subseteq_size; set_solver).
  lia.
Qed.

Lemma distinct_le_length l : distinct l ≤ length l.
Proof.
  induction l as [| x l IH]; [done |].
  pose proof (distinct_cons x l). simpl. lia.
Qed.

Lemma distinct_pos l : l ≠ [] → 1 ≤ distinct l.
Proof.
  destruct l as [| x l]; [done |]. intros _. unfold distinct.
  assert (size (list_to_set (x :: l) : gset N) ≠ 0); [| lia].
  intros H%size_empty_iff. set_solver.
Qed.

Lemma distinct_subseteq l1 l2 : l1 ⊆ l2 → distinct l1 ≤ distinct l2.
Proof.
  intros Hsub. unfold distinct. apply subseteq_size.
  intros k. rewrite !elem_of_list_to_set. apply Hsub.
Qed.

Lemma sum_list_with_bounds {A} (f : A → nat) (lo hi : nat) (l : list A) :
  (∀ x, x ∈ l → lo ≤ f x ≤ hi) →
  lo * length l ≤ sum_list_with f l ≤ hi * length l.
Proof.
  induction l as [| x l IH]; intros Hb; simpl; [lia |].
  pose proof (Hb x ltac:(left)).
  assert (lo * length l ≤ sum_list_with f l ≤ hi * length l)
    by (apply IH; intros y Hy; apply Hb; by right).
  lia.
Qed.

Lemma elem_of_windows w keys l :
  w ≤ length keys → l ∈ windows w keys → length l = w ∧ l ⊆ keys.
Proof.
  intros Hw (start & -> & [_ Hstart]%elem_of_seq)%list_elem_of_fmap.
  split.
  - rewrite length_take, length_drop. lia.
  - intros k Hk. by apply (subseteq_drop start keys), (subseteq_take w).
Qed.

Lemma working_set_total_bounds w keys :
  1 ≤ w → w ≤ length keys →
  length (windows w keys) ≤ working_set_total w keys
  ∧ working_set_total w keys ≤ w * length (windows w keys)
  ∧ working_set_total w keys ≤ distinct keys * length (windows w keys).
Proof.
  intros Hw Hwn. unfold working_set_total.
  destruct (sum_list_with_bounds distinct 1 w (windows w keys)) as [Hlo Hhi].
  { intros l [Hlen Hsub]%elem_of_windows; [| done]. split.
    - apply distinct_pos. intros ->. simpl in Hlen. lia.
    - rewrite <- Hlen. apply distinct_le_length. }
  destruct (sum_list_with_bounds distinct 0 (distinct keys) (windows w keys))
    as [_ Hhi'].
  { intros l [_ Hsub]%elem_of_windows; [| done]. split; [lia |].
    by apply distinct_subseteq. }
  lia.
Qed.

(** X4: at every window length [w] between [1] and [n], the footprint of a
    class is at least [1], at most [w] and at most the number [m] of
    distinct keys of the class; at [w = 1] it is exactly [1]. *)
Theorem footprint_bounds (st : FootprintMRC) (stats : WindowStats)
    (c : ClassId) (F L hist : list nat) (n m w : nat) (v : Q) :
  calculateWindowStats st = Some stats →
  firstAccessTimesByClass stats !! c = Some F →
  lastAccessTimesByClass stats !! c = Some L →
  reuseTimeHistogramByClass stats !! c = Some hist →
  nByClass stats !! c = Some n →
  mByClass stats !! c = Some m →
  1 ≤ w → w ≤ n →
  calculateFpValues F L hist n m !! w = Some v →
  (1 <= v)%Q ∧ (v <= to_double w)%Q ∧ (v <= to_double m)%Q
  ∧ (w = 1 → (v == 1)%Q).
Proof.
  intros Hstats HF HL Hhist Hn Hm Hw Hwn Hv.
  destruct (footprint_times_windows _ _ _ _ _ _ _ _ _
              Hstats HF HL Hhist Hn Hm Hw Hwn) as (Hnk & Hmk & v' & Hv' & Htotal).
  rewrite Hv in Hv'. injection Hv' as <-.
  set (keys := class_keys c (snapshot_entries st)) in *.
  destruct (working_set_total_bounds w keys Hw) as (Hlo & Hhi & Hhi'); [lia |].
  rewrite windows_length, <- Hnk in Hlo, Hhi, Hhi'.
  replace (S n - w) with (n - w + 1) in * by lia.
  rewrite <- Hmk in Hhi'.
  assert (0 < to_double (n - w + 1))%Q as Hpos by (apply to_double_pos; lia).
  apply to_double_le in Hlo, Hhi, Hhi'.
  rewrite to_double_mult in Hhi, Hhi'.
  rewrite <- Htotal in Hlo, Hhi, Hhi'.
  assert (1 <= v)%Q as H1 by nra.
  assert (v <= to_double w)%Q as H2 by nra.
  assert (v <= to_double m)%Q as H3 by nra.
  repeat split; try done.
  intros ->. change (to_double 1) with 1%Q in H2. lra.
Qed.

(** X4 on [example_ring], class [3], windows of four accesses. *)
Lemma footprint_bounds_witness :
  ∃ stats F L hist n m v,
    calculateWindowStats example_ring = Some stats
    ∧ firstAccessTimesByClass stats !! 3%Z = Some F
    ∧ lastAccessTimesByClass stats !! 3%Z = Some L
    ∧ reuseTimeHistogramByClass stats !! 3%Z = Some hist
    ∧ nByClass stats !! 3%Z = Some n
    ∧ mByClass stats !! 3%Z = Some m
    ∧ 1 ≤ 4 ∧ 4 ≤ n
    ∧ calculateFpValues F L hist n m !! 4 = Some v
    ∧ (1 <= v)%Q ∧ (v <= to_double 4)%Q ∧ (v <= to_double m)%Q
    ∧ (4 = 1 → (v == 1)%Q).
Proof.
  assert (∃ stats, calculateWindowStats example_ring = Some stats)
    as [stats Hstats].
  { destruct (calculateWindowStats example_ring) as [stats |] eqn:Hs;
      [by exists stats | by vm_compute in Hs]. }
  assert (∃ F L hist n m,
            firstAccessTimesByClass stats !! 3%Z = Some F
            ∧ lastAccessTimesByClass stats !! 3%Z = Some L
            ∧ reuseTimeHistogramByClass stats !! 3%Z = Some hist
            ∧ nByClass stats !! 3%Z = Some n
            ∧ mByClass stats !! 3%Z = Some m
            ∧ 4 ≤ n
            ∧ ∃ v, calculateFpValues F L hist n m !! 4 = Some v)
    as (F & L & hist & n & m & HF & HL & Hhist & Hn & Hm & Hw & v & Hv).
  { pose proof Hstats as Hs. vm_compute in Hs. injection Hs as <-.
    exists [1; 2; 3; 4; 5; 6], [1; 2; 3; 4; 5; 6],
      (replicate 6 0 ++ 24 :: replicate 23 0), 30, 6.
    repeat split; try (vm_compute; reflexivity); [lia |].
    eexists. vm_compute. reflexivity. }
  assert (1 ≤ 4) as H1 by lia.
  exists stats, F, L, hist, n, m, v.
  repeat (split; [assumption |]).
  exact (footprint_bounds example_ring stats 3%Z F L hist n m 4 v
           Hstats HF HL Hhist Hn Hm H1 Hw Hv).
Defined.

(** ** What [calculateWindowStats] returns *)

Lemma sum_list_alter_S (l : list nat) t :
  t < length l → sum_list (alter S t l) = S (sum_list l).
Proof.
  revert t. induction l as [| x l IH]; intros [| t] Ht; simpl in Ht; try lia.
  - done.
  - change (alter S (S t) (x :: l)) with (x :: alter S t l).
    rewrite !sum_list_cons, IH by lia. lia.
Qed.

(** Every access is a first access or a reuse. *)
Lemma scan_step_total keys s x s' :
  scan_sem keys s → scan_step s x = Some s' →
  sum_list (scan_hist s') + size (scan_first s')
  = S (sum_list (scan_hist s) + size (scan_first s)).
Proof.
  intros Hsem Hstep. destruct (scan_sem_keys keys s x Hsem) as [Hx1 Hx2].
  unfold scan_step in Hstep.
  destruct (scan_last s !! x) as [b |] eqn:Hb.
  - unfold vector_incr in Hstep.
    destruct (Nat.ltb_spec (scan_index s - b) (length (scan_hist s))) as [Hin | ?];
      [| done].
    simpl in Hstep. injection Hstep as <-. simpl.
    destruct (proj1 Hx1) as [a Ha]; [apply Hx2; by eexists |].
    unfold emplace. rewrite Ha, sum_list_alter_S by done. lia.
  - simpl in Hstep. injection Hstep as <-. simpl.
    assert (scan_first s !! x = None) as Ha.
    { apply eq_None_not_Some. intros H. apply Hx1, Hx2 in H. by destruct H. }
    unfold emplace. rewrite Ha, map_size_insert_None by done. lia.
Qed.

Lemma scan_total keys : ∀ done_keys s s',
  scan_sem done_keys s → scan keys s = Some s' →
  sum_list (scan_hist s') + size (scan_first s')
  = sum_list (scan_hist s) + size (scan_first s) + length keys.
Proof.
  induction keys as [| x keys IH]; intros done_keys s s' Hsem; simpl.
  - intros [= <-]. lia.
  - destruct (scan_step s x) as [s1 |] eqn:Hstep; simpl; [| done].
    intros Hscan.
    rewrite (IH (done_keys ++ [x]) s1 s' (scan_step_sem _ _ _ _ Hsem Hstep) Hscan).
    rewrite (scan_step_total _ _ _ _ Hsem Hstep). lia.
Qed.

Lemma sum_list_replicate_0 n : sum_list (replicate n 0) = 0.
Proof. induction n as [| n IH]; [done |]. simpl. by rewrite IH. Qed.

Lemma reuse_time_pos keys i t : reuse_time keys i = Some t → 1 ≤ t ≤ i.
Proof.
  unfold reuse_time. destruct (keys !! i) as [k |] eqn:Hk; simpl; [| done].
  destruct (list_find _ _) as [[p y] |] eqn:Hfind; simpl; [| done].
  intros [= <-]. apply list_find_Some in Hfind as (Hp & _).
  apply lookup_lt_Some in Hp. rewrite length_reverse, length_take in Hp. lia.
Qed.

Lemma reuse_count_zero keys : reuse_count keys 0 = 0.
Proof.
  unfold reuse_count. rewrite filter_none; [done |].
  intros i _ Hi%reuse_time_pos. lia.
Qed.

Lemma StronglySorted_le_NoDup (l : list nat) :
  StronglySorted le l → NoDup l → StronglySorted lt l.
Proof.
  induction 1 as [| x l Hsorted IH Hall]; intros Hnodup; constructor.
  - apply IH. by apply NoDup_cons in Hnodup as [_ ?].
  - apply NoDup_cons in Hnodup as [Hx _].
    apply Forall_forall. intros y Hy.
    rewrite Forall_forall in Hall. specialize (Hall y Hy).
    assert (x ≠ y) by (intros ->; done). lia.
Qed.

Lemma elem_of_first_values first x :
  x ∈ first_values first ↔ ∃ k a, first !! k = Some a ∧ x = a + 1.
Proof.
  unfold first_values. rewrite list_elem_of_fmap. split.
  - intros ([k a] & -> & Hka%elem_of_map_to_list). eauto.
  - intros (k & a & Hka & ->). exists (k, a). split; [done |].
    by apply elem_of_map_to_list.
Qed.

Lemma elem_of_last_values n last x :
  x ∈ last_values n last ↔ ∃ k b, last !! k = Some b ∧ x = n - b.
Proof.
  unfold last_values. rewrite list_elem_of_fmap. split.
  - intros ([k b] & -> & Hkb%elem_of_map_to_list). eauto.
  - intros (k & b & Hkb & ->). exists (k, b). split; [done |].
    by apply elem_of_map_to_list.
Qed.

Lemma NoDup_first_values keys s :
  scan_sem keys s → NoDup (first_values (scan_first s)).
Proof.
  intros (_ & Hfirst & _). unfold first_values.
  apply NoDup_fmap_2_strong; [| apply NoDup_map_to_list].
  intros [k1 a1] [k2 a2] H1%elem_of_map_to_list H2%elem_of_map_to_list Heq.
  simpl in Heq. assert (a1 = a2) as -> by lia.
  apply Hfirst in H1 as [H1 _]. apply Hfirst in H2 as [H2 _]. congruence.
Qed.

Lemma NoDup_last_values keys s :
  scan_sem keys s → NoDup (last_values (length keys) (scan_last s)).
Proof.
  intros (_ & _ & Hlast & _). unfold last_values.
  apply NoDup_fmap_2_strong; [| apply NoDup_map_to_list].
  intros [k1 b1] [k2 b2] H1%elem_of_map_to_list H2%elem_of_map_to_list Heq.
  simpl in Heq. apply Hlast in H1, H2.
  pose proof (last_at_lt _ _ _ H1). pose proof (last_at_lt _ _ _ H2).
  assert (b1 = b2) as -> by lia.
  destruct H1 as [H1 _]. destruct H2 as [H2 _]. congruence.
Qed.

(** X5: [calculateWindowStats] returns for every state of the ring (no
    unchecked write goes out of range), and its five maps have an entry
    exactly for the classes of the window: [n] is the number of accesses
    of the class in the window and [m] the number of its distinct keys. *)
Theorem window_stats_counts (st : FootprintMRC) :
  ∃ stats,
    calculateWindowStats st = Some stats
    ∧ ∀ c, let keys := class_keys c (snapshot_entries st) in
        if decide (c ∈ window_classes st)
        then nByClass stats !! c = Some (length keys)
             ∧ mByClass stats !! c = Some (distinct keys)
             ∧ 1 ≤ distinct keys ≤ length keys
             ∧ is_Some (firstAccessTimesByClass stats !! c)
             ∧ is_Some (lastAccessTimesByClass stats !! c)
             ∧ is_Some (reuseTimeHistogramByClass stats !! c)
        else nByClass stats !! c = None
             ∧ mByClass stats !! c = None
             ∧ firstAccessTimesByClass stats !! c = None
             ∧ lastAccessTimesByClass stats !! c = None
             ∧ reuseTimeHistogramByClass stats !! c = None.
Proof.
  destruct (window_stats_defined (snapshot_entries st)) as [stats Hstats].
  exists stats. rewrite calculateWindowStats_eq. split; [done |].
  intros c keys. destruct (decide (c ∈ window_classes st)) as [Hin | Hnotin].
  - apply elem_of_window_classes in Hin.
    destruct (window_stats_present _ _ _ Hstats Hin)
      as (s & _ & HF & HL & Hhist & Hn & Hm).
    fold keys in HF, HL, Hhist, Hn, Hm.
    repeat split; try done; try by eexists.
    + apply distinct_pos. unfold keys. by intros H%class_keys_nil_iff.
    + apply distinct_le_length.
  - rewrite elem_of_window_classes in Hnotin.
    destruct (window_stats_absent _ _ _ Hstats Hnotin) as (? & ? & ? & ? & ?).
    done.
Qed.

(** X6: for a class of the window, [firstAccessTimes] lists in strictly
    ascending order the positions, counted from [1] within the accesses
    of the class, of the first access to each distinct key, and
    [lastAccessTimes] lists in strictly ascending order, for each distinct
    key, the number of accesses from its last access to the end of the
    window (the last access included); both have [m] entries. *)
Theorem access_time_vectors (st : FootprintMRC) (stats : WindowStats)
    (c : ClassId) (F L hist : list nat) (n m : nat) :
  calculateWindowStats st = Some stats →
  firstAccessTimesByClass stats !! c = Some F →
  lastAccessTimesByClass stats !! c = Some L →
  reuseTimeHistogramByClass stats !! c = Some hist →
  nByClass stats !! c = Some n →
  mByClass stats !! c = Some m →
  let keys := class_keys c (snapshot_entries st) in
  StronglySorted lt F ∧ length F = m
  ∧ (∀ x, x ∈ F ↔ ∃ k a, first_at keys k a ∧ x = a + 1)
  ∧ StronglySorted lt L ∧ length L = m
  ∧ (∀ x, x ∈ L ↔ ∃ k b, last_at keys k b ∧ x = n - b).
Proof.
  intros Hstats HF HL Hhist Hn Hm keys.
  destruct (class_stats_scan _ _ _ _ _ _ _ _ Hstats HF HL Hhist Hn Hm)
    as (s & Hscan & _ & Hnk & -> & -> & -> & ->).
  fold keys in Hscan, Hnk |- *.
  pose proof (scan_sem_full keys _ s Hscan) as Hsem.
  destruct (scan_sem_dom keys s Hsem) as [Hdom1 Hdom2].
  pose proof (NoDup_first_values keys s Hsem) as HndF.
  pose proof (NoDup_last_values keys s Hsem) as HndL.
  destruct Hsem as (Hidx & Hfirst & Hlast & _).
  assert (sorted_first_access n (scan_first s) ≡ₚ first_values (scan_first s)) as HpF.
  { apply sorted_first_access_perm. intros k a Ha%Hfirst.
    rewrite Hnk. by eapply first_at_lt. }
  assert (sorted_last_access n (scan_last s) ≡ₚ last_values n (scan_last s)) as HpL.
  { apply sorted_last_access_perm. intros k b Hb%Hlast.
    rewrite Hnk. by eapply last_at_lt. }
  split; [| split; [| split; [| split; [| split]]]].
  - apply StronglySorted_le_NoDup; [apply expand_counts_sorted | by rewrite HpF].
  - rewrite HpF. unfold first_values, distinct.
    by rewrite length_fmap, length_map_to_list, <- size_dom, Hdom1.
  - intros x. rewrite HpF, elem_of_first_values.
    split; intros (k & a & Ha & ->); exists k, a; split; try done; by apply Hfirst.
  - apply StronglySorted_le_NoDup; [apply expand_counts_sorted |].
    rewrite HpL, Hnk. done.
  - rewrite HpL. unfold last_values, distinct.
    by rewrite length_fmap, length_map_to_list, <- size_dom, Hdom2.
  - intros x. rewrite HpL, elem_of_last_values.
    split; intros (k & b & Hb & ->); exists k, b; split; try done; by apply Hlast.
Qed.

(** X6 on [example_ring], class [3]. *)
Lemma access_time_vectors_witness :
  ∃ stats F L hist n m,
    calculateWindowStats example_ring = Some stats
    ∧ firstAccessTimesByClass stats !! 3%Z = Some F
    ∧ lastAccessTimesByClass stats !! 3%Z = Some L
    ∧ reuseTimeHistogramByClass stats !! 3%Z = Some hist
    ∧ nByClass stats !! 3%Z = Some n
    ∧ mByClass stats !! 3%Z = Some m
    ∧ let keys := class_keys 3%Z (snapshot_entries example_ring) in
      StronglySorted lt F ∧ length F = m
      ∧ (∀ x, x ∈ F ↔ ∃ k a, first_at keys k a ∧ x = a + 1)
      ∧ StronglySorted lt L ∧ length L = m
      ∧ (∀ x, x ∈ L ↔ ∃ k b, last_at keys k b ∧ x = n - b).
Proof.
  assert (∃ stats, calculateWindowStats example_ring = Some stats)
    as [stats Hstats].
  { destruct (calculateWindowStats example_ring) as [stats |] eqn:Hs;
      [by exists stats | by vm_compute in Hs]. }
  assert (∃ F L hist n m,
            firstAccessTimesByClass stats !! 3%Z = Some F
            ∧ lastAccessTimesByClass stats !! 3%Z = Some L
            ∧ reuseTimeHistogramByClass stats !! 3%Z = Some hist
            ∧ nByClass stats !! 3%Z = Some n
            ∧ mByClass stats !! 3%Z = Some m)
    as (F & L & hist & n & m & HF & HL & Hhist & Hn & Hm).
  { pose proof Hstats as Hs. vm_compute in Hs. injection Hs as <-.
    do 5 eexists. repeat split; vm_compute; reflexivity. }
  exists stats, F, L, hist, n, m.
  repeat (split; [assumption |]).
  exact (access_time_vectors example_ring stats 3%Z F L hist n m
           Hstats HF HL Hhist Hn Hm).
Defined.

Lemma class_hist_facts st stats c F L hist n m :
  calculateWindowStats st = Some stats →
  firstAccessTimesByClass stats !! c = Some F →
  lastAccessTimesByClass stats !! c = Some L →
  reuseTimeHistogramByClass stats !! c = Some hist →
  nByClass stats !! c = Some n →
  mByClass stats !! c = Some m →
  let keys := class_keys c (snapshot_entries st) in
  length hist = n
  ∧ (∀ t, hist !!! t = reuse_count keys t)
  ∧ sum_list hist + m = n.
Proof.
  intros Hstats HF HL Hhist Hn Hm keys.
  destruct (class_footprint_inputs _ _ _ _ _ _ _ _
              (eq_trans (eq_sym (calculateWindowStats_eq st)) Hstats)
              HF HL Hhist Hn Hm) as (_ & Hlen & _).
  destruct (class_stats_scan _ _ _ _ _ _ _ _ Hstats HF HL Hhist Hn Hm)
    as (s & Hscan & _ & Hnk & -> & -> & -> & ->).
  fold keys in Hscan, Hnk |- *.
  pose proof (scan_sem_full keys _ s Hscan) as Hsem.
  pose proof (scan_total keys [] _ s (scan_sem_start n) Hscan) as Htotal.
  simpl in Htotal. rewrite sum_list_replicate_0, map_size_empty in Htotal.
  destruct (scan_sem_dom keys s Hsem) as [Hdom1 _].
  destruct Hsem as (_ & _ & _ & Hcount).
  split; [done |]. split; [done |].
  unfold distinct. rewrite <- Hdom1, size_dom. lia.
Qed.

(** X7: for a class of the window the reuse histogram has [n] slots, and
    slot [t] counts the accesses whose previous access to the same key
    lies [t] accesses back; slot [0] is empty, and the counts add up to
    [n - m], every access being either the first one to its key or a
    reuse. *)
Theorem reuse_histogram_counts (st : FootprintMRC) (stats : WindowStats)
    (c : ClassId) (F L hist : list nat) (n m : nat) :
  calculateWindowStats st = Some stats →
  firstAccessTimesByClass stats !! c = Some F →
  lastAccessTimesByClass stats !! c = Some L →
  reuseTimeHistogramByClass stats !! c = Some hist →
  nByClass stats !! c = Some n →
  mByClass stats !! c = Some m →
  let keys := class_keys c (snapshot_entries st) in
  length hist = n
  ∧ (∀ t, hist !!! t = reuse_count keys t)
  ∧ hist !!! 0 = 0
  ∧ sum_list hist + m = n.
Proof.
  intros Hstats HF HL Hhist Hn Hm keys.
  destruct (class_hist_facts _ _ _ _ _ _ _ _ Hstats HF HL Hhist Hn Hm)
    as (Hlen & Hcount & Htotal).
  fold keys in Hcount.
  split; [done |]. split; [done |]. split; [| done].
  by rewrite Hcount, reuse_count_zero.
Qed.

(** X7 on [example_ring], class [3]. *)
Lemma reuse_histogram_counts_witness :
  ∃ stats F L hist n m,
    calculateWindowStats example_ring = Some stats
    ∧ firstAccessTimesByClass stats !! 3%Z = Some F
    ∧ lastAccessTimesByClass stats !! 3%Z = Some L
    ∧ reuseTimeHistogramByClass stats !! 3%Z = Some hist
    ∧ nByClass stats !! 3%Z = Some n
    ∧ mByClass stats !! 3%Z = Some m
    ∧ let keys := class_keys 3%Z (snapshot_entries example_ring) in
      length hist = n
      ∧ (∀ t, hist !!! t = reuse_count keys t)
      ∧ hist !!! 0 = 0
      ∧ sum_list hist + m = n.
Proof.
  assert (∃ stats, calculateWindowStats example_ring = Some stats)
    as [stats Hstats].
  { destruct (calculateWindowStats example_ring) as [stats |] eqn:Hs;
      [by exists stats | by vm_compute in Hs]. }
  assert (∃ F L hist n m,
            firstAccessTimesByClass stats !! 3%Z = Some F
            ∧ lastAccessTimesByClass stats !! 3%Z = Some L
            ∧ reuseTimeHistogramByClass stats !! 3%Z = Some hist
            ∧ nByClass stats !! 3%Z = Some n
            ∧ mByClass stats !! 3%Z = Some m)
    as (F & L & hist & n & m & HF & HL & Hhist & Hn & Hm).
  { pose proof Hstats as Hs. vm_compute in Hs. injection Hs as <-.
    do 5 eexists. repeat split; vm_compute; reflexivity. }
  exists stats, F, L, hist, n, m.
  repeat (split; [assumption |]).
  exact (reuse_histogram_counts example_ring stats 3%Z F L hist n m
           Hstats HF HL Hhist Hn Hm).
Defined.

(** ** What [queryMrc] returns for a class *)

(** An entry of the result of [queryMrc] is computed from the statistics
    of its class. *)
Lemma queryMrc_entry_stats st allocs maxSlabCount result c pts delta n :
  queryMrc st allocs maxSlabCount = Some result →
  result !! c = Some (pts, delta, n) →
  ∃ a stats F L hist m,
    allocs !! c = Some a ∧ a ≠ 0
    ∧ calculateWindowStats st = Some stats
    ∧ firstAccessTimesByClass stats !! c = Some F
    ∧ lastAccessTimesByClass stats !! c = Some L
    ∧ reuseTimeHistogramByClass stats !! c = Some hist
    ∧ nByClass stats !! c = Some n
    ∧ mByClass stats !! c = Some m
    ∧ (pts, delta) = (mrc_curve hist (calculateFpValues F L hist n m) n a maxSlabCount).1.
Proof.
  intros Hq Hc.
  destruct (queryMrc_spec st allocs maxSlabCount)
    as (stats & result' & Hstats & Hq' & Hres).
  rewrite Hq in Hq'. injection Hq' as <-.
  rewrite Hres in Hc. unfold queryMrc_entry in Hc.
  destruct (allocs !! c) as [a |] eqn:Ha; simpl in Hc; [| done].
  destruct (Nat.eqb_spec a 0) as [| Hnz]; [done |].
  destruct (firstAccessTimesByClass stats !! c) as [F |] eqn:HF; [| done].
  unfold mrc_of_class in Hc. rewrite HF in Hc. simpl in Hc.
  destruct (lastAccessTimesByClass stats !! c) as [L |] eqn:HL; simpl in Hc; [| done].
  destruct (reuseTimeHistogramByClass stats !! c) as [hist |] eqn:Hhist;
    simpl in Hc; [| done].
  destruct (nByClass stats !! c) as [n' |] eqn:Hn; simpl in Hc; [| done].
  destruct (mByClass stats !! c) as [m |] eqn:Hm; simpl in Hc; [| done].
  destruct (mrc_curve hist (calculateFpValues F L hist n' m) n' a maxSlabCount)
    as [[pts' delta'] prev] eqn:Hcurve.
  injection Hc as <- <- <-.
  exists a, stats, F, L, hist, m.
  rewrite calculateWindowStats_eq. by rewrite Hcurve.
Qed.

(** The deltas after the slab counts [0 .. len - 1], and the miss ratio
    carried to the next iteration. *)
Lemma mrc_delta_lookup hist fp n a len :
  let state := foldl (mrc_curve_step hist fp n a) (∅, ∅, 1%Q) (seq 0 len) in
  state.2 = miss_ratio_at hist fp n a (len - 1)
  ∧ ∀ s, state.1.2 !! s
         = if decide (0 < s < len)
           then Some (miss_ratio_at hist fp n a (s - 1) - miss_ratio_at hist fp n a s)%Q
           else None.
Proof.
  induction len as [| len [IHprev IHdelta]].
  - simpl. split; [by rewrite miss_ratio_at_zero |].
    intros s. rewrite lookup_empty. destruct (decide (0 < s < 0)); [lia | done].
  - rewrite seq_S, foldl_snoc. simpl plus.
    destruct (foldl _ _ (seq 0 len)) as [[pts delta] prev]. simpl in IHprev, IHdelta.
    unfold mrc_curve_step. cbn [fst snd].
    split; [by replace (S len - 1) with len by lia |].
    intros s. destruct (Nat.ltb_spec 0 len) as [Hpos | Hzero].
    + destruct (decide (s = len)) as [-> | Hne].
      * rewrite lookup_insert_eq, IHprev.
        destruct (decide (0 < len < S len)); [done | lia].
      * rewrite lookup_insert_ne by done. rewrite IHdelta.
        destruct (decide (0 < s < len)), (decide (0 < s < S len)); done || lia.
    + rewrite IHdelta.
      destruct (decide (0 < s < len)), (decide (0 < s < S len)); done || lia.
Qed.

Lemma mrc_curve_delta hist fp n a maxSlabCount s :
  (mrc_curve hist fp n a maxSlabCount).1.2 !! s
  = if decide (1 ≤ s ≤ maxSlabCount)
    then Some (miss_ratio_at hist fp n a (s - 1) - miss_ratio_at hist fp n a s)%Q
    else None.
Proof.
  unfold mrc_curve.
  destruct (mrc_delta_lookup hist fp n a (S maxSlabCount)) as [_ Hdelta].
  rewrite Hdelta.
  destruct (decide (0 < s < S maxSlabCount)), (decide (1 ≤ s ≤ maxSlabCount));
    done || lia.
Qed.

Lemma miss_ratio_telescope hist fp n a len :
  (Qsum_with (λ s, miss_ratio_at hist fp n a (s - 1) - miss_ratio_at hist fp n a s)
     (seq 1 len)
   == 1 - miss_ratio_at hist fp n a len)%Q.
Proof.
  induction len as [| len IH].
  - simpl. rewrite miss_ratio_at_zero. lra.
  - rewrite seq_S. unfold Qsum_with in *. rewrite foldr_app. simpl.
    replace (len - 0) with len by lia.
    assert (∀ (l : list nat) (g : nat → Q) (z : Q),
              (foldr (λ x acc, g x + acc) z l == foldr (λ x acc, g x + acc) 0 l + z)%Q)
      as Hshift.
    { induction l as [| x l IHl]; intros g z; simpl; [lra |]. rewrite IHl. lra. }
    rewrite Hshift, IH. lra.
Qed.

(** X8: in every entry returned by [queryMrc], [mrcDelta] has exactly the
    keys [1 .. maxSlabs]; the delta at [s] is the drop of the miss ratio
    from [s - 1] slabs to [s] slabs, the deltas up to [s] add up to one
    minus the miss ratio at [s], and no delta is negative when the cache
    sizes fit a [size_t]. *)
Theorem mrc_delta_steps (st : FootprintMRC) (allocs : gmap Z nat)
    (maxSlabs : nat) (result : gmap Z (gmap nat Q * gmap nat Q * nat))
    (c : ClassId) (pts delta : gmap nat Q) (n : nat) :
  queryMrc st allocs maxSlabs = Some result →
  result !! c = Some (pts, delta, n) →
  (∀ s, is_Some (delta !! s) ↔ 1 ≤ s ≤ maxSlabs)
  ∧ (∀ s, 1 ≤ s ≤ maxSlabs →
       ∃ d prev cur, delta !! s = Some d ∧ pts !! (s - 1) = Some prev
                     ∧ pts !! s = Some cur ∧ d = (prev - cur)%Q)
  ∧ (∀ s cur, s ≤ maxSlabs → pts !! s = Some cur →
       (Qsum_with (λ i, default 0%Q (delta !! i)) (seq 1 s) == 1 - cur)%Q)
  ∧ ((∀ a, allocs !! c = Some a → fits64 (maxSlabs * a)) →
     ∀ s d, delta !! s = Some d → (0 <= d)%Q).
Proof.
  intros Hq Hc.
  destruct (queryMrc_entry_stats _ _ _ _ _ _ _ _ Hq Hc)
    as (a & stats & F & L & hist & m & Ha & _ & _ & _ & _ & _ & _ & _ & Hcurve).
  set (fp := calculateFpValues F L hist n m) in *.
  assert (pts = (mrc_curve hist fp n a maxSlabs).1.1) as Hpts
    by (by rewrite <- Hcurve).
  assert (delta = (mrc_curve hist fp n a maxSlabs).1.2) as Hdelta
    by (by rewrite <- Hcurve).
  split; [| split; [| split]].
  - intros s. rewrite Hdelta, mrc_curve_delta.
    destruct (decide (1 ≤ s ≤ maxSlabs)) as [Hs | Hs]; split.
    + done.
    + intros _. by eexists.
    + by intros [? ?].
    + intros H. by destruct Hs.
  - intros s Hs. rewrite Hdelta, Hpts, mrc_curve_delta, !mrc_curve_points.
    destruct (decide (1 ≤ s ≤ maxSlabs)); [| done].
    destruct (decide (s - 1 ≤ maxSlabs)); [| lia].
    destruct (decide (s ≤ maxSlabs)); [| lia].
    eauto 10.
  - intros s cur Hs. rewrite Hpts, mrc_curve_points.
    destruct (decide (s ≤ maxSlabs)) as [_ | ?]; [| done]. intros [= <-].
    rewrite <- miss_ratio_telescope.
    assert (∀ l : list nat, (∀ i, i ∈ l → 1 ≤ i ≤ maxSlabs) →
              (Qsum_with (λ i, default 0%Q (delta !! i)) l
               == Qsum_with (λ i, miss_ratio_at hist fp n a (i - 1)
                                 - miss_ratio_at hist fp n a i) l)%Q) as Hext.
    { intros l. induction l as [| i l IH]; intros Hl; simpl; [reflexivity |].
      rewrite IH by (intros j Hj; apply Hl; by right).
      rewrite Hdelta, mrc_curve_delta.
      destruct (decide (1 ≤ i ≤ maxSlabs)) as [_ | Hout]; [reflexivity |].
      exfalso. apply Hout, Hl. left. }
    apply Hext. intros i Hi%elem_of_seq. lia.
  - intros Hfits s d. rewrite Hdelta, mrc_curve_delta.
    destruct (decide (1 ≤ s ≤ maxSlabs)); [| done]. intros [= <-].
    pose proof (miss_ratio_at_mono hist fp n a (s - 1) s) as Hmono.
    assert (fits64 (s * a)) as Hfit.
    { apply (fits64_le _ (maxSlabs * a)); [nia | by apply Hfits]. }
    specialize (Hmono ltac:(lia) Hfit). lra.
Qed.

(** X8 on [example_ring], class [3], up to three slabs. *)
Lemma mrc_delta_steps_witness :
  ∃ result pts delta n,
    queryMrc example_ring example_allocs 3 = Some result
    ∧ result !! 3%Z = Some (pts, delta, n)
    ∧ (∀ s, is_Some (delta !! s) ↔ 1 ≤ s ≤ 3)
    ∧ (∀ s, 1 ≤ s ≤ 3 →
         ∃ d prev cur, delta !! s = Some d ∧ pts !! (s - 1) = Some prev
                       ∧ pts !! s = Some cur ∧ d = (prev - cur)%Q)
    ∧ (∀ s cur, s ≤ 3 → pts !! s = Some cur →
         (Qsum_with (λ i, default 0%Q (delta !! i)) (seq 1 s) == 1 - cur)%Q)
    ∧ ((∀ a, example_allocs !! 3%Z = Some a → fits64 (3 * a)) →
       ∀ s d, delta !! s = Some d → (0 <= d)%Q).
Proof.
  destruct (queryMrc example_ring example_allocs 3) as [result |] eqn:Hq;
    [| by vm_compute in Hq].
  destruct (result !! 3%Z) as [[[pts delta] n] |] eqn:Hc.
  2:{ vm_compute in Hq. injection Hq as <-. by vm_compute in Hc. }
  exists result, pts, delta, n. split; [done |]. split; [done |].
  exact (mrc_delta_steps example_ring example_allocs 3 result 3%Z pts delta n Hq Hc).
Defined.

(** ** The floor of the miss-ratio curve *)

Lemma sum_list_lookup_seq (l : list nat) :
  sum_list_with (λ t, l !!! t) (seq 0 (length l)) = sum_list l.
Proof.
  induction l as [| x l IH] using rev_ind; [done |].
  rewrite length_app. simpl length. rewrite Nat.add_1_r, seq_S.
  rewrite !sum_list_with_app. simpl.
  rewrite (sum_list_with_ext _ (λ t, l !!! t)).
  - rewrite IH, list_lookup_total_middle by done. lia.
  - intros t [_ Ht]%elem_of_seq. by rewrite lookup_total_app_l by lia.
Qed.

Lemma count_hits_fold_le hist fp c (l : list nat) : ∀ acc,
  foldl (count_hits_step hist fp c) acc l
  ≤ acc + sum_list_with (λ t, hist !!! t) l.
Proof.
  induction l as [| t l IH]; intros acc; simpl; [lia |].
  etransitivity; [apply IH |].
  unfold count_hits_step.
  destruct (0 <? hist !!! t); [| lia].
  destruct (Qlt_bool _ _); lia.
Qed.

Lemma count_hits_le hist fp c : count_hits hist fp c ≤ sum_list hist.
Proof.
  unfold count_hits. rewrite <- (sum_list_lookup_seq hist).
  apply (count_hits_fold_le hist fp c _ 0).
Qed.

Lemma count_hits_fold_all hist fp c (l : list nat) : ∀ acc,
  (∀ t, t ∈ l → 0 < hist !!! t →
     ((if (0 <? t) && (t <? length fp) then fp !!! t else 0) < to_double c)%Q) →
  foldl (count_hits_step hist fp c) acc l
  = acc + sum_list_with (λ t, hist !!! t) l.
Proof.
  induction l as [| t l IH]; intros acc Hall; simpl; [lia |].
  rewrite IH by (intros u Hu; apply Hall; by right).
  unfold count_hits_step.
  destruct (Nat.ltb_spec 0 (hist !!! t)) as [Hpos | Hzero]; [| lia].
  assert (Qlt_bool (if (0 <? t) && (t <? length fp) then fp !!! t else 0)
            (to_double c) = true) as ->; [| lia].
  apply Qlt_bool_iff, Hall; [left | done].
Qed.

Lemma count_hits_all hist fp c :
  (∀ t, t < length hist → 0 < hist !!! t →
     ((if (0 <? t) && (t <? length fp) then fp !!! t else 0) < to_double c)%Q) →
  count_hits hist fp c = sum_list hist.
Proof.
  intros Hall. unfold count_hits. rewrite <- (sum_list_lookup_seq hist).
  apply (count_hits_fold_all hist fp c _ 0).
  intros t [_ Ht]%elem_of_seq. apply Hall. lia.
Qed.

Lemma clamp_id x : (0 <= x <= 1)%Q → (Qmax 0 (Qmin 1 x) == x)%Q.
Proof.
  intros [H0 H1]. rewrite (Q.min_r 1 x) by done. by apply Q.max_r.
Qed.

Lemma clamp_lower lo x : (lo <= 1)%Q → (lo <= x)%Q → (lo <= Qmax 0 (Qmin 1 x))%Q.
Proof.
  intros H1 Hx. eapply Qle_trans; [| apply Q.le_max_r].
  by apply Q.min_glb.
Qed.

(** The footprint never exceeds the number of distinct keys. *)
Lemma footprint_le_distinct st stats c F L hist n m w v :
  calculateWindowStats st = Some stats →
  firstAccessTimesByClass stats !! c = Some F →
  lastAccessTimesByClass stats !! c = Some L →
  reuseTimeHistogramByClass stats !! c = Some hist →
  nByClass stats !! c = Some n →
  mByClass stats !! c = Some m →
  1 ≤ w → w ≤ n →
  calculateFpValues F L hist n m !! w = Some v → (v <= to_double m)%Q.
Proof.
  intros Hstats HF HL Hhist Hn Hm Hw Hwn Hv.
  destruct (footprint_times_windows _ _ _ _ _ _ _ _ _
              Hstats HF HL Hhist Hn Hm Hw Hwn) as (Hnk & Hmk & v' & Hv' & Htotal).
  rewrite Hv in Hv'. injection Hv' as <-.
  set (keys := class_keys c (snapshot_entries st)) in *.
  destruct (working_set_total_bounds w keys Hw) as (_ & _ & Hhi); [lia |].
  rewrite windows_length, <- Hnk, <- Hmk in Hhi.
  replace (S n - w) with (n - w + 1) in * by lia.
  assert (0 < to_double (n - w + 1))%Q as Hpos by (apply to_double_pos; lia).
  apply to_double_le in Hhi. rewrite to_double_mult, <- Htotal in Hhi.
  nra.
Qed.

(** The hits counted for a class never exceed its reuses, and every
    reuse is a hit once the cache holds more objects than the class has
    distinct keys. *)
Lemma class_hit_count st stats c F L hist n m cacheSize :
  calculateWindowStats st = Some stats →
  firstAccessTimesByClass stats !! c = Some F →
  lastAccessTimesByClass stats !! c = Some L →
  reuseTimeHistogramByClass stats !! c = Some hist →
  nByClass stats !! c = Some n →
  mByClass stats !! c = Some m →
  let hits := count_hits hist (calculateFpValues F L hist n m) cacheSize in
  hits ≤ n - m ∧ (m < cacheSize → hits = n - m).
Proof.
  intros Hstats HF HL Hhist Hn Hm hits. unfold hits.
  set (fp := calculateFpValues F L hist n m) in *.
  destruct (class_stats_scan _ _ _ _ _ _ _ _ Hstats HF HL Hhist Hn Hm)
    as (_ & _ & Hn1 & _).
  destruct (class_hist_facts _ _ _ _ _ _ _ _ Hstats HF HL Hhist Hn Hm)
    as (Hlen & Hcount & Htotal).
  destruct (class_footprint_inputs _ _ _ _ _ _ _ _
              (eq_trans (eq_sym (calculateWindowStats_eq st)) Hstats)
              HF HL Hhist Hn Hm) as (_ & _ & HsF & HsL & _).
  destruct (calculateFpValues_spec F L hist n m Hn1 Hlen HsF HsL) as (Hfplen & Hfp).
  fold fp in Hfplen, Hfp.
  split.
  - pose proof (count_hits_le hist fp cacheSize). lia.
  - intros Hbig. rewrite count_hits_all; [lia |].
    intros t Ht Hpos. rewrite Hlen in Ht.
    assert (t ≠ 0) as Ht0.
    { intros ->. rewrite Hcount, reuse_count_zero in Hpos. lia. }
    rewrite Hfplen.
    destruct (Nat.ltb_spec 0 t) as [_ | ?]; [| lia].
    destruct (Nat.ltb_spec t (S n)) as [_ | ?]; [| lia].
    simpl andb. cbv iota.
    destruct (Hfp t) as (vt & Hvt & _); [lia |].
    rewrite (list_lookup_total_correct _ _ _ Hvt).
    pose proof (footprint_le_distinct _ _ _ _ _ _ _ _ t vt
                  Hstats HF HL Hhist Hn Hm ltac:(lia) ltac:(lia) Hvt) as Hle.
    assert (to_double m < to_double cacheSize)%Q by (apply to_double_lt; lia).
    lra.
Qed.

(** X9: the access count of an entry of [queryMrc] is the number [n] of
    accesses of the class in the window.  The point at [s] slabs comes
    from a hit count: it is [1] when the cache size [s * allocsPerSlab]
    (in [size_t]) is [0], and [1 - hits / n] clamped to [[0, 1]]
    otherwise, where [hits] is at most the number [n - m] of reuses, [m]
    being the number of distinct keys, and is exactly [n - m] once the
    cache size exceeds [m].  With the arithmetic on [double] taken as
    exact, no miss ratio of the curve is therefore below the share
    [m / n] of first accesses, and the miss ratio is exactly [m / n] once
    the cache size exceeds [m]. *)
Theorem miss_ratio_floor (st : FootprintMRC) (allocs : gmap Z nat)
    (maxSlabs : nat) (result : gmap Z (gmap nat Q * gmap nat Q * nat))
    (c : ClassId) (pts delta : gmap nat Q) (n : nat) :
  queryMrc st allocs maxSlabs = Some result →
  result !! c = Some (pts, delta, n) →
  let keys := class_keys c (snapshot_entries st) in
  n = length keys ∧ 1 ≤ n
  ∧ (∀ a s, allocs !! c = Some a → s ≤ maxSlabs →
       ∃ hits,
         hits ≤ n - distinct keys
         ∧ (distinct keys < wrap64 (s * a) → hits = n - distinct keys)
         ∧ pts !! s
           = Some (if 0 <? wrap64 (s * a)
                   then Qmax 0 (Qmin 1 (1 - to_double hits / to_double n))
                   else 1)%Q)
  ∧ (∀ s v, pts !! s = Some v →
       (to_double (distinct keys) / to_double n <= v)%Q)
  ∧ (∀ a s v, allocs !! c = Some a → fits64 (s * a) → distinct keys < s * a →
       pts !! s = Some v →
       (v == to_double (distinct keys) / to_double n)%Q).
Proof.
  intros Hq Hc keys.
  destruct (queryMrc_entry_stats _ _ _ _ _ _ _ _ Hq Hc)
    as (a & stats & F & L & hist & m & Ha & Hnz & Hstats & HF & HL & Hhist
        & Hn & Hm & Hcurve).
  set (fp := calculateFpValues F L hist n m) in *.
  assert (pts = (mrc_curve hist fp n a maxSlabs).1.1) as Hpts
    by (by rewrite <- Hcurve).
  destruct (class_stats_scan _ _ _ _ _ _ _ _ Hstats HF HL Hhist Hn Hm)
    as (_ & _ & Hn1 & Hnk & Hmk & _).
  fold keys in Hnk, Hmk.
  destruct (class_hist_facts _ _ _ _ _ _ _ _ Hstats HF HL Hhist Hn Hm)
    as (Hlen & Hcount & Htotal).
  pose proof (λ cacheSize,
                class_hit_count _ _ _ _ _ _ _ _ cacheSize
                  Hstats HF HL Hhist Hn Hm) as Hhits.
  simpl in Hhits. fold fp in Hhits.
  rewrite <- Hmk.
  assert (0 < to_double n)%Q as Hnpos by (apply to_double_pos; lia).
  assert (to_double (n - m) == to_double n - to_double m)%Q as Hsum
    by (apply to_double_minus; lia).
  assert (to_double m / to_double n <= 1)%Q as Hshare.
  { apply Qle_shift_div_r; [done |].
    assert (to_double m <= to_double n)%Q by (apply to_double_le; lia). lra. }
  assert (0 <= to_double m / to_double n)%Q as Hshare0.
  { apply Qle_shift_div_l; [done |]. pose proof (to_double_nonneg m). lra. }
  split; [done |]. split; [done |]. split; [| split].
  - intros a' s Ha' Hs. rewrite Ha in Ha'. injection Ha' as <-.
    exists (count_hits hist fp (wrap64 (s * a))).
    destruct (Hhits (wrap64 (s * a))) as [Hle Hall].
    split; [done |]. split; [done |].
    rewrite Hpts, mrc_curve_points, decide_True by done.
    unfold miss_ratio_at.
    destruct (Nat.ltb_spec 0 n) as [_ | ?]; [| lia].
    by destruct (0 <? wrap64 (s * a)).
  - intros s v. rewrite Hpts, mrc_curve_points.
    destruct (decide (s ≤ maxSlabs)) as [_ | ?]; [| done]. intros [= <-].
    unfold miss_ratio_at.
    destruct ((0 <? n) && (0 <? wrap64 (s * a))); [| done].
    apply clamp_lower; [done |].
    destruct (Hhits (wrap64 (s * a))) as [Hle _].
    apply to_double_le in Hle. rewrite Hsum in Hle.
    assert (to_double (count_hits hist fp (wrap64 (s * a))) / to_double n
            <= (to_double n - to_double m) / to_double n)%Q as Hdiv.
    { apply Qmult_le_compat_r; [done |]. apply Qinv_le_0_compat. lra. }
    assert ((to_double n - to_double m) / to_double n
            == 1 - to_double m / to_double n)%Q as Heq by (field; lra).
    lra.
  - intros a' s v Ha' Hfit Hbig. rewrite Ha in Ha'. injection Ha' as <-.
    rewrite Hpts, mrc_curve_points.
    destruct (decide (s ≤ maxSlabs)) as [_ | ?]; [| done]. intros [= <-].
    unfold miss_ratio_at. rewrite (wrap64_fits _ Hfit).
    destruct (Nat.ltb_spec 0 n) as [_ | ?]; [| lia].
    destruct (Nat.ltb_spec 0 (s * a)) as [_ | ?]; [| lia].
    simpl andb. cbv iota.
    destruct (Hhits (s * a)) as [_ Hall]. rewrite (Hall Hbig).
    rewrite Hsum.
    assert (1 - (to_double n - to_double m) / to_double n
            == to_double m / to_double n)%Q as -> by (field; lra).
    by apply clamp_id.
Qed.

(** X9 on [example_ring], class [3], up to eight slabs. *)
Lemma miss_ratio_floor_witness :
  ∃ result pts delta n,
    queryMrc example_ring example_allocs 8 = Some result
    ∧ result !! 3%Z = Some (pts, delta, n)
    ∧ let keys := class_keys 3%Z (snapshot_entries example_ring) in
      n = length keys ∧ 1 ≤ n
      ∧ (∀ a s, example_allocs !! 3%Z = Some a → s ≤ 8 →
           ∃ hits,
             hits ≤ n - distinct keys
             ∧ (distinct keys < wrap64 (s * a) → hits = n - distinct keys)
             ∧ pts !! s
               = Some (if 0 <? wrap64 (s * a)
                       then Qmax 0 (Qmin 1 (1 - to_double hits / to_double n))
                       else 1)%Q)
      ∧ (∀ s v, pts !! s = Some v →
           (to_double (distinct keys) / to_double n <= v)%Q)
      ∧ (∀ a s v, example_allocs !! 3%Z = Some a → fits64 (s * a) →
           distinct keys < s * a → pts !! s = Some v →
           (v == to_double (distinct keys) / to_double n)%Q).
Proof.
  destruct (queryMrc example_ring example_allocs 8) as [result |] eqn:Hq;
    [| by vm_compute in Hq].
  destruct (result !! 3%Z) as [[[pts delta] n] |] eqn:Hc.
  2:{ vm_compute in Hq. injection Hq as <-. by vm_compute in Hc. }
  exists result, pts, delta, n. split; [done |]. split; [done |].
  exact (miss_ratio_floor example_ring example_allocs 8 result 3%Z pts delta n Hq Hc).
Defined.

(** ** The curve when the cache size wraps around *)

(** One key accessed five times in class [1], and an [allocsPerSlab] of
    [2^63]: one slab holds the key, and the cache size of two slabs is
    [2^64], which is [0] in [size_t]. *)
Lemma curve_after_wrap (a : nat) :
  N.of_nat a = (2 ^ 63)%N →
  let st := {| circularBuffer := replicate 5 (7%N, 1%Z);
               circularBufferMaxLen := 5;
               currentBufferSize := 5;
               bufferHeadIndex := 0 |} in
  ∃ result pts delta n v1 v2,
    queryMrc st {[1%Z := a]} 2 = Some result
    ∧ result !! 1%Z = Some (pts, delta, n)
    ∧ pts !! 1 = Some v1 ∧ pts !! 2 = Some v2
    ∧ (v1 == 1 # 5)%Q ∧ v2 = 1%Q.
Proof.
  intros Ha st.
  assert (a ≠ 0) as Hnz by (intros ->; discriminate Ha).
  assert (fits64 a) as Hfit by (unfold fits64; rewrite Ha; reflexivity).
  assert (1 < a) as Hbig.
  { assert (1 < N.of_nat a)%N by (rewrite Ha; reflexivity). lia. }
  assert (wrap64 (2 * a) = 0) as Hwrap.
  { unfold wrap64. rewrite Nat2N.inj_mul, Ha. reflexivity. }
  destruct (queryMrc_spec st {[1%Z := a]} 2) as (stats & result & Hstats & Hq & Hres).
  assert (1%Z ∈ (snapshot_entries st).*2) as Hin by (vm_compute; left).
  destruct (mrc_of_class_present _ _ 1%Z a 2 Hstats Hin)
    as (F & L & hist & n & m & HF & HL & Hhist & Hn & Hm & Hmrc).
  pose proof (class_hit_count st stats 1%Z F L hist n m a
                (eq_trans (calculateWindowStats_eq st) Hstats)
                HF HL Hhist Hn Hm) as [_ Hhits].
  specialize (Hres 1%Z). unfold queryMrc_entry in Hres.
  rewrite lookup_singleton_eq in Hres. simpl in Hres.
  destruct (Nat.eqb_spec a 0) as [Hz | _]; [exact (False_ind _ (Hnz Hz)) |].
  rewrite HF, Hmrc in Hres. simpl in Hres.
  assert (n = 5 ∧ m = 1) as [-> ->].
  { vm_compute in Hstats. injection Hstats as <-.
    vm_compute in Hn, Hm. injection Hn as <-. injection Hm as <-.
    split; reflexivity. }
  set (fp := calculateFpValues F L hist 5 1) in *.
  exists result, (mrc_curve hist fp 5 a 2).1.1, (mrc_curve hist fp 5 a 2).1.2, 5,
    (miss_ratio_at hist fp 5 a 1), (miss_ratio_at hist fp 5 a 2).
  split; [exact Hq |]. split; [exact Hres |].
  rewrite !mrc_curve_points, !decide_True by lia.
  split; [reflexivity |]. split; [reflexivity |]. split.
  - unfold miss_ratio_at. rewrite Nat.mul_1_l, (wrap64_fits a Hfit).
    destruct (Nat.ltb_spec 0 a) as [_ | ?]; [| lia].
    rewrite (Hhits Hbig). vm_compute. reflexivity.
  - unfold miss_ratio_at. rewrite Hwrap. rewrite andb_false_r. reflexivity.
Qed.

(** C4 as stated fails: with one key accessed five times and an
    [allocsPerSlab] of [2^63], the miss ratio is [1/5] at one slab and [1]
    at two slabs, the cache size [2 * 2^63] being [0] in [size_t]. *)
Lemma queryMrc_curve_rises :
  let st := {| circularBuffer := replicate 5 (7%N, 1%Z);
               circularBufferMaxLen := 5;
               currentBufferSize := 5;
               bufferHeadIndex := 0 |} in
  ∃ result pts delta n v1 v2,
    queryMrc st {[1%Z := 2 ^ 63]} 2 = Some result
    ∧ result !! 1%Z = Some (pts, delta, n)
    ∧ 1 ≤ 2 ∧ 2 ≤ 2
    ∧ pts !! 1 = Some v1 ∧ pts !! 2 = Some v2
    ∧ (v1 == 1 # 5)%Q ∧ (v2 == 1)%Q
    ∧ ¬ (v2 <= v1)%Q.
Proof.
  intros st.
  assert (N.of_nat (2 ^ 63) = (2 ^ 63)%N) as Ha.
  { rewrite Nat2N.inj_pow. reflexivity. }
  destruct (curve_after_wrap (2 ^ 63) Ha)
    as (result & pts & delta & n & v1 & v2 & Hq & Hc & H1 & H2 & Hv1 & Hv2).
  clear Ha.
  exists result, pts, delta, n, v1, v2.
  split; [exact Hq |]. split; [exact Hc |].
  split; [repeat constructor |]. split; [constructor |].
  split; [exact H1 |]. split; [exact H2 |].
  split; [exact Hv1 |]. split; [rewrite Hv2; reflexivity |].
  rewrite Hv1, Hv2. apply Qlt_not_le. reflexivity.
Qed.

(** ** Footprints at given cache sizes *)

Lemma Qsum_with_ext {A} (f g : A → Q) l :
  (∀ x, x ∈ l → (f x == g x)%Q) → (Qsum_with f l == Qsum_with g l)%Q.
Proof.
  induction l as [| x l IH]; intros Hfg; simpl; [reflexivity |].
  rewrite (Hfg x) by left. rewrite IH; [reflexivity |].
  intros y Hy. apply Hfg. by right.
Qed.

Lemma Qsum_with_le {A} (f g : A → Q) l :
  (∀ x, x ∈ l → (f x <= g x)%Q) → (Qsum_with f l <= Qsum_with g l)%Q.
Proof.
  induction l as [| x l IH]; intros Hfg; simpl; [apply Qle_refl |].
  apply Qplus_le_compat; [apply Hfg; left |].
  apply IH. intros y Hy. apply Hfg. by right.
Qed.

(** The statistics of every class with an entry are complete. *)
Lemma class_fp_values_defined entries stats c :
  window_stats entries = Some stats →
  is_Some (firstAccessTimesByClass stats !! c) →
  c ∈ entries.*2 ∧ is_Some (class_fp_values stats c).
Proof.
  intros Hstats [F HF].
  destruct (decide (c ∈ entries.*2)) as [Hin | Hnotin].
  2:{ destruct (window_stats_absent _ _ _ Hstats Hnotin) as (HF' & _). congruence. }
  split; [done |].
  destruct (window_stats_present _ _ _ Hstats Hin)
    as (s & _ & HF' & HL & Hhist & Hn & Hm).
  unfold class_fp_values. rewrite HF', HL, Hhist, Hn, Hm. simpl. by eexists.
Qed.

Lemma cached_fp_fold stats (items : list (ClassId * list nat)) :
  (∀ entry, entry ∈ items → is_Some (class_fp_values stats entry.1)) →
  ∀ init, ∃ cached,
    foldl (cached_fp_step stats) (Some init) items = Some cached
    ∧ ∀ c, cached !! c
           = if decide (c ∈ items.*1) then class_fp_values stats c else init !! c.
Proof.
  induction items as [| [c0 F0] items IH] using rev_ind; intros Hdef init.
  - exists init. split; [done |]. intros c. rewrite decide_False; [done |].
    apply not_elem_of_nil.
  - destruct IH with (init := init) as (cached & Hfold & Hcached).
    { intros entry Hentry. apply Hdef, elem_of_app. by left. }
    destruct (Hdef (c0, F0)) as [fp0 Hfp0]; [apply elem_of_app; right; left |].
    simpl in Hfp0.
    rewrite foldl_snoc, Hfold. unfold cached_fp_step at 1. simpl. rewrite Hfp0. simpl.
    eexists. split; [done |]. intros c. rewrite fmap_app. simpl.
    destruct (decide (c = c0)) as [-> | Hne].
    + rewrite lookup_insert_eq, decide_True; [done |].
      apply elem_of_app. right. left.
    + rewrite lookup_insert_ne by done. rewrite Hcached.
      destruct (decide (c ∈ items.*1)) as [Hin | Hnotin].
      * rewrite decide_True; [done |]. apply elem_of_app. by left.
      * rewrite decide_False; [done |].
        intros [? | Hin%list_elem_of_singleton]%elem_of_app; done.
Qed.

(** The footprint vectors cached by [queryMrc(cacheSizes)]: one for each
    class of the window. *)
Lemma cached_fp_values_spec entries stats :
  window_stats entries = Some stats →
  ∃ cached, cached_fp_values stats = Some cached
            ∧ (∀ c, c ∈ entries.*2 → cached !! c = class_fp_values stats c
                                   ∧ is_Some (cached !! c))
            ∧ (∀ c, c ∉ entries.*2 → cached !! c = None).
Proof.
  intros Hstats. unfold cached_fp_values.
  destruct (cached_fp_fold stats (map_to_list (firstAccessTimesByClass stats)))
    with (init := (∅ : gmap Z (list Q))) as (cached & Hfold & Hcached).
  { intros [c F] Hin%elem_of_map_to_list. simpl.
    by apply (class_fp_values_defined entries); [| eexists]. }
  exists cached. split; [done |]. split.
  - intros c Hin.
    destruct (window_stats_present _ _ _ Hstats Hin) as (s & _ & HF & _).
    assert (c ∈ (map_to_list (firstAccessTimesByClass stats)).*1) as Hdom.
    { apply list_elem_of_fmap. eexists (c, _). split; [done |].
      by apply elem_of_map_to_list. }
    rewrite Hcached, decide_True by done. split; [done |].
    by apply (class_fp_values_defined entries); [| eexists].
  - intros c Hnotin.
    destruct (window_stats_absent _ _ _ Hstats Hnotin) as (HF & _).
    rewrite Hcached, decide_False; [apply lookup_empty |].
    intros ([c' F] & -> & Hin%elem_of_map_to_list)%list_elem_of_fmap.
    simpl in HF. congruence.
Qed.

Lemma total_fp_fold stats cacheSize (items : list (ClassId * list Q)) :
  (∀ entry, entry ∈ items →
     ∃ n, nByClass stats !! entry.1 = Some n ∧ length entry.2 = S n) →
  ∀ acc, ∃ total,
    foldl (total_fp_step stats cacheSize) (Some acc) items = Some total
    ∧ (total == acc + Qsum_with (capped_fp stats cacheSize) items)%Q.
Proof.
  induction items as [| [c fpv] items IH]; intros Hdef acc.
  - exists acc. split; [done |]. simpl. lra.
  - destruct (Hdef (c, fpv)) as (n & Hn & Hlen); [left |]. simpl in Hn, Hlen.
    assert (total_fp_step stats cacheSize (Some acc) (c, fpv)
            = Some (acc + fpv !!! (cacheSize `min` n))%Q) as Hstep.
    { unfold total_fp_step. simpl. rewrite Hn. simpl.
      by destruct (Nat.ltb_spec (cacheSize `min` n) (length fpv)) as [_ | ?]; [| lia]. }
    destruct (IH (λ entry Hentry, Hdef entry (list_elem_of_further _ _ _ Hentry))
                 (acc + fpv !!! (cacheSize `min` n))%Q) as (total & Hfold & Htotal).
    exists total. cbn [foldl]. rewrite Hstep. split; [done |]. rewrite Htotal.
    assert (capped_fp stats cacheSize (c, fpv) = fpv !!! (cacheSize `min` n)) as Hcap.
    { unfold capped_fp. simpl. by rewrite Hn. }
    simpl Qsum_with. rewrite Hcap. lra.
Qed.

(** The footprint vector of a class of the window, entry by entry. *)
Lemma class_fp_values_average st stats c fpv :
  calculateWindowStats st = Some stats →
  class_fp_values stats c = Some fpv →
  let keys := class_keys c (snapshot_entries st) in
  nByClass stats !! c = Some (length keys)
  ∧ length fpv = S (length keys)
  ∧ (∀ w, w ≤ length keys → (fpv !!! w == average_working_set w keys)%Q)
  ∧ (∀ w1 w2, w1 ≤ w2 → w2 ≤ length keys → (fpv !!! w1 <= fpv !!! w2)%Q)
  ∧ (fpv !!! length keys == to_double (distinct keys))%Q.
Proof.
  intros Hstats Hfpv keys. unfold class_fp_values in Hfpv.
  destruct (firstAccessTimesByClass stats !! c) as [F |] eqn:HF; simpl in Hfpv; [| done].
  destruct (lastAccessTimesByClass stats !! c) as [L |] eqn:HL; simpl in Hfpv; [| done].
  destruct (reuseTimeHistogramByClass stats !! c) as [hist |] eqn:Hhist;
    simpl in Hfpv; [| done].
  destruct (nByClass stats !! c) as [n |] eqn:Hn; simpl in Hfpv; [| done].
  destruct (mByClass stats !! c) as [m |] eqn:Hm; simpl in Hfpv; [| done].
  injection Hfpv as <-.
  destruct (class_footprint_inputs _ _ _ _ _ _ _ _
              (eq_trans (eq_sym (calculateWindowStats_eq st)) Hstats)
              HF HL Hhist Hn Hm)
    as (Hn1 & Hlen & HFs & HLs & HFr & HLr & Hgap).
  destruct (calculateFpValues_spec F L hist n m Hn1 Hlen HFs HLs) as [Hfplen Hfp].
  assert (∀ x, x ∈ F → x ≤ n) as HF' by (intros x Hx; apply HFr in Hx; lia).
  assert (∀ x, x ∈ L → x ≤ n) as HL' by (intros x Hx; apply HLr in Hx; lia).
  destruct (class_stats_scan _ _ _ _ _ _ _ _ Hstats HF HL Hhist Hn Hm)
    as (_ & _ & _ & Hnk & Hmk & _).
  fold keys in Hnk, Hmk. rewrite <- Hnk, <- Hmk.
  split; [done |]. split; [done |]. split; [| split].
  - intros w Hw. unfold average_working_set.
    destruct (Nat.eqb_spec w 0) as [-> | Hw0].
    + unfold calculateFpValues. destruct (Nat.eqb_spec n 0); [lia | done].
    + destruct (footprint_times_windows _ _ _ _ _ _ _ _ w
                  Hstats HF HL Hhist Hn Hm ltac:(lia) Hw)
        as (_ & _ & v & Hv & Htotal).
      fold keys in Htotal.
      rewrite (list_lookup_total_correct _ _ _ Hv), windows_length, <- Hnk.
      replace (S n - w) with (n - w + 1) by lia.
      assert (0 < to_double (n - w + 1))%Q by (apply to_double_pos; lia).
      rewrite <- Htotal. field. lra.
  - intros w1 w2 Hw Hw2.
    destruct (Hfp w1) as (v1 & Hv1 & Hc1); [lia |].
    destruct (Hfp w2) as (v2 & Hv2 & Hc2); [lia |].
    rewrite (list_lookup_total_correct _ _ _ Hv1), (list_lookup_total_correct _ _ _ Hv2).
    rewrite Hc1, Hc2. by apply fp_closed_mono.
  - destruct (Hfp n) as (v & Hv & Hclosed); [lia |].
    rewrite (list_lookup_total_correct _ _ _ Hv), Hclosed.
    by apply fp_closed_top.
Qed.

(** The cached footprint vectors are those of the classes of the window. *)
Lemma cached_keys_window st stats cached :
  calculateWindowStats st = Some stats → cached_fp_values stats = Some cached →
  (map_to_list cached).*1 ≡ₚ elements (window_classes st)
  ∧ ∀ c fpv, cached !! c = Some fpv → class_fp_values stats c = Some fpv.
Proof.
  rewrite calculateWindowStats_eq. intros Hstats Hcached.
  destruct (cached_fp_values_spec _ _ Hstats) as (cached' & Hcached' & Hin & Hout).
  rewrite Hcached in Hcached'. injection Hcached' as <-.
  split.
  - apply NoDup_Permutation; [apply NoDup_fst_map_to_list | apply NoDup_elements |].
    intros c. rewrite elem_of_elements, elem_of_window_classes.
    rewrite list_elem_of_fmap. split.
    + intros ([c' fpv] & -> & Hc%elem_of_map_to_list). simpl.
      destruct (decide (c' ∈ (snapshot_entries st).*2)) as [| Hnotin]; [done |].
      rewrite (Hout _ Hnotin) in Hc. done.
    + intros Hc. destruct (Hin c Hc) as [_ [fpv Hfpv]].
      exists (c, fpv). split; [done |]. by apply elem_of_map_to_list.
  - intros c fpv Hc.
    destruct (decide (c ∈ (snapshot_entries st).*2)) as [Hc' | Hnotin].
    + destruct (Hin c Hc') as [<- _]. done.
    + rewrite (Hout _ Hnotin) in Hc. done.
Qed.

(** The value computed for one cache size. *)
Lemma total_fp_spec st stats cached cacheSize :
  calculateWindowStats st = Some stats → cached_fp_values stats = Some cached →
  ∃ total, total_fp stats cached cacheSize = Some total
           ∧ (total == window_footprint st cacheSize)%Q.
Proof.
  intros Hstats Hcached.
  destruct (cached_keys_window st stats cached Hstats Hcached) as [Hperm Hvals].
  assert (∀ entry, entry ∈ map_to_list cached →
            let keys := class_keys entry.1 (snapshot_entries st) in
            nByClass stats !! entry.1 = Some (length keys)
            ∧ length entry.2 = S (length keys)
            ∧ (capped_fp stats cacheSize entry
               == average_working_set (Nat.min cacheSize (length keys)) keys)%Q)
    as Hentries.
  { intros [c fpv] Hc%elem_of_map_to_list keys. simpl in keys.
    destruct (class_fp_values_average st stats c fpv Hstats (Hvals _ _ Hc))
      as (Hn & Hlen & Havg & _).
    fold keys in Hn, Hlen, Havg. simpl.
    split; [done |]. split; [done |].
    unfold capped_fp. simpl. rewrite Hn. simpl. apply Havg. lia. }
  destruct (total_fp_fold stats cacheSize (map_to_list cached)) with (acc := 0%Q)
    as (total & Hfold & Htotal).
  { intros entry Hentry. destruct (Hentries entry Hentry) as (Hn & Hlen & _). eauto. }
  exists total. split; [done |].
  rewrite Htotal, Qplus_0_l. unfold window_footprint.
  rewrite <- (Qsum_with_perm _ _ _ Hperm), Qsum_with_fmap.
  apply Qsum_with_ext. intros entry Hentry.
  by destruct (Hentries entry Hentry) as (_ & _ & ->).
Qed.

(** [queryMrc(cacheSizes)] returns one value per cache size: the footprint
    of the window at that cache size. *)
Lemma queryMrc_footprints_spec st cacheSizes :
  ∃ result,
    queryMrc_footprints st cacheSizes = Some result
    ∧ length result = length cacheSizes
    ∧ ∀ i cacheSize v, cacheSizes !! i = Some cacheSize → result !! i = Some v →
        (v == window_footprint st cacheSize)%Q.
Proof.
  unfold queryMrc_footprints.
  destruct (Nat.eqb_spec (currentBufferSize st) 0) as [Hz | Hnz].
  - eexists. split; [done |]. split; [apply length_replicate |].
    intros i cacheSize v _ [-> _]%lookup_replicate.
    unfold window_footprint, window_classes.
    rewrite snapshot_entries_early_exit by (by rewrite Hz).
    simpl. by rewrite elements_empty.
  - destruct (window_stats_defined (snapshot_entries st)) as [stats Hstats].
    rewrite <- calculateWindowStats_eq in Hstats. rewrite Hstats. simpl.
    destruct (cached_fp_values_spec (snapshot_entries st) stats) as (cached & Hcached & _).
    { by rewrite <- calculateWindowStats_eq. }
    rewrite Hcached. simpl.
    destruct (mapM (total_fp stats cached) cacheSizes) as [result |] eqn:Hmap.
    2:{ exfalso. apply eq_None_not_Some in Hmap. apply Hmap.
        apply mapM_is_Some, Forall_forall. intros cacheSize _.
        destruct (total_fp_spec st stats cached cacheSize Hstats Hcached)
          as (total & Htotal & _). by exists total. }
    exists result. split; [done |].
    apply mapM_Some in Hmap. split; [symmetry; by eapply Forall2_length |].
    intros i cacheSize v Hsize Hv.
    pose proof (Forall2_lookup_lr _ _ _ _ _ _ Hmap Hsize Hv) as Htotal.
    destruct (total_fp_spec st stats cached cacheSize Hstats Hcached)
      as (total & Htotal' & Heq).
    rewrite Htotal in Htotal'. by injection Htotal' as ->.
Qed.

(** The average working set of a class of the window grows with the
    window length, from [0] to the number of distinct keys. *)
Lemma average_working_set_class st c :
  c ∈ window_classes st →
  let keys := class_keys c (snapshot_entries st) in
  (∀ w1 w2, w1 ≤ w2 → w2 ≤ length keys →
     (average_working_set w1 keys <= average_working_set w2 keys)%Q)
  ∧ (average_working_set (length keys) keys == to_double (distinct keys))%Q.
Proof.
  intros Hc%elem_of_window_classes keys.
  destruct (window_stats_defined (snapshot_entries st)) as [stats Hstats].
  destruct (cached_fp_values_spec _ _ Hstats) as (cached & _ & Hin & _).
  destruct (Hin c Hc) as [Heq [fpv Hfpv]]. rewrite Heq in Hfpv.
  rewrite <- calculateWindowStats_eq in Hstats.
  destruct (class_fp_values_average st stats c fpv Hstats Hfpv)
    as (_ & _ & Havg & Hmono & Htop).
  fold keys in Havg, Hmono, Htop. split.
  - intros w1 w2 Hw Hw2. rewrite <- !Havg by lia. by apply Hmono.
  - by rewrite <- Havg.
Qed.

Lemma window_footprint_mono st size1 size2 :
  size1 ≤ size2 → (window_footprint st size1 <= window_footprint st size2)%Q.
Proof.
  intros Hle. unfold window_footprint. apply Qsum_with_le.
  intros c Hc%elem_of_elements.
  destruct (average_working_set_class st c Hc) as [Hmono _].
  apply Hmono; lia.
Qed.

Lemma window_footprint_zero st : (window_footprint st 0 == 0)%Q.
Proof.
  unfold window_footprint. rewrite (Qsum_with_ext _ (λ _, 0%Q)).
  - induction (elements (window_classes st)) as [| c l IH]; simpl; [reflexivity |].
    rewrite IH. lra.
  - intros c _. reflexivity.
Qed.

Lemma window_footprint_top st size :
  length (snapshot_entries st) ≤ size →
  (window_footprint st size
   == Qsum_with (λ c, to_double (distinct (class_keys c (snapshot_entries st))))
        (elements (window_classes st)))%Q.
Proof.
  intros Hsize. unfold window_footprint. apply Qsum_with_ext.
  intros c Hc%elem_of_elements.
  destruct (average_working_set_class st c Hc) as [_ Htop].
  pose proof (class_keys_length c (snapshot_entries st)).
  cbv zeta. by rewrite Nat.min_r by lia.
Qed.

(** X10: [queryMrc(cacheSizes)] returns (no [.at()] fails) one value per
    cache size, all [0] when the window is empty.  With the arithmetic on
    [double] taken as exact, the value at a cache size is the sum, over
    the classes of the window, of the average number of distinct keys in
    the windows of that many consecutive accesses of the class (of all its
    accesses when there are fewer). *)
Theorem queryMrc_footprints_values (st : FootprintMRC) (cacheSizes : list nat) :
  ∃ result,
    queryMrc_footprints st cacheSizes = Some result
    ∧ length result = length cacheSizes
    ∧ (currentBufferSize st = 0 → result = replicate (length cacheSizes) 0%Q)
    ∧ ∀ i cacheSize v, cacheSizes !! i = Some cacheSize → result !! i = Some v →
        (v == Qsum_with
                (λ c, let keys := class_keys c (snapshot_entries st) in
                      average_working_set (Nat.min cacheSize (length keys)) keys)
                (elements (window_classes st)))%Q.
Proof.
  destruct (queryMrc_footprints_spec st cacheSizes) as (result & Hq & Hlen & Hvals).
  exists result. split; [done |]. split; [done |]. split; [| done].
  intros Hz. unfold queryMrc_footprints in Hq. rewrite Hz in Hq. simpl in Hq.
  by injection Hq.
Qed.

(** X11: the values returned by [queryMrc(cacheSizes)] do not decrease
    with the cache size; they are [0] at cache size [0], never above the
    total number of distinct keys of the classes of the window, and equal
    to it for every cache size that is at least the window length. *)
Theorem queryMrc_footprints_monotone (st : FootprintMRC) (cacheSizes : list nat)
    (result : list Q) :
  queryMrc_footprints st cacheSizes = Some result →
  let distinctTotal :=
    Qsum_with (λ c, to_double (distinct (class_keys c (snapshot_entries st))))
      (elements (window_classes st)) in
  (∀ i j size1 size2 v1 v2,
     cacheSizes !! i = Some size1 → cacheSizes !! j = Some size2 →
     result !! i = Some v1 → result !! j = Some v2 →
     size1 ≤ size2 → (v1 <= v2)%Q)
  ∧ (∀ i cacheSize v, cacheSizes !! i = Some cacheSize → result !! i = Some v →
       (0 <= v <= distinctTotal)%Q
       ∧ (cacheSize = 0 → (v == 0)%Q)
       ∧ (length (snapshot_entries st) ≤ cacheSize → (v == distinctTotal)%Q)).
Proof.
  intros Hq distinctTotal.
  destruct (queryMrc_footprints_spec st cacheSizes) as (result' & Hq' & _ & Hvals).
  rewrite Hq in Hq'. injection Hq' as <-.
  split.
  - intros i j size1 size2 v1 v2 H1 H2 Hv1 Hv2 Hle.
    rewrite (Hvals _ _ _ H1 Hv1), (Hvals _ _ _ H2 Hv2).
    by apply window_footprint_mono.
  - intros i cacheSize v Hsize Hv. rewrite (Hvals _ _ _ Hsize Hv).
    pose proof (window_footprint_mono st 0 cacheSize ltac:(lia)) as Hlo.
    pose proof (window_footprint_mono st cacheSize
                  (cacheSize `max` length (snapshot_entries st)) ltac:(lia)) as Hhi.
    pose proof (window_footprint_top st
                  (cacheSize `max` length (snapshot_entries st)) ltac:(lia)) as Htop.
    pose proof (window_footprint_zero st) as Hzero.
    fold distinctTotal in Htop.
    split; [lra |]. split.
    + intros ->. apply window_footprint_zero.
    + intros Hbig. by apply window_footprint_top.
Qed.

(** X11 on [example_ring], at the cache sizes [0], [3], [10] and [100]. *)
Lemma queryMrc_footprints_monotone_witness :
  let cacheSizes := [0; 3; 10; 100] in
  ∃ result,
    queryMrc_footprints example_ring cacheSizes = Some result
    ∧ let distinctTotal :=
        Qsum_with
          (λ c, to_double (distinct (class_keys c (snapshot_entries example_ring))))
          (elements (window_classes example_ring)) in
      (∀ i j size1 size2 v1 v2,
         cacheSizes !! i = Some size1 → cacheSizes !! j = Some size2 →
         result !! i = Some v1 → result !! j = Some v2 →
         size1 ≤ size2 → (v1 <= v2)%Q)
      ∧ (∀ i cacheSize v, cacheSizes !! i = Some cacheSize → result !! i = Some v →
           (0 <= v <= distinctTotal)%Q
           ∧ (cacheSize = 0 → (v == 0)%Q)
           ∧ (length (snapshot_entries example_ring) ≤ cacheSize →
              (v == distinctTotal)%Q)).
Proof.
  intros cacheSizes.
  destruct (queryMrc_footprints example_ring cacheSizes) as [result |] eqn:Hq;
    [| by vm_compute in Hq].
  exists result. split; [done |].
  exact (queryMrc_footprints_monotone example_ring cacheSizes result Hq).
Defined.

(** ** What the solver returns *)

(** The classes of the MRC view. *)
Lemma queryMrc_dom st allocs maxSlabCount mrc c :
  queryMrc st allocs maxSlabCount = Some mrc →
  is_Some (mrc !! c) ↔ c ∈ window_classes st ∧ ∃ a, allocs !! c = Some a ∧ a ≠ 0.
Proof.
  intros Hq.
  destruct (queryMrc_spec st allocs maxSlabCount) as (stats & mrc' & Hstats & Hq' & Hres).
  rewrite Hq in Hq'. injection Hq' as <-. split.
  - intros [[[pts delta] n] Hc].
    destruct (queryMrc_lookup_Some _ _ _ _ _ _ _ _ Hq Hc)
      as (a & hist & fp & Ha & Hnz & Hin & _). eauto.
  - intros [Hin (a & Ha & Hnz)]. rewrite Hres. unfold queryMrc_entry.
    rewrite Ha. simpl. destruct (Nat.eqb_spec a 0) as [| _]; [done |].
    apply elem_of_window_classes in Hin.
    destruct (mrc_of_class_present _ _ c a maxSlabCount Hstats Hin)
      as (F & L & hist & n & m & -> & _ & _ & _ & _ & ->). by eexists.
Qed.

Lemma solve_frequencies st allocs current mrc r c :
  queryMrc st allocs (slab_budget current) = Some mrc → mrc ≠ ∅ →
  solveSlabReallocation st allocs current = Some r →
  accessFrequencies r !! c = snd <$> mrc !! c.
Proof.
  intros Hq Hne Hsolve.
  destruct (solve_main st allocs current mrc Hq Hne)
    as (classData & r' & HclassData & Hsolve' & Hfreq & _).
  rewrite Hsolve in Hsolve'. injection Hsolve' as <-.
  by rewrite Hfreq, (access_frequencies_lookup mrc).
Qed.

(** X12: [solveSlabReallocation] returns for every input: no [.at()]
    fails and no unchecked index goes out of range, also for an
    [allocsPerSlab] of [0], which is skipped.  The result is the all-zero
    one, with an empty optimal allocation and an empty plan, exactly when
    no class of the window has a non-zero [allocsPerSlab]; this includes
    the empty window and the empty [allocsPerSlab] map. *)
Theorem solve_returns (st : FootprintMRC) (allocs current : gmap Z nat) :
  ∃ r, solveSlabReallocation st allocs current = Some r
       ∧ (r = zero_reallocation ↔
          ∀ c a, c ∈ window_classes st → allocs !! c = Some a → a = 0).
Proof.
  destruct (queryMrc_spec st allocs (slab_budget current))
    as (_ & mrc & _ & Hq & _).
  assert (mrc = ∅ ↔ ∀ c a, c ∈ window_classes st → allocs !! c = Some a → a = 0)
    as Hempty.
  { split.
    - intros -> c a Hin Ha. destruct (decide (a = 0)) as [| Hnz]; [done |].
      assert (is_Some ((∅ : gmap Z (gmap nat Q * gmap nat Q * nat)) !! c)) as [? H].
      { apply (queryMrc_dom _ _ _ _ _ Hq). eauto. }
      by rewrite lookup_empty in H.
    - intros Hall. apply map_eq. intros c. rewrite lookup_empty.
      apply eq_None_not_Some. intros [Hin (a & Ha & Hnz)]%(queryMrc_dom _ _ _ _ _ Hq).
      by apply Hnz, (Hall c). }
  destruct (decide (mrc = ∅)) as [Hmrc | Hne].
  - exists zero_reallocation. split.
    + unfold solveSlabReallocation. cbv zeta. rewrite Hq. simpl.
      by rewrite decide_True.
    + split; [intros _; by apply Hempty | done].
  - destruct (solve_main st allocs current mrc Hq Hne)
      as (classData & r & _ & Hsolve & _).
    exists r. split; [done |]. split.
    + intros ->. exfalso.
      destruct (map_choose mrc Hne) as (c & data & Hc).
      pose proof (solve_frequencies _ _ _ _ _ c Hq Hne Hsolve) as Hfreq.
      rewrite Hc in Hfreq. simpl in Hfreq. by rewrite lookup_empty in Hfreq.
    + intros Hall. by apply Hempty in Hall.
Qed.

(** X13: the access frequencies returned by the solver have an entry
    exactly for the classes of the window with a non-zero [allocsPerSlab],
    and the entry of a class is the number of its accesses in the
    window. *)
Theorem solve_access_frequencies (st : FootprintMRC) (allocs current : gmap Z nat)
    (r : Reallocation) :
  solveSlabReallocation st allocs current = Some r →
  ∀ c, accessFrequencies r !! c
       = if decide (c ∈ window_classes st ∧ default 0 (allocs !! c) ≠ 0)
         then Some (length (class_keys c (snapshot_entries st)))
         else None.
Proof.
  intros Hsolve c.
  destruct (queryMrc_spec st allocs (slab_budget current))
    as (_ & mrc & _ & Hq & _).
  assert (is_Some (mrc !! c)
          ↔ c ∈ window_classes st ∧ default 0 (allocs !! c) ≠ 0) as Hdom.
  { rewrite (queryMrc_dom _ _ _ _ c Hq).
    destruct (allocs !! c) as [a |]; simpl.
    - split; [intros [? (a' & [= <-] & ?)]; done | intros [? ?]; eauto].
    - split; [intros [? (a' & [=] & ?)] | intros [? ?]; done]. }
  destruct (decide (mrc = ∅)) as [-> | Hne].
  - assert (r = zero_reallocation) as ->.
    { unfold solveSlabReallocation in Hsolve. cbv zeta in Hsolve.
      rewrite Hq in Hsolve. simpl in Hsolve.
      rewrite decide_True in Hsolve by done. congruence. }
    simpl. rewrite lookup_empty.
    destruct (decide _) as [Hin | _]; [| done].
    apply Hdom in Hin as [? H]. by rewrite lookup_empty in H.
  - rewrite (solve_frequencies _ _ _ _ _ c Hq Hne Hsolve).
    destruct (decide _) as [Hin | Hout].
    + apply Hdom in Hin as [[[pts delta] n] Hc]. rewrite Hc. simpl.
      by rewrite (queryMrc_lookup_n _ _ _ _ _ _ _ _ Hq Hc).
    + destruct (mrc !! c) eqn:Hc; [| done].
      exfalso. apply Hout, Hdom. by eexists.
Qed.

(** X13 on [example_ring]. *)
Lemma solve_access_frequencies_witness :
  ∃ r,
    solveSlabReallocation example_ring example_allocs example_current = Some r
    ∧ ∀ c, accessFrequencies r !! c
           = if decide (c ∈ window_classes example_ring
                        ∧ default 0 (example_allocs !! c) ≠ 0)
             then Some (length (class_keys c (snapshot_entries example_ring)))
             else None.
Proof.
  assert (∃ r, solveSlabReallocation example_ring example_allocs example_current
               = Some r) as [r Hsolve].
  { destruct (solveSlabReallocation example_ring example_allocs example_current)
      as [r |] eqn:Hsolve; [by exists r | by vm_compute in Hsolve]. }
  exists r. split; [exact Hsolve |].
  exact (solve_access_frequencies example_ring example_allocs example_current r Hsolve).
Defined.

(** ** The range of the reported miss rates *)

Lemma getMissRatio_range (pts : gmap nat Q) s :
  (∀ k v, pts !! k = Some v → (0 <= v <= 1)%Q) →
  (0 <= _getMissRatio pts s <= 1)%Q.
Proof.
  intros Hpts. unfold _getMissRatio.
  destruct (s =? 0); [lra |].
  destruct (pts !! s) as [v |] eqn:Hs; [by eapply Hpts |].
  destruct (_ <? s); [| lra].
  destruct (pts !! (if decide (pts = ∅) then 0 else rbegin_key pts)) as [v |] eqn:Hmax;
    [by eapply Hpts | lra].
Qed.

Lemma total_requests_fold (l : list (Z * nat)) : ∀ acc,
  foldl (λ total (pair : Z * nat), total + pair.2) acc l = acc + sum_list l.*2.
Proof.
  induction l as [| [c n] l IH]; intros acc; [simpl; lia |].
  cbn [foldl]. rewrite IH, fmap_cons, sum_list_cons. simpl. lia.
Qed.

Lemma Qsum_with_to_double {A} (f : A → nat) l :
  (Qsum_with (λ x, to_double (f x)) l == to_double (sum_list_with f l))%Q.
Proof.
  induction l as [| x l IH]; simpl; [reflexivity |].
  rewrite IH, to_double_plus. reflexivity.
Qed.

Lemma Qsum_with_nonneg {A} (f : A → Q) l :
  (∀ x, x ∈ l → (0 <= f x)%Q) → (0 <= Qsum_with f l)%Q.
Proof.
  induction l as [| x l IH]; intros Hf; simpl; [lra |].
  pose proof (Hf x ltac:(left)).
  assert (0 <= Qsum_with f l)%Q by (apply IH; intros y Hy; apply Hf; by right).
  lra.
Qed.

(** The weighted misses of an allocation lie between [0] and the number of
    accesses of the classes of the MRC view. *)
Lemma total_misses_range st allocs maxSlabCount mrc (freq : gmap Z nat)
    (l : list (Z * nat)) :
  queryMrc st allocs maxSlabCount = Some mrc →
  (∀ c, freq !! c = snd <$> mrc !! c) →
  NoDup l.*1 →
  (0 <= total_misses mrc l <= to_double (map_sum freq))%Q.
Proof.
  intros Hq Hfreq Hnodup. rewrite total_misses_Qsum.
  assert (∀ p, (0 <= miss_term mrc p <= to_double (default 0%nat (freq !! p.1)))%Q)
    as Hterm.
  { intros [c s]. unfold miss_term. simpl. rewrite Hfreq.
    destruct (mrc !! c) as [[[pts delta] n] |] eqn:Hc; simpl;
      [| split; [apply Qle_refl | apply (to_double_nonneg 0)]].
    destruct (queryMrc_lookup_Some _ _ _ _ _ _ _ _ Hq Hc)
      as (a & hist & fp & _ & _ & _ & ->).
    destruct (getMissRatio_range (mrc_curve hist fp n a maxSlabCount).1.1 s) as [H0 H1].
    { intros k v. rewrite mrc_curve_points.
      destruct (decide (k ≤ maxSlabCount)); [| done].
      intros [= <-]. apply miss_ratio_at_range. }
    pose proof (to_double_nonneg n). split; nra. }
  split.
  - apply Qsum_with_nonneg. intros p _. apply Hterm.
  - eapply Qle_trans.
    + apply (Qsum_with_le _ (λ p, to_double (default 0%nat (freq !! p.1)))).
      intros p _. apply Hterm.
    + rewrite Qsum_with_to_double. apply to_double_le.
      etransitivity; [| apply (sum_list_keys_le l.*1 freq Hnodup)].
      clear. induction l as [| p l IH]; [done |].
      rewrite !fmap_cons, sum_list_cons. cbn [sum_list_with]. lia.
Qed.

(** X14: the miss rates [mrOld] and [mrNew] returned by the solver lie in
    [[0, 1]]. *)
Theorem solve_miss_rates_range (st : FootprintMRC) (allocs current : gmap Z nat)
    (r : Reallocation) :
  solveSlabReallocation st allocs current = Some r →
  (0 <= mrOld r <= 1)%Q ∧ (0 <= mrNew r <= 1)%Q.
Proof.
  intros Hsolve.
  destruct (solve_cases _ _ _ _ Hsolve) as [-> | (mrc & Hq & Hne)];
    [simpl; lra |].
  destruct (solve_main st allocs current mrc Hq Hne)
    as (classData & r' & _ & Hsolve' & _ & _ & _ & Hold & Hnew).
  rewrite Hsolve in Hsolve'. injection Hsolve' as <-.
  rewrite Hold, Hnew, total_requests_fold. simpl.
  fold (map_sum (accessFrequencies r)).
  pose proof (λ c, solve_frequencies _ _ _ _ _ c Hq Hne Hsolve) as Hfreq.
  destruct (total_misses_range st allocs _ mrc (accessFrequencies r)
              (map_items current) Hq Hfreq (NoDup_fst_map_items current))
    as [Hold0 Hold1].
  destruct (total_misses_range st allocs _ mrc (accessFrequencies r)
              (map_to_list (optimalAllocation r)) Hq Hfreq
              (NoDup_fst_map_to_list _))
    as [Hnew0 Hnew1].
  destruct (Nat.ltb_spec 0 (map_sum (accessFrequencies r))) as [Hpos | _]; [| lra].
  apply to_double_pos in Hpos.
  repeat split.
  - apply Qle_shift_div_l; [done | lra].
  - apply Qle_shift_div_r; [done | lra].
  - apply Qle_shift_div_l; [done | lra].
  - apply Qle_shift_div_r; [done | lra].
Qed.

(** X14 on [example_ring]. *)
Lemma solve_miss_rates_range_witness :
  ∃ r,
    solveSlabReallocation example_ring example_allocs example_current = Some r
    ∧ (0 <= mrOld r <= 1)%Q ∧ (0 <= mrNew r <= 1)%Q.
Proof.
  assert (∃ r, solveSlabReallocation example_ring example_allocs example_current
               = Some r) as [r Hsolve].
  { destruct (solveSlabReallocation example_ring example_allocs example_current)
      as [r |] eqn:Hsolve; [by exists r | by vm_compute in Hsolve]. }
  exists r. split; [exact Hsolve |].
  exact (solve_miss_rates_range example_ring example_allocs example_current r Hsolve).
Defined.

(** ** The optimality of the returned allocation *)

(** The slab counts of a list of distinct classes that covers the
    allocation sum to its total. *)
Lemma sum_list_keys_eq ks : ∀ m : gmap Z nat,
  NoDup ks → (∀ c, is_Some (m !! c) → c ∈ ks) →
  sum_list ((λ c, default 0 (m !! c)) <$> ks) = map_sum m.
Proof.
  induction ks as [| c ks IH]; intros m Hnodup Hcover.
  - assert (m = ∅) as ->; [| done].
    apply map_eq. intros c. rewrite lookup_empty. apply eq_None_not_Some.
    intros H%Hcover. by apply elem_of_nil in H.
  - apply NoDup_cons in Hnodup as [Hc Hnodup].
    rewrite fmap_cons, sum_list_cons.
    assert ((λ c0, default 0 (m !! c0)) <$> ks
            = (λ c0, default 0 (delete c m !! c0)) <$> ks) as ->.
    { apply list_fmap_ext. intros i c' Hc'.
      rewrite lookup_delete_ne; [done |]. intros ->.
      apply Hc. by eapply list_elem_of_lookup_2. }
    rewrite (IH (delete c m) Hnodup).
    + destruct (m !! c) as [s |] eqn:Hs; simpl.
      * by rewrite (map_sum_delete m c s Hs).
      * by rewrite delete_id.
    + intros c' [s [Hne Hs]%lookup_delete_Some].
      assert (c' ∈ c :: ks) as Hin by (apply Hcover; by eexists).
      apply elem_of_cons in Hin as [-> | ?]; done.
Qed.

(** No allocation of the slab budget to the classes of the MRC view has
    fewer weighted misses than the returned one. *)
Lemma solve_misses_optimal st allocs current mrc r (alloc : gmap Z nat) :
  queryMrc st allocs (slab_budget current) = Some mrc → mrc ≠ ∅ →
  solveSlabReallocation st allocs current = Some r →
  dom alloc = dom mrc → map_sum alloc = slab_budget current →
  (total_misses mrc (map_to_list (optimalAllocation r))
   <= total_misses mrc (map_to_list alloc))%Q.
Proof.
  intros Hq Hne Hsolve Hdoma Hsuma.
  pose proof (solve_optimal_dom _ _ _ _ _ Hq Hne Hsolve) as Hdom.
  pose proof (solve_optimal_sum _ _ _ _ _ Hq Hne Hsolve) as Hsum.
  destruct (solve_main st allocs current mrc Hq Hne)
    as (classData & r' & HclassData & Hsolve' & _ & Hopt & _).
  rewrite Hsolve in Hsolve'. injection Hsolve' as <-.
  set (budget := slab_budget current) in *.
  set (classIds := std_sort Z.ltb (map_items mrc).*1) in *.
  set (costTable := map (cost_row budget budget) classData) in *.
  set (rows := dp_rows budget budget (F_row0 budget) costTable) in *.
  set (opt := optimalAllocation r) in *.
  pose proof (NoDup_solver_class_ids mrc) as Hnodup. fold classIds in Hnodup.
  assert (length classData = length classIds) as HlenData.
  { symmetry. by eapply length_mapM. }
  assert (length costTable = length classIds) as HlenCost.
  { unfold costTable. by rewrite length_map. }
  assert (∀ c, c ∉ classIds → ∀ s, (miss_term mrc (c, s) == 0)%Q) as Hzero.
  { intros c Hc s. unfold miss_term. simpl.
    destruct (mrc !! c) as [data |] eqn:Hmrc; [| reflexivity].
    exfalso. apply Hc, elem_of_solver_class_ids. by eexists. }
  set (allocNew := (λ c, default 0 (opt !! c)) <$> classIds).
  assert (total_misses mrc (map_to_list opt)
          == allocation_cost costTable allocNew)%Q as HnewCost.
  { rewrite total_misses_Qsum, (Qsum_with_map_keys _ classIds opt Hnodup).
    - symmetry. apply allocation_cost_misses; [done |].
      intros c _. rewrite <- Hsum. apply map_sum_lookup_le.
    - intros c Hc%elem_of_solver_class_ids. apply elem_of_dom.
      rewrite Hdom. apply elem_of_union_l. by apply elem_of_dom.
    - intros c s _ Hc. by apply Hzero. }
  set (allocA := (λ c, default 0 (alloc !! c)) <$> classIds).
  assert (total_misses mrc (map_to_list alloc)
          == allocation_cost costTable allocA)%Q as HaCost.
  { rewrite total_misses_Qsum, (Qsum_with_map_keys _ classIds alloc Hnodup).
    - symmetry. apply allocation_cost_misses; [done |].
      intros c _. rewrite <- Hsuma. apply map_sum_lookup_le.
    - intros c Hc%elem_of_solver_class_ids. apply elem_of_dom.
      rewrite Hdoma. by apply elem_of_dom.
    - intros c s _ Hc. by apply Hzero. }
  rewrite HnewCost, HaCost.
  assert (allocNew = reverse (walk (reverse rows.*2) budget)) as HallocNew.
  { assert (length (reverse (walk (reverse rows.*2) budget)) = length classIds)
      as Hwlen.
    { rewrite length_reverse, walk_length, length_reverse, length_fmap.
      unfold rows. by rewrite dp_rows_length. }
    apply list_eq_same_length with (length classIds);
      [done | unfold allocNew; by rewrite length_fmap |].
    intros i x y Hi Hx Hy.
    unfold allocNew in Hx. rewrite list_lookup_fmap in Hx.
    destruct (classIds !! i) as [c |] eqn:Hc; [| done].
    simpl in Hx. injection Hx as <-.
    rewrite Hopt, fill_missing_lookup.
    rewrite (reconstruct_lookup classIds rows.*2 budget i c y); try done.
    unfold rows. by rewrite length_fmap, dp_rows_length. }
  destruct (dp_lower_bound budget costTable allocA budget)
    as (f & Hf & Hlower).
  { done. }
  { unfold allocA. by rewrite length_fmap, HlenCost. }
  { unfold allocA. rewrite (sum_list_keys_eq classIds alloc Hnodup); [done |].
    intros c Hc. apply elem_of_solver_class_ids.
    apply elem_of_dom. rewrite <- Hdoma. by apply elem_of_dom. }
  destruct (walk_achieves budget costTable budget f) as (_ & _ & Hachieved);
    [done | done |].
  fold rows in Hachieved. rewrite <- HallocNew in Hachieved.
  by rewrite <- Hachieved.
Qed.

(** X15: with the arithmetic on [double] taken as exact and a slab
    budget that fits a [size_t], the returned allocation is optimal: its
    weighted misses [Σ n_c * missRatio_c(slabs_c)] are [mrNew] times the
    number of accesses of the window, and no allocation of the whole slab
    budget to the classes of the MRC view has fewer. *)
Theorem solve_allocation_optimal (st : FootprintMRC) (allocs current : gmap Z nat)
    (mrc : gmap Z (gmap nat Q * gmap nat Q * nat)) (r : Reallocation)
    (alloc : gmap Z nat) :
  fits64 (map_sum current) →
  queryMrc st allocs (slab_budget current) = Some mrc → mrc ≠ ∅ →
  solveSlabReallocation st allocs current = Some r →
  dom alloc = dom mrc → map_sum alloc = map_sum current →
  (total_misses mrc (map_to_list (optimalAllocation r))
   <= total_misses mrc (map_to_list alloc))%Q
  ∧ (mrNew r * to_double (map_sum (accessFrequencies r))
     == total_misses mrc (map_to_list (optimalAllocation r)))%Q
  ∧ (mrNew r * to_double (map_sum (accessFrequencies r))
     <= total_misses mrc (map_to_list alloc))%Q.
Proof.
  intros Hfit Hq Hne Hsolve Hdoma Hsuma.
  rewrite <- (slab_budget_fits current Hfit) in Hsuma.
  pose proof (solve_misses_optimal _ _ _ _ _ _ Hq Hne Hsolve Hdoma Hsuma) as Hopt.
  split; [done |].
  assert (mrNew r * to_double (map_sum (accessFrequencies r))
          == total_misses mrc (map_to_list (optimalAllocation r)))%Q as Heq.
  { destruct (solve_main st allocs current mrc Hq Hne)
      as (classData & r' & _ & Hsolve' & _ & _ & _ & _ & Hnew).
    rewrite Hsolve in Hsolve'. injection Hsolve' as <-.
    rewrite Hnew, total_requests_fold. simpl.
    fold (map_sum (accessFrequencies r)).
    destruct (Nat.ltb_spec 0 (map_sum (accessFrequencies r))) as [Hpos | Hzero].
    - apply to_double_pos in Hpos. field. lra.
    - pose proof (λ c, solve_frequencies _ _ _ _ _ c Hq Hne Hsolve) as Hfreq.
      destruct (total_misses_range st allocs _ mrc (accessFrequencies r)
                  (map_to_list (optimalAllocation r)) Hq Hfreq
                  (NoDup_fst_map_to_list _)) as [H0 H1].
      assert (map_sum (accessFrequencies r) = 0) as Hz by lia.
      rewrite Hz in *. change (to_double 0) with 0%Q in *. lra. }
  split; [exact Heq |]. by rewrite Heq.
Qed.

(** X15 on [example_ring], against the allocation of three slabs to each of
    the three classes of the window. *)
Lemma solve_allocation_optimal_witness :
  let alloc : gmap Z nat := {[1%Z := 3; 2%Z := 3; 3%Z := 3]} in
  ∃ mrc r,
    fits64 (map_sum example_current)
    ∧ queryMrc example_ring example_allocs (slab_budget example_current) = Some mrc
    ∧ mrc ≠ ∅
    ∧ solveSlabReallocation example_ring example_allocs example_current = Some r
    ∧ dom alloc = dom mrc
    ∧ map_sum alloc = map_sum example_current
    ∧ (total_misses mrc (map_to_list (optimalAllocation r))
       <= total_misses mrc (map_to_list alloc))%Q
    ∧ (mrNew r * to_double (map_sum (accessFrequencies r))
       == total_misses mrc (map_to_list (optimalAllocation r)))%Q
    ∧ (mrNew r * to_double (map_sum (accessFrequencies r))
       <= total_misses mrc (map_to_list alloc))%Q.
Proof.
  intros alloc.
  assert (∃ mrc,
            queryMrc example_ring example_allocs (slab_budget example_current)
            = Some mrc ∧ mrc ≠ ∅ ∧ dom alloc = dom mrc) as (mrc & Hq & Hne & Hdom).
  { destruct (queryMrc example_ring example_allocs (slab_budget example_current))
      as [mrc |] eqn:Hq; [| by vm_compute in Hq].
    exists mrc. split; [reflexivity |].
    vm_compute in Hq. injection Hq as <-.
    split; [done | by vm_compute]. }
  assert (∃ r, solveSlabReallocation example_ring example_allocs example_current
               = Some r) as [r Hsolve].
  { destruct (solveSlabReallocation example_ring example_allocs example_current)
      as [r |] eqn:Hsolve; [by exists r | by vm_compute in Hsolve]. }
  assert (fits64 (map_sum example_current)) as Hfit by (by vm_compute).
  assert (map_sum alloc = map_sum example_current) as Hsum by (by vm_compute).
  exists mrc, r.
  repeat (split; [assumption |]).
  exact (solve_allocation_optimal example_ring example_allocs example_current
           mrc r alloc Hfit Hq Hne Hsolve Hdom Hsum).
Defined.

(** X16: when every class of the window with a non-zero [allocsPerSlab]
    has an entry in the current allocation, the solver reports
    [mrNew ≤ mrOld].  The slab budget and the cache sizes of the curves are
    assumed to fit a [size_t]; the arithmetic on [double] is exact. *)
Theorem solve_never_worse (st : FootprintMRC) (allocs current : gmap Z nat)
    (r : Reallocation) :
  fits64 (map_sum current) →
  (∀ c a, allocs !! c = Some a → fits64 (map_sum current * a)) →
  solveSlabReallocation st allocs current = Some r →
  dom (accessFrequencies r) ⊆ dom current →
  (mrNew r <= mrOld r)%Q.
Proof.
  intros Hfit Hfits Hsolve Hcover.
  destruct (solve_cases _ _ _ _ Hsolve) as [-> | (mrc & Hq & Hne)];
    [apply Qle_refl |].
  assert (∀ c, is_Some (mrc !! c) → is_Some (current !! c)) as Hcover'.
  { intros c [data Hc]. apply elem_of_dom, Hcover, elem_of_dom.
    rewrite (solve_frequencies _ _ _ _ _ c Hq Hne Hsolve), Hc. by eexists. }
  pose proof (solve_misses_le _ _ _ _ _ Hfit Hfits Hq Hne Hcover' Hsolve) as Hle.
  destruct (solve_main st allocs current mrc Hq Hne)
    as (classData & r' & _ & Hsolve' & _ & _ & _ & Hold & Hnew).
  rewrite Hsolve in Hsolve'. injection Hsolve' as <-.
  rewrite Hold, Hnew.
  destruct (0 <? _); [| apply Qle_refl].
  apply Qmult_le_compat_r; [done |].
  apply Qinv_le_0_compat, to_double_nonneg.
Qed.

(** X16 on [example_ring]. *)
Lemma solve_never_worse_witness :
  ∃ r,
    fits64 (map_sum example_current)
    ∧ (∀ c a, example_allocs !! c = Some a → fits64 (map_sum example_current * a))
    ∧ solveSlabReallocation example_ring example_allocs example_current = Some r
    ∧ dom (accessFrequencies r) ⊆ dom example_current
    ∧ (mrNew r <= mrOld r)%Q.
Proof.
  assert (∃ r, solveSlabReallocation example_ring example_allocs example_current
               = Some r
               ∧ dom (accessFrequencies r) ⊆ dom example_current)
    as (r & Hsolve & Hsub).
  { destruct (solveSlabReallocation example_ring example_allocs example_current)
      as [r |] eqn:Hsolve; [| by vm_compute in Hsolve].
    exists r. split; [reflexivity |].
    vm_compute in Hsolve. injection Hsolve as <-.
    apply (bool_decide_unpack _). by vm_compute. }
  assert (fits64 (map_sum example_current)) as Hfit by (by vm_compute).
  assert (∀ c a, example_allocs !! c = Some a
                 → fits64 (map_sum example_current * a)) as Hfits.
  { intros c a Hca. unfold example_allocs in Hca.
    apply lookup_insert_Some in Hca as [[_ <-] | [_ Hca]]; [by vm_compute |].
    apply lookup_insert_Some in Hca as [[_ <-] | [_ Hca]]; [by vm_compute |].
    apply lookup_singleton_Some in Hca as [_ <-]. by vm_compute. }
  exists r.
  repeat (split; [assumption |]).
  exact (solve_never_worse example_ring example_allocs example_current r
           Hfit Hfits Hsolve Hsub).
Defined.

(** ** The plan against the two allocations *)

Lemma length_flat_map_replicate (f : Z → nat) ids :
  length (flat_map (λ c, replicate (f c) c) ids) = sum_list_with f ids.
Proof.
  induction ids as [| c ids IH]; [done |].
  simpl. by rewrite length_app, length_replicate, IH.
Qed.

Lemma occurrences_replicate c n c' :
  occurrences c (replicate n c') = if decide (c' = c) then n else 0.
Proof.
  unfold occurrences. induction n as [| n IH]; simpl.
  - by destruct (decide (c' = c)).
  - rewrite filter_cons. destruct (decide (c' = c)); simpl; by rewrite IH.
Qed.

Lemma occurrences_flat_map (f : Z → nat) ids c :
  NoDup ids →
  occurrences c (flat_map (λ x, replicate (f x) x) ids)
  = if decide (c ∈ ids) then f c else 0.
Proof.
  intros Hnodup. induction Hnodup as [| c0 ids Hc0 Hnodup IH].
  - simpl. by destruct (decide (c ∈ [])) as [?%elem_of_nil |].
  - simpl. unfold occurrences in *. rewrite filter_app, length_app, IH.
    fold (occurrences c (replicate (f c0) c0)). rewrite occurrences_replicate.
    destruct (decide (c0 = c)) as [-> | Hne].
    + rewrite decide_False by done. rewrite decide_True by left. lia.
    + destruct (decide (c ∈ ids)) as [Hin | Hnotin].
      * rewrite decide_True by (by right). lia.
      * rewrite decide_False; [lia |].
        intros [-> | ?]%elem_of_cons; done.
Qed.

Lemma occurrences_perm c l1 l2 : l1 ≡ₚ l2 → occurrences c l1 = occurrences c l2.
Proof. intros H. unfold occurrences. by rewrite H. Qed.

Lemma sum_list_with_fmap_list {A} (f : A → nat) l :
  sum_list_with f l = sum_list (f <$> l).
Proof.
  induction l as [| x l IH]; [done |].
  rewrite fmap_cons, sum_list_cons. cbn [sum_list_with]. by rewrite IH.
Qed.

Lemma sum_list_with_balance (f g : Z → nat) ids :
  sum_list_with (λ c, f c - g c) ids + sum_list_with g ids
  = sum_list_with (λ c, g c - f c) ids + sum_list_with f ids.
Proof. induction ids as [| c ids IH]; cbn [sum_list_with]; lia. Qed.


(** How often a class is a victim and a receiver of the plan. *)
Lemma solve_plan_counts st allocs current mrc r c :
  fits64 (map_sum current) →
  queryMrc st allocs (slab_budget current) = Some mrc → mrc ≠ ∅ →
  solveSlabReallocation st allocs current = Some r →
  occurrences c (reassignmentPlan r).*1
  = default 0 (current !! c) - default 0 (optimalAllocation r !! c)
  ∧ occurrences c (reassignmentPlan r).*2
    = default 0 (optimalAllocation r !! c) - default 0 (current !! c).
Proof.
  intros Hfit Hq Hne Hsolve.
  pose proof (solve_optimal_dom _ _ _ _ _ Hq Hne Hsolve) as Hdom.
  pose proof (solve_optimal_sum _ _ _ _ _ Hq Hne Hsolve) as Hsum.
  rewrite (slab_budget_fits current Hfit) in Hsum.
  destruct (solve_main st allocs current mrc Hq Hne)
    as (classData & r' & _ & Hsolve' & _ & _ & Hplan & _).
  rewrite Hsolve in Hsolve'. injection Hsolve' as <-.
  set (opt := optimalAllocation r) in *.
  set (ids := sorted_elements (dom mrc ∪ dom current)) in *.
  set (cur c := default 0 (current !! c)).
  set (new c := default 0 (opt !! c)).
  pose proof (NoDup_sorted_elements (dom mrc ∪ dom current)) as Hnodup.
  fold ids in Hnodup.
  assert (sum_list_with cur ids = map_sum current) as Hcur.
  { rewrite sum_list_with_fmap_list. apply sum_list_keys_eq; [done |].
    intros c' Hc'. apply elem_of_sorted_elements, elem_of_union_r.
    by apply elem_of_dom. }
  assert (sum_list_with new ids = map_sum current) as Hnew.
  { rewrite sum_list_with_fmap_list, <- Hsum. apply sum_list_keys_eq; [done |].
    intros c' Hc'. apply elem_of_sorted_elements. rewrite <- Hdom.
    by apply elem_of_dom. }
  pose proof (sum_list_with_balance cur new ids) as Hbalance.
  set (V := flat_map (λ c, replicate (cur c - new c) c) ids) in *.
  set (R := flat_map (λ c, replicate (new c - cur c) c) ids) in *.
  assert (length V = length R) as Hlen.
  { unfold V, R. rewrite !length_flat_map_replicate. lia. }
  assert (∀ c', c' ∉ ids → cur c' = 0 ∧ new c' = 0) as Hout.
  { intros c' Hc'. unfold ids in Hc'. rewrite elem_of_sorted_elements in Hc'.
    unfold cur, new. split.
    - rewrite (proj1 (not_elem_of_dom current c')); [done |]. set_solver.
    - rewrite (proj1 (not_elem_of_dom opt c')); [done |]. rewrite Hdom. done. }
  set (sorted := std_sort (victim_before (accessFrequencies r) current) V).
  assert (reassignmentPlan r = zip sorted R) as -> by exact Hplan.
  assert (length sorted = length V) as Hsorted
    by (unfold sorted; by rewrite std_sort_perm).
  rewrite fst_zip, snd_zip by lia.
  rewrite (occurrences_perm c sorted V) by apply std_sort_perm.
  unfold V, R. rewrite !(occurrences_flat_map _ ids c Hnodup).
  destruct (decide (c ∈ ids)) as [_ | Hc]; [done |].
  destruct (Hout c Hc) as [H1 H2]. unfold cur, new in H1, H2.
  by rewrite H1, H2.
Qed.

(** X17: when the MRC query gives at least one class and the slab budget
    fits a [size_t], the plan turns the current allocation into the
    optimal one: a class occurs as victim once for every slab it has above
    its optimal count and as receiver once for every slab it has below
    it, so that removing one slab per victim occurrence and adding one per
    receiver occurrence gives the optimal allocation; no class is both a
    victim and a receiver. *)
Theorem plan_reaches_optimal (st : FootprintMRC) (allocs current : gmap Z nat)
    (mrc : gmap Z (gmap nat Q * gmap nat Q * nat)) (r : Reallocation) :
  fits64 (map_sum current) →
  queryMrc st allocs (slab_budget current) = Some mrc → mrc ≠ ∅ →
  solveSlabReallocation st allocs current = Some r →
  let victims := (reassignmentPlan r).*1 in
  let receivers := (reassignmentPlan r).*2 in
  length victims = length receivers
  ∧ ∀ c, let currentSlabs := default 0 (current !! c) in
         let optimalSlabs := default 0 (optimalAllocation r !! c) in
         occurrences c victims = currentSlabs - optimalSlabs
         ∧ occurrences c receivers = optimalSlabs - currentSlabs
         ∧ currentSlabs + occurrences c receivers
           = optimalSlabs + occurrences c victims
         ∧ (occurrences c victims = 0 ∨ occurrences c receivers = 0).
Proof.
  intros Hfit Hq Hne Hsolve victims receivers.
  split; [unfold victims, receivers; by rewrite !length_fmap |].
  intros c currentSlabs optimalSlabs.
  destruct (solve_plan_counts _ _ _ _ _ c Hfit Hq Hne Hsolve) as [Hv Hr].
  fold victims in Hv. fold receivers in Hr.
  fold currentSlabs optimalSlabs in Hv, Hr.
  repeat split; try done; lia.
Qed.

(** X17 on [example_ring]. *)
Lemma plan_reaches_optimal_witness :
  ∃ mrc r,
    fits64 (map_sum example_current)
    ∧ queryMrc example_ring example_allocs (slab_budget example_current) = Some mrc
    ∧ mrc ≠ ∅
    ∧ solveSlabReallocation example_ring example_allocs example_current = Some r
    ∧ let victims := (reassignmentPlan r).*1 in
      let receivers := (reassignmentPlan r).*2 in
      length victims = length receivers
      ∧ ∀ c, let currentSlabs := default 0 (example_current !! c) in
             let optimalSlabs := default 0 (optimalAllocation r !! c) in
             occurrences c victims = currentSlabs - optimalSlabs
             ∧ occurrences c receivers = optimalSlabs - currentSlabs
             ∧ currentSlabs + occurrences c receivers
               = optimalSlabs + occurrences c victims
             ∧ (occurrences c victims = 0 ∨ occurrences c receivers = 0).
Proof.
  assert (∃ mrc,
            queryMrc example_ring example_allocs (slab_budget example_current)
            = Some mrc ∧ mrc ≠ ∅) as (mrc & Hq & Hne).
  { destruct (queryMrc example_ring example_allocs (slab_budget example_current))
      as [mrc |] eqn:Hq; [| by vm_compute in Hq].
    exists mrc. split; [reflexivity |]. intros ->. by vm_compute in Hq. }
  assert (∃ r, solveSlabReallocation example_ring example_allocs example_current
               = Some r) as [r Hsolve].
  { destruct (solveSlabReallocation example_ring example_allocs example_current)
      as [r |] eqn:Hsolve; [by exists r | by vm_compute in Hsolve]. }
  assert (fits64 (map_sum example_current)) as Hfit by (by vm_compute).
  exists mrc, r.
  repeat (split; [assumption |]).
  exact (plan_reaches_optimal example_ring example_allocs example_current mrc r
           Hfit Hq Hne Hsolve).
Defined.



(** ** The receivers of the plan *)






(** ** The earlier version computes the same curves *)

Lemma legacy_window_entries st : Legacy.window_entries st = snapshot_entries st.
Proof.
  unfold Legacy.window_entries, snapshot_entries.
  destruct (Nat.eqb_spec (currentBufferSize st) 0) as [Hz | Hnz].
  - rewrite Hz. simpl. by destruct (circularBufferMaxLen st <? 0).
  - replace (0 <? currentBufferSize st) with true
      by (symmetry; apply Nat.ltb_lt; lia).
    simpl. destruct (decide (circularBuffer st = [])) as [Hnil | Hne].
    + rewrite Hnil. rewrite bool_decide_eq_true_2 by done. simpl.
      destruct (seq 0 _); simpl; [done |].
      by rewrite orb_true_r.
    + rewrite (bool_decide_eq_false_2 (circularBuffer st = [])) by done. simpl.
      by rewrite bool_decide_eq_false_2 by done.
Qed.

Lemma pass2_step_maps_ne p k c p' c' :
  pass2_step p (k, c) = Some p' → c' ≠ c →
  keyToFirstAccess p' !! c' = keyToFirstAccess p !! c'
  ∧ keyToLastAccess p' !! c' = keyToLastAccess p !! c'.
Proof.
  unfold pass2_step.
  destruct (match default ∅ (keyToLastAccess p !! c) !! k with
            | Some prev => _ | None => _ end) as [hist |]; simpl; [| done].
  intros [= <-] Hne. simpl. by rewrite !lookup_insert_ne.
Qed.

Lemma pass2_step_maps_eq p k c p' :
  pass2_step p (k, c) = Some p' →
  is_Some (keyToFirstAccess p' !! c) ∧ is_Some (keyToLastAccess p' !! c).
Proof.
  unfold pass2_step.
  destruct (match default ∅ (keyToLastAccess p !! c) !! k with
            | Some prev => _ | None => _ end) as [hist |]; simpl; [| done].
  intros [= <-]. simpl. rewrite !lookup_insert_eq. split; by eexists.
Qed.

Lemma pass2_maps_absent entries : ∀ p p' c,
  pass2 entries p = Some p' → c ∉ entries.*2 →
  keyToFirstAccess p' !! c = keyToFirstAccess p !! c
  ∧ keyToLastAccess p' !! c = keyToLastAccess p !! c.
Proof.
  induction entries as [| [k c'] entries IH]; intros p p' c; simpl.
  - by intros [= <-] _.
  - destruct (pass2_step p (k, c')) as [p1 |] eqn:Hstep; simpl; [| done].
    intros Hrest [Hne Hnotin]%not_elem_of_cons.
    destruct (IH _ _ _ Hrest Hnotin) as [-> ->].
    by eapply pass2_step_maps_ne.
Qed.

Lemma pass2_maps_present entries : ∀ p p' c,
  pass2 entries p = Some p' →
  is_Some (keyToFirstAccess p !! c) → is_Some (keyToLastAccess p !! c) →
  keyToFirstAccess p' !! c = Some (scan_first (class_view c p'))
  ∧ keyToLastAccess p' !! c = Some (scan_last (class_view c p')).
Proof.
  induction entries as [| [k c'] entries IH]; intros p p' c; simpl.
  - intros [= <-] [f Hf] [l Hl]. unfold class_view. simpl. by rewrite Hf, Hl.
  - destruct (pass2_step p (k, c')) as [p1 |] eqn:Hstep; simpl; [| done].
    intros Hrest Hf Hl.
    destruct (decide (c = c')) as [-> | Hne].
    + destruct (pass2_step_maps_eq _ _ _ _ Hstep). by apply (IH _ _ _ Hrest).
    + destruct (pass2_step_maps_ne _ _ _ _ _ Hstep Hne) as [Hf1 Hl1].
      apply (IH _ _ _ Hrest); by rewrite ?Hf1, ?Hl1.
Qed.

(** The statistics of the two versions on the same records, class by
    class: the same scan, returned as maps by the earlier version and as
    counting-sorted vectors by the current one. *)
Lemma legacy_window_stats entries :
  ∃ lstats stats,
    Legacy.window_stats entries = Some lstats
    ∧ window_stats entries = Some stats
    ∧ Legacy.reuseTimeHistogramByClass lstats = reuseTimeHistogramByClass stats
    ∧ Legacy.nByClass lstats = nByClass stats
    ∧ Legacy.mByClass lstats = mByClass stats
    ∧ ∀ c,
        if decide (c ∈ entries.*2) then
          let n := length (class_keys c entries) in
          ∃ s, scan_inv n s ∧ scan_index s = n
               ∧ nByClass stats !! c = Some n
               ∧ Legacy.firstAccessTimesByClass lstats !! c = Some (scan_first s)
               ∧ Legacy.lastAccessTimesByClass lstats !! c = Some (scan_last s)
               ∧ firstAccessTimesByClass stats !! c
                 = Some (sorted_first_access n (scan_first s))
               ∧ lastAccessTimesByClass stats !! c
                 = Some (sorted_last_access n (scan_last s))
        else Legacy.firstAccessTimesByClass lstats !! c = None
             ∧ firstAccessTimesByClass stats !! c = None.
Proof.
  destruct (window_stats_defined entries) as [stats Hstats].
  pose proof Hstats as Hcur. rewrite window_stats_unfold in Hcur.
  set (p0 := mkPass2 _ _ _ _) in Hcur.
  destruct (pass2 entries p0) as [p2 |] eqn:Hp2; simpl in Hcur; [| done].
  set (q0 := {| currentAccessIndex := ∅;
                keyToFirstAccess := (λ _, ∅) <$> (pass1 entries).1;
                keyToLastAccess := (λ _, ∅) <$> (pass1 entries).1;
                reuseHistograms := (λ n, replicate n 0) <$> (pass1 entries).1 |}).
  assert (∀ c, class_view c q0 = class_view c p0) as Hview0.
  { intros c. unfold class_view, q0, p0. simpl.
    rewrite !lookup_fmap, !lookup_empty.
    by destruct ((pass1 entries).1 !! c). }
  destruct (pass2_defined entries q0) as [q2 Hq2].
  { intros c. rewrite Hview0. rewrite (pass2_view _ _ _ c Hp2). by eexists. }
  assert (∀ c, class_view c q2 = class_view c p2) as Hview.
  { intros c. pose proof (pass2_view _ _ _ c Hq2) as H1.
    pose proof (pass2_view _ _ _ c Hp2) as H2.
    rewrite Hview0 in H1. congruence. }
  assert (reuseHistograms q2 = reuseHistograms p2) as Hhist.
  { apply map_eq. intros c.
    destruct (decide (c ∈ entries.*2)) as [Hin | Hnotin].
    - assert (is_Some (reuseHistograms q0 !! c)) as Hsome.
      { unfold q0. simpl. rewrite lookup_fmap, pass1_n.
        rewrite decide_False; [by eexists |].
        by intros Hnil%class_keys_nil_iff. }
      rewrite (pass2_hist_present _ _ _ _ Hq2 Hsome).
      rewrite (pass2_hist_present _ _ _ _ Hp2 Hsome).
      by rewrite Hview.
    - rewrite (pass2_hist_absent _ _ _ _ Hq2 Hnotin).
      by rewrite (pass2_hist_absent _ _ _ _ Hp2 Hnotin). }
  exists {| Legacy.firstAccessTimesByClass := keyToFirstAccess q2;
            Legacy.lastAccessTimesByClass := keyToLastAccess q2;
            Legacy.reuseTimeHistogramByClass := reuseHistograms q2;
            Legacy.nByClass := (pass1 entries).1;
            Legacy.mByClass := size <$> (pass1 entries).2 |}, stats.
  split.
  { unfold Legacy.window_stats. destruct (pass1 entries) as [nBy uniq] eqn:Hp1.
    simpl in *. fold q0. by rewrite Hq2. }
  split; [done |].
  injection Hcur as <-. simpl.
  split; [done |]. split; [done |]. split; [done |].
  intros c. destruct (decide (c ∈ entries.*2)) as [Hin | Hnotin].
  - assert (class_keys c entries ≠ []) as Hne
      by (by intros Hnil%class_keys_nil_iff).
    set (keys := class_keys c entries) in *.
    assert (class_view c p0 = scan_start_of (length keys)) as Hv0.
    { unfold class_view, p0, scan_start_of. simpl.
      rewrite !lookup_empty, lookup_fmap, pass1_n, decide_False by done. done. }
    pose proof (pass2_view _ _ _ c Hp2) as Hscan. fold keys in Hscan.
    rewrite Hv0 in Hscan.
    destruct (scan_inv_preserved (length keys) keys _ _ (scan_inv_start _)
                (Nat.le_refl _) Hscan) as (Hinv & Hidx & _).
    exists (class_view c p2). split; [done |]. split; [done |].
    rewrite !map_lookup_imap, pass1_n, decide_False by done. simpl.
    assert (is_Some (keyToFirstAccess q0 !! c) ∧ is_Some (keyToLastAccess q0 !! c))
      as [Hf0 Hl0].
    { unfold q0. simpl. rewrite !lookup_fmap, pass1_n.
      rewrite decide_False by done. split; by eexists. }
    destruct (pass2_maps_present _ _ _ c Hq2 Hf0 Hl0) as [-> ->].
    by rewrite Hview.
  - destruct (pass2_maps_absent _ _ _ c Hq2 Hnotin) as [-> _].
    unfold q0. simpl. rewrite lookup_fmap, map_lookup_imap, pass1_n.
    pose proof (proj2 (class_keys_nil_iff c entries) Hnotin) as Hnil.
    by rewrite decide_True by done.
Qed.

#[local] Instance nat_order_total : Total (not_after Nat.ltb).
Proof.
  intros a b. unfold not_after.
  destruct (Nat.ltb_spec b a); [| by left].
  right. apply Nat.ltb_ge. lia.
Qed.

#[local] Instance nat_order_trans : Transitive (not_after Nat.ltb).
Proof.
  intros a b c. unfold not_after. rewrite !Nat.ltb_ge. lia.
Qed.

(** On numbers [std::sort] has one possible result. *)
Lemma std_sort_nat_unique (l sorted : list nat) :
  StronglySorted le sorted → sorted ≡ₚ l → std_sort Nat.ltb l = sorted.
Proof.
  intros Hsorted Hperm.
  apply (StronglySorted_unique le); [| done | by rewrite std_sort_perm].
  apply (StronglySorted_impl (not_after Nat.ltb)).
  - intros a b. unfold not_after. rewrite Nat.ltb_ge. lia.
  - apply StronglySorted_merge_sort; apply _.
Qed.

Lemma sub64_fits n b : b ≤ n → fits64 n → Legacy.sub64 n b = n - b.
Proof.
  unfold Legacy.sub64, fits64. intros Hle Hfit.
  replace (2 ^ 64 + N.of_nat n - N.of_nat b)%N
    with (N.of_nat (n - b) + 1 * 2 ^ 64)%N by lia.
  rewrite N.Div0.mod_add, N.mod_small by lia.
  apply Nat2N.id.
Qed.

(** [std::sort] on the vectors built from the maps gives the vectors of
    the counting sort. *)
Lemma legacy_fp_values first last hist n m :
  fits64 n →
  (∀ k a, first !! k = Some a → a < n) →
  (∀ k b, last !! k = Some b → b < n) →
  Legacy.calculateFpValues first last hist n m
  = calculateFpValues (sorted_first_access n first) (sorted_last_access n last)
      hist n m.
Proof.
  intros Hfit Hfirst Hlast.
  unfold Legacy.calculateFpValues, calculateFpValues.
  destruct (n =? 0); [done |].
  pose proof (sorted_first_access_perm n first Hfirst) as HF.
  pose proof (sorted_last_access_perm n last Hlast) as HL.
  assert ((λ kv : N * nat, wrap64 (kv.2 + 1)) <$> map_to_list first
          = first_values first) as ->.
  { unfold first_values. apply list_fmap_ext. intros i [k a] Hka%list_elem_of_lookup_2.
    apply elem_of_map_to_list, Hfirst in Hka. simpl.
    apply wrap64_fits, (fits64_le _ n); [lia | done]. }
  assert ((λ kv : N * nat, Legacy.sub64 n kv.2) <$> map_to_list last
          = last_values n last) as ->.
  { unfold last_values. apply list_fmap_ext. intros i [k b] Hkb%list_elem_of_lookup_2.
    apply elem_of_map_to_list, Hlast in Hkb. simpl.
    apply sub64_fits; [lia | done]. }
  rewrite (std_sort_nat_unique (first_values first) (sorted_first_access n first))
    by (by try apply expand_counts_sorted).
  rewrite (std_sort_nat_unique (last_values n last) (sorted_last_access n last))
    by (by try apply expand_counts_sorted).
  replace (size first) with (length (sorted_first_access n first)).
  2:{ rewrite HF. unfold first_values. by rewrite length_fmap, length_map_to_list. }
  replace (size last) with (length (sorted_last_access n last)).
  2:{ rewrite HL. unfold last_values. by rewrite length_fmap, length_map_to_list. }
  done.
Qed.

(** X19: the earlier version of the class, which returns the access times
    as maps and sorts them with [std::sort] inside [calculateFpValues],
    and the current version, which counting-sorts them inside
    [calculateWindowStats] on a snapshot of the ring, return the same
    result from [queryMrc] on every state of the ring and for every
    [allocsPerSlab] map and slab count.  The capacity of the ring is
    assumed to fit a [size_t]. *)
Theorem legacy_queryMrc_agrees (st : FootprintMRC) (allocs : gmap Z nat)
    (maxSlabCount : nat) :
  fits64 (circularBufferMaxLen st) →
  Legacy.queryMrc st allocs maxSlabCount = queryMrc st allocs maxSlabCount.
Proof.
  intros Hfit. unfold Legacy.queryMrc, queryMrc.
  destruct (currentBufferSize st =? 0); [done |].
  unfold Legacy.calculateWindowStats.
  rewrite legacy_window_entries, calculateWindowStats_eq.
  destruct (legacy_window_stats (snapshot_entries st))
    as (lstats & stats & -> & -> & Hhist & Hn & Hm & Hclass).
  simpl. apply foldl_ext_in. intros acc [c a] _.
  unfold Legacy.queryMrc_step, queryMrc_step.
  destruct acc as [acc |]; simpl; [| done].
  destruct (a =? 0); [done |].
  specialize (Hclass c).
  destruct (decide (c ∈ (snapshot_entries st).*2)) as [Hin | Hnotin].
  2:{ destruct Hclass as [-> ->]. done. }
  destruct Hclass as (s & Hinv & Hidx & Hn' & Hlf & Hll & Hf & Hl).
  destruct Hinv as (_ & _ & _ & Hfl & Hlast & _).
  rewrite Hlf, Hf.
  unfold Legacy.mrc_of_class, mrc_of_class.
  rewrite Hlf, Hll, Hf, Hl, Hhist, Hn, Hm, Hn'. simpl.
  destruct (reuseTimeHistogramByClass stats !! c) as [hist |]; simpl; [| done].
  destruct (mByClass stats !! c) as [m |]; simpl; [| done].
  rewrite legacy_fp_values; [done | | |].
  - apply (fits64_le _ (circularBufferMaxLen st)); [| done].
    etrans; [apply class_keys_length | apply snapshot_entries_length].
  - intros k x Hx. destruct (Hfl k x Hx) as (b & Hb & Hxb).
    apply Hlast in Hb. lia.
  - intros k b Hb. apply Hlast in Hb. lia.
Qed.

(** X19 on [example_ring]. *)
Lemma legacy_queryMrc_agrees_witness :
  fits64 (circularBufferMaxLen example_ring)
  ∧ Legacy.queryMrc example_ring example_allocs 3
    = queryMrc example_ring example_allocs 3.
Proof.
  assert (fits64 (circularBufferMaxLen example_ring)) as Hfit by (by vm_compute).
  split; [exact Hfit |].
  exact (legacy_queryMrc_agrees example_ring example_allocs 3 Hfit).
Defined.

(** ** Moved-from profilers *)

Lemma feed_all_no_capacity toKeyInt calls : ∀ st,
  circularBufferMaxLen st = 0 → feed_all toKeyInt calls st = Some st.
Proof.
  induction calls as [| [key classId] calls IH]; intros st Hcap; simpl; [done |].
  assert (feed toKeyInt key classId st = Some st) as ->.
  { unfold feed. rewrite Hcap. simpl. by rewrite orb_true_r. }
  simpl. by apply IH.
Qed.

(** X20: a move hands the whole ring to the target, and the profiler that
    was moved from stays usable: it ignores every access fed to it (the
    guard of [feed] on a capacity of [0], so that no index is taken modulo
    [0]), its window is empty, both overloads of [queryMrc] return their
    empty results and [solveSlabReallocation] the all-zero one, whatever
    the library left in the moved-from vector. *)
Theorem moved_from_inert (toKeyInt : Key → KeyInt) (other : FootprintMRC)
    (rest : list (KeyInt * ClassId)) (calls : list (Key * ClassId))
    (allocs current : gmap Z nat) (cacheSizes : list nat) (maxSlabCount : nat) :
  let target := (move_from other rest).1 in
  let source := (move_from other rest).2 in
  snapshot_entries target = snapshot_entries other
  ∧ queryMrc target allocs maxSlabCount = queryMrc other allocs maxSlabCount
  ∧ feed_all toKeyInt calls source = Some source
  ∧ snapshot_entries source = []
  ∧ queryMrc source allocs maxSlabCount = Some ∅
  ∧ queryMrc_footprints source cacheSizes = Some (replicate (length cacheSizes) 0%Q)
  ∧ solveSlabReallocation source allocs current = Some zero_reallocation.
Proof.
  intros target source.
  assert (target = other) as -> by (by destruct other).
  split; [done |]. split; [done |].
  split; [by apply feed_all_no_capacity |].
  repeat split.
Qed.

(** ** Curves of one class across queries *)

(** The statistics of a class are those of its own accesses. *)
Lemma window_stats_class entries1 entries2 stats1 stats2 c :
  window_stats entries1 = Some stats1 → window_stats entries2 = Some stats2 →
  class_keys c entries1 = class_keys c entries2 →
  firstAccessTimesByClass stats1 !! c = firstAccessTimesByClass stats2 !! c
  ∧ lastAccessTimesByClass stats1 !! c = lastAccessTimesByClass stats2 !! c
  ∧ reuseTimeHistogramByClass stats1 !! c = reuseTimeHistogramByClass stats2 !! c
  ∧ nByClass stats1 !! c = nByClass stats2 !! c
  ∧ mByClass stats1 !! c = mByClass stats2 !! c.
Proof.
  intros H1 H2 Hkeys.
  destruct (decide (c ∈ entries1.*2)) as [Hin1 | Hnotin1].
  - assert (c ∈ entries2.*2) as Hin2.
    { destruct (decide (c ∈ entries2.*2)) as [| Hnotin2]; [done |].
      apply class_keys_nil_iff in Hnotin2. rewrite <- Hkeys in Hnotin2.
      by apply class_keys_nil_iff in Hnotin2. }
    destruct (window_stats_present _ _ _ H1 Hin1)
      as (s1 & Hs1 & -> & -> & -> & -> & ->).
    destruct (window_stats_present _ _ _ H2 Hin2)
      as (s2 & Hs2 & -> & -> & -> & -> & ->).
    rewrite <- Hkeys in Hs2. rewrite Hs1 in Hs2. injection Hs2 as <-.
    by rewrite Hkeys.
  - assert (c ∉ entries2.*2) as Hnotin2.
    { apply class_keys_nil_iff. rewrite <- Hkeys. by apply class_keys_nil_iff. }
    destruct (window_stats_absent _ _ _ H1 Hnotin1) as (-> & -> & -> & -> & ->).
    by destruct (window_stats_absent _ _ _ H2 Hnotin2) as (-> & -> & -> & -> & ->).
Qed.

(** X21: the entry of a class in the result of [queryMrc] depends only on
    the accesses of that class in the window, in their order, and on its
    own [allocsPerSlab]: two windows that hold the same accesses of class
    [c], whatever they hold for other classes and wherever these lie in
    between, give class [c] the same curve, deltas and access count. *)
Theorem queryMrc_class_isolation (st1 st2 : FootprintMRC)
    (allocs1 allocs2 : gmap Z nat) (maxSlabCount : nat)
    (result1 result2 : gmap Z (gmap nat Q * gmap nat Q * nat)) (c : ClassId) :
  queryMrc st1 allocs1 maxSlabCount = Some result1 →
  queryMrc st2 allocs2 maxSlabCount = Some result2 →
  class_keys c (snapshot_entries st1) = class_keys c (snapshot_entries st2) →
  allocs1 !! c = allocs2 !! c →
  result1 !! c = result2 !! c.
Proof.
  intros Hq1 Hq2 Hkeys Hallocs.
  destruct (queryMrc_spec st1 allocs1 maxSlabCount)
    as (stats1 & r1 & Hstats1 & Hq1' & Hr1).
  destruct (queryMrc_spec st2 allocs2 maxSlabCount)
    as (stats2 & r2 & Hstats2 & Hq2' & Hr2).
  rewrite Hq1 in Hq1'. injection Hq1' as <-.
  rewrite Hq2 in Hq2'. injection Hq2' as <-.
  rewrite Hr1, Hr2.
  destruct (window_stats_class _ _ _ _ c Hstats1 Hstats2 Hkeys)
    as (HF & HL & Hhist & Hn & Hm).
  unfold queryMrc_entry, mrc_of_class.
  by rewrite Hallocs, HF, HL, Hhist, Hn, Hm.
Qed.

(** X21 on two windows that share the accesses of class [1]. *)
Lemma queryMrc_class_isolation_witness :
  let st1 := ring_of [(1%N, 1%Z); (5%N, 2%Z); (2%N, 1%Z); (1%N, 1%Z)] in
  let st2 := ring_of [(1%N, 1%Z); (2%N, 1%Z); (9%N, 3%Z); (9%N, 3%Z); (1%N, 1%Z)] in
  let allocs1 : gmap Z nat := {[1%Z := 1; 2%Z := 4]} in
  let allocs2 : gmap Z nat := {[1%Z := 1; 3%Z := 2]} in
  ∃ result1 result2,
    queryMrc st1 allocs1 3 = Some result1
    ∧ queryMrc st2 allocs2 3 = Some result2
    ∧ class_keys 1%Z (snapshot_entries st1) = class_keys 1%Z (snapshot_entries st2)
    ∧ allocs1 !! 1%Z = allocs2 !! 1%Z
    ∧ result1 !! 1%Z = result2 !! 1%Z.
Proof.
  intros st1 st2 allocs1 allocs2.
  destruct (queryMrc st1 allocs1 3) as [result1 |] eqn:Hq1;
    [| by vm_compute in Hq1].
  destruct (queryMrc st2 allocs2 3) as [result2 |] eqn:Hq2;
    [| by vm_compute in Hq2].
  assert (class_keys 1%Z (snapshot_entries st1)
          = class_keys 1%Z (snapshot_entries st2)) as Hkeys by (by vm_compute).
  assert (allocs1 !! 1%Z = allocs2 !! 1%Z) as Hallocs by (by vm_compute).
  exists result1, result2.
  repeat (split; [done |]).
  exact (queryMrc_class_isolation st1 st2 allocs1 allocs2 3 result1 result2 1%Z
           Hq1 Hq2 Hkeys Hallocs).
Defined.

(** X22: asking [queryMrc] for more slabs extends the curves and changes
    nothing of them: the classes of the result, their access counts, and
    the points and deltas up to the smaller slab count are the same. *)
Theorem queryMrc_extends (st : FootprintMRC) (allocs : gmap Z nat)
    (max1 max2 : nat) (result1 result2 : gmap Z (gmap nat Q * gmap nat Q * nat)) :
  max1 ≤ max2 →
  queryMrc st allocs max1 = Some result1 →
  queryMrc st allocs max2 = Some result2 →
  dom result1 = dom result2
  ∧ ∀ c pts1 delta1 n1, result1 !! c = Some (pts1, delta1, n1) →
      ∃ pts2 delta2,
        result2 !! c = Some (pts2, delta2, n1)
        ∧ (∀ s, s ≤ max1 → pts2 !! s = pts1 !! s)
        ∧ (∀ s, s ≤ max1 → delta2 !! s = delta1 !! s).
Proof.
  intros Hmax Hq1 Hq2. split.
  { apply set_eq. intros c. rewrite !elem_of_dom.
    rewrite (queryMrc_dom _ _ _ _ c Hq1), (queryMrc_dom _ _ _ _ c Hq2). done. }
  intros c pts1 delta1 n1 Hc1.
  destruct (queryMrc_entry_stats _ _ _ _ _ _ _ _ Hq1 Hc1)
    as (a & stats & F & L & hist & m & Ha & Hnz & Hstats & HF & HL & Hhist & Hn
        & Hm & Hcurve).
  destruct (queryMrc_spec st allocs max2) as (stats2 & r2 & Hstats2 & Hq2' & Hr2).
  rewrite Hq2 in Hq2'. injection Hq2' as <-.
  rewrite calculateWindowStats_eq, Hstats2 in Hstats. injection Hstats as <-.
  set (fp := calculateFpValues F L hist n1 m) in *.
  exists (mrc_curve hist fp n1 a max2).1.1, (mrc_curve hist fp n1 a max2).1.2.
  split.
  { rewrite Hr2. unfold queryMrc_entry, mrc_of_class.
    rewrite Ha. simpl.
    destruct (Nat.eqb_spec a 0) as [| _]; [done |].
    rewrite HF, HL, Hhist, Hn, Hm. simpl. fold fp.
    by destruct (mrc_curve hist fp n1 a max2) as [[pts2 delta2] last]. }
  pose proof (f_equal fst Hcurve) as Hp. pose proof (f_equal snd Hcurve) as Hd.
  simpl in Hp, Hd. subst pts1 delta1.
  split; intros s Hs.
  - rewrite !mrc_curve_points.
    rewrite decide_True by lia. by rewrite decide_True by lia.
  - rewrite !mrc_curve_delta.
    destruct (decide (1 ≤ s)).
    + rewrite decide_True by lia. by rewrite decide_True by lia.
    + rewrite decide_False by lia. by rewrite decide_False by lia.
Qed.

(** X22 on [example_ring], for two and five slabs. *)
Lemma queryMrc_extends_witness :
  ∃ result1 result2,
    2 ≤ 5
    ∧ queryMrc example_ring example_allocs 2 = Some result1
    ∧ queryMrc example_ring example_allocs 5 = Some result2
    ∧ dom result1 = dom result2
    ∧ ∀ c pts1 delta1 n1, result1 !! c = Some (pts1, delta1, n1) →
        ∃ pts2 delta2,
          result2 !! c = Some (pts2, delta2, n1)
          ∧ (∀ s, s ≤ 2 → pts2 !! s = pts1 !! s)
          ∧ (∀ s, s ≤ 2 → delta2 !! s = delta1 !! s).
Proof.
  assert (∃ result1, queryMrc example_ring example_allocs 2 = Some result1)
    as [result1 Hq1].
  { destruct (queryMrc example_ring example_allocs 2) as [result1 |] eqn:Hq;
      [by exists result1 | by vm_compute in Hq]. }
  assert (∃ result2, queryMrc example_ring example_allocs 5 = Some result2)
    as [result2 Hq2].
  { destruct (queryMrc example_ring example_allocs 5) as [result2 |] eqn:Hq;
      [by exists result2 | by vm_compute in Hq]. }
  assert (2 ≤ 5) as Hmax by lia.
  exists result1, result2.
  split; [exact Hmax |]. split; [exact Hq1 |]. split; [exact Hq2 |].
  exact (queryMrc_extends example_ring example_allocs 2 5 result1 result2
           Hmax Hq1 Hq2).
Defined.

(** ** Running the solver on its own result *)

Lemma flat_map_replicate_nil {A} (f : A → nat) (l : list A) :
  (∀ x, f x = 0) → flat_map (λ x, replicate (f x) x) l = [].
Proof.
  intros Hf. induction l as [| x l IH]; simpl; [done |].
  by rewrite Hf, IH.
Qed.

(** X23: the optimal allocation is a fixed point of the solver.  When the
    solver is run again on the same window with its own optimal allocation
    as the current one, it returns the same optimal allocation and the same
    access frequencies, an empty plan, the same [mrNew], and an [mrOld]
    equal to it (the slab budget fitting a [size_t], doubles taken as
    exact). *)
Theorem solve_fixed_point (st : FootprintMRC) (allocs current : gmap Z nat)
    (mrc : gmap Z (gmap nat Q * gmap nat Q * nat)) (r : Reallocation) :
  fits64 (map_sum current) →
  queryMrc st allocs (slab_budget current) = Some mrc → mrc ≠ ∅ →
  solveSlabReallocation st allocs current = Some r →
  ∃ r', solveSlabReallocation st allocs (optimalAllocation r) = Some r'
        ∧ optimalAllocation r' = optimalAllocation r
        ∧ reassignmentPlan r' = []
        ∧ accessFrequencies r' = accessFrequencies r
        ∧ mrNew r' = mrNew r
        ∧ (mrOld r' == mrNew r')%Q.
Proof.
  intros Hfit Hq Hne Hsolve.
  pose proof (solve_optimal_sum _ _ _ _ _ Hq Hne Hsolve) as Hsum.
  pose proof (solve_optimal_dom _ _ _ _ _ Hq Hne Hsolve) as Hdom.
  pose proof (slab_budget_fits current Hfit) as Hbudget.
  assert (slab_budget (optimalAllocation r) = slab_budget current) as Hb.
  { rewrite slab_budget_fits; [done |]. by rewrite Hsum, Hbudget. }
  destruct (solve_main st allocs current mrc Hq Hne)
    as (classData & r0 & HmapM & Hsolve0 & Hfreq & Hopt & _ & _ & Hnew).
  rewrite Hsolve in Hsolve0. injection Hsolve0 as <-.
  assert (queryMrc st allocs (slab_budget (optimalAllocation r)) = Some mrc)
    as Hq' by (by rewrite Hb).
  destruct (solve_main st allocs (optimalAllocation r) mrc Hq' Hne)
    as (classData' & r' & HmapM' & Hsolve' & Hfreq' & Hopt' & Hplan' & Hold' & Hnew').
  rewrite HmapM in HmapM'. injection HmapM' as <-.
  rewrite Hb in Hopt'.
  assert (optimalAllocation r' = optimalAllocation r) as Heq.
  { apply map_eq. intros c.
    pose proof (f_equal (λ m : gmap Z nat, m !! c) Hopt) as Hc. simpl in Hc.
    rewrite fill_missing_lookup in Hc.
    rewrite Hopt', fill_missing_lookup, Hc.
    destruct (reconstruct _ _ _ !! c); [done |].
    destruct (decide (c ∈ sorted_elements (dom mrc ∪ dom current))) as [Hin | Hnotin];
      rewrite elem_of_sorted_elements in *.
    - rewrite decide_True; [done |]. rewrite elem_of_sorted_elements. set_solver.
    - rewrite decide_False; [done |]. rewrite elem_of_sorted_elements. set_solver. }
  assert (accessFrequencies r' = accessFrequencies r) as Hfreqs
    by (by rewrite Hfreq, Hfreq').
  exists r'. split; [done |]. split; [done |]. split; [| split; [done |]].
  { rewrite Hplan', Heq.
    rewrite (flat_map_replicate_nil
               (λ c, default 0 (optimalAllocation r !! c)
                     - default 0 (optimalAllocation r !! c))) by (intros; lia).
    done. }
  assert (mrNew r' = mrNew r) as HnewEq.
  { rewrite Hnew', Hnew. by rewrite Heq, Hfreqs. }
  split; [done |].
  rewrite Hold', Hnew'. rewrite Heq.
  destruct (0 <? foldl _ 0 (map_to_list (accessFrequencies r'))); [| reflexivity].
  rewrite !total_misses_Qsum.
  by rewrite (Qsum_with_perm _ _ _ (map_items_perm (optimalAllocation r))).
Qed.

(** X23 on [example_ring]. *)
Lemma solve_fixed_point_witness :
  ∃ mrc r,
    fits64 (map_sum example_current)
    ∧ queryMrc example_ring example_allocs (slab_budget example_current) = Some mrc
    ∧ mrc ≠ ∅
    ∧ solveSlabReallocation example_ring example_allocs example_current = Some r
    ∧ ∃ r', solveSlabReallocation example_ring example_allocs (optimalAllocation r)
            = Some r'
            ∧ optimalAllocation r' = optimalAllocation r
            ∧ reassignmentPlan r' = []
            ∧ accessFrequencies r' = accessFrequencies r
            ∧ mrNew r' = mrNew r
            ∧ (mrOld r' == mrNew r')%Q.
Proof.
  assert (∃ mrc,
            queryMrc example_ring example_allocs (slab_budget example_current)
            = Some mrc ∧ mrc ≠ ∅) as (mrc & Hq & Hne).
  { destruct (queryMrc example_ring example_allocs (slab_budget example_current))
      as [mrc |] eqn:Hq; [| by vm_compute in Hq].
    exists mrc. split; [reflexivity |]. intros ->. by vm_compute in Hq. }
  assert (∃ r, solveSlabReallocation example_ring example_allocs example_current
               = Some r) as [r Hsolve].
  { destruct (solveSlabReallocation example_ring example_allocs example_current)
      as [r |] eqn:Hsolve; [by exists r | by vm_compute in Hsolve]. }
  assert (fits64 (map_sum example_current)) as Hfit by (by vm_compute).
  exists mrc, r.
  split; [exact Hfit |]. split; [exact Hq |]. split; [exact Hne |].
  split; [exact Hsolve |].
  exact (solve_fixed_point example_ring example_allocs example_current mrc r
           Hfit Hq Hne Hsolve).
Defined.

(** ** Renaming of key tokens *)

Lemma class_keys_rename f c entries :
  class_keys c (rename_entries f entries) = f <$> class_keys c entries.
Proof.
  unfold rename_entries.
  induction entries as [| [k c'] entries IH]; [done |].
  rewrite fmap_cons. simpl. rewrite !class_keys_cons, IH.
  by destruct (decide (c' = c)).
Qed.

Lemma injective_class_keys f entries c :
  injective_per_class f entries →
  ∀ k1 k2, k1 ∈ class_keys c entries → k2 ∈ class_keys c entries →
           f k1 = f k2 → k1 = k2.
Proof.
  intros Hinj k1 k2 H1 H2. apply (Hinj k1 k2 c).
  - unfold class_keys in H1.
    apply list_elem_of_fmap in H1 as ([k c'] & -> & [Hc Hin]%list_elem_of_filter).
    simpl in Hc. by subst c'.
  - unfold class_keys in H2.
    apply list_elem_of_fmap in H2 as ([k c'] & -> & [Hc Hin]%list_elem_of_filter).
    simpl in Hc. by subst c'.
Qed.

Section Renaming.

Variable f : KeyInt → KeyInt.
Variable keys : list KeyInt.
Hypothesis f_inj : ∀ k1 k2, k1 ∈ keys → k2 ∈ keys → f k1 = f k2 → k1 = k2.

Lemma first_at_rename k' a :
  first_at (f <$> keys) k' a ↔ ∃ k, k' = f k ∧ first_at keys k a.
Proof.
  unfold first_at. split.
  - intros [Ha Hbefore]. rewrite list_lookup_fmap in Ha.
    destruct (keys !! a) as [k |] eqn:Hk; [| done]. injection Ha as <-.
    exists k. repeat split. intros j Hj Hkj.
    apply (Hbefore j Hj). by rewrite list_lookup_fmap, Hkj.
  - intros (k & -> & Ha & Hbefore). split; [by rewrite list_lookup_fmap, Ha |].
    intros j Hj Hkj. rewrite list_lookup_fmap in Hkj.
    destruct (keys !! j) as [k2 |] eqn:Hk2; [| done]. injection Hkj as Hkj.
    apply (Hbefore j Hj). rewrite Hk2. f_equal.
    apply f_inj; [by eapply list_elem_of_lookup_2 .. | done].
Qed.

Lemma last_at_rename k' b :
  last_at (f <$> keys) k' b ↔ ∃ k, k' = f k ∧ last_at keys k b.
Proof.
  unfold last_at. split.
  - intros [Hb Hafter]. rewrite list_lookup_fmap in Hb.
    destruct (keys !! b) as [k |] eqn:Hk; [| done]. injection Hb as <-.
    exists k. repeat split. intros j Hj Hkj.
    apply (Hafter j Hj). by rewrite list_lookup_fmap, Hkj.
  - intros (k & -> & Hb & Hafter). split; [by rewrite list_lookup_fmap, Hb |].
    intros j Hj Hkj. rewrite list_lookup_fmap in Hkj.
    destruct (keys !! j) as [k2 |] eqn:Hk2; [| done]. injection Hkj as Hkj.
    apply (Hafter j Hj). rewrite Hk2. f_equal.
    apply f_inj; [by eapply list_elem_of_lookup_2 .. | done].
Qed.

Lemma list_find_rename k (l : list KeyInt) :
  (∀ x, x ∈ l → f x = f k → x = k) →
  fst <$> list_find (λ y, y = f k) (f <$> l) = fst <$> list_find (λ x, x = k) l.
Proof.
  intros Hl. induction l as [| x l IH]; [done |].
  rewrite fmap_cons. cbn [list_find].
  destruct (decide (f x = f k)) as [Hfx | Hfx].
  - rewrite decide_True; [done |]. apply Hl; [left | done].
  - rewrite decide_False by (by intros ->). 
    rewrite <- !option_fmap_compose.
    assert (fst <$> list_find (λ y, y = f k) (f <$> l)
            = fst <$> list_find (λ x, x = k) l) as IH'.
    { apply IH. intros y Hy. apply Hl. by right. }
    destruct (list_find (λ y, y = f k) (f <$> l)) as [[i y] |];
      destruct (list_find (λ x, x = k) l) as [[j z] |]; simpl in *; congruence.
Qed.

Lemma reuse_time_rename i : reuse_time (f <$> keys) i = reuse_time keys i.
Proof.
  unfold reuse_time. rewrite list_lookup_fmap.
  destruct (keys !! i) as [k |] eqn:Hk; simpl; [| done].
  rewrite <- fmap_take, <- fmap_reverse.
  assert (fst <$> list_find (λ y, y = f k) (f <$> reverse (take i keys))
          = fst <$> list_find (λ x, x = k) (reverse (take i keys))) as Hfind.
  { apply list_find_rename. intros x Hx.
    apply f_inj; [| by eapply list_elem_of_lookup_2].
    rewrite elem_of_reverse in Hx. by eapply subseteq_take. }
  destruct (list_find (λ y, y = f k) _) as [[p y] |];
    destruct (list_find (λ x, x = k) _) as [[q z] |]; simpl in *; congruence.
Qed.

Lemma reuse_count_rename t : reuse_count (f <$> keys) t = reuse_count keys t.
Proof.
  unfold reuse_count. rewrite length_fmap. f_equal.
  apply list_filter_iff. intros i. by rewrite reuse_time_rename.
Qed.

Lemma distinct_rename : distinct (f <$> keys) = distinct keys.
Proof.
  unfold distinct.
  assert (list_to_set (f <$> keys) =@{gset N} list_to_set (f <$> remove_dups keys))
    as ->.
  { apply set_eq. intros x. rewrite !elem_of_list_to_set, !list_elem_of_fmap.
    by setoid_rewrite elem_of_remove_dups. }
  assert (list_to_set keys =@{gset N} list_to_set (remove_dups keys)) as ->.
  { apply set_eq. intros x. by rewrite !elem_of_list_to_set, elem_of_remove_dups. }
  rewrite !size_list_to_set, ?length_fmap; [done | apply NoDup_remove_dups |].
  apply NoDup_fmap_2_strong; [| apply NoDup_remove_dups].
  intros x y Hx Hy. rewrite elem_of_remove_dups in Hx, Hy. by apply f_inj.
Qed.

(** The scans of the two key sequences give the same histogram and the
    same sorted vectors. *)
Lemma scan_rename n s s' :
  n = length keys →
  scan keys (scan_start_of n) = Some s →
  scan (f <$> keys) (scan_start_of n) = Some s' →
  scan_hist s' = scan_hist s
  ∧ sorted_first_access n (scan_first s') = sorted_first_access n (scan_first s)
  ∧ sorted_last_access n (scan_last s') = sorted_last_access n (scan_last s).
Proof.
  intros Hn Hscan Hscan'.
  pose proof (scan_sem_full _ _ _ Hscan) as Hsem.
  pose proof (scan_sem_full _ _ _ Hscan') as Hsem'.
  pose proof (NoDup_first_values _ _ Hsem) as HndF.
  pose proof (NoDup_first_values _ _ Hsem') as HndF'.
  pose proof (NoDup_last_values _ _ Hsem) as HndL.
  pose proof (NoDup_last_values _ _ Hsem') as HndL'.
  rewrite length_fmap in HndL'. rewrite <- Hn in HndL, HndL'.
  destruct (scan_inv_preserved n keys _ s (scan_inv_start n))
    as ((_ & Hlen & _) & _); [simpl; lia | done |].
  destruct (scan_inv_preserved n (f <$> keys) _ s' (scan_inv_start n))
    as ((_ & Hlen' & _) & _); [simpl; rewrite length_fmap; lia | done |].
  destruct Hsem as (_ & Hfirst & Hlast & Hhist).
  destruct Hsem' as (_ & Hfirst' & Hlast' & Hhist').
  split; [| split].
  - apply (list_eq_same_length _ _ n); [done | done |].
    intros i x y Hi Hx Hy.
    apply list_lookup_alt in Hx as [_ <-]. apply list_lookup_alt in Hy as [_ <-].
    by rewrite Hhist, Hhist', reuse_count_rename.
  - apply (StronglySorted_unique le); try apply expand_counts_sorted.
    rewrite !sorted_first_access_perm.
    + apply NoDup_Permutation; [done | done |].
      intros x. rewrite !elem_of_first_values. split.
      * intros (k' & a & Ha%Hfirst'%first_at_rename & ->).
        destruct Ha as (k & -> & Ha). exists k, a. split; [by apply Hfirst | done].
      * intros (k & a & Ha%Hfirst & ->).
        exists (f k), a. split; [| done]. apply Hfirst', first_at_rename. by exists k.
    + intros k a Ha%Hfirst. rewrite Hn. by eapply first_at_lt.
    + intros k a Ha%Hfirst'. rewrite Hn, <- (length_fmap f). by eapply first_at_lt.
  - apply (StronglySorted_unique le); try apply expand_counts_sorted.
    rewrite !sorted_last_access_perm.
    + apply NoDup_Permutation; [done | done |].
      intros x. rewrite !elem_of_last_values. split.
      * intros (k' & b & Hb%Hlast'%last_at_rename & ->).
        destruct Hb as (k & -> & Hb). exists k, b. split; [by apply Hlast | done].
      * intros (k & b & Hb%Hlast & ->).
        exists (f k), b. split; [| done]. apply Hlast', last_at_rename. by exists k.
    + intros k b Hb%Hlast. rewrite Hn. by eapply last_at_lt.
    + intros k b Hb%Hlast'. rewrite Hn, <- (length_fmap f). by eapply last_at_lt.
Qed.

End Renaming.

Lemma window_stats_rename f entries stats stats' c :
  injective_per_class f entries →
  window_stats entries = Some stats →
  window_stats (rename_entries f entries) = Some stats' →
  firstAccessTimesByClass stats' !! c = firstAccessTimesByClass stats !! c
  ∧ lastAccessTimesByClass stats' !! c = lastAccessTimesByClass stats !! c
  ∧ reuseTimeHistogramByClass stats' !! c = reuseTimeHistogramByClass stats !! c
  ∧ nByClass stats' !! c = nByClass stats !! c
  ∧ mByClass stats' !! c = mByClass stats !! c.
Proof.
  intros Hinj Hstats Hstats'.
  assert ((rename_entries f entries).*2 = entries.*2) as Hclasses.
  { unfold rename_entries. rewrite <- list_fmap_compose. by apply list_fmap_ext. }
  destruct (decide (c ∈ entries.*2)) as [Hin | Hnotin].
  - assert (c ∈ (rename_entries f entries).*2) as Hin' by (by rewrite Hclasses).
    destruct (window_stats_present _ _ _ Hstats Hin)
      as (s & Hs & -> & -> & -> & -> & ->).
    destruct (window_stats_present _ _ _ Hstats' Hin')
      as (s' & Hs' & -> & -> & -> & -> & ->).
    rewrite class_keys_rename in *. rewrite length_fmap in *.
    pose proof (injective_class_keys f entries c Hinj) as Hkeys.
    destruct (scan_rename f (class_keys c entries) Hkeys _ s s' eq_refl Hs Hs')
      as (-> & -> & ->).
    repeat split. f_equal. by apply distinct_rename.
  - assert (c ∉ (rename_entries f entries).*2) as Hnotin' by (by rewrite Hclasses).
    destruct (window_stats_absent _ _ _ Hstats Hnotin) as (-> & -> & -> & -> & ->).
    by destruct (window_stats_absent _ _ _ Hstats' Hnotin') as (-> & -> & -> & -> & ->).
Qed.

(** X24: the results depend on the key tokens only through which accesses
    of a class share a token.  When the window of one profiler is that of
    another with every token [k] replaced by [f k], and [f] sends
    different tokens of the same class to different tokens (tokens of
    different classes may collide), both return the same result from
    [queryMrc] and from [solveSlabReallocation]. *)
Theorem key_tokens_renamed (f : KeyInt → KeyInt) (st1 st2 : FootprintMRC)
    (allocs current : gmap Z nat) (maxSlabCount : nat) :
  snapshot_entries st2 = rename_entries f (snapshot_entries st1) →
  injective_per_class f (snapshot_entries st1) →
  queryMrc st2 allocs maxSlabCount = queryMrc st1 allocs maxSlabCount
  ∧ solveSlabReallocation st2 allocs current
    = solveSlabReallocation st1 allocs current.
Proof.
  intros Hentries Hinj.
  assert (∀ maxSlabs, queryMrc st2 allocs maxSlabs = queryMrc st1 allocs maxSlabs)
    as Hquery.
  { intros maxSlabs.
    destruct (queryMrc_spec st1 allocs maxSlabs) as (stats1 & r1 & Hstats1 & -> & Hr1).
    destruct (queryMrc_spec st2 allocs maxSlabs) as (stats2 & r2 & Hstats2 & -> & Hr2).
    f_equal. apply map_eq. intros c. rewrite Hr1, Hr2.
    rewrite Hentries in Hstats2.
    destruct (window_stats_rename f _ _ _ c Hinj Hstats1 Hstats2)
      as (HF & HL & Hhist & Hn & Hm).
    unfold queryMrc_entry, mrc_of_class.
    by rewrite HF, HL, Hhist, Hn, Hm. }
  split; [apply Hquery |].
  unfold solveSlabReallocation. by rewrite Hquery.
Qed.

(** X24 at a concrete input: the tokens [1], [2] of class [1] and [3] of
    class [2] are replaced by their parities, which makes [1] and [3]
    collide. *)
Lemma key_tokens_renamed_witness :
  let f := λ k : KeyInt, (k mod 2)%N in
  let st1 := ring_of [(1%N, 1%Z); (2%N, 1%Z); (3%N, 2%Z); (1%N, 1%Z)] in
  let st2 := ring_of [(1%N, 1%Z); (0%N, 1%Z); (1%N, 2%Z); (1%N, 1%Z)] in
  let allocs : gmap Z nat := {[1%Z := 1; 2%Z := 1]} in
  let current : gmap Z nat := {[1%Z := 1; 2%Z := 2]} in
  snapshot_entries st2 = rename_entries f (snapshot_entries st1)
  ∧ injective_per_class f (snapshot_entries st1)
  ∧ queryMrc st2 allocs 3 = queryMrc st1 allocs 3
  ∧ solveSlabReallocation st2 allocs current
    = solveSlabReallocation st1 allocs current.
Proof.
  intros f st1 st2 allocs current.
  assert (snapshot_entries st2 = rename_entries f (snapshot_entries st1))
    as Hentries by (by vm_compute).
  assert (injective_per_class f (snapshot_entries st1)) as Hinj.
  { intros k1 k2 c H1 H2 Hf.
    change (snapshot_entries st1)
      with [(1%N, 1%Z); (2%N, 1%Z); (3%N, 2%Z); (1%N, 1%Z)] in H1, H2.
    rewrite !elem_of_cons, elem_of_nil in H1, H2.
    destruct H1 as [H1 | [H1 | [H1 | [H1 | []]]]];
      destruct H2 as [H2 | [H2 | [H2 | [H2 | []]]]];
      simplify_eq; try done; by vm_compute in Hf. }
  split; [exact Hentries |]. split; [exact Hinj |].
  exact (key_tokens_renamed f st1 st2 allocs current 3 Hentries Hinj).
Defined.

(** ** More slabs *)

(** The weighted misses of the optimal allocation, class by class. *)
Lemma solve_misses_by_class st allocs current mrc r :
  queryMrc st allocs (slab_budget current) = Some mrc → mrc ≠ ∅ →
  solveSlabReallocation st allocs current = Some r →
  (total_misses mrc (map_to_list (optimalAllocation r))
   == Qsum_with (λ c, miss_term mrc (c, default 0%nat (optimalAllocation r !! c)))
        (std_sort Z.ltb (map_items mrc).*1))%Q.
Proof.
  intros Hq Hne Hsolve.
  pose proof (solve_optimal_dom _ _ _ _ _ Hq Hne Hsolve) as Hdom.
  rewrite total_misses_Qsum.
  apply (Qsum_with_map_keys _ _ _ (NoDup_solver_class_ids mrc)).
  - intros c Hc%elem_of_solver_class_ids. apply elem_of_dom.
    rewrite Hdom. apply elem_of_union_l. by apply elem_of_dom.
  - intros c s _ Hc. unfold miss_term. simpl.
    destruct (mrc !! c) as [data |] eqn:Hmrc; [| reflexivity].
    exfalso. apply Hc, elem_of_solver_class_ids. by eexists.
Qed.

(** No allocation of the budget, given as a list along the sorted class
    ids, costs less than the optimal allocation. *)
Lemma solve_misses_lower st allocs current mrc r classData alloc :
  queryMrc st allocs (slab_budget current) = Some mrc → mrc ≠ ∅ →
  solveSlabReallocation st allocs current = Some r →
  mapM (λ c, mrc !! c) (std_sort Z.ltb (map_items mrc).*1) = Some classData →
  length alloc = length classData → sum_list alloc = slab_budget current →
  (total_misses mrc (map_to_list (optimalAllocation r))
   <= allocation_cost
        (map (cost_row (slab_budget current) (slab_budget current)) classData)
        alloc)%Q.
Proof.
  intros Hq Hne Hsolve HclassData Hlen Hsuma.
  pose proof (solve_optimal_sum _ _ _ _ _ Hq Hne Hsolve) as Hsum.
  destruct (solve_main st allocs current mrc Hq Hne)
    as (classData' & r' & HclassData' & Hsolve' & _ & Hopt & _).
  rewrite Hsolve in Hsolve'. injection Hsolve' as <-.
  rewrite HclassData in HclassData'. injection HclassData' as <-.
  rewrite (solve_misses_by_class _ _ _ _ _ Hq Hne Hsolve).
  set (budget := slab_budget current) in *.
  set (classIds := std_sort Z.ltb (map_items mrc).*1) in *.
  set (costTable := map (cost_row budget budget) classData) in *.
  set (rows := dp_rows budget budget (F_row0 budget) costTable) in *.
  set (opt := optimalAllocation r) in *.
  pose proof (NoDup_solver_class_ids mrc) as Hnodup. fold classIds in Hnodup.
  assert (length classData = length classIds) as HlenData.
  { symmetry. by eapply length_mapM. }
  assert (length costTable = length classIds) as HlenCost.
  { unfold costTable. by rewrite length_map. }
  set (allocNew := (λ c, default 0 (opt !! c)) <$> classIds).
  assert (Qsum_with (λ c, miss_term mrc (c, default 0%nat (opt !! c))) classIds
          == allocation_cost costTable allocNew)%Q as HnewCost.
  { symmetry. apply allocation_cost_misses; [done |].
    intros c _. rewrite <- Hsum. apply map_sum_lookup_le. }
  rewrite HnewCost.
  assert (allocNew = reverse (walk (reverse rows.*2) budget)) as HallocNew.
  { assert (length (reverse (walk (reverse rows.*2) budget)) = length classIds)
      as Hwlen.
    { rewrite length_reverse, walk_length, length_reverse, length_fmap.
      unfold rows. by rewrite dp_rows_length. }
    apply list_eq_same_length with (length classIds);
      [done | unfold allocNew; by rewrite length_fmap |].
    intros i x y Hi Hx Hy.
    unfold allocNew in Hx. rewrite list_lookup_fmap in Hx.
    destruct (classIds !! i) as [c |] eqn:Hc; [| done].
    simpl in Hx. injection Hx as <-.
    rewrite Hopt, fill_missing_lookup.
    rewrite (reconstruct_lookup classIds rows.*2 budget i c y); try done.
    unfold rows. by rewrite length_fmap, dp_rows_length. }
  destruct (dp_lower_bound budget costTable alloc budget)
    as (f & Hf & Hlower); [done | by rewrite HlenCost, <- HlenData | done |].
  destruct (walk_achieves budget costTable budget f) as (_ & _ & Hachieved);
    [done | done |].
  fold rows in Hachieved. rewrite <- HallocNew in Hachieved.
  by rewrite <- Hachieved.
Qed.

(** The curve of a class read at a slab count within both budgets. *)
Lemma miss_term_budget st allocs budget1 budget2 mrc1 mrc2 c s :
  queryMrc st allocs budget1 = Some mrc1 →
  queryMrc st allocs budget2 = Some mrc2 →
  s ≤ budget1 → s ≤ budget2 →
  miss_term mrc2 (c, s) = miss_term mrc1 (c, s).
Proof.
  intros Hq1 Hq2 Hs1 Hs2. unfold miss_term. simpl.
  destruct (queryMrc_spec st allocs budget1) as (stats1 & r1 & Hstats1 & Hq1' & Hr1).
  destruct (queryMrc_spec st allocs budget2) as (stats2 & r2 & Hstats2 & Hq2' & Hr2).
  rewrite Hq1 in Hq1'. injection Hq1' as <-.
  rewrite Hq2 in Hq2'. injection Hq2' as <-.
  rewrite Hstats1 in Hstats2. injection Hstats2 as <-.
  rewrite Hr1, Hr2. unfold queryMrc_entry, mrc_of_class.
  destruct (allocs !! c) as [a |]; simpl; [| done].
  destruct (a =? 0); [done |].
  destruct (firstAccessTimesByClass stats1 !! c) as [F |]; simpl; [| done].
  destruct (lastAccessTimesByClass stats1 !! c) as [L |]; simpl; [| done].
  destruct (reuseTimeHistogramByClass stats1 !! c) as [hist |]; simpl; [| done].
  destruct (nByClass stats1 !! c) as [n |]; simpl; [| done].
  destruct (mByClass stats1 !! c) as [m |]; simpl; [| done].
  set (fp := calculateFpValues F L hist n m).
  pose proof (getMissRatio_curve hist fp n a budget1 s Hs1) as H1.
  pose proof (getMissRatio_curve hist fp n a budget2 s Hs2) as H2.
  destruct (mrc_curve hist fp n a budget1) as [[pts1 d1] l1].
  destruct (mrc_curve hist fp n a budget2) as [[pts2 d2] l2].
  simpl in *. by rewrite H1, H2.
Qed.

(** X25: more slabs never raise the predicted miss rate.  For the same
    window, when the slab budget of one current allocation is at most that
    of another, the [mrNew] reported for the larger budget is at most the
    one reported for the smaller (budgets and cache sizes fitting a
    [size_t], doubles taken as exact). *)
Theorem solve_budget_monotone (st : FootprintMRC)
    (allocs current1 current2 : gmap Z nat) (r1 r2 : Reallocation) :
  fits64 (map_sum current2) →
  (∀ c a, allocs !! c = Some a → fits64 (map_sum current2 * a)) →
  map_sum current1 ≤ map_sum current2 →
  solveSlabReallocation st allocs current1 = Some r1 →
  solveSlabReallocation st allocs current2 = Some r2 →
  (mrNew r2 <= mrNew r1)%Q.
Proof.
  intros Hfit2 Hfits Hle Hsolve1 Hsolve2.
  assert (fits64 (map_sum current1)) as Hfit1 by (by eapply fits64_le).
  pose proof (slab_budget_fits _ Hfit1) as Hb1.
  pose proof (slab_budget_fits _ Hfit2) as Hb2.
  destruct (queryMrc_spec st allocs (slab_budget current1))
    as (stats & mrc1 & Hstats & Hq1 & Hr1).
  destruct (queryMrc_spec st allocs (slab_budget current2))
    as (stats' & mrc2 & Hstats' & Hq2 & Hr2).
  rewrite Hstats in Hstats'. injection Hstats' as <-.
  assert (∀ c, is_Some (mrc2 !! c) ↔ is_Some (mrc1 !! c)) as Hsame.
  { intros c. by rewrite (queryMrc_dom _ _ _ _ c Hq1), (queryMrc_dom _ _ _ _ c Hq2). }
  destruct (decide (mrc1 = ∅)) as [Hempty | Hne1].
  { assert (mrc2 = ∅) as Hempty2.
    { apply map_eq. intros c. rewrite lookup_empty.
      apply eq_None_not_Some. rewrite Hsame, Hempty, lookup_empty.
      by intros [? ?]. }
    unfold solveSlabReallocation in Hsolve1, Hsolve2.
    rewrite Hq1 in Hsolve1. rewrite Hq2 in Hsolve2. simpl in *.
    rewrite decide_True in Hsolve1 by done.
    rewrite decide_True in Hsolve2 by done.
    injection Hsolve1 as <-. injection Hsolve2 as <-. apply Qle_refl. }
  assert (mrc2 ≠ ∅) as Hne2.
  { intros Hempty. apply Hne1. apply map_eq. intros c. rewrite lookup_empty.
    apply eq_None_not_Some. rewrite <- Hsame, Hempty, lookup_empty.
    by intros [? ?]. }
  destruct (solve_main st allocs current1 mrc1 Hq1 Hne1)
    as (classData1 & r1' & HclassData1 & Hsolve1' & _ & _ & _ & _ & Hnew1).
  rewrite Hsolve1 in Hsolve1'. injection Hsolve1' as <-.
  destruct (solve_main st allocs current2 mrc2 Hq2 Hne2)
    as (classData2 & r2' & HclassData2 & Hsolve2' & _ & _ & _ & _ & Hnew2).
  rewrite Hsolve2 in Hsolve2'. injection Hsolve2' as <-.
  (* the same access counts *)
  assert (accessFrequencies r2 = accessFrequencies r1) as Hfreq.
  { apply map_eq. intros c.
    rewrite (solve_frequencies _ _ _ _ _ c Hq1 Hne1 Hsolve1).
    rewrite (solve_frequencies _ _ _ _ _ c Hq2 Hne2 Hsolve2).
    destruct (mrc1 !! c) as [[[pts1 d1] n1] |] eqn:Hc1;
      destruct (mrc2 !! c) as [[[pts2 d2] n2] |] eqn:Hc2; simpl.
    - rewrite (queryMrc_lookup_n _ _ _ _ _ _ _ _ Hq1 Hc1).
      by rewrite (queryMrc_lookup_n _ _ _ _ _ _ _ _ Hq2 Hc2).
    - exfalso. assert (is_Some (mrc2 !! c)) as [? ?]; [| congruence].
      apply Hsame. by eexists.
    - exfalso. assert (is_Some (mrc1 !! c)) as [? ?]; [| congruence].
      apply Hsame. by eexists.
    - done. }
  rewrite Hnew1, Hnew2, Hfreq.
  destruct (0 <? foldl _ 0 (map_to_list (accessFrequencies r1))); [| apply Qle_refl].
  apply Qmult_le_compat_r; [| apply Qinv_le_0_compat, to_double_nonneg].
  rewrite (solve_misses_by_class _ _ _ _ _ Hq1 Hne1 Hsolve1).
  (* the optimal allocation of the smaller budget, along the class ids *)
  set (classIds1 := std_sort Z.ltb (map_items mrc1).*1) in *.
  set (classIds2 := std_sort Z.ltb (map_items mrc2).*1) in *.
  set (opt1 := optimalAllocation r1).
  pose proof (solve_optimal_sum _ _ _ _ _ Hq1 Hne1 Hsolve1) as Hsum1.
  fold opt1 in Hsum1.
  set (alloc := (λ c, default 0 (opt1 !! c)) <$> classIds2).
  assert (length classData2 = length classIds2) as HlenData2.
  { symmetry. by eapply length_mapM. }
  destruct (pad_allocation st allocs (slab_budget current2) mrc2 classIds2
              classData2 alloc) as (allocPad & HlenPad & HsumPad & HcostPad);
    try done.
  { by apply solver_class_ids_nonempty. }
  { intros c a Ha. rewrite Hb2. by eapply Hfits. }
  { unfold alloc. by rewrite length_fmap. }
  { unfold alloc. etrans; [apply sum_list_keys_le, NoDup_solver_class_ids |].
    rewrite Hsum1, Hb1, Hb2. done. }
  eapply Qle_trans.
  { apply (solve_misses_lower _ _ _ _ _ classData2 allocPad Hq2 Hne2 Hsolve2);
      [done | by rewrite HlenPad, HlenData2 | done]. }
  eapply Qle_trans; [exact HcostPad |].
  unfold alloc. rewrite allocation_cost_misses; [| done |].
  2:{ intros c _. etrans; [apply map_sum_lookup_le |].
      rewrite Hsum1, Hb1, Hb2. done. }
  assert (classIds2 ≡ₚ classIds1) as Hperm.
  { apply NoDup_Permutation; try apply NoDup_solver_class_ids.
    intros c. unfold classIds1, classIds2.
    by rewrite !elem_of_solver_class_ids. }
  rewrite (Qsum_with_perm _ _ _ Hperm).
  apply Qle_lteq. right. apply Qsum_with_ext. intros c _.
  rewrite (miss_term_budget st allocs _ _ mrc1 mrc2 c _ Hq1 Hq2); [reflexivity | |].
  - rewrite <- Hsum1. apply map_sum_lookup_le.
  - etrans; [apply map_sum_lookup_le |]. rewrite Hsum1, Hb1, Hb2. done.
Qed.

(** X25 on [example_ring], for budgets of three and of nine slabs. *)
Lemma solve_budget_monotone_witness :
  let current1 : gmap Z nat := {[1%Z := 2; 2%Z := 1]} in
  ∃ r1 r2,
    fits64 (map_sum example_current)
    ∧ (∀ c a, example_allocs !! c = Some a → fits64 (map_sum example_current * a))
    ∧ map_sum current1 ≤ map_sum example_current
    ∧ solveSlabReallocation example_ring example_allocs current1 = Some r1
    ∧ solveSlabReallocation example_ring example_allocs example_current = Some r2
    ∧ (mrNew r2 <= mrNew r1)%Q.
Proof.
  intros current1.
  assert (∃ r1, solveSlabReallocation example_ring example_allocs current1
                = Some r1) as [r1 Hsolve1].
  { destruct (solveSlabReallocation example_ring example_allocs current1)
      as [r |] eqn:Hsolve; [by exists r | by vm_compute in Hsolve]. }
  assert (∃ r2, solveSlabReallocation example_ring example_allocs example_current
                = Some r2) as [r2 Hsolve2].
  { destruct (solveSlabReallocation example_ring example_allocs example_current)
      as [r |] eqn:Hsolve; [by exists r | by vm_compute in Hsolve]. }
  assert (fits64 (map_sum example_current)) as Hfit by (by vm_compute).
  assert (∀ c a, example_allocs !! c = Some a
                 → fits64 (map_sum example_current * a)) as Hfits.
  { intros c a Hca. unfold example_allocs in Hca.
    apply lookup_insert_Some in Hca as [[_ <-] | [_ Hca]]; [by vm_compute |].
    apply lookup_insert_Some in Hca as [[_ <-] | [_ Hca]]; [by vm_compute |].
    apply lookup_singleton_Some in Hca as [_ <-]. by vm_compute. }
  assert (map_sum current1 ≤ map_sum example_current) as Hle.
  { apply Nat.leb_le. by vm_compute. }
  exists r1, r2.
  split; [exact Hfit |]. split; [exact Hfits |]. split; [exact Hle |].
  split; [exact Hsolve1 |]. split; [exact Hsolve2 |].
  exact (solve_budget_monotone example_ring example_allocs current1 example_current
           r1 r2 Hfit Hfits Hle Hsolve1 Hsolve2).
Defined.
